(** * isomorphic-sqlite: the session queue and the transaction manager

    A shallow embedding of

    - [src/abstract/base-database.ts] (class [BaseDatabase]): the engine
      adapter and its [transaction] method, as state-passing functions over
      the adapter's private fields;
    - [src/database.ts] (class [Database]): the promise queue behind every
      public method, as a machine over a heap of promises and the host's
      microtask queue;
    - [src/typings.ts]: the member lists of [IDatabase] and [ITransaction].

    The concrete SQLite driver ([this._db]) is a parameter of the
    development. *)

From Stdlib Require Import ZArith Ascii String DecimalString DecimalPos
  DecimalN DecimalZ Lia.
From stdpp Require Import base tactics option list strings.

Set Warnings "-register-all,-clear-no-such-hyp".

Local Open Scope string_scope.
Local Open Scope Z_scope.
Local Open Scope list_scope.

(** ** Values *)

(** JavaScript values, as far as the modelled code looks at them. *)
Inductive value :=
| VUndefined
| VString (s : string)
| VNumber (z : Z)
| VError (message : string)
| VRow (columns : list (string * value))
| VArray (items : list value)
| VRaw
| VDatabase.

(** The outcome of a settled promise, or of an awaited call. *)
Inductive settled (A : Type) :=
| Resolved (a : A)
| Rejected (reason : value).
Arguments Resolved {A} a.
Arguments Rejected {A} reason.

Definition is_resolved {A} (o : settled A) : bool :=
  match o with Resolved _ => true | Rejected _ => false end.

(** [`${depth}`] for an integral number. *)
Definition js_number (z : Z) : string := NilZero.string_of_int (Z.to_int z).

(** [path.replace(/'/g, "''")] *)
Fixpoint replace_quotes (s : string) : string :=
  match s with
  | EmptyString => EmptyString
  | String c rest =>
      if Ascii.eqb c "'"%char then String c (String c (replace_quotes rest))
      else String c (replace_quotes rest)
  end.

(** [row ? Object.values(row)[0] : undefined] *)
Definition first_value (row : value) : value :=
  match row with
  | VRow ((_, v) :: _) => v
  | VArray (v :: _) => v
  | VString (String c _) => VString (String c EmptyString)
  | _ => VUndefined
  end.

(** ** The driver *)

(** The three adapter classes, one of which [createDb] wraps around the
    connection it has opened. *)
Inductive adapter_class :=
| NodeSqliteDatabase
| BunSqliteDatabase
| BetterSqlite3Database.

(** Calls that leave the adapter. The first group reaches the wrapped
    driver object [this._db] and the driver statements it hands out;
    [DbPragma], [DbBackup] and [DbSerialize] are [db.pragma(sql, options)],
    [db.backup(destinationFile, options)] and [db.serialize(...)] of the
    drivers that have them ([name] is the database that is asked for, if
    one is), and [NodeBackup] is [backup(db, destinationFile, nodeOptions)]
    of the module [node:sqlite]. The last group is the dynamic
    [import('node:sqlite')] and [writeFile], [readFile] and [unlink] of
    [node:fs/promises]. Options that only carry callbacks are left out. *)
Inductive driver_call :=
| DbPrepare (sql : string)
| DbExec (sql : string)
| DbFunction (name : string)
| DbAggregate (name : string)
| DbLoadExtension (path : string)
| DbClose
| StmtRun (statement : value) (params : value)
| StmtGet (statement : value) (params : value)
| StmtAll (statement : value) (params : value)
| DbPragma (sql : string) (simple : bool)
| DbBackup (destinationFile : string)
| DbSerialize (name : option string)
| NodeBackup (destinationFile : string)
| ImportNodeSqlite
| FsWriteFile (path : string) (buffer : value)
| FsReadFile (path : string)
| FsUnlink (path : string).

(** Whether a call is made on the connection or on one of its statements,
    and not on the module loader or the file system. *)
Definition on_connection (c : driver_call) : bool :=
  match c with
  | ImportNodeSqlite | FsWriteFile _ _ | FsReadFile _ | FsUnlink _ => false
  | _ => true
  end.

(** Who issued a call: the transaction manager ([transaction]'s own
    BEGIN / SAVEPOINT / COMMIT / RELEASE / ROLLBACK) or anything else.  The
    tag only labels journal entries. *)
Inductive issuer := Manager | Caller.

(** The journal is bookkeeping of the model: every call on the driver with
    its success, and every write of [#transactionDepth], in program order. *)
Inductive entry :=
| Issued (who : issuer) (call : driver_call) (ok : bool)
| DepthSet (depth : Z).

Module BaseDatabase.
Section Adapter.

(** The wrapped driver, with the host behind it: a call returns normally
    or throws, and changes the state of what it is made on. Result
    normalisation ([transformParams], [transformResult], the [RunResult]
    shape) is folded into it. [now] is [Date.now()] and [in_tmpdir name]
    is [join(tmpdir(), name)]. *)
Context {D : Type}.
Variable driver : driver_call -> D -> settled value * D.
Variable now : D -> Z.
Variable in_tmpdir : string -> string.

(** The private fields of [BaseDatabase]. *)
Record state := mk_state {
  _db : D;
  transactionDepth : Z;
  isClosed : bool;
  journal : list entry;
}.

(** [constructor(db)], with the initial values of the private fields. *)
Definition create (db : D) : state :=
  {| _db := db; transactionDepth := 0; isClosed := false; journal := [] |}.

(** A method body: runs on the adapter and settles. *)
Definition Async (A : Type) := state -> settled A * state.

Definition ret {A} (a : A) : Async A := fun s => (Resolved a, s).
Definition throw {A} (reason : value) : Async A := fun s => (Rejected reason, s).
Definition bind {A B} (m : Async A) (k : A -> Async B) : Async B :=
  fun s => match m s with
           | (Resolved a, s') => k a s'
           | (Rejected e, s') => (Rejected e, s')
           end.
Definition try_catch {A} (m : Async A) (handler : value -> Async A) : Async A :=
  fun s => match m s with
           | (Resolved a, s') => (Resolved a, s')
           | (Rejected e, s') => handler e s'
           end.

Notation "'let*' x ':=' m 'in' k" := (bind m (fun x => k))
  (at level 10, x name, m at level 100, k at level 200).
Notation "m ';;' k" := (bind m (fun _ => k))
  (at level 100, k at level 200, right associativity).

(** [try { this._db.<call>; resolve(..) } catch (err) { reject(err) }] *)
Definition call_driver (who : issuer) (c : driver_call) : Async value :=
  fun s =>
    let (r, d') := driver c (_db s) in
    (r, {| _db := d'; transactionDepth := transactionDepth s;
           isClosed := isClosed s;
           journal := journal s ++ [Issued who c (is_resolved r)] |}).

Definition get_depth : Async Z := fun s => (Resolved (transactionDepth s), s).
Definition set_depth (z : Z) : Async unit :=
  fun s => (Resolved tt,
            {| _db := _db s; transactionDepth := z; isClosed := isClosed s;
               journal := journal s ++ [DepthSet z] |}).

(** *** Statements ([BaseStatement]) *)
Definition stmt_run (statement params : value) : Async value :=
  call_driver Caller (StmtRun statement params).
Definition stmt_get (statement params : value) : Async value :=
  call_driver Caller (StmtGet statement params).
Definition stmt_all (statement params : value) : Async value :=
  call_driver Caller (StmtAll statement params).

(** *** Methods of [BaseDatabase] *)
Definition prepare (sql : string) : Async value :=
  call_driver Caller (DbPrepare sql).

Definition raw : Async value := ret VRaw.

(** [BetterSqlite3Database.prepare]: the same call on the driver as
    [BaseDatabase.prepare]; the statement is wrapped in a [BaseStatement]
    that strips the prefixes of named parameters, which is part of the
    normalisation that is folded into the driver. *)
Definition BetterSqlite3Database_prepare (sql : string) : Async value :=
  raw ;; call_driver Caller (DbPrepare sql).

(** [this.prepare(sql)] on an adapter of the class [cls]. *)
Definition this_prepare (cls : adapter_class) (sql : string) : Async value :=
  match cls with
  | BetterSqlite3Database => BetterSqlite3Database_prepare sql
  | NodeSqliteDatabase | BunSqliteDatabase => prepare sql
  end.

Definition run (cls : adapter_class) (sql : string) (params : value)
    : Async value :=
  let* stmt := this_prepare cls sql in stmt_run stmt params.

Definition get (cls : adapter_class) (sql : string) (params : value)
    : Async value :=
  let* stmt := this_prepare cls sql in stmt_get stmt params.

Definition all (cls : adapter_class) (sql : string) (params : value)
    : Async value :=
  let* stmt := this_prepare cls sql in stmt_all stmt params.

Definition exec_as (who : issuer) (sql : string) : Async value :=
  call_driver who (DbExec sql) ;; ret VUndefined.

Definition exec (sql : string) : Async value := exec_as Caller sql.

Definition function (name : string) : Async value :=
  call_driver Caller (DbFunction name) ;; ret VUndefined.

Definition aggregate (name : string) : Async value :=
  call_driver Caller (DbAggregate name) ;; ret VUndefined.

Definition pragma (cls : adapter_class) (sql : string) (simple : bool)
    : Async value :=
  let statement := "PRAGMA " +:+ sql in
  if simple then
    let* row := get cls statement (VArray []) in ret (first_value row)
  else all cls statement (VArray []).

Definition attach (alias path : string) : Async value :=
  exec ("ATTACH DATABASE '" +:+ replace_quotes path +:+ "' AS " +:+ alias).

Definition backup (destinationFile : string) : Async value :=
  throw (VError "Database backup is not supported by this driver.").

Definition serialize : Async value :=
  throw (VError "Database serialization is not supported by this driver.").

Definition loadExtension (path : string) : Async value :=
  call_driver Caller (DbLoadExtension path) ;; ret VUndefined.

Definition close : Async value :=
  fun s =>
    if isClosed s then (Resolved VUndefined, s)
    else
      match call_driver Caller DbClose s with
      | (Resolved _, s') =>
          (Resolved VUndefined,
           {| _db := _db s'; transactionDepth := transactionDepth s';
              isClosed := true; journal := journal s' |})
      | (Rejected err, s') => (Rejected err, s')
      end.

Definition begin : Async value := exec "BEGIN".
Definition commit : Async value := exec "COMMIT".
Definition rollback : Async value := exec "ROLLBACK".

(** *** The other overrides of the adapters ([NodeSqliteDatabase],
    [BunSqliteDatabase], [BetterSqlite3Database]) *)

(** [try { m } finally { await unlink(tempFile).catch(() => {}) }] *)
Definition finally_unlink {A} (m : Async A) (tempFile : string) : Async A :=
  fun s =>
    let (r, s') := m s in
    let (_, s'') := call_driver Caller (FsUnlink tempFile) s' in
    (r, s'').

(** [NodeSqliteDatabase.backup]: [await this.raw()], the import of
    [node:sqlite], then its [backup] on the connection. *)
Definition NodeSqliteDatabase_backup (destinationFile : string)
    : Async value :=
  raw ;;
  call_driver Caller ImportNodeSqlite ;;
  let* totalPages := call_driver Caller (NodeBackup destinationFile) in
  ret (VRow [("totalPages", totalPages); ("remainingPages", VNumber 0)]).

(** [NodeSqliteDatabase.serialize]; its argument is not used. *)
Definition NodeSqliteDatabase_serialize : Async value :=
  fun s =>
    let tempFile :=
      in_tmpdir ("isomorphic-sqlite-serialize-" +:+ js_number (now (_db s))
                 +:+ ".db") in
    finally_unlink
      (NodeSqliteDatabase_backup tempFile ;;
       call_driver Caller (FsReadFile tempFile))
      tempFile s.

(** [BunSqliteDatabase.backup] *)
Definition BunSqliteDatabase_backup (destinationFile : string)
    : Async value :=
  raw ;;
  let* buffer := call_driver Caller (DbSerialize None) in
  call_driver Caller (FsWriteFile destinationFile buffer) ;;
  ret (VRow [("totalPages", VNumber 1); ("remainingPages", VNumber 0)]).

(** [BunSqliteDatabase.serialize(name)] *)
Definition BunSqliteDatabase_serialize (name : option string) : Async value :=
  raw ;; call_driver Caller (DbSerialize name).

Definition BunSqliteDatabase_function (name : string) : Async value :=
  throw (VError "Custom functions are not supported by this driver.").

Definition BunSqliteDatabase_aggregate (name : string) : Async value :=
  throw (VError "Custom aggregate functions are not supported by this driver.").

Definition BetterSqlite3Database_backup (destinationFile : string)
    : Async value :=
  raw ;; call_driver Caller (DbBackup destinationFile).

Definition BetterSqlite3Database_pragma (sql : string) (simple : bool)
    : Async value :=
  raw ;; call_driver Caller (DbPragma sql simple).

(** [name ? db.serialize({ attached: name }) : db.serialize()] *)
Definition BetterSqlite3Database_serialize (name : option string)
    : Async value :=
  raw ;;
  call_driver Caller
    (DbSerialize match name with
                 | Some (String _ _) => name
                 | _ => None
                 end).

(** *** [transaction] *)

Inductive mode := Plain | DEFERRED | IMMEDIATE | EXCLUSIVE.

Definition mode_text (m : mode) : string :=
  match m with
  | Plain => EmptyString
  | DEFERRED => "DEFERRED"
  | IMMEDIATE => "IMMEDIATE"
  | EXCLUSIVE => "EXCLUSIVE"
  end.

(** The async arrow returned by [createTransactional(mode)], applied to
    its arguments; [fn] stands for [fn(this, ...args)], awaited. *)
Definition createTransactional (m : mode) (fn : Async value) : Async value :=
  let* depth := get_depth in
  let savepointName := "isomorphic_sqlite_" +:+ js_number depth in
  try_catch
    ((if (depth =? 0)%Z then exec_as Manager ("BEGIN " +:+ mode_text m)
      else exec_as Manager ("SAVEPOINT " +:+ savepointName)) ;;
     (let* d := get_depth in set_depth (d + 1)%Z) ;;
     let* result := fn in
     (let* d := get_depth in set_depth (d - 1)%Z) ;;
     (if (depth =? 0)%Z then exec_as Manager "COMMIT"
      else exec_as Manager ("RELEASE SAVEPOINT " +:+ savepointName)) ;;
     ret result)
    (fun err =>
       (let* d := get_depth in
        if (d >? 0)%Z then
          (if (depth =? 0)%Z then exec_as Manager "ROLLBACK"
           else exec_as Manager ("ROLLBACK TO SAVEPOINT " +:+ savepointName))
        else ret VUndefined) ;;
       set_depth depth ;;
       throw err).

(** *** Transaction bodies *)

(** What a body can call on the handle [tx] it is given. The handle is the
    adapter itself ([fn(this, ...args)]), so every method of the adapter
    can be called on it, also the six that the type [ITransaction] leaves
    out; [transaction] is the constructor [Nested] of bodies. The last
    three are calls on the statements that [tx.prepare] hands out. *)
Inductive tx_call :=
| TxRun (sql : string) (params : value)
| TxGet (sql : string) (params : value)
| TxAll (sql : string) (params : value)
| TxPrepare (sql : string)
| TxExec (sql : string)
| TxBegin
| TxCommit
| TxRollback
| TxFunction (name : string)
| TxAggregate (name : string)
| TxLoadExtension (path : string)
| TxBackup (destinationFile : string)
| TxPragma (sql : string) (simple : bool)
| TxAttach (alias path : string)
| TxSerialize (name : option string)
| TxClose
| TxRaw
| TxStmtRun (statement params : value)
| TxStmtGet (statement params : value)
| TxStmtAll (statement params : value).

(** The method of an adapter of the class [cls] behind a call, overrides
    included. *)
Definition tx_method (cls : adapter_class) (c : tx_call) : Async value :=
  match c with
  | TxRun sql params => run cls sql params
  | TxGet sql params => get cls sql params
  | TxAll sql params => all cls sql params
  | TxPrepare sql => this_prepare cls sql
  | TxExec sql => exec sql
  | TxBegin => begin
  | TxCommit => commit
  | TxRollback => rollback
  | TxFunction name =>
      match cls with
      | BunSqliteDatabase => BunSqliteDatabase_function name
      | NodeSqliteDatabase | BetterSqlite3Database => function name
      end
  | TxAggregate name =>
      match cls with
      | BunSqliteDatabase => BunSqliteDatabase_aggregate name
      | NodeSqliteDatabase | BetterSqlite3Database => aggregate name
      end
  | TxLoadExtension path => loadExtension path
  | TxBackup destinationFile =>
      match cls with
      | NodeSqliteDatabase => NodeSqliteDatabase_backup destinationFile
      | BunSqliteDatabase => BunSqliteDatabase_backup destinationFile
      | BetterSqlite3Database => BetterSqlite3Database_backup destinationFile
      end
  | TxPragma sql simple =>
      match cls with
      | BetterSqlite3Database => BetterSqlite3Database_pragma sql simple
      | NodeSqliteDatabase | BunSqliteDatabase => pragma cls sql simple
      end
  | TxAttach alias path => attach alias path
  | TxSerialize name =>
      match cls with
      | NodeSqliteDatabase => NodeSqliteDatabase_serialize
      | BunSqliteDatabase => BunSqliteDatabase_serialize name
      | BetterSqlite3Database => BetterSqlite3Database_serialize name
      end
  | TxClose => close
  | TxRaw => raw
  | TxStmtRun st params => stmt_run st params
  | TxStmtGet st params => stmt_get st params
  | TxStmtAll st params => stmt_all st params
  end.

(** A body [fn] that awaits each call it makes before the next: it
    returns, throws, awaits a call on [tx] and goes on with the outcome
    (so it may catch a failure), or awaits a nested
    [tx.transaction(inner)] in one of its four variants. A body that
    starts a call and goes on before the call has settled is not among
    these. *)
Inductive body :=
| Return (v : value)
| Throw (v : value)
| Await (c : tx_call) (k : settled value -> body)
| Nested (m : mode) (inner : body) (k : settled value -> body).

Fixpoint run_body (cls : adapter_class) (b : body) : Async value :=
  match b with
  | Return v => ret v
  | Throw v => throw v
  | Await c k =>
      fun s => let (o, s') := tx_method cls c s in run_body cls (k o) s'
  | Nested m inner k =>
      fun s =>
        let (o, s') := createTransactional m (run_body cls inner) s in
        run_body cls (k o) s'
  end.

(** [db.transaction(fn)], [.deferred], [.immediate], [.exclusive] on an
    adapter of the class [cls]. *)
Definition transaction (cls : adapter_class) (m : mode) (fn : body)
    : Async value :=
  createTransactional m (run_body cls fn).

End Adapter.
End BaseDatabase.

(** ** The session queue *)

Module Database.

(** Promises are known by the order of their creation. *)
Abbreviation pid := nat.

Section Queue.

Context {D : Type}.
Variable driver : driver_call -> D -> settled value * D.
Variable now : D -> Z.
Variable in_tmpdir : string -> string.

Abbreviation adapter_state := (@BaseDatabase.state D).

(** *** Operations *)

(** What [operation(db)] gives back to [#enqueue]: a promise (with the
    outcome it will settle to), a plain value, or an exception. *)
Inductive returned :=
| ReturnsPromise (fate : settled value)
| ReturnsValue (v : value)
| Throws (reason : value).

(** [(db: IDatabase) => Promise<T> | T]. The model applies the whole effect
    of an operation on the adapter when the operation is invoked; the promise
    it returned settles at a later event. *)
Definition operation := adapter_state -> returned * adapter_state.

Definition promising (m : BaseDatabase.Async value) : operation :=
  fun a => let (o, a') := m a in (ReturnsPromise o, a').

(** The public methods of [Database]. *)
Inductive method :=
| Run (sql : string) (params : value)
| Get (sql : string) (params : value)
| All (sql : string) (params : value)
| Prepare (sql : string)
| Exec (sql : string)
| Begin
| Commit
| Rollback
| Transaction (m : BaseDatabase.mode) (fn : BaseDatabase.body)
| Function (name : string)
| Aggregate (name : string)
| LoadExtension (path : string)
| Backup (destinationFile : string)
| Pragma (sql : string) (simple : bool)
| Attach (alias path : string)
| Serialize (name : option string)
| Close
| Raw.

(** The arrow each public method hands to [#enqueue], on a session whose
    [createDb] has resolved to an adapter of the class [cls]:
    [(db) => db.<method>(...)], with the method as that class has it. *)
Definition operation_of (cls : adapter_class) (m : method) : operation :=
  promising
    match m with
    | Run sql params =>
        BaseDatabase.tx_method driver now in_tmpdir cls
          (BaseDatabase.TxRun sql params)
    | Get sql params =>
        BaseDatabase.tx_method driver now in_tmpdir cls
          (BaseDatabase.TxGet sql params)
    | All sql params =>
        BaseDatabase.tx_method driver now in_tmpdir cls
          (BaseDatabase.TxAll sql params)
    | Prepare sql =>
        BaseDatabase.tx_method driver now in_tmpdir cls
          (BaseDatabase.TxPrepare sql)
    | Exec sql =>
        BaseDatabase.tx_method driver now in_tmpdir cls
          (BaseDatabase.TxExec sql)
    | Begin =>
        BaseDatabase.tx_method driver now in_tmpdir cls BaseDatabase.TxBegin
    | Commit =>
        BaseDatabase.tx_method driver now in_tmpdir cls BaseDatabase.TxCommit
    | Rollback =>
        BaseDatabase.tx_method driver now in_tmpdir cls
          BaseDatabase.TxRollback
    | Transaction m fn =>
        BaseDatabase.transaction driver now in_tmpdir cls m fn
    | Function name =>
        BaseDatabase.tx_method driver now in_tmpdir cls
          (BaseDatabase.TxFunction name)
    | Aggregate name =>
        BaseDatabase.tx_method driver now in_tmpdir cls
          (BaseDatabase.TxAggregate name)
    | LoadExtension path =>
        BaseDatabase.tx_method driver now in_tmpdir cls
          (BaseDatabase.TxLoadExtension path)
    | Backup destinationFile =>
        BaseDatabase.tx_method driver now in_tmpdir cls
          (BaseDatabase.TxBackup destinationFile)
    | Pragma sql simple =>
        BaseDatabase.tx_method driver now in_tmpdir cls
          (BaseDatabase.TxPragma sql simple)
    | Attach alias path =>
        BaseDatabase.tx_method driver now in_tmpdir cls
          (BaseDatabase.TxAttach alias path)
    | Serialize name =>
        BaseDatabase.tx_method driver now in_tmpdir cls
          (BaseDatabase.TxSerialize name)
    | Close =>
        BaseDatabase.tx_method driver now in_tmpdir cls BaseDatabase.TxClose
    | Raw =>
        BaseDatabase.tx_method driver now in_tmpdir cls BaseDatabase.TxRaw
    end.

(** *** Promises and the microtask queue *)

(** Where in the source a promise is created; a label of the model. *)
Inductive role :=
| RInit
| RResult (i : nat)
| RQueueUpdate (i : nat)
| RCatch (i : nat)
| RAsync (i : nat)
| ROperation (i : nat) (fate : settled value)
| RAdopt (r : role)
| RCaller (i : nat).

(** The closures that are registered on promises:
    - [HOperation]: [(db) => operation(db as IDatabase)];
    - [HQueueUpdate]: [async (db) => { try { await resultPromise; } catch {} return db; }];
    - [HResume]: what is left of that arrow after its await, on either
      outcome: [return db];
    - [HSwallow]: [() => {}];
    - [HPass], [HRaise]: what [then] uses for a handler that is not given;
    - [HResolve], [HReject]: the resolving functions of a promise;
    - [HCaller]: a handler of the caller. *)
Inductive handler :=
| HOperation (i : nat) (op : operation)
| HQueueUpdate (i : nat) (resultPromise : pid)
| HResume (i : nat) (async : pid) (db : value)
| HSwallow
| HPass
| HRaise
| HResolve (p : pid)
| HReject (p : pid)
| HCaller.

Record reaction := mk_reaction {
  on_fulfilled : handler;
  on_rejected : handler;
  derived : option pid;
}.

Record promise := mk_promise {
  state : option (settled value);
  reactions : list reaction;
  handled : bool;
  role_ : role;
}.

Inductive job :=
| JReaction (h : handler) (argument : value) (target : option pid)
| JThenable (p thenable : pid).

(** One [Database] object with the host around it. [operations], [results],
    [queues] and [began] are bookkeeping of the model: the operations given
    to [#enqueue], the [resultPromise] and [queueUpdatePromise] of each call,
    and the operations invoked so far, all in order. *)
Record session := mk_session {
  heap : list promise;
  microtasks : list job;
  queue : pid;
  adapter : adapter_state;
  operations : list operation;
  results : list pid;
  queues : list pid;
  began : list nat;
}.

Definition with_heap (h : list promise) (s : session) : session :=
  {| heap := h; microtasks := microtasks s; queue := queue s;
     adapter := adapter s; operations := operations s; results := results s;
     queues := queues s; began := began s |}.

Definition push_jobs (js : list job) (s : session) : session :=
  {| heap := heap s; microtasks := microtasks s ++ js; queue := queue s;
     adapter := adapter s; operations := operations s; results := results s;
     queues := queues s; began := began s |}.

Definition fresh (r : role) : promise :=
  {| state := None; reactions := []; handled := false; role_ := r |}.

Definition alloc (r : role) (s : session) : pid * session :=
  (length (heap s), with_heap (heap s ++ [fresh r]) s).

Definition role_of (s : session) (p : pid) : role :=
  match heap s !! p with Some c => role_ c | None => RInit end.

Definition reaction_job (o : settled value) (r : reaction) : job :=
  match o with
  | Resolved v => JReaction (on_fulfilled r) v (derived r)
  | Rejected e => JReaction (on_rejected r) e (derived r)
  end.

(** FulfillPromise and RejectPromise: a pending promise takes its outcome
    and its reactions become jobs; a settled promise stays as it is. *)
Definition settle (p : pid) (o : settled value) (s : session) : session :=
  match heap s !! p with
  | Some c =>
      match state c with
      | None =>
          push_jobs (map (reaction_job o) (reactions c))
            (with_heap
               (<[p := {| state := Some o; reactions := [];
                          handled := handled c; role_ := role_ c |}]> (heap s)) s)
      | Some _ => s
      end
  | None => s
  end.

(** PerformPromiseThen. *)
Definition perform_then (p : pid) (r : reaction) (s : session) : session :=
  match heap s !! p with
  | Some c =>
      match state c with
      | None =>
          with_heap
            (<[p := {| state := None; reactions := reactions c ++ [r];
                       handled := true; role_ := role_ c |}]> (heap s)) s
      | Some o =>
          push_jobs [reaction_job o r]
            (with_heap
               (<[p := {| state := Some o; reactions := reactions c;
                          handled := true; role_ := role_ c |}]> (heap s)) s)
      end
  | None => s
  end.

(** [p.then(onFulfilled, onRejected)] *)
Definition then_ (p : pid) (onFulfilled onRejected : handler) (r : role)
    (s : session) : pid * session :=
  let (d, s1) := alloc r s in
  (d, perform_then p {| on_fulfilled := onFulfilled;
                        on_rejected := onRejected; derived := Some d |} s1).

(** [await p] inside an async function whose remainder is [k]. *)
Definition await (p : pid) (k : handler) (s : session) : session :=
  perform_then p {| on_fulfilled := k; on_rejected := k; derived := None |} s.

(** What a promise is resolved with: a value, or another promise, which it
    then follows. *)
Inductive resolution :=
| Plain (v : value)
| Thenable (q : pid).

Definition resolve (p : pid) (x : resolution) (s : session) : session :=
  match x with
  | Plain v => settle p (Resolved v) s
  | Thenable q => push_jobs [JThenable p q] s
  end.

Inductive completion :=
| Returned (x : resolution)
| Threw (reason : value).

Definition invoked (i : nat) (a : adapter_state) (s : session) : session :=
  {| heap := heap s; microtasks := microtasks s; queue := queue s;
     adapter := a; operations := operations s; results := results s;
     queues := queues s; began := began s ++ [i] |}.

Definition call_handler (h : handler) (argument : value) (s : session)
    : completion * session :=
  match h with
  | HOperation i op =>
      let (r, a') := op (adapter s) in
      let s1 := invoked i a' s in
      match r with
      | ReturnsPromise fate =>
          let (q, s2) := alloc (ROperation i fate) s1 in
          (Returned (Thenable q), s2)
      | ReturnsValue v => (Returned (Plain v), s1)
      | Throws e => (Threw e, s1)
      end
  | HQueueUpdate i resultPromise =>
      let (a, s1) := alloc (RAsync i) s in
      (Returned (Thenable a), await resultPromise (HResume i a argument) s1)
  | HResume i a db => (Returned (Plain VUndefined), resolve a (Plain db) s)
  | HSwallow => (Returned (Plain VUndefined), s)
  | HPass => (Returned (Plain argument), s)
  | HRaise => (Threw argument, s)
  | HResolve p => (Returned (Plain VUndefined), resolve p (Plain argument) s)
  | HReject p => (Returned (Plain VUndefined), settle p (Rejected argument) s)
  | HCaller => (Returned (Plain VUndefined), s)
  end.

(** PromiseReactionJob and NewPromiseResolveThenableJob. *)
Definition run_job (j : job) (s : session) : session :=
  match j with
  | JReaction h argument target =>
      let (c, s1) := call_handler h argument s in
      match target, c with
      | Some t, Returned x => resolve t x s1
      | Some t, Threw e => settle t (Rejected e) s1
      | None, _ => s1
      end
  | JThenable p q =>
      snd (then_ q (HResolve p) (HReject p) (RAdopt (role_of s p)) s)
  end.

Definition tick (s : session) : session :=
  match microtasks s with
  | [] => s
  | j :: rest =>
      run_job j
        {| heap := heap s; microtasks := rest; queue := queue s;
           adapter := adapter s; operations := operations s;
           results := results s; queues := queues s; began := began s |}
  end.

(** *** [Database] *)

(** [constructor]: [this.#queue = createDb(filename, options)]; [a] is the
    adapter that [createDb] resolves to when it succeeds. *)
Definition new_session (a : adapter_state) : session :=
  {| heap := [fresh RInit]; microtasks := []; queue := 0%nat; adapter := a;
     operations := []; results := []; queues := []; began := [] |}.

(** [#enqueue(operation)] *)
Definition enqueue (op : operation) (s : session) : pid * session :=
  let i := length (results s) in
  let (resultPromise, s1) :=
    then_ (queue s) (HOperation i op) HRaise (RResult i) s in
  let (queueUpdatePromise, s2) :=
    then_ (queue s1) (HQueueUpdate i resultPromise) HRaise (RQueueUpdate i) s1 in
  let (_, s3) := then_ queueUpdatePromise HPass HSwallow (RCatch i) s2 in
  (resultPromise,
   {| heap := heap s3; microtasks := microtasks s3;
      queue := queueUpdatePromise; adapter := adapter s3;
      operations := operations s3 ++ [op];
      results := results s3 ++ [resultPromise];
      queues := queues s3 ++ [queueUpdatePromise]; began := began s3 |}).

(** *** Schedules *)

(** What can happen to a session: [createDb] settles, a public method is
    called, the host runs the oldest microtask, the promise returned by an
    operation settles, the caller attaches handlers to a returned promise. *)
Inductive event :=
| Opened (failure : option value)
| Submit (op : operation)
| Tick
| Settles (q : pid)
| Observes (i : nat).

Definition step (e : event) (s : session) : session :=
  match e with
  | Opened None => settle 0%nat (Resolved VDatabase) s
  | Opened (Some reason) => settle 0%nat (Rejected reason) s
  | Submit op => snd (enqueue op s)
  | Tick => tick s
  | Settles q =>
      match heap s !! q with
      | Some c =>
          match role_ c with
          | ROperation _ fate => settle q fate s
          | _ => s
          end
      | None => s
      end
  | Observes i =>
      match results s !! i with
      | Some p => snd (then_ p HCaller HCaller (RCaller i) s)
      | None => s
      end
  end.

Definition play (es : list event) (s : session) : session :=
  foldl (fun s e => step e s) s es.

(** A public method call, as an event. *)
Definition call (cls : adapter_class) (m : method) : event :=
  Submit (operation_of cls m).

End Queue.
End Database.

(** ** A driver to run the model on *)

(** A small stand-in for a SQLite connection: it keeps whether the
    connection is open, the stack of open frames ([None] for the frame of a
    BEGIN, the name for a savepoint), the statements it is told to refuse,
    and the statements it ran. It answers as SQLite does on transaction
    control: BEGIN inside a transaction, COMMIT or ROLLBACK outside one, and
    RELEASE or ROLLBACK TO of an unknown savepoint are errors. *)
Module Sqlite.

Record connection := mk_connection {
  closed : bool;
  frames : list (option string);
  refused : list string;
  ran : list string;
}.

Definition memory : connection :=
  {| closed := false; frames := []; refused := []; ran := [] |}.

Definition refusing (statements : list string) : connection :=
  {| closed := false; frames := []; refused := statements; ran := [] |}.

Definition strip (prefix s : string) : option string :=
  if String.prefix prefix s
  then Some (String.substring (String.length prefix)
               (String.length s - String.length prefix) s)
  else None.

Definition is_savepoint (name : string) (f : option string) : bool :=
  match f with Some n => String.eqb n name | None => false end.

(** The frames below the innermost savepoint [name], and that savepoint. *)
Fixpoint unwind (name : string) (fs : list (option string))
    : option (list (option string)) :=
  match fs with
  | [] => None
  | f :: rest => if is_savepoint name f then Some rest else unwind name rest
  end.

Definition with_frames (fs : list (option string)) (sql : string)
    (c : connection) : connection :=
  {| closed := closed c; frames := fs; refused := refused c;
     ran := ran c ++ [sql] |}.

Definition failure (message : string) (c : connection)
    : settled value * connection :=
  (Rejected (VError message), c).

Definition success (fs : list (option string)) (sql : string) (c : connection)
    : settled value * connection :=
  (Resolved VUndefined, with_frames fs sql c).

Definition exec (sql : string) (c : connection) : settled value * connection :=
  if existsb (String.eqb sql) (refused c) then failure "database is locked" c
  else if String.prefix "BEGIN" sql then
    match frames c with
    | [] => success [None] sql c
    | _ => failure "cannot start a transaction within a transaction" c
    end
  else if String.eqb sql "COMMIT" then
    match frames c with
    | [] => failure "cannot commit - no transaction is active" c
    | _ => success [] sql c
    end
  else match strip "ROLLBACK TO SAVEPOINT " sql with
  | Some name =>
      match unwind name (frames c) with
      | Some rest => success (Some name :: rest) sql c
      | None => failure "no such savepoint" c
      end
  | None =>
  if String.eqb sql "ROLLBACK" then
    match frames c with
    | [] => failure "cannot rollback - no transaction is active" c
    | _ => success [] sql c
    end
  else match strip "RELEASE SAVEPOINT " sql with
  | Some name =>
      match unwind name (frames c) with
      | Some rest => success rest sql c
      | None => failure "no such savepoint" c
      end
  | None =>
  match strip "SAVEPOINT " sql with
  | Some name => success (Some name :: frames c) sql c
  | None => success (frames c) sql c
  end end end.

Definition close (c : connection) : settled value * connection :=
  (Resolved VUndefined,
   {| closed := true; frames := []; refused := refused c; ran := ran c |}).

Definition driver (call : driver_call) (c : connection)
    : settled value * connection :=
  match call with
  | DbClose => close c
  | ImportNodeSqlite | FsWriteFile _ _ | FsUnlink _ => (Resolved VUndefined, c)
  | FsReadFile _ => (Resolved (VString "SQLite format 3"), c)
  | _ =>
      if closed c then failure "The database connection is not open" c
      else
        match call with
        | DbExec sql => exec sql c
        | DbPrepare sql =>
            if existsb (String.eqb sql) (refused c)
            then failure "SQL logic error" c
            else (Resolved (VString sql), c)
        | StmtRun (VString sql) _ =>
            match exec sql c with
            | (Resolved _, c') => (Resolved (VRow [("changes", VNumber 1)]), c')
            | failed => failed
            end
        | StmtGet (VString sql) _ => (Resolved VUndefined, with_frames (frames c) sql c)
        | StmtAll (VString sql) _ => (Resolved (VArray []), with_frames (frames c) sql c)
        | StmtRun _ _ | StmtGet _ _ | StmtAll _ _ => failure "not a statement" c
        | DbFunction _ | DbAggregate _ => (Resolved VUndefined, c)
        | DbLoadExtension _ => failure "cannot open shared object file" c
        | DbPragma sql _ =>
            (Resolved (VArray []), with_frames (frames c) ("PRAGMA " +:+ sql) c)
        | DbBackup _ =>
            (Resolved (VRow [("totalPages", VNumber 1);
                             ("remainingPages", VNumber 0)]), c)
        | DbSerialize _ => (Resolved (VString "SQLite format 3"), c)
        | NodeBackup _ => (Resolved (VNumber 1), c)
        | DbClose => close c
        | ImportNodeSqlite | FsWriteFile _ _ | FsUnlink _ | FsReadFile _ =>
            (Resolved VUndefined, c)
        end
  end.

(** The clock and the temporary directory of the sample host. *)
Definition now (c : connection) : Z := 0.
Definition in_tmpdir (name : string) : string := "/tmp/" +:+ name.

(** The adapter [createDb] builds around a connection. *)
Definition adapter (c : connection) : BaseDatabase.state :=
  BaseDatabase.create c.

End Sqlite.

(** ** Reading the journal *)

(** The transaction manager opens a frame with BEGIN or SAVEPOINT and
    closes one with COMMIT, ROLLBACK, RELEASE SAVEPOINT or ROLLBACK TO
    SAVEPOINT. *)
Definition opens_frame (sql : string) : bool :=
  String.prefix "BEGIN" sql || String.prefix "SAVEPOINT " sql.

Definition closes_frame (sql : string) : bool :=
  String.eqb sql "COMMIT" || String.prefix "RELEASE SAVEPOINT " sql
  || String.prefix "ROLLBACK" sql.

(** What a journal entry does to the number of open frames: only a
    statement of the transaction manager that the driver accepted counts. *)
Definition frame_delta (e : entry) : Z :=
  match e with
  | Issued Manager (DbExec sql) true =>
      if opens_frame sql then 1 else if closes_frame sql then -1 else 0
  | _ => 0
  end.

(** The number of frames open after a journal. *)
Definition open_frames (j : list entry) : Z :=
  foldr (fun e n => frame_delta e + n) 0 j.

(** The value of [#transactionDepth] after a journal that started at [d]. *)
Definition depth_of (d : Z) (j : list entry) : Z :=
  foldl (fun d e => match e with DepthSet z => z | _ => d end) d j.

(** Every statement of the transaction manager was accepted. *)
Definition manager_succeeded (j : list entry) : Prop :=
  forall c ok, In (Issued Manager c ok) j -> ok = true.

(** Transaction attempts made one after the other on one adapter. *)
Definition attempts {D : Type} (driver : driver_call -> D -> settled value * D)
    (now : D -> Z) (in_tmpdir : string -> string) (cls : adapter_class)
    (l : list (BaseDatabase.mode * BaseDatabase.body))
    (s : BaseDatabase.state) : BaseDatabase.state :=
  foldl
    (fun s a =>
       snd (BaseDatabase.transaction driver now in_tmpdir cls
              (fst a) (snd a) s))
    s l.

(** ** The interfaces of [typings.ts] *)

Module Typings.

(** The members of [interface IDatabase], in the order of the source. *)
Definition IDatabase : list string :=
  ["run"; "get"; "all"; "prepare"; "exec"; "begin"; "commit"; "rollback";
   "transaction"; "function"; "aggregate"; "loadExtension"; "backup";
   "pragma"; "attach"; "serialize"; "close"; "raw"].

(** [Omit<T, K>] on member lists. *)
Definition Omit (T K : list string) : list string :=
  List.filter (fun m => negb (existsb (String.eqb m) K)) T.

(** The members [ITransaction] leaves out. *)
Definition omitted : list string :=
  ["backup"; "serialize"; "close"; "begin"; "commit"; "rollback"].

Definition ITransaction : list string := Omit IDatabase omitted.

(** The member of [IDatabase] behind each call a body makes on its
    handle; statements come from [prepare]. *)
Definition member_of (c : BaseDatabase.tx_call) : string :=
  match c with
  | BaseDatabase.TxRun _ _ => "run"
  | BaseDatabase.TxGet _ _ => "get"
  | BaseDatabase.TxAll _ _ => "all"
  | BaseDatabase.TxPrepare _ => "prepare"
  | BaseDatabase.TxExec _ => "exec"
  | BaseDatabase.TxBegin => "begin"
  | BaseDatabase.TxCommit => "commit"
  | BaseDatabase.TxRollback => "rollback"
  | BaseDatabase.TxFunction _ => "function"
  | BaseDatabase.TxAggregate _ => "aggregate"
  | BaseDatabase.TxLoadExtension _ => "loadExtension"
  | BaseDatabase.TxBackup _ => "backup"
  | BaseDatabase.TxPragma _ _ => "pragma"
  | BaseDatabase.TxAttach _ _ => "attach"
  | BaseDatabase.TxSerialize _ => "serialize"
  | BaseDatabase.TxClose => "close"
  | BaseDatabase.TxRaw => "raw"
  | BaseDatabase.TxStmtRun _ _ => "prepare"
  | BaseDatabase.TxStmtGet _ _ => "prepare"
  | BaseDatabase.TxStmtAll _ _ => "prepare"
  end.

End Typings.

(** ** Properties of journals used in the proofs *)

(** No write of [#transactionDepth] in [j] is below [d]. *)
Definition bounded_below (d : Z) (j : list entry) : Prop :=
  Forall (fun e => match e with DepthSet z => d <= z | _ => True end)%Z j.

(** Reading a journal from the left with the depth [d] and the number of
    open frames [f] before it: the two agree whenever a caller's statement
    is issued, every write of the depth changes it by one, and the two never
    differ by more than one. *)
Fixpoint tracks (d f : Z) (j : list entry) : Prop :=
  match j with
  | [] => True
  | e :: j' =>
      match e with
      | Issued Caller _ _ => d = f
      | DepthSet z => Z.abs (z - d) = 1%Z
      | _ => True
      end
      /\ (Z.abs (depth_of d [e] - (f + frame_delta e)) <= 1)%Z
      /\ tracks (depth_of d [e]) (f + frame_delta e)%Z j'
  end.

(** In a journal of its own, [m] leaves the depth and the open frames where
    they were, as long as the transaction manager's statements succeed. *)
Definition balanced {D A : Type} (m : @BaseDatabase.Async D A) : Prop :=
  forall s, exists ext,
    BaseDatabase.journal (snd (m s)) = BaseDatabase.journal s ++ ext
    /\ ((0 <= BaseDatabase.transactionDepth s)%Z ->
        manager_succeeded ext ->
        let d := BaseDatabase.transactionDepth s in
        tracks d d ext
        /\ BaseDatabase.transactionDepth (snd (m s)) = d
        /\ depth_of d ext = d
        /\ open_frames ext = 0%Z).

(** [m] never lowers the depth below where it found it. *)
Definition keeps_floor {D A : Type} (m : @BaseDatabase.Async D A) : Prop :=
  forall s,
    (BaseDatabase.transactionDepth s
       <= BaseDatabase.transactionDepth (snd (m s)))%Z
    /\ exists ext,
         BaseDatabase.journal (snd (m s)) = (BaseDatabase.journal s ++ ext)
         /\ bounded_below (BaseDatabase.transactionDepth s) ext.

(** ** The paths through [createTransactional] *)

(** The three statements of a frame captured at depth [d], and the [catch]
    block, named for the proofs; [createTransactional_paths] below relates
    them to the definition. *)
Definition savepoint_name (d : Z) : string :=
  "isomorphic_sqlite_" +:+ js_number d.

Definition open_sql (m : BaseDatabase.mode) (d : Z) : string :=
  if (d =? 0)%Z then "BEGIN " +:+ BaseDatabase.mode_text m
  else "SAVEPOINT " +:+ savepoint_name d.

Definition close_sql (d : Z) : string :=
  if (d =? 0)%Z then "COMMIT" else "RELEASE SAVEPOINT " +:+ savepoint_name d.

Definition rollback_sql (d : Z) : string :=
  if (d =? 0)%Z then "ROLLBACK"
  else "ROLLBACK TO SAVEPOINT " +:+ savepoint_name d.

Definition with_depth {D : Type} (z : Z) (s : @BaseDatabase.state D)
    : BaseDatabase.state :=
  snd (BaseDatabase.set_depth z s).

Definition on_failure {D : Type}
    (driver : driver_call -> D -> settled value * D)
    (depth : Z) (err : value) : BaseDatabase.Async value :=
  fun s =>
    if (BaseDatabase.transactionDepth s >? 0)%Z then
      match BaseDatabase.exec_as driver Manager (rollback_sql depth) s with
      | (Resolved _, s') => (Rejected err, with_depth depth s')
      | (Rejected e, s') => (Rejected e, s')
      end
    else (Rejected err, with_depth depth s).


(** [m] only issues statements of the caller and leaves the depth alone. *)
Definition caller_only {D A : Type} (m : @BaseDatabase.Async D A) : Prop :=
  forall s, exists ext,
    BaseDatabase.journal (snd (m s)) = BaseDatabase.journal s ++ ext
    /\ Forall (fun e => exists c ok, e = Issued Caller c ok) ext
    /\ BaseDatabase.transactionDepth (snd (m s)) = BaseDatabase.transactionDepth s.

(** [m] marks the adapter as closed only where the driver has accepted a
    [close] of the caller, and takes no mark away. *)
Definition closes_by_close {D A : Type} (m : @BaseDatabase.Async D A) : Prop :=
  forall s, exists ext,
    BaseDatabase.journal (snd (m s)) = BaseDatabase.journal s ++ ext
    /\ (BaseDatabase.isClosed (snd (m s)) = BaseDatabase.isClosed s
        \/ (BaseDatabase.isClosed (snd (m s)) = true
            /\ In (Issued Caller DbClose true) ext)).

(** ** Sample sessions *)

Module Samples.

Import BaseDatabase.

(** [db.transaction(() => {})] *)
Definition does_nothing : body := Return VUndefined.


(** A body that closes the connection through its handle:
    [async (tx) => { await tx.close(); }], with the handle taken as the
    adapter it is. *)
Definition closes_inside : body :=
  Await TxClose (fun _ => Return VUndefined).


(** The outer body of the test [should rollback only the inner transaction
    (savepoint) if it fails]: an insert, a nested transaction that fails and
    whose failure is caught, another insert. *)
Definition outer_survives_inner : body :=
  Await (TxRun "INSERT INTO test (name) VALUES ('outer-before')" (VArray []))
    (fun _ =>
       Nested Plain
         (Await (TxRun "INSERT INTO test (name) VALUES (?)" (VArray []))
            (fun _ => Throw (VError "UNIQUE constraint failed: test.name")))
         (fun _ =>
            Await (TxRun "INSERT INTO test (name) VALUES ('outer-after')"
                     (VArray []))
              (fun o => match o with
                        | Resolved v => Return v
                        | Rejected e => Throw e
                        end))).

(** An adapter on a fresh in-memory connection, and one whose connection
    refuses COMMIT (as a busy or constraint-violating database does). *)
Definition fresh_adapter : state := Sqlite.adapter Sqlite.memory.
Definition commit_refused : state := Sqlite.adapter (Sqlite.refusing ["COMMIT"]).


(** An adapter after [close()]. *)
Definition closed_adapter : state := snd (close Sqlite.driver fresh_adapter).

(** An adapter whose connection refuses one statement. *)
Definition rejecting_adapter : state :=
  Sqlite.adapter (Sqlite.refusing ["INVALID SQL"]).

(** The promises returned by [n] operations settle one after the other,
    the first one being the promise [q], and after each the host runs the
    microtasks that are queued. *)
Fixpoint settle_each (q n : nat) : list (@Database.event Sqlite.connection) :=
  match n with
  | O => []
  | S k =>
      Database.Settles q :: repeat Database.Tick 8 ++ settle_each (q + 4) k
  end.

(** The connection opens and the public methods [ms] are called one after
    the other, none awaited; then the host runs. Each call creates three
    promises, so the first operation returns the promise [1 + 3 * n]. *)
Definition batch (ms : list Database.method)
    : list (@Database.event Sqlite.connection) :=
  Database.Opened None :: map (Database.call Sqlite.driver Sqlite.now Sqlite.in_tmpdir NodeSqliteDatabase) ms
  ++ repeat Database.Tick 4
  ++ settle_each (1 + 3 * length ms) (length ms).

(** [db.run('INVALID SQL')] and then [db.exec('CREATE TABLE ...')]. *)
Definition failing_then_valid : list (@Database.event Sqlite.connection) :=
  batch [Database.Run "INVALID SQL" (VArray []);
         Database.Exec "CREATE TABLE test (id INTEGER)"].



(** [close()], and four more calls after it. *)
Definition used_after_close : list (@Database.event Sqlite.connection) :=
  batch [Database.Close; Database.Raw; Database.Close;
         Database.Exec "SELECT 1"; Database.Backup "copy.db"].

(** [close()] twice. *)
Definition closed_twice : list (@Database.event Sqlite.connection) :=
  batch [Database.Close; Database.Close].

(** What [createDb] rejects with on a file that cannot be opened. *)
Definition open_failure : value := VError "unable to open database file".

(** [new Database(path)] on such a file, and no call after it. *)
Definition never_used : list (@Database.event Sqlite.connection) :=
  [Database.Opened (Some open_failure)].

(** Two calls on such a file, made before [createDb] has rejected. *)
Definition used_before_failure : list (@Database.event Sqlite.connection) :=
  [Database.call Sqlite.driver Sqlite.now Sqlite.in_tmpdir NodeSqliteDatabase (Database.Exec "SELECT 1");
   Database.call Sqlite.driver Sqlite.now Sqlite.in_tmpdir NodeSqliteDatabase (Database.Exec "SELECT 2");
   Database.Opened (Some open_failure)]
  ++ repeat Database.Tick 6.

End Samples.

(** ** The invariant of the session queue *)

Section SessionInvariant.

Context {D : Type}.

Import Database.

Abbreviation session := (@Database.session D).
Abbreviation op := (@Database.operation D).
Abbreviation handler := (@Database.handler D).
Abbreviation reaction := (@Database.reaction D).
Abbreviation job := (@Database.job D).
Abbreviation promise := (@Database.promise D).

(** *** Running the operations one after the other *)

Fixpoint replay (ops : list op) (a : BaseDatabase.state)
    : list returned * BaseDatabase.state :=
  match ops with
  | [] => ([], a)
  | o :: rest =>
      let (r, a1) := o a in
      let (rs, a2) := replay rest a1 in
      (r :: rs, a2)
  end.

(** What the promise handed back by [#enqueue] settles to. *)
Definition outcome_of (r : returned) : settled value :=
  match r with
  | ReturnsPromise fate => fate
  | ReturnsValue v => Resolved v
  | Throws e => Rejected e
  end.

(** What the [i]-th operation of the session returns when the operations
    run in the order of submission on the adapter [a0]. *)
Definition expected (a0 : BaseDatabase.state) (s : session) (i : nat)
    : option returned :=
  fst (replay (operations s) a0) !! i.

(** *** Reading a session *)

Definition state_of (s : session) (p : pid) : option (settled value) :=
  match heap s !! p with Some c => state c | None => None end.

Definition has_role (s : session) (p : pid) (r : role) : Prop :=
  exists c, heap s !! p = Some c /\ role_ c = r.

Definition init_ok (s : session) : Prop :=
  state_of s 0%nat = Some (Resolved VDatabase).

Definition init_failed (s : session) (reason : value) : Prop :=
  state_of s 0%nat = Some (Rejected reason).

(** The promise [#queue] held when the [i]-th operation was submitted. *)
Definition tail_of (s : session) (i : nat) : option pid :=
  match i with
  | O => Some 0%nat
  | S j => queues s !! j
  end.

Definition result_settled (s : session) (i : nat) : Prop :=
  exists p, results s !! i = Some p /\ is_Some (state_of s p).

Definition op_index (j : job) : option nat :=
  match j with
  | JReaction (HOperation i _) _ _ => Some i
  | _ => None
  end.

Definition rop_index (r : reaction) : option nat :=
  match on_fulfilled r with
  | HOperation i _ => Some i
  | _ => None
  end.

(** *** What holds of every promise, reaction and job *)

Definition promise_ok (a0 : BaseDatabase.state) (s : session) (p : pid)
    (r : role) (st : option (settled value)) (h : bool) : Prop :=
  match r with
  | RInit => p = 0%nat /\ forall v, st = Some (Resolved v) -> v = VDatabase
  | RResult i =>
      results s !! i = Some p
      /\ forall o, st = Some o ->
           (exists e, init_failed s e /\ o = Rejected e)
           \/ ((i < length (began s))%nat
               /\ exists x, expected a0 s i = Some x /\ o = outcome_of x)
  | RQueueUpdate i =>
      queues s !! i = Some p
      /\ h = true
      /\ forall o, st = Some o ->
           match o with
           | Resolved v =>
               v = VDatabase /\ (i < length (began s))%nat
               /\ result_settled s i
           | Rejected e => init_failed s e
           end
  | RAsync i =>
      forall o, st = Some o ->
        o = Resolved VDatabase /\ (i < length (began s))%nat
        /\ result_settled s i
  | ROperation i fate =>
      (i < length (began s))%nat
      /\ expected a0 s i = Some (ReturnsPromise fate)
      /\ forall o, st = Some o -> o = fate
  | RCatch _ | RAdopt _ | RCaller _ =>
      forall e, st <> Some (Rejected e)
  end.

Definition reaction_ok (s : session) (host : pid) (r : reaction) : Prop :=
  match on_fulfilled r, on_rejected r, derived r with
  | HOperation i o, HRaise, Some t =>
      results s !! i = Some t /\ operations s !! i = Some o
      /\ tail_of s i = Some host
  | HQueueUpdate i rp, HRaise, Some t =>
      queues s !! i = Some t /\ results s !! i = Some rp
      /\ tail_of s i = Some host
  | HPass, HSwallow, Some t => exists i, has_role s t (RCatch i)
  | HResume i a db, HResume i' a' db', None =>
      i = i' /\ a = a' /\ db = db' /\ db = VDatabase
      /\ results s !! i = Some host /\ has_role s a (RAsync i) /\ init_ok s
  | HResolve q, HReject q', Some t =>
      q = q' /\ (exists rq, has_role s t (RAdopt rq))
      /\ ((exists i, queues s !! i = Some q /\ has_role s host (RAsync i))
          \/ (exists i fate, results s !! i = Some q
                             /\ has_role s host (ROperation i fate)))
  | HCaller, HCaller, Some t => exists i, has_role s t (RCaller i)
  | _, _, _ => False
  end.

Definition job_ok (a0 : BaseDatabase.state) (s : session) (j : job) : Prop :=
  match j with
  | JReaction (HOperation i o) _ (Some t) =>
      results s !! i = Some t /\ operations s !! i = Some o
      /\ i = length (began s)
      /\ exists tl, tail_of s i = Some tl
                    /\ state_of s tl = Some (Resolved VDatabase)
  | JReaction (HQueueUpdate i rp) argument (Some t) =>
      queues s !! i = Some t /\ results s !! i = Some rp
      /\ argument = VDatabase /\ init_ok s
  | JReaction HRaise argument (Some t) =>
      init_failed s argument
      /\ exists i, results s !! i = Some t \/ queues s !! i = Some t
  | JReaction HPass _ (Some t) | JReaction HSwallow _ (Some t) =>
      exists i, has_role s t (RCatch i)
  | JReaction (HResume i a db) _ None =>
      db = VDatabase /\ has_role s a (RAsync i)
      /\ result_settled s i /\ (i < length (began s))%nat
  | JReaction (HResolve q) argument (Some t) =>
      (exists rq, has_role s t (RAdopt rq))
      /\ ((exists i, queues s !! i = Some q /\ argument = VDatabase
                     /\ (i < length (began s))%nat /\ result_settled s i)
          \/ (exists i, results s !! i = Some q
                        /\ (i < length (began s))%nat
                        /\ expected a0 s i
                           = Some (ReturnsPromise (Resolved argument))))
  | JReaction (HReject q) argument (Some t) =>
      (exists rq, has_role s t (RAdopt rq))
      /\ exists i, results s !! i = Some q
                   /\ (i < length (began s))%nat
                   /\ expected a0 s i
                      = Some (ReturnsPromise (Rejected argument))
  | JReaction HCaller _ (Some t) => exists i, has_role s t (RCaller i)
  | JThenable q a =>
      (exists i, queues s !! i = Some q /\ has_role s a (RAsync i))
      \/ (exists i fate, results s !! i = Some q
                         /\ has_role s a (ROperation i fate))
  | _ => False
  end.

(** *** The invariant *)

Record wf (a0 : BaseDatabase.state) (s : session) : Prop := mk_wf {
  wf_init : has_role s 0%nat RInit;
  wf_lengths :
    length (operations s) = length (results s)
    /\ length (queues s) = length (results s);
  wf_queue : tail_of s (length (results s)) = Some (queue s);
  wf_tails : NoDup (0%nat :: queues s);
  wf_results : forall i p, results s !! i = Some p -> has_role s p (RResult i);
  wf_queues : forall i p, queues s !! i = Some p -> has_role s p (RQueueUpdate i);
  wf_began :
    began s = seq 0 (length (began s))
    /\ (length (began s) <= length (results s))%nat;
  wf_began_tail :
    forall i, (i < length (began s))%nat ->
      exists t, tail_of s i = Some t
                /\ state_of s t = Some (Resolved VDatabase);
  wf_adapter :
    adapter s = snd (replay (take (length (began s)) (operations s)) a0);
  wf_promises :
    forall p c, heap s !! p = Some c ->
      promise_ok a0 s p (role_ c) (state c) (handled c);
  wf_reactions :
    forall p c r, heap s !! p = Some c -> In r (reactions c) ->
      state c = None /\ reaction_ok s p r;
  wf_op_reactions :
    forall p c, heap s !! p = Some c ->
      (length (omap rop_index (reactions c)) <= 1)%nat;
  wf_jobs : forall j, In j (microtasks s) -> job_ok a0 s j;
  wf_op_jobs : (length (omap op_index (microtasks s)) <= 1)%nat;
}.

(** Promises keep their roles and their outcomes from [h] to [h']. *)
Definition heap_extends (h h' : list promise) : Prop :=
  forall p c, h !! p = Some c ->
    exists c', h' !! p = Some c' /\ role_ c' = role_ c
               /\ (forall o, state c = Some o -> state c' = Some o).

(** [s'] continues [s]: promises keep their roles and their outcomes, and
    the bookkeeping only grows. *)
Record extends (s s' : session) : Prop := mk_extends {
  ext_heap :
    forall p c, heap s !! p = Some c ->
      exists c', heap s' !! p = Some c' /\ role_ c' = role_ c
                 /\ (forall o, state c = Some o -> state c' = Some o);
  ext_operations : exists l, operations s' = operations s ++ l;
  ext_results : exists l, results s' = results s ++ l;
  ext_queues : exists l, queues s' = queues s ++ l;
  ext_began : exists l, began s' = began s ++ l;
}.

(** The session without its oldest microtask, as [tick] hands it to the
    job it runs. *)
Definition pop (s : session) : session :=
  {| heap := heap s; microtasks := tl (microtasks s); queue := queue s;
     adapter := adapter s; operations := operations s; results := results s;
     queues := queues s; began := began s |}.

(** The three reactions [#enqueue] registers for its [i]-th call, on a heap
    of [n] promises. *)
Definition operation_reaction (i n : nat) (o : op) : reaction :=
  {| on_fulfilled := HOperation i o; on_rejected := HRaise;
     derived := Some n |}.

Definition update_reaction (i n : nat) : reaction :=
  {| on_fulfilled := HQueueUpdate i n; on_rejected := HRaise;
     derived := Some (S n) |}.

Definition catch_reaction (n : nat) : reaction :=
  {| on_fulfilled := HPass; on_rejected := HSwallow;
     derived := Some (S (S n)) |}.

(** The last step of [#enqueue]: the new [#queue] is stored (and the
    bookkeeping extended), for a call that found [n] promises. *)
Definition retable (o : op) (n : nat) (s : session) : session :=
  {| heap := heap s; microtasks := microtasks s; queue := S n;
     adapter := adapter s; operations := operations s ++ [o];
     results := results s ++ [n]; queues := queues s ++ [S n];
     began := began s |}.

(** The session once [#enqueue] has created its three promises, attached
    the catch and stored the new [#queue], with the two reactions on the
    old [#queue] still to be registered. *)
Definition reserve (o : op) (s : session) : session :=
  let i := length (results s) in
  let n := length (heap s) in
  {| heap := heap s ++
       [fresh (RResult i);
        {| state := None; reactions := [catch_reaction n]; handled := true;
           role_ := RQueueUpdate i |};
        fresh (RCatch i)];
     microtasks := microtasks s; queue := S n; adapter := adapter s;
     operations := operations s ++ [o]; results := results s ++ [n];
     queues := queues s ++ [S n]; began := began s |}.

(** The operations a schedule hands to [#enqueue], in the order of the
    calls. *)
Definition submitted (es : list (@Database.event D))
    : list (@Database.operation D) :=
  omap (fun e => match e with Submit o => Some o | _ => None end) es.

(** The sessions a schedule can reach from a new one. *)
Definition reachable (a0 : BaseDatabase.state) (s : session) : Prop :=
  exists es, s = play es (new_session a0).

End SessionInvariant.

(** *** Progress *)

Section SessionProgress.

Context {D : Type}.

Import Database.

Abbreviation session := (@Database.session D).
Abbreviation handler := (@Database.handler D).
Abbreviation reaction := (@Database.reaction D).
Abbreviation job := (@Database.job D).

(** The promises a closure settles when it runs. *)
Definition handler_mentions (h : handler) (p : pid) : Prop :=
  match h with
  | HResume _ a _ => a = p
  | HResolve q | HReject q => q = p
  | _ => False
  end.

Definition reaction_mentions (r : reaction) (p : pid) : Prop :=
  derived r = Some p
  \/ (handler_mentions (on_fulfilled r) p /\ handler_mentions (on_rejected r) p).

Definition job_mentions (j : job) (p : pid) : Prop :=
  match j with
  | JReaction h _ t => t = Some p \/ handler_mentions h p
  | JThenable q _ => q = p
  end.

(** Something is on its way to [p]: a queued microtask, or a reaction that
    waits on a pending promise. *)
Definition supports (s : session) (p : pid) : Prop :=
  (exists j, In j (microtasks s) /\ job_mentions j p)
  \/ (exists q c r, heap s !! q = Some c /\ state c = None
                    /\ In r (reactions c) /\ reaction_mentions r p).

(** The promises that are settled from outside the session: the one of
    [createDb] and the ones the operations return. *)
Definition external (ro : role) : bool :=
  match ro with
  | RInit | ROperation _ _ => true
  | _ => false
  end.

Definition supported_but (m : pid -> Prop) (s : session) : Prop :=
  forall p c, heap s !! p = Some c -> state c = None ->
    external (role_ c) = false -> m p \/ supports s p.

(** Every pending promise of the session itself has something on its way
    to it. *)
Definition supported (s : session) : Prop := supported_but (fun _ => False) s.

(** A promise returned by an operation has no handler only until the
    microtask that makes the result follow it has run. *)
Definition adopted_but (m : pid -> Prop) (s : session) : Prop :=
  forall p c i fate, heap s !! p = Some c -> role_ c = ROperation i fate ->
    handled c = false -> m p \/ exists t, In (JThenable t p) (microtasks s).

Definition adopted (s : session) : Prop := adopted_but (fun _ => False) s.

(** [s'] is [s] some primitive steps later, none of which takes a microtask
    off the queue. *)
Record advances (s s' : session) : Prop := mk_advances {
  adv_extends : extends s s';
  adv_jobs : forall j, In j (microtasks s) -> In j (microtasks s');
  adv_reactions :
    forall q c r, heap s !! q = Some c -> state c = None -> In r (reactions c) ->
      (exists c', heap s' !! q = Some c' /\ state c' = None
                  /\ In r (reactions c'))
      \/ (exists o, In (reaction_job o r) (microtasks s'));
  adv_handled :
    forall p c c', heap s !! p = Some c -> heap s' !! p = Some c' ->
      handled c = true -> handled c' = true;
}.

(** Nothing is left to run and nothing is awaited from outside. *)
Definition quiescent (s : session) : Prop :=
  microtasks s = []
  /\ forall q c, heap s !! q = Some c -> external (role_ c) = true ->
       state c <> None.

End SessionProgress.
(** * SQL text *)

(** How SQLite reads a string literal once its opening quote is passed:
    the text runs up to the first quote that is not doubled, and a doubled
    quote stands for one. Gives the text and what follows the closing
    quote; a literal that is not closed gives nothing. *)
Fixpoint read_literal (s : string) : option (string * string) :=
  match s with
  | EmptyString => None
  | String c rest =>
      if Ascii.eqb c "'" then
        match rest with
        | String c' rest' =>
            if Ascii.eqb c' "'" then
              match read_literal rest' with
              | Some (text, tail) => Some (String c text, tail)
              | None => None
              end
            else Some (EmptyString, rest)
        | EmptyString => Some (EmptyString, rest)
        end
      else
        match read_literal rest with
        | Some (text, tail) => Some (String c text, tail)
        | None => None
        end
  end.


(** * Parameters and results ([src/utils.ts]) *)

Module Utils.

(** JavaScript values as [transformParams], [transformResult] and
    [BaseStatement] look at them. A [Uint8Array] and a [Buffer] (which is
    one) are told apart by [buffer]; an object is the list of its own
    enumerable properties in the order [for ... in] and [Object.keys]
    give them; numbers are kept integral, the code never computes with
    them. *)
Inductive data :=
| DUndefined
| DNull
| DBoolean (b : bool)
| DNumber (z : Z)
| DBigInt (z : Z)
| DString (s : string)
| DBytes (buffer : bool) (bytes : list Byte.byte)
| DArray (items : list data)
| DObject (fields : list (string * data)).

(** ** Objects *)

(** The key of the array index [n]. *)
Definition index_key (n : N) : string := NilZero.string_of_uint (N.to_uint n).

(** Whether a property key is an array index: the canonical decimal form
    of an integer below [2^32 - 1]. Such keys are enumerated first, in
    ascending order. *)
Definition array_index (k : string) : option N :=
  match NilZero.uint_of_string k with
  | Some u =>
      let n := N.of_uint u in
      if String.eqb (index_key n) k && (n <? 4294967295)%N then Some n
      else None
  | None => None
  end.

(** [o[k]] on a list of properties. *)
Fixpoint field (k : string) (o : list (string * data)) : option data :=
  match o with
  | [] => None
  | (k', v) :: rest => if String.eqb k' k then Some v else field k rest
  end.

Fixpoint replace_field (k : string) (v : data) (o : list (string * data))
    : list (string * data) :=
  match o with
  | [] => []
  | (k', v') :: rest =>
      if String.eqb k' k then (k, v) :: rest
      else (k', v') :: replace_field k v rest
  end.

(** A new array-index property goes before the first property that is no
    array index or is a larger one. *)
Fixpoint insert_index (n : N) (k : string) (v : data)
    (o : list (string * data)) : list (string * data) :=
  match o with
  | [] => [(k, v)]
  | (k', v') :: rest =>
      match array_index k' with
      | Some n' =>
          if (n' <? n)%N then (k', v') :: insert_index n k v rest
          else (k, v) :: o
      | None => (k, v) :: o
      end
  end.

(** Making [k] an own property of [o] with the value [v]: an own property
    keeps its place, a new one is enumerated after the others unless its
    key is an array index. *)
Definition set_own (k : string) (v : data) (o : list (string * data))
    : list (string * data) :=
  match field k o with
  | Some _ => replace_field k v o
  | None =>
      match array_index k with
      | Some n => insert_index n k v o
      | None => o ++ [(k, v)]
      end
  end.

(** [o[k] = v] on an object that was made by [{}] and by such assignments.
    Its prototype is [Object.prototype], whose one accessor is
    [__proto__]: an assignment to that key calls the setter, which makes no
    own property (it gives [o] the prototype [v] when [v] is an object or
    [null] and does nothing else). Every other key becomes an own
    property. Prototypes are not kept in [data], and what a prototype
    other than [Object.prototype] does to the assignments that follow is
    not modelled: the facts about [transformParams] and [transformResult]
    are stated for values without such a key. *)
Definition assign (k : string) (v : data) (o : list (string * data))
    : list (string * data) :=
  if String.eqb k "__proto__" then o else set_own k v o.

(** The elements of an array-like value as properties [0], [1], ... *)
Fixpoint indexed (n : N) (items : list data) : list (string * data) :=
  match items with
  | [] => []
  | x :: rest => (index_key n, x) :: indexed (N.succ n) rest
  end.

Fixpoint characters (s : string) : list data :=
  match s with
  | EmptyString => []
  | String c rest => DString (String c EmptyString) :: characters rest
  end.

Definition byte_number (b : Byte.byte) : data :=
  DNumber (Z.of_N (Byte.to_N b)).

(** The own enumerable properties [for (const key in x)] visits when
    filtered by [hasOwnProperty], which are the ones [Object.keys(x)]
    lists. *)
Definition own_fields (x : data) : list (string * data) :=
  match x with
  | DObject fields => fields
  | DArray items => indexed 0 items
  | DString s => indexed 0 (characters s)
  | DBytes _ bytes => indexed 0 (map byte_number bytes)
  | _ => []
  end.

(** ** [transformParams] *)

(** [p.toString()] of a bigint is [`${p}`]. *)
Definition transformParam (p : data) : data :=
  match p with
  | DBigInt z => DString (js_number z)
  | _ => p
  end.

(** [key.replace(/^[:@$]/, '')] *)
Definition strip_prefix (key : string) : string :=
  match key with
  | String c rest =>
      if Ascii.eqb c ":" || Ascii.eqb c "@" || Ascii.eqb c "$" then rest
      else key
  | EmptyString => key
  end.

Definition transformParams (params : data) (stripPrefixes : bool) : data :=
  match params with
  | DArray items => DArray (map transformParam items)
  | _ =>
      DObject
        (fold_left
           (fun newParams kv =>
              let newKey :=
                if stripPrefixes then strip_prefix (fst kv) else fst kv in
              assign newKey (transformParam (snd kv)) newParams)
           (own_fields params) [])
  end.

(** ** [transformResult] *)

Fixpoint transformResult (res : data) : data :=
  match res with
  | DBytes _ bytes => DBytes true bytes
  | DArray items => DArray (map transformResult items)
  | DObject fields =>
      DObject
        (fold_left
           (fun newRes kv => assign (fst kv) (transformResult (snd kv)) newRes)
           fields [])
  | _ => res
  end.

(** ** Reading values *)

(** Keys that are no array indices, none of them twice. *)
Fixpoint names_only (keys : list string) : bool :=
  match keys with
  | [] => true
  | k :: rest =>
      match array_index k with
      | Some _ => false
      | None => negb (existsb (String.eqb k) rest) && names_only rest
      end
  end.

(** Keys as an ordinary object enumerates them: the array indices from
    [lo] on in ascending order, then the other keys. *)
Fixpoint enumerated_from (lo : N) (keys : list string) : bool :=
  match keys with
  | [] => true
  | k :: rest =>
      match array_index k with
      | Some n => (lo <=? n)%N && enumerated_from (N.succ n) rest
      | None => names_only keys
      end
  end.

Definition enumeration_order (o : list (string * data)) : bool :=
  enumerated_from 0 (map fst o).

(** A value all of whose objects list their properties in the order of
    enumeration; the values of JavaScript are these. *)
Fixpoint well_formed (x : data) : bool :=
  match x with
  | DArray items => forallb well_formed items
  | DObject fields =>
      enumeration_order fields
      && forallb (fun kv => well_formed (snd kv)) fields
  | _ => true
  end.


Definition is_bigint (x : data) : bool :=
  match x with DBigInt _ => true | _ => false end.

(** No object, at any depth, has an own property with the key
    [__proto__]. *)
Fixpoint without_proto (x : data) : bool :=
  match x with
  | DArray items => forallb without_proto items
  | DObject fields =>
      forallb
        (fun kv => negb (String.eqb (fst kv) "__proto__")
                   && without_proto (snd kv))
        fields
  | _ => true
  end.

(** The properties of [o] but the one with the key [__proto__]. *)
Definition but_proto (o : list (string * data)) : list (string * data) :=
  List.filter (fun kv => negb (String.eqb (fst kv) "__proto__")) o.

(** The last of the properties whose key becomes [k] under [f]. *)
Definition last_field (f : string -> string) (k : string)
    (o : list (string * data)) : option data :=
  field k (map (fun kv => (f (fst kv), snd kv)) (rev o)).

End Utils.

(** * Prepared statements ([src/statement.ts]) *)

Module Statement.

Import Utils.

Section BaseStatement.

(** The state of the driver, which a call on a driver statement reads and
    changes. *)
Context {Engine : Type}.

(** The driver's statement object [_statement]: its [run] gives
    [lastInsertRowid] and [changes], its [get] a row, [null] or
    [undefined], its [all] the rows; each may throw. [columns] is there on
    better-sqlite3 and node:sqlite, [columnNames] and [declaredTypes] on
    bun:sqlite, the latter only once the statement has run. *)
Record raw := mk_raw {
  raw_run : list data -> Engine -> settled (data * data) * Engine;
  raw_get : list data -> Engine -> settled data * Engine;
  raw_all : list data -> Engine -> settled (list data) * Engine;
  raw_columns : option (Engine -> settled data * Engine);
  raw_columnNames : option (list string);
  raw_declaredTypes : Engine -> option (list (option string));
}.

(** The fields of [BaseStatement]. *)
Record statement := mk_statement {
  _statement : raw;
  stripPrefixes : bool;
  isPlucked : bool;
}.

(** [new BaseStatement(statement, stripPrefixes)] *)
Definition create (driver_statement : raw) (strip : bool) : statement :=
  {| _statement := driver_statement; stripPrefixes := strip;
     isPlucked := false |}.

(** [pluck(toggle)] writes the field and returns the statement. *)
Definition pluck (toggle : bool) (st : statement) : statement :=
  {| _statement := _statement st; stripPrefixes := stripPrefixes st;
     isPlucked := toggle |}.

(** [#transformPlucked(row)]: arrays and byte arrays are objects too. *)
Definition transformPlucked (row : data) : data :=
  match row with
  | DObject _ | DArray _ | DBytes _ _ =>
      match own_fields row with
      | (_, v) :: _ => v
      | [] => DUndefined
      end
  | _ => DUndefined
  end.

(** [params = []] and
    [...(Array.isArray(finalParams) ? finalParams : [finalParams])] *)
Definition arguments (params : data) (st : statement) : list data :=
  let finalParams :=
    transformParams
      (match params with DUndefined => DArray [] | _ => params end)
      (stripPrefixes st) in
  match finalParams with
  | DArray items => items
  | _ => [finalParams]
  end.

Definition run (params : data) (st : statement) (s : Engine)
    : settled data * Engine :=
  match raw_run (_statement st) (arguments params st) s with
  | (Resolved (lastInsertRowid, changes), s') =>
      (Resolved (DObject [("lastID", lastInsertRowid); ("changes", changes)]),
       s')
  | (Rejected err, s') => (Rejected err, s')
  end.

Definition get (params : data) (st : statement) (s : Engine)
    : settled data * Engine :=
  match raw_get (_statement st) (arguments params st) s with
  | (Resolved result, s') =>
      match result with
      | DNull | DUndefined => (Resolved DUndefined, s')
      | _ =>
          if isPlucked st then (Resolved (transformPlucked result), s')
          else (Resolved (transformResult result), s')
      end
  | (Rejected err, s') => (Rejected err, s')
  end.

Definition all (params : data) (st : statement) (s : Engine)
    : settled data * Engine :=
  match raw_all (_statement st) (arguments params st) s with
  | (Resolved result, s') =>
      if isPlucked st then (Resolved (DArray (map transformPlucked result)), s')
      else (Resolved (transformResult (DArray result)), s')
  | (Rejected err, s') => (Rejected err, s')
  end.

(** One [ColumnDefinition] of the bun:sqlite branch of [columns()]:
    [declaredTypes?.[i] ?? null]. *)
Definition column_definition (declaredTypes : option (list (option string)))
    (i : nat) (name : string) : data :=
  DObject
    [("name", DString name); ("column", DNull); ("table", DNull);
     ("database", DNull);
     ("type",
      match declaredTypes with
      | Some types =>
          match nth_error types i with
          | Some (Some t) => DString t
          | _ => DNull
          end
      | None => DNull
      end)].

Fixpoint column_definitions (declaredTypes : option (list (option string)))
    (i : nat) (names : list string) : list data :=
  match names with
  | [] => []
  | name :: rest =>
      column_definition declaredTypes i name
        :: column_definitions declaredTypes (i + 1)%nat rest
  end.

Definition columns (st : statement) (s : Engine)
    : settled data * Engine :=
  match raw_columns (_statement st) with
  | Some driver_columns => driver_columns s
  | None =>
      match raw_columnNames (_statement st) with
      | Some columnNames =>
          let s' :=
            match raw_declaredTypes (_statement st) s with
            | Some _ => s
            | None => snd (raw_get (_statement st) [] s)
            end in
          (Resolved
             (DArray
                (column_definitions (raw_declaredTypes (_statement st) s')
                   0 columnNames)),
           s')
      | None =>
          (Rejected
             (VError "Could not retrieve column information for the statement."),
           s)
      end
  end.

End BaseStatement.

(** A statement of a driver whose state is the list of the calls made on
    it: [get] finds one row with a text and a blob column, and the
    declared types are known once [get] has been called, which fails when
    it is called without arguments. *)
Definition sample_row : data :=
  DObject [("data", DBytes false [Byte.x6f; Byte.x6e; Byte.x65]); ("name", DString "one")].

Definition bun_like : @raw (list (list data)) :=
  {| raw_run := fun args s => (Resolved (DNumber 1, DNumber 1), s ++ [args]);
     raw_get := fun args s =>
       (match args with
        | [] => Rejected (VError "expected 1 argument")
        | _ => Resolved sample_row
        end, s ++ [args]);
     raw_all := fun args s => (Resolved [sample_row], s ++ [args]);
     raw_columns := None;
     raw_columnNames := Some ["data"; "name"];
     raw_declaredTypes := fun s =>
       match s with
       | [] => None
       | _ => Some [Some "BLOB"; None]
       end |}.

End Statement.

(** * Choosing and loading a driver ([src/loader.ts], [getRuntime]) *)

Module Loader.

(** ** The host *)

(** [filename: string | Buffer] *)
Inductive source :=
| File (filename : string)
| Buffer (bytes : list Byte.byte).

(** The three driver modules. *)
Inductive driver_name := NodeSqlite | BunSqlite | BetterSqlite3.

Definition module_name (d : driver_name) : string :=
  match d with
  | NodeSqlite => "node:sqlite"
  | BunSqlite => "bun:sqlite"
  | BetterSqlite3 => "better-sqlite3"
  end.

(** [DatabaseOptions]; [None] is a field that is not given. *)
Record options := mk_options {
  driver : option string;
  readOnly : option bool;
  busyTimeout : option Z;
  enableForeignKeyConstraints : option bool;
  safeIntegers : option bool;
  returnArrays : option bool;
}.

(** [options: DatabaseOptions = {}] *)
Definition no_options : options :=
  {| driver := None; readOnly := None; busyTimeout := None;
     enableForeignKeyConstraints := None; safeIntegers := None;
     returnArrays := None |}.

(** The options object a driver's constructor is given; [None] is a
    field that is [undefined] or left out. *)
Record open_options := mk_open_options {
  open_readonly : option bool;
  open_timeout : option Z;
  open_foreign_keys : option bool;
  open_safe_integers : option bool;
  open_arrays : option bool;
}.

(** What a loader asks of the host: a dynamic import, a file operation,
    a constructor of a driver, and on the database it has opened
    [db.pragma('foreign_keys = ON')] (better-sqlite3),
    [db.exec('PRAGMA foreign_keys = ON')] (the bun adapter),
    [tempDb.serialize()] and [tempDb.close()]. *)
Inductive action :=
| Import (module : string)
| WriteFile (path : string) (bytes : list Byte.byte)
| Unlink (path : string)
| Open (d : driver_name) (from : source) (o : option open_options)
| Pragma (sql : string)
| Exec (sql : string)
| Serialize
| Close.

(** The adapter class that wraps the opened database. *)
Inductive adapter :=
| NodeSqliteDatabase | BunSqliteDatabase | BetterSqlite3Database.

Section Host.

(** The world outside: each action succeeds, giving bytes where it gives
    any, or throws, and changes the world; [now] is [Date.now()];
    [in_tmpdir name] is [join(tmpdir(), name)];
    [globalThis.Bun] is there or not; [reference_error] is what the
    engine throws when it evaluates the identifier [process] and no such
    global is declared (a ReferenceError), [type_error] what it throws
    when a property of [undefined] is read (a TypeError). *)
Context {W : Type}.
Variable host : action -> W -> settled (list Byte.byte) * W.
Variable now : W -> Z.
Variable in_tmpdir : string -> string.
Variable reference_error : value.
Variable type_error : value.

(** The global [process]: not declared at all; declared and [undefined] or
    [null]; or an object, whose [env] is missing or holds the value of
    [ISOMORPHIC_SQLITE_DRIVER] when the variable is set. A [process] that
    holds a value of another kind is not considered. *)
Inductive process_global :=
| Undeclared
| Nullish
| Process (env : option (option string)).

Record globals := mk_globals {
  Bun : bool;
  process : process_global;
}.

(** A computation on the host, with the actions it has asked for so far. *)
Definition IO (A : Type) := W * list action -> settled A * (W * list action).

Definition ret {A} (a : A) : IO A := fun w => (Resolved a, w).
Definition throw {A} (reason : value) : IO A := fun w => (Rejected reason, w).
Definition bind {A B} (m : IO A) (k : A -> IO B) : IO B :=
  fun w => match m w with
           | (Resolved a, w') => k a w'
           | (Rejected e, w') => (Rejected e, w')
           end.

Notation "'let*' x ':=' m 'in' k" := (bind m (fun x => k))
  (at level 10, x name, m at level 100, k at level 200).
Notation "m ';;' k" := (bind m (fun _ => k))
  (at level 100, k at level 200, right associativity).

Definition perform (a : action) : IO (list Byte.byte) :=
  fun w => let (r, w') := host a (fst w) in (r, (w', snd w ++ [a])).

Definition date_now : IO Z := fun w => (Resolved (now (fst w)), w).

(** [try { m } catch { handler }] *)
Definition try_catch {A} (m : IO A) (handler : IO A) : IO A :=
  fun w => match m w with
           | (Resolved a, w') => (Resolved a, w')
           | (Rejected _, w') => handler w'
           end.

(** [try { m } finally { await unlink(tempFile).catch(() => {}) }] *)
Definition finally_unlink {A} (m : IO A) (tempFile : string) : IO A :=
  fun w => let (r, w') := m w in
           let (_, w'') := perform (Unlink tempFile) w' in
           (r, w'').

(** ** [getRuntime] *)

Inductive runtime := bun | node | unknown.

Definition getRuntime (g : globals) : runtime :=
  if Bun g then bun
  else match process g with
       | Process _ => node
       | Undeclared | Nullish => unknown
       end.

(** ** The loaders *)

Definition node_options (o : options) : open_options :=
  {| open_readonly := readOnly o; open_timeout := busyTimeout o;
     open_foreign_keys := enableForeignKeyConstraints o;
     open_safe_integers := None; open_arrays := returnArrays o |}.

Definition loadNodeSqlite (filename : source) (o : options) : IO adapter :=
  perform (Import "node:sqlite") ;;
  match filename with
  | Buffer bytes =>
      let* t := date_now in
      let tempFile :=
        in_tmpdir ("isomorphic-sqlite-deserialize-" +:+ js_number t +:+ ".db") in
      finally_unlink
        (perform (WriteFile tempFile bytes) ;;
         perform (Open NodeSqlite (File tempFile) (Some (node_options o))) ;;
         ret NodeSqliteDatabase)
        tempFile
  | File _ =>
      perform (Open NodeSqlite filename (Some (node_options o))) ;;
      ret NodeSqliteDatabase
  end.

Definition is_true (b : option bool) : bool :=
  match b with Some true => true | _ => false end.

(** [x ?? true] *)
Definition default_true (b : option bool) : bool :=
  match b with Some b => b | None => true end.

Definition is_memory (filename : source) : bool :=
  match filename with
  | File name => String.eqb name ":memory:"
  | Buffer _ => false
  end.

Definition better_options (o : options) : open_options :=
  {| open_readonly := Some (match readOnly o with Some b => b | None => false end);
     open_timeout := busyTimeout o; open_foreign_keys := None;
     open_safe_integers := None; open_arrays := None |}.

(** [loadBetterSqlite3] after its import and its in-memory workaround. *)
Definition openBetterSqlite3 (filename : source) (o : options) : IO adapter :=
  perform (Open BetterSqlite3 filename (Some (better_options o))) ;;
  (if default_true (enableForeignKeyConstraints o)
   then perform (Pragma "foreign_keys = ON") ;; ret tt
   else ret tt) ;;
  ret BetterSqlite3Database.

Definition loadBetterSqlite3 (filename : source) (o : options) : IO adapter :=
  perform (Import "better-sqlite3") ;;
  if is_memory filename && is_true (readOnly o) then
    perform (Open BetterSqlite3 (File ":memory:") None) ;;
    let* buffer := perform Serialize in
    perform Close ;;
    (* [loadBetterSqlite3(buffer, options)] *)
    perform (Import "better-sqlite3") ;;
    openBetterSqlite3 (Buffer buffer) o
  else openBetterSqlite3 filename o.

Definition bun_options (o : options) : open_options :=
  {| open_readonly := readOnly o; open_timeout := None;
     open_foreign_keys := None; open_safe_integers := safeIntegers o;
     open_arrays := None |}.

(** [loadBunSqlite] on a buffer, after its import. *)
Definition openBunBuffer (bytes : list Byte.byte) (o : options) : IO adapter :=
  let* t := date_now in
  let tempFile :=
    in_tmpdir ("isomorphic-sqlite-deserialize-bun-" +:+ js_number t +:+ ".db") in
  finally_unlink
    (perform (WriteFile tempFile bytes) ;;
     perform (Open BunSqlite (File tempFile) (Some (bun_options o))) ;;
     ret BunSqliteDatabase)
    tempFile.

Definition loadBunSqlite (filename : source) (o : options) : IO adapter :=
  perform (Import "bun:sqlite") ;;
  match filename with
  | Buffer bytes => openBunBuffer bytes o
  | File _ =>
      if is_memory filename && is_true (readOnly o) then
        perform (Open BunSqlite (File ":memory:") None) ;;
        let* buffer := perform Serialize in
        perform Close ;;
        (* [loadBunSqlite(buffer, options)] *)
        perform (Import "bun:sqlite") ;;
        openBunBuffer buffer o
      else
        perform (Open BunSqlite filename (Some (bun_options o))) ;;
        (if default_true (enableForeignKeyConstraints o)
         then perform (Exec "PRAGMA foreign_keys = ON") ;; ret tt
         else ret tt) ;;
        ret BunSqliteDatabase
  end.

(** ** [createDb] *)

Definition load (d : driver_name) : source -> options -> IO adapter :=
  match d with
  | NodeSqlite => loadNodeSqlite
  | BunSqlite => loadBunSqlite
  | BetterSqlite3 => loadBetterSqlite3
  end.

(** The [case] labels of the [switch]. *)
Definition named (name : string) : option driver_name :=
  if String.eqb name "node:sqlite" then Some NodeSqlite
  else if String.eqb name "bun:sqlite" then Some BunSqlite
  else if String.eqb name "better-sqlite3" then Some BetterSqlite3
  else None.

(** [options.driver ?? process?.env['ISOMORPHIC_SQLITE_DRIVER']]: the
    right-hand side is evaluated only when [options.driver] is [undefined]
    or [null], and then the identifier [process] is looked up. *)
Definition chosen (g : globals) (o : options) : settled (option string) :=
  match driver o with
  | Some name => Resolved (Some name)
  | None => match process g with
            | Undeclared => Rejected reference_error
            | Nullish => Resolved None
            | Process None => Rejected type_error
            | Process (Some variable) => Resolved variable
            end
  end.

Definition createDb (g : globals) (filename : source) (o : options)
    : IO adapter :=
  match chosen g o with
  | Rejected thrown => throw thrown
  | Resolved (Some (String c rest as name)) =>
      match named name with
      | Some d => load d filename o
      | None => throw (VError ("Unknown driver: " +:+ name))
      end
  | Resolved _ =>
      match getRuntime g with
      | bun =>
          try_catch (loadBunSqlite filename o)
            (try_catch (loadBetterSqlite3 filename o)
               (throw (VError "No SQLite driver found. Please install `better-sqlite3` as a dependency.")))
      | node =>
          try_catch (loadNodeSqlite filename o)
            (try_catch (loadBetterSqlite3 filename o)
               (throw (VError "No SQLite driver found. Please install `better-sqlite3` or use a Node.js version with built-in `node:sqlite`.")))
      | unknown =>
          throw (VError "Unsupported runtime. Could not determine how to load a SQLite driver.")
      end
  end.

End Host.

(** ** Reading a journal *)

(** [m] adds to the journal, and what it adds satisfies [P]. *)
Definition emits {W A : Type} (P : list action -> Prop) (m : @IO W A)
    : Prop :=
  forall w, exists ext, snd (snd (m w)) = snd w ++ ext /\ P ext.

(** The modules imported, in order. *)
Definition imports (j : list action) : list string :=
  omap (fun a => match a with Import m => Some m | _ => None end) j.

(** Every file that is written is unlinked afterwards. *)
Fixpoint cleans_up (j : list action) : Prop :=
  match j with
  | [] => True
  | WriteFile path _ :: rest => In (Unlink path) rest /\ cleans_up rest
  | _ :: rest => cleans_up rest
  end.

(** No file is written but [t]. *)
Definition writes_only (t : string) (j : list action) : Prop :=
  Forall (fun a => match a with WriteFile path _ => path = t | _ => True end) j.

Definition writes_nothing (j : list action) : Prop :=
  Forall (fun a => match a with WriteFile _ _ => False | _ => True end) j.

(** ** Sample hosts *)

(** A host without any of the modules: every import fails. *)
Definition bare_host (a : action) (w : unit)
    : settled (list Byte.byte) * unit :=
  match a with
  | Import m => (Rejected (VError ("Cannot find module " +:+ m)), w)
  | _ => (Resolved [], w)
  end.

(** A host on which everything succeeds but opening a database. *)
Definition unopenable_host (a : action) (w : unit)
    : settled (list Byte.byte) * unit :=
  match a with
  | Open _ _ _ => (Rejected (VError "unable to open database file"), w)
  | _ => (Resolved [], w)
  end.

(** A host on which everything succeeds. *)
Definition willing_host (a : action) (w : unit)
    : settled (list Byte.byte) * unit :=
  (Resolved [], w).

Definition epoch (w : unit) : Z := 0.

Definition in_tmp (name : string) : string := "/tmp/" +:+ name.

(** Node.js without [ISOMORPHIC_SQLITE_DRIVER]. *)
Definition plain_node : globals :=
  {| Bun := false; process := Process (Some None) |}.

(** A page in a browser: no [Bun], no [process]. *)
Definition browser : globals := {| Bun := false; process := Undeclared |}.

End Loader.

(** * Calls in progress side by side *)

(** [createTransactional] is an [async] function: between two of its
    [await]s other code of the program runs, and a body may start a second
    attempt on its handle before the first one has settled. Here a started
    call is a task that is taken up again, turn by turn, where it awaits;
    the code between two [await]s runs on the adapter in one piece. *)

Module Interleaved.

Import BaseDatabase.

Section Tasks.

Context {D : Type}.
Variable driver : driver_call -> D -> settled value * D.
Variable now : D -> Z.
Variable in_tmpdir : string -> string.
Variable cls : adapter_class.

(** A call that has been started: it has settled; or it awaits a promise
    that is settled already and goes on at its next turn; or it awaits a
    call that is itself in progress; or it awaits
    [Promise.allSettled(children)]. *)
Inductive task : Type :=
| Settled (r : settled value)
| Waiting (resume : @state D -> task * @state D)
| Awaiting (child : task) (k : settled value -> @state D -> task * @state D)
| Joining (children : list task) (k : @state D -> task * @state D).

Definition is_settled (t : task) : bool :=
  match t with Settled _ => true | _ => false end.

(** The [catch] block of [createTransactional], for the attempt that
    captured [depth]. *)
Definition catch (depth : Z) (err : value) (s : state) : task * state :=
  if transactionDepth s >? 0 then
    let (r, s1) := exec_as driver Manager (rollback_sql depth) s in
    (Waiting (fun s2 =>
                match r with
                | Resolved _ => (Settled (Rejected err), with_depth depth s2)
                | Rejected refusal => (Settled (Rejected refusal), s2)
                end), s1)
  else (Settled (Rejected err), with_depth depth s).

(** [createTransactional(mode)(...)], called: it reads the depth, asks the
    driver to open the frame and awaits; [fn], once called, is a task. *)
Definition started (m : mode) (fn : state -> task * state) (s : state)
    : task * state :=
  let depth := transactionDepth s in
  let (opened, s1) := exec_as driver Manager (open_sql m depth) s in
  (Waiting
     (fun s2 =>
        match opened with
        | Rejected e => catch depth e s2
        | Resolved _ =>
            let (t, s3) := fn (with_depth (transactionDepth s2 + 1) s2) in
            (Awaiting t
               (fun outcome s4 =>
                  match outcome with
                  | Rejected e => catch depth e s4
                  | Resolved result =>
                      let (closed, s5) :=
                        exec_as driver Manager (close_sql depth)
                          (with_depth (transactionDepth s4 - 1) s4) in
                      (Waiting
                         (fun s6 =>
                            match closed with
                            | Rejected e => catch depth e s6
                            | Resolved _ => (Settled (Resolved result), s6)
                            end), s5)
                  end), s3)
        end), s1).

(** A body that awaits each of its calls, called. A method is taken as
    one step on the adapter at the time of the call. *)
Fixpoint start (b : body) (s : state) : task * state :=
  match b with
  | Return v => (Settled (Resolved v), s)
  | Throw v => (Settled (Rejected v), s)
  | Await c k =>
      let (o, s') := tx_method driver now in_tmpdir cls c s in
      (Waiting (start (k o)), s')
  | Nested m inner k =>
      let (t, s') := started m (start inner) s in
      (Awaiting t (fun o => start (k o)), s')
  end.

(** A body that may start attempts side by side:
    [await Promise.allSettled([tx.transaction(f1)(), tx.transaction(f2)(),
    ...])], each of [f1], [f2], ... a body that awaits its calls, and then
    [next]. *)
Inductive script :=
| Plainly (b : body)
| AllSettled (attempts : list (mode * body)) (next : body).

Fixpoint start_all (attempts : list (mode * body)) (s : state)
    : list task * state :=
  match attempts with
  | [] => ([], s)
  | (m, fn) :: rest =>
      let (t, s1) := started m (start fn) s in
      let (ts, s2) := start_all rest s1 in
      (t :: ts, s2)
  end.

Definition start_script (sc : script) (s : state) : task * state :=
  match sc with
  | Plainly b => start b s
  | AllSettled attempts next =>
      let (ts, s') := start_all attempts s in
      (Joining ts (start next), s')
  end.

(** One round: every task that can go on is given one turn, in the order
    in which the tasks were started; a task that awaits another goes on in
    the round after the one in which that has settled. The job queue of
    the host takes up the jobs in the order in which they were queued,
    which is this order where an [await] costs one job; where handing
    over an outcome costs more jobs, as in [Promise.allSettled], the host
    takes the task up that much later than a round does. *)
Fixpoint round (t : task) (s : state) : task * state :=
  match t with
  | Settled r => (t, s)
  | Waiting resume => resume s
  | Awaiting child k =>
      match child with
      | Settled r => k r s
      | _ => let (child', s') := round child s in (Awaiting child' k, s')
      end
  | Joining children k =>
      if forallb is_settled children then k s
      else
        let (children', s') :=
          (fix each (ts : list task) (s : state) : list task * state :=
             match ts with
             | [] => ([], s)
             | t :: rest =>
                 let (t', s1) := round t s in
                 let (rest', s2) := each rest s1 in
                 (t' :: rest', s2)
             end) children s in
        (Joining children' k, s')
  end.

Fixpoint rounds (n : nat) (t : task) (s : state) : task * state :=
  match n with
  | O => (t, s)
  | S n => let (t', s') := round t s in rounds n t' s'
  end.

(** [t], taken up at [s], settles with [r] and leaves the adapter in
    [s']. *)
Definition settles (t : task) (s : state) (r : settled value) (s' : state)
    : Prop :=
  exists n, rounds n t s = (Settled r, s').

End Tasks.

(** [db.transaction(async (tx) => { await Promise.allSettled([
      tx.transaction(async () => { throw 'a string error'; })(),
      tx.transaction(async (t) => { await t.exec(one); await t.exec(two);
                                    await t.exec(three); })() ]); })] *)
Definition side_by_side : script :=
  AllSettled
    [(Plain, Throw (VString "a string error"));
     (Plain,
      Await (TxExec "INSERT INTO test (name) VALUES ('one')") (fun _ =>
      Await (TxExec "INSERT INTO test (name) VALUES ('two')") (fun _ =>
      Await (TxExec "INSERT INTO test (name) VALUES ('three')") (fun _ =>
      Return VUndefined))))]
    (Return VUndefined).

End Interleaved.

(** * The transaction manager *)

(** ** Journals *)

Lemma open_frames_app (a b : list entry) :
  open_frames (a ++ b) = open_frames a + open_frames b.
Proof.
  unfold open_frames. induction a as [|e a IH]; simpl; [lia|].
  rewrite IH. lia.
Qed.

Lemma depth_of_app (d : Z) (a b : list entry) :
  depth_of d (a ++ b) = depth_of (depth_of d a) b.
Proof. unfold depth_of. apply foldl_app. Qed.

Lemma tracks_app (a b : list entry) : forall d f,
  tracks d f (a ++ b) <->
  tracks d f a /\ tracks (depth_of d a) (f + open_frames a) b.
Proof.
  induction a as [|e a IH]; intros d f.
  - change (open_frames []) with 0. rewrite Z.add_0_r. simpl. tauto.
  - change ((e :: a) ++ b) with (e :: (a ++ b)).
    cbn [tracks]. rewrite IH.
    replace (f + open_frames (e :: a))
      with (f + frame_delta e + open_frames a)
      by (unfold open_frames; simpl; lia).
    change (depth_of d (e :: a)) with (depth_of (depth_of d [e]) a).
    tauto.
Qed.

Lemma bounded_below_weaken (d d' : Z) (j : list entry) :
  d' <= d -> bounded_below d j -> bounded_below d' j.
Proof.
  intros Hd H. unfold bounded_below in *.
  eapply Forall_impl; [exact H|]. intros [|z]; simpl; [tauto|lia].
Qed.

Lemma manager_succeeded_app (a b : list entry) :
  manager_succeeded (a ++ b) <-> manager_succeeded a /\ manager_succeeded b.
Proof.
  unfold manager_succeeded. split.
  - intros H. split; intros c ok Hin; apply (H c ok), in_or_app; auto.
  - intros [Ha Hb] c ok Hin. apply in_app_or in Hin as [Hin|Hin]; eauto.
Qed.

Lemma bounded_below_app (d : Z) (a b : list entry) :
  bounded_below d (a ++ b) <-> bounded_below d a /\ bounded_below d b.
Proof. apply Forall_app. Qed.

Lemma depth_of_floor (d d0 : Z) (j : list entry) :
  bounded_below d j -> d <= d0 ->
  forall pre post, j = pre ++ post -> d <= depth_of d0 pre.
Proof.
  intros B Hd pre. revert d0 Hd j B.
  induction pre as [|e pre IH]; intros d0 Hd j B post ->.
  - exact Hd.
  - apply Forall_cons in B as [He B].
    change (depth_of d0 (e :: pre)) with (depth_of (depth_of d0 [e]) pre).
    apply (IH (depth_of d0 [e])) with (j := pre ++ post) (post := post);
      [destruct e; simpl in *; lia | exact B | reflexivity].
Qed.

Lemma tracks_gap (j : list entry) : forall d f,
  tracks d f j -> Z.abs (d - f) <= 1 ->
  Z.abs (depth_of d j - (f + open_frames j)) <= 1.
Proof.
  induction j as [|e j IH]; intros d f T G.
  - change (open_frames []) with 0. simpl. lia.
  - destruct T as (_ & G' & T).
    specialize (IH _ _ T G').
    change (depth_of d (e :: j)) with (depth_of (depth_of d [e]) j).
    replace (f + open_frames (e :: j)) with (f + frame_delta e + open_frames j)
      by (unfold open_frames; simpl; lia).
    exact IH.
Qed.

Section TransactionManager.

Context {D : Type}.
Variable driver : driver_call -> D -> settled value * D.
Variable now : D -> Z.
Variable in_tmpdir : string -> string.
Variable cls : adapter_class.

Import BaseDatabase.

(** ** The paths through an attempt *)

Lemma exec_as_run who sql (s : state) :
  exec_as driver who sql s =
  (match fst (driver (DbExec sql) (_db s)) with
   | Resolved _ => Resolved VUndefined
   | Rejected e => Rejected e
   end,
   {| _db := snd (driver (DbExec sql) (_db s));
      transactionDepth := transactionDepth s;
      isClosed := isClosed s;
      journal := journal s ++
        [Issued who (DbExec sql) (is_resolved (fst (driver (DbExec sql) (_db s))))] |}).
Proof.
  unfold exec_as, bind, call_driver, ret.
  destruct (driver (DbExec sql) (_db s)) as [[v|e] d']; reflexivity.
Qed.

Lemma createTransactional_paths m (fn : Async value) (s : state) :
  createTransactional driver m fn s =
  let depth := transactionDepth s in
  match exec_as driver Manager (open_sql m depth) s with
  | (Rejected e, s1) => on_failure driver depth e s1
  | (Resolved _, s1) =>
      match fn (with_depth (transactionDepth s1 + 1) s1) with
      | (Rejected e, s3) => on_failure driver depth e s3
      | (Resolved result, s3) =>
          match exec_as driver Manager (close_sql depth)
                  (with_depth (transactionDepth s3 - 1) s3) with
          | (Rejected e, s5) => on_failure driver depth e s5
          | (Resolved _, s5) => (Resolved result, s5)
          end
      end
  end.
Proof.
  unfold createTransactional, on_failure, open_sql, close_sql, rollback_sql,
    savepoint_name, with_depth.
  unfold try_catch, bind, get_depth, set_depth, ret, throw. simpl.
  destruct (transactionDepth s =? 0) eqn:Hd.
  all: repeat (case_match; simpl in *; simplify_eq); try reflexivity.
Qed.

Lemma caller_only_ret {A} (a : A) : caller_only (@ret D A a).
Proof. intros s. exists []. simpl. rewrite app_nil_r. auto. Qed.

Lemma caller_only_throw {A} e : caller_only (@throw D A e).
Proof. intros s. exists []. simpl. rewrite app_nil_r. auto. Qed.

Lemma caller_only_call c : caller_only (call_driver driver Caller c).
Proof.
  intros s. unfold call_driver.
  destruct (driver c (_db s)) as [r d']. simpl.
  eexists. split; [reflexivity|]. split; [|reflexivity].
  constructor; [eauto|constructor].
Qed.

Lemma caller_only_bind {A B} (m : @Async D A) (k : A -> @Async D B) :
  caller_only m -> (forall a, caller_only (k a)) -> caller_only (bind m k).
Proof.
  intros Hm Hk s. unfold bind.
  destruct (Hm s) as (e1 & J1 & F1 & D1).
  destruct (m s) as [[a|e] s1]; simpl in *.
  - destruct (Hk a s1) as (e2 & J2 & F2 & D2).
    exists (e1 ++ e2). rewrite J2, J1, D2, D1, app_assoc.
    split; [reflexivity|]. split; [|reflexivity]. apply Forall_app; auto.
  - exists e1. auto.
Qed.

Lemma caller_only_close : caller_only (close driver).
Proof.
  intros s. unfold close. destruct (isClosed s).
  - exists []. simpl. rewrite app_nil_r. auto.
  - unfold call_driver. destruct (driver DbClose (_db s)) as [[v|e] d'];
      simpl; eexists; (split; [reflexivity|]);
      (split; [|reflexivity]); (constructor; [eauto|constructor]).
Qed.

Lemma caller_only_finally {A} (m : @Async D A) tempFile :
  caller_only m -> caller_only (finally_unlink driver m tempFile).
Proof.
  intros Hm s. unfold finally_unlink.
  destruct (Hm s) as (e1 & J1 & F1 & D1).
  destruct (m s) as [r s1]; simpl in *.
  destruct (caller_only_call (FsUnlink tempFile) s1) as (e2 & J2 & F2 & D2).
  destruct (call_driver driver Caller (FsUnlink tempFile) s1) as [r2 s2];
    simpl in *.
  exists (e1 ++ e2). rewrite J2, J1, D2, D1, app_assoc.
  split; [reflexivity|]. split; [|reflexivity]. apply Forall_app; auto.
Qed.

Lemma caller_only_tx_method c :
  caller_only (tx_method driver now in_tmpdir cls c).
Proof.
  destruct c; destruct cls; simpl;
    unfold run, get, all, this_prepare, prepare, exec, exec_as, function,
      aggregate, loadExtension, pragma, attach, raw, begin, commit, rollback,
      stmt_run, stmt_get, stmt_all, exec, exec_as,
      NodeSqliteDatabase_backup, BunSqliteDatabase_backup,
      BunSqliteDatabase_serialize, BunSqliteDatabase_function,
      BunSqliteDatabase_aggregate, BetterSqlite3Database_prepare,
      BetterSqlite3Database_backup, BetterSqlite3Database_pragma,
      BetterSqlite3Database_serialize, get, all, this_prepare, prepare,
      BetterSqlite3Database_prepare, raw;
    try (intros s; unfold NodeSqliteDatabase_serialize,
           NodeSqliteDatabase_backup, raw;
         apply caller_only_finally);
    repeat first
      [ apply caller_only_call | apply caller_only_ret
      | apply caller_only_throw | apply caller_only_close
      | apply caller_only_bind; [|intros ?] | case_match ].
Qed.

Lemma exec_as_effect who sql (s : state) :
  let r := exec_as driver who sql s in
  journal (snd r) = journal s ++ [Issued who (DbExec sql) (is_resolved (fst r))]
  /\ transactionDepth (snd r) = transactionDepth s.
Proof.
  rewrite exec_as_run. simpl.
  destruct (fst (driver (DbExec sql) (_db s))); auto.
Qed.

Lemma with_depth_effect z (s : @state D) :
  journal (with_depth z s) = journal s ++ [DepthSet z]
  /\ transactionDepth (with_depth z s) = z.
Proof. split; reflexivity. Qed.

Lemma on_failure_effect depth err (s : state) :
  let r := on_failure driver depth err s in
  (transactionDepth s > 0 /\
   ((fst r = Rejected err /\ transactionDepth (snd r) = depth /\
     journal (snd r) = journal s ++
       [Issued Manager (DbExec (rollback_sql depth)) true; DepthSet depth])
    \/ (transactionDepth (snd r) = transactionDepth s /\
        journal (snd r) = journal s ++
          [Issued Manager (DbExec (rollback_sql depth)) false])))
  \/ (transactionDepth s <= 0 /\ fst r = Rejected err /\
      transactionDepth (snd r) = depth /\
      journal (snd r) = journal s ++ [DepthSet depth]).
Proof.
  unfold on_failure. destruct (transactionDepth s >? 0) eqn:Hd.
  - left. split; [lia|].
    destruct (exec_as_effect Manager (rollback_sql depth) s) as [J E].
    destruct (exec_as driver Manager (rollback_sql depth) s) as [[v|e] s'];
      simpl in *.
    + left. rewrite J, <- app_assoc. auto.
    + right. auto.
  - right. split; [lia|]. simpl. auto.
Qed.


Lemma caller_only_keeps_floor {A} (m : @Async D A) :
  caller_only m -> keeps_floor m.
Proof.
  intros H s. destruct (H s) as (ext & J & F & E).
  split; [lia|]. exists ext. split; [exact J|].
  eapply Forall_impl; [exact F|]. intros e (c & ok & ->). exact I.
Qed.

Lemma on_failure_floor depth err (s : state) :
  depth <= transactionDepth s ->
  depth <= transactionDepth (snd (on_failure driver depth err s))
  /\ exists ext,
       journal (snd (on_failure driver depth err s)) = journal s ++ ext
       /\ bounded_below depth ext.
Proof.
  intros Hle.
  destruct (on_failure_effect depth err s)
    as [(Hd & [(_ & E & J)|(E & J)])|(Hd & _ & E & J)];
    cbv zeta in *; rewrite E, J; (split; [lia|]); eexists; (split; [reflexivity|]);
    repeat constructor; lia.
Qed.

Ltac bounded :=
  rewrite ?bounded_below_app; repeat split;
  first
    [ assumption
    | solve [repeat constructor; lia]
    | match goal with
      | B : bounded_below _ ?x |- bounded_below _ ?x =>
          refine (bounded_below_weaken _ _ _ _ B); lia
      end ].

Lemma createTransactional_keeps_floor m (fn : Async value) :
  keeps_floor fn -> keeps_floor (createTransactional driver m fn).
Proof.
  intros Hfn s. rewrite createTransactional_paths. cbv zeta.
  set (d := transactionDepth s).
  destruct (exec_as_effect Manager (open_sql m d) s) as [J1 E1].
  destruct (exec_as driver Manager (open_sql m d) s) as [[v1|e1] s1];
    simpl in J1, E1.
  - destruct (Hfn (with_depth (transactionDepth s1 + 1) s1))
      as (L3 & x3 & J3 & B3).
    destruct (fn (with_depth (transactionDepth s1 + 1) s1)) as [[v3|e3] s3];
      simpl in L3, J3, B3; rewrite E1 in *.
    + destruct (exec_as_effect Manager (close_sql d)
                  (with_depth (transactionDepth s3 - 1) s3)) as [J5 E5].
      destruct (exec_as driver Manager (close_sql d)
                  (with_depth (transactionDepth s3 - 1) s3)) as [[v5|e5] s5];
        simpl in J5, E5.
      * simpl. rewrite E5, J5, J3, J1. split; [fold d; lia|].
        eexists. rewrite <- !app_assoc. split; [reflexivity|].
        fold d in B3, L3 |- *. bounded.
      * destruct (on_failure_floor d e5 s5) as (L6 & x6 & J6 & B6);
          [rewrite E5; fold d; lia|].
        split; [exact L6|]. rewrite J6, J5. simpl. rewrite J3. simpl. rewrite J1.
        eexists. rewrite <- !app_assoc. split; [reflexivity|].
        fold d in B3, L3 |- *. bounded.
    + destruct (on_failure_floor d e3 s3) as (L6 & x6 & J6 & B6);
        [fold d in L3; lia|].
      split; [exact L6|]. rewrite J6, J3. simpl. rewrite J1.
      eexists. rewrite <- !app_assoc. split; [reflexivity|].
      fold d in B3, L3 |- *. bounded.
  - destruct (on_failure_floor d e1 s1) as (L6 & x6 & J6 & B6); [lia|].
    split; [exact L6|]. rewrite J6, J1.
    eexists. rewrite <- !app_assoc. split; [reflexivity|]. bounded.
Qed.

Lemma run_body_keeps_floor (b : body) : keeps_floor (run_body driver now in_tmpdir cls b).
Proof.
  induction b as [v|v|c k IH|m inner IHi k IH]; simpl.
  - apply caller_only_keeps_floor, caller_only_ret.
  - apply caller_only_keeps_floor, caller_only_throw.
  - intros s.
    destruct (caller_only_keeps_floor _ (caller_only_tx_method c) s)
      as (L1 & x1 & J1 & B1).
    destruct (tx_method driver now in_tmpdir cls c s) as [o s1]. simpl in *.
    destruct (IH o s1) as (L2 & x2 & J2 & B2).
    split; [lia|]. exists (x1 ++ x2). rewrite J2, J1, app_assoc.
    split; [reflexivity|]. bounded.
  - intros s.
    destruct (createTransactional_keeps_floor m _ IHi s) as (L1 & x1 & J1 & B1).
    destruct (createTransactional driver m (run_body driver now in_tmpdir cls inner) s) as [o s1].
    simpl in *.
    destruct (IH o s1) as (L2 & x2 & J2 & B2).
    split; [lia|]. exists (x1 ++ x2). rewrite J2, J1, app_assoc.
    split; [reflexivity|]. bounded.
Qed.

Lemma open_sql_delta (m : mode) (d : Z) :
  frame_delta (Issued Manager (DbExec (open_sql m d)) true) = 1.
Proof. unfold open_sql, savepoint_name. destruct (d =? 0); reflexivity. Qed.

Lemma close_sql_delta (d : Z) :
  frame_delta (Issued Manager (DbExec (close_sql d)) true) = -1.
Proof. unfold close_sql, savepoint_name. destruct (d =? 0); reflexivity. Qed.

Lemma rollback_sql_delta (d : Z) :
  frame_delta (Issued Manager (DbExec (rollback_sql d)) true) = -1.
Proof. unfold rollback_sql, savepoint_name. destruct (d =? 0); reflexivity. Qed.

Lemma frame_shape (m : mode) (d : Z) (x : list entry) (closing : list entry) :
  closing = [DepthSet d; Issued Manager (DbExec (close_sql d)) true]
  \/ closing = [Issued Manager (DbExec (rollback_sql d)) true; DepthSet d] ->
  tracks (d + 1) (d + 1) x -> depth_of (d + 1) x = d + 1 -> open_frames x = 0 ->
  let ext := [Issued Manager (DbExec (open_sql m d)) true; DepthSet (d + 1)]
               ++ x ++ closing in
  tracks d d ext /\ depth_of d ext = d /\ open_frames ext = 0.
Proof.
  intros Hc T E F ext. subst ext.
  rewrite !tracks_app, !depth_of_app, !open_frames_app, F.
  pose proof (open_sql_delta m d) as Ho.
  pose proof (close_sql_delta d) as Hcl.
  pose proof (rollback_sql_delta d) as Hr.
  assert (open_frames
            [Issued Manager (DbExec (open_sql m d)) true; DepthSet (d + 1)] = 1)
    as F1 by (unfold open_frames; cbn [foldr]; rewrite Ho; reflexivity).
  assert (depth_of d
            [Issued Manager (DbExec (open_sql m d)) true; DepthSet (d + 1)]
          = d + 1) as D1 by reflexivity.
  rewrite F1, D1, E.
  replace (d + 1 + 0) with (d + 1) by lia.
  destruct Hc as [-> | ->];
    unfold open_frames; cbn [tracks depth_of foldl foldr];
    rewrite ?Ho, ?Hcl, ?Hr; cbn [frame_delta];
    repeat split; solve [exact T | lia].
Qed.

Lemma caller_entries (d : Z) (ext : list entry) :
  Forall (fun e => exists c ok, e = Issued Caller c ok) ext ->
  tracks d d ext /\ depth_of d ext = d /\ open_frames ext = 0.
Proof.
  induction 1 as [|e ext (c & ok & ->) _ (T & E & F)].
  - repeat split.
  - change (depth_of d (Issued Caller c ok :: ext)) with (depth_of d ext).
    unfold open_frames in *. cbn [tracks depth_of foldl foldr frame_delta].
    rewrite Z.add_0_r, F. repeat split; auto; lia.
Qed.

Lemma caller_only_balanced {A} (m : @Async D A) : caller_only m -> balanced m.
Proof.
  intros H s. destruct (H s) as (ext & J & F & E).
  exists ext. split; [exact J|]. intros _ _. cbv zeta.
  destruct (caller_entries (transactionDepth s) ext F) as (T & E' & F').
  auto.
Qed.

Lemma balanced_then {A B} (m : @Async D A) (k : settled A -> @Async D B) :
  balanced m -> (forall o, balanced (k o)) ->
  balanced (fun s => let (o, s') := m s in k o s').
Proof.
  intros Hm Hk s. destruct (Hm s) as (x1 & J1 & P1).
  destruct (m s) as [o s1]. simpl in J1, P1.
  destruct (Hk o s1) as (x2 & J2 & P2).
  exists (x1 ++ x2). rewrite J2, J1, app_assoc. split; [reflexivity|].
  intros Hs MS. apply manager_succeeded_app in MS as [M1 M2].
  destruct (P1 Hs M1) as (T1 & E1 & D1 & F1).
  rewrite E1 in P2. destruct (P2 Hs M2) as (T2 & E2 & D2 & F2).
  cbv zeta. rewrite tracks_app, depth_of_app, open_frames_app, D1, F1, Z.add_0_r.
  repeat split; auto; lia.
Qed.

Ltac sub_succeeded MS :=
  let c := fresh in let ok := fresh in let Hin := fresh in
  intros c ok Hin; apply (MS c ok); rewrite ?in_app_iff; simpl; auto 10.

Ltac manager_failed MS :=
  exfalso;
  match type of MS with
  | context [Issued Manager ?c false] =>
      assert (false = true) by
        (apply (MS c false); rewrite ?in_app_iff; simpl; auto 10);
      discriminate
  end.

Lemma createTransactional_balanced m (fn : Async value) :
  balanced fn -> balanced (createTransactional driver m fn).
Proof.
  intros Hfn s. rewrite createTransactional_paths. cbv zeta.
  set (d := transactionDepth s).
  destruct (exec_as_effect Manager (open_sql m d) s) as [J1 E1].
  destruct (exec_as driver Manager (open_sql m d) s) as [[v1|e1] s1];
    simpl in J1, E1.
  - destruct (Hfn (with_depth (transactionDepth s1 + 1) s1))
      as (x3 & J3 & P3).
    destruct (fn (with_depth (transactionDepth s1 + 1) s1)) as [[v3|e3] s3];
      simpl in J3, P3; rewrite E1 in *; fold d in J3, P3.
    + destruct (exec_as_effect Manager (close_sql d)
                  (with_depth (transactionDepth s3 - 1) s3)) as [J5 E5].
      destruct (exec_as driver Manager (close_sql d)
                  (with_depth (transactionDepth s3 - 1) s3)) as [[v5|e5] s5];
        simpl in J5, E5.
      * simpl. rewrite E5, J5, J3, J1.
        eexists. rewrite <- !app_assoc. split; [reflexivity|].
        intros Hs MS.
        assert (manager_succeeded x3) as M3 by sub_succeeded MS.
        destruct (P3 ltac:(lia) M3) as (T3 & E3 & D3 & F3).
        rewrite E3. replace (d + 1 - 1) with d by lia.
        destruct (frame_shape m d x3 _ (or_introl eq_refl) T3 D3 F3)
          as (T & D' & F).
        refine (conj T (conj _ (conj D' F))). lia.
      * destruct (on_failure_effect d e5 s5)
          as [(Hd & [(_ & E & J)|(E & J)])|(Hd & _ & E & J)];
          cbv zeta in *; rewrite E, J, J5; simpl; rewrite J3, J1;
          eexists; rewrite <- !app_assoc; (split; [reflexivity|]);
          intros Hs MS; manager_failed MS.
    + destruct (on_failure_effect d e3 s3)
        as [(Hd & [(_ & E & J)|(E & J)])|(Hd & _ & E & J)];
        cbv zeta in *; rewrite E, J, J3, J1;
        eexists; rewrite <- !app_assoc; (split; [reflexivity|]);
        intros Hs MS.
      * assert (manager_succeeded x3) as M3 by sub_succeeded MS.
        destruct (P3 ltac:(lia) M3) as (T3 & E3 & D3 & F3).
        destruct (frame_shape m d x3 _ (or_intror eq_refl) T3 D3 F3)
          as (T & D' & F).
        refine (conj T (conj _ (conj D' F))). reflexivity.
      * manager_failed MS.
      * assert (manager_succeeded x3) as M3 by sub_succeeded MS.
        destruct (P3 ltac:(lia) M3) as (T3 & E3 & D3 & F3). lia.
  - destruct (on_failure_effect d e1 s1)
      as [(Hd & [(_ & E & J)|(E & J)])|(Hd & _ & E & J)];
      cbv zeta in *; rewrite E, J, J1;
      eexists; rewrite <- !app_assoc; (split; [reflexivity|]);
      intros Hs MS; manager_failed MS.
Qed.

Lemma run_body_balanced (b : body) : balanced (run_body driver now in_tmpdir cls b).
Proof.
  induction b as [v|v|c k IH|m inner IHi k IH]; simpl.
  - apply caller_only_balanced, caller_only_ret.
  - apply caller_only_balanced, caller_only_throw.
  - apply (balanced_then (tx_method driver now in_tmpdir cls c) (fun o => run_body driver now in_tmpdir cls (k o))).
    + apply caller_only_balanced, caller_only_tx_method.
    + exact IH.
  - apply (balanced_then (createTransactional driver m (run_body driver now in_tmpdir cls inner))
             (fun o => run_body driver now in_tmpdir cls (k o))).
    + apply createTransactional_balanced, IHi.
    + exact IH.
Qed.

End TransactionManager.

(** ** What the transaction manager guarantees *)

Section TransactionClaims.

Context {D : Type}.
Variable driver : driver_call -> D -> settled value * D.
Variable now : D -> Z.
Variable in_tmpdir : string -> string.
Variable cls : adapter_class.

Import BaseDatabase.

Lemma attempts_keeps_floor (l : list (mode * body)) :
  keeps_floor (fun s => (Resolved tt, attempts driver now in_tmpdir cls l s)).
Proof.
  induction l as [|[m fn] l IH]; intros s; simpl.
  - split; [lia|]. exists []. rewrite app_nil_r. split; [reflexivity|constructor].
  - destruct (createTransactional_keeps_floor driver m _ (run_body_keeps_floor driver now in_tmpdir cls fn) s)
      as (L1 & x1 & J1 & B1).
    fold (transaction driver now in_tmpdir cls m fn) in *.
    destruct (IH (snd (transaction driver now in_tmpdir cls m fn s))) as (L2 & x2 & J2 & B2).
    simpl in *. split; [lia|]. exists (x1 ++ x2).
    rewrite J2, J1, app_assoc. split; [reflexivity|].
    apply bounded_below_app. split; [exact B1|].
    refine (bounded_below_weaken _ _ _ _ B2). lia.
Qed.

Lemma attempts_balanced (l : list (mode * body)) :
  balanced (fun s => (Resolved tt, attempts driver now in_tmpdir cls l s)).
Proof.
  induction l as [|[m fn] l IH].
  - apply caller_only_balanced. intros s. exists []. simpl.
    rewrite app_nil_r. auto.
  - pose proof (balanced_then (transaction driver now in_tmpdir cls m fn)
                  (fun _ s => (Resolved tt, attempts driver now in_tmpdir cls l s))
                  (createTransactional_balanced driver m _
                     (run_body_balanced driver now in_tmpdir cls fn))
                  (fun _ => IH)) as H.
    intros s. specialize (H s). cbn [attempts foldl fst snd] in *.
    fold (attempts driver now in_tmpdir cls l) in *.
    destruct (transaction driver now in_tmpdir cls m fn s) as [o s1]. exact H.
Qed.

(** C5, as amended: over any sequence of transaction attempts on a new
    adapter, nested and failing ones included, whose bodies await each
    call and each nested attempt before they go on (the bodies of [body];
    the attempts of a session come one after the other through its
    queue), [#transactionDepth] is never negative; and as long as the
    driver accepts every statement of the transaction manager, the depth
    is back at zero with no frame open when the attempts are over, it
    equals the number of open frames whenever a statement of a body is
    issued, every write changes it by exactly one, and at no instant does
    it differ from the number of open frames by more than one. *)
Theorem depth_tracks_open_frames (l : list (mode * body)) (db : D) :
  (forall pre post,
     journal (attempts driver now in_tmpdir cls l (create db)) = pre ++ post ->
     0 <= depth_of 0 pre)
  /\ (manager_succeeded (journal (attempts driver now in_tmpdir cls l (create db))) ->
      transactionDepth (attempts driver now in_tmpdir cls l (create db)) = 0
      /\ open_frames (journal (attempts driver now in_tmpdir cls l (create db))) = 0
      /\ (forall pre c ok post,
            journal (attempts driver now in_tmpdir cls l (create db))
              = pre ++ Issued Caller c ok :: post ->
            depth_of 0 pre = open_frames pre)
      /\ (forall pre z post,
            journal (attempts driver now in_tmpdir cls l (create db)) = pre ++ DepthSet z :: post ->
            Z.abs (z - depth_of 0 pre) = 1)
      /\ (forall pre post,
            journal (attempts driver now in_tmpdir cls l (create db)) = pre ++ post ->
            Z.abs (depth_of 0 pre - open_frames pre) <= 1)).
Proof.
  destruct (attempts_keeps_floor l (create db)) as (_ & x & J & B).
  destruct (attempts_balanced l (create db)) as (x' & J' & P).
  simpl in J, J', B, P. split.
  - intros pre post E. rewrite J in E.
    apply (depth_of_floor 0 0 x B ltac:(lia) pre post E).
  - rewrite J'. intros MS. destruct (P ltac:(lia) MS) as (T & E & Dp & F).
    split; [exact E|]. split; [exact F|].
    split; [|split].
    + intros pre c ok post Hj. rewrite Hj in T.
      apply tracks_app in T as [_ T]. destruct T as (T & _). simpl in T. exact T.
    + intros pre z post Hj. rewrite Hj in T.
      apply tracks_app in T as [_ T]. destruct T as (T & _). exact T.
    + intros pre post Hj. rewrite Hj in T.
      apply tracks_app in T as [T _].
      pose proof (tracks_gap pre 0 0 T ltac:(lia)) as G. simpl in G. exact G.
Qed.

Lemma on_failure_journal depth err (s : state) :
  exists ext, journal (snd (on_failure driver depth err s)) = journal s ++ ext
              /\ forall v, fst (on_failure driver depth err s) <> Resolved v.
Proof.
  destruct (on_failure_effect driver depth err s)
    as [(Hd & [(R & E & J)|(E & J)])|(Hd & R & E & J)]; cbv zeta in *.
  - eexists. split; [exact J|]. intros v. rewrite R. discriminate.
  - eexists. split; [exact J|]. intros v.
    unfold on_failure. destruct (transactionDepth s >? 0).
    + destruct (exec_as driver Manager (rollback_sql depth) s) as [[?|?] ?];
        simpl; discriminate.
    + simpl. discriminate.
  - eexists. split; [exact J|]. intros v. rewrite R. discriminate.
Qed.

(** C3: an attempt first issues [BEGIN <mode>] when the captured depth is
    zero and [SAVEPOINT isomorphic_sqlite_<depth>] otherwise; once the body
    has succeeded it lowers the depth and issues [COMMIT] at depth zero and
    [RELEASE SAVEPOINT isomorphic_sqlite_<depth>] otherwise, and an attempt
    that resolves ends on that statement, accepted; at a depth other than
    zero every variant does the same as the plain call; the mode texts are
    empty, DEFERRED, IMMEDIATE and EXCLUSIVE. *)
Theorem transaction_frame_statements (m : mode) (fn : body) (s : state) :
  (exists ok rest,
     journal (snd (transaction driver now in_tmpdir cls m fn s)) =
       journal s ++
       Issued Manager
         (DbExec (if transactionDepth s =? 0 then "BEGIN " +:+ mode_text m
                  else "SAVEPOINT isomorphic_sqlite_"
                         +:+ js_number (transactionDepth s))) ok :: rest)
  /\ (forall s1 s3 v,
        exec_as driver Manager
          (if transactionDepth s =? 0 then "BEGIN " +:+ mode_text m
           else "SAVEPOINT isomorphic_sqlite_"
                  +:+ js_number (transactionDepth s)) s
          = (Resolved VUndefined, s1) ->
        run_body driver now in_tmpdir cls fn (with_depth (transactionDepth s1 + 1) s1)
          = (Resolved v, s3) ->
        exists ok rest,
          journal (snd (transaction driver now in_tmpdir cls m fn s)) =
            journal s3 ++
            DepthSet (transactionDepth s3 - 1)
            :: Issued Manager
                 (DbExec (if transactionDepth s =? 0 then "COMMIT"
                          else "RELEASE SAVEPOINT isomorphic_sqlite_"
                                 +:+ js_number (transactionDepth s))) ok
            :: rest)
  /\ (forall v,
        fst (transaction driver now in_tmpdir cls m fn s) = Resolved v ->
        exists mid,
          journal (snd (transaction driver now in_tmpdir cls m fn s)) =
            journal s ++ mid ++
            [Issued Manager
               (DbExec (if transactionDepth s =? 0 then "COMMIT"
                        else "RELEASE SAVEPOINT isomorphic_sqlite_"
                               +:+ js_number (transactionDepth s))) true])
  /\ (transactionDepth s <> 0 ->
      forall m', transaction driver now in_tmpdir cls m' fn s = transaction driver now in_tmpdir cls m fn s)
  /\ map mode_text [Plain; DEFERRED; IMMEDIATE; EXCLUSIVE]
     = [EmptyString; "DEFERRED"; "IMMEDIATE"; "EXCLUSIVE"].
Proof.
  change (if transactionDepth s =? 0 then "BEGIN " +:+ mode_text m
          else "SAVEPOINT isomorphic_sqlite_" +:+ js_number (transactionDepth s))
    with (open_sql m (transactionDepth s)).
  change (if transactionDepth s =? 0 then "COMMIT"
          else "RELEASE SAVEPOINT isomorphic_sqlite_"
                 +:+ js_number (transactionDepth s))
    with (close_sql (transactionDepth s)).
  set (d := transactionDepth s).
  assert (transaction driver now in_tmpdir cls m fn s =
          createTransactional driver m (run_body driver now in_tmpdir cls fn) s) as -> by reflexivity.
  rewrite createTransactional_paths. cbv zeta. fold d.
  destruct (exec_as_effect driver Manager (open_sql m d) s) as [J1 E1].
  split; [|split; [|split; [|split]]].
  - destruct (exec_as driver Manager (open_sql m d) s) as [[v1|e1] s1];
      simpl in J1, E1.
    + destruct (run_body_keeps_floor driver now in_tmpdir cls fn
                  (with_depth (transactionDepth s1 + 1) s1)) as (_ & x3 & J3 & _).
      destruct (run_body driver now in_tmpdir cls fn (with_depth (transactionDepth s1 + 1) s1))
        as [[v3|e3] s3]; simpl in J3.
      * destruct (exec_as_effect driver Manager (close_sql d)
                    (with_depth (transactionDepth s3 - 1) s3)) as [J5 _].
        destruct (exec_as driver Manager (close_sql d)
                    (with_depth (transactionDepth s3 - 1) s3)) as [[v5|e5] s5];
          simpl in J5.
        -- simpl. rewrite J5. simpl. rewrite J3. simpl. rewrite J1.
           rewrite <- !app_assoc. simpl. eauto.
        -- destruct (on_failure_journal d e5 s5) as (x6 & J6 & _).
           rewrite J6, J5. simpl. rewrite J3. simpl. rewrite J1.
           rewrite <- !app_assoc. simpl. eauto.
      * destruct (on_failure_journal d e3 s3) as (x6 & J6 & _).
        rewrite J6, J3. simpl. rewrite J1. rewrite <- !app_assoc. simpl. eauto.
    + destruct (on_failure_journal d e1 s1) as (x6 & J6 & _).
      rewrite J6, J1. rewrite <- !app_assoc. simpl. eauto.
  - intros s1 s3 v Ho Hb. rewrite Ho, Hb.
    destruct (exec_as_effect driver Manager (close_sql d)
                (with_depth (transactionDepth s3 - 1) s3)) as [J5 _].
    destruct (exec_as driver Manager (close_sql d)
                (with_depth (transactionDepth s3 - 1) s3)) as [[v5|e5] s5];
      simpl in J5.
    + simpl. rewrite J5. simpl. rewrite <- app_assoc. simpl. eauto.
    + destruct (on_failure_journal d e5 s5) as (x6 & J6 & _).
      rewrite J6, J5. simpl. rewrite <- !app_assoc. simpl. eauto.
  - intros v.
    destruct (exec_as driver Manager (open_sql m d) s) as [[v1|e1] s1];
      simpl in J1, E1.
    + destruct (run_body_keeps_floor driver now in_tmpdir cls fn
                  (with_depth (transactionDepth s1 + 1) s1)) as (_ & x3 & J3 & _).
      destruct (run_body driver now in_tmpdir cls fn (with_depth (transactionDepth s1 + 1) s1))
        as [[v3|e3] s3]; simpl in J3.
      * destruct (exec_as_effect driver Manager (close_sql d)
                    (with_depth (transactionDepth s3 - 1) s3)) as [J5 _].
        destruct (exec_as driver Manager (close_sql d)
                    (with_depth (transactionDepth s3 - 1) s3)) as [[v5|e5] s5];
          simpl in J5.
        -- intros _. simpl. rewrite J5. simpl. rewrite J3. simpl. rewrite J1.
           exists ([Issued Manager (DbExec (open_sql m d)) true;
                    DepthSet (transactionDepth s1 + 1)]
                   ++ x3 ++ [DepthSet (transactionDepth s3 - 1)]).
           rewrite <- !app_assoc. reflexivity.
        -- intros H. exfalso.
           destruct (on_failure_journal d e5 s5) as (_ & _ & N). exact (N v H).
      * intros H. exfalso.
        destruct (on_failure_journal d e3 s3) as (_ & _ & N). exact (N v H).
    + intros H. exfalso.
      destruct (on_failure_journal d e1 s1) as (_ & _ & N). exact (N v H).
  - intros Hd m'. unfold transaction. rewrite !createTransactional_paths.
    cbv zeta. fold d. unfold open_sql.
    destruct (d =? 0) eqn:Hz; [lia|]. reflexivity.
  - reflexivity.
Qed.


(** ** The handle of a body *)

Lemma run_body_appends (b : body) (s : state) :
  exists ext,
    journal (snd (run_body driver now in_tmpdir cls b s)) = journal s ++ ext.
Proof.
  destruct (run_body_keeps_floor driver now in_tmpdir cls b s)
    as (_ & ext & J & _).
  eauto.
Qed.

(** Once the frame is open, whatever the attempt does comes after what the
    body has done. *)
Lemma attempt_after_body m (fn : Async value) (s s1 : state) x :
  exec_as driver Manager (open_sql m (transactionDepth s)) s = (Resolved x, s1) ->
  exists rest,
    journal (snd (createTransactional driver m fn s))
    = journal (snd (fn (with_depth (transactionDepth s1 + 1) s1))) ++ rest.
Proof.
  intros Hopen. rewrite createTransactional_paths. cbv zeta. rewrite Hopen.
  destruct (fn (with_depth (transactionDepth s1 + 1) s1)) as [[r|e] s3];
    simpl.
  - destruct (exec_as_effect driver Manager (close_sql (transactionDepth s))
                (with_depth (transactionDepth s3 - 1) s3)) as [J _].
    cbv zeta in J.
    destruct (exec_as driver Manager (close_sql (transactionDepth s))
                (with_depth (transactionDepth s3 - 1) s3)) as [[y|e5] s5];
      simpl in *.
    + rewrite J, <- app_assoc. eauto.
    + destruct (on_failure_journal (transactionDepth s) e5 s5)
        as (ext & Je & _).
      rewrite Je, J, <- !app_assoc. eauto.
  - destruct (on_failure_journal (transactionDepth s) e s3)
      as (ext & Je & _).
    eauto.
Qed.

(** An attempt begins with the statement that opens its frame. *)
Lemma attempt_opens m (fn : Async value) (s : state) :
  (forall s0, exists ext, journal (snd (fn s0)) = journal s0 ++ ext) ->
  exists ok rest,
    journal (snd (createTransactional driver m fn s))
    = journal s
      ++ Issued Manager (DbExec (open_sql m (transactionDepth s))) ok :: rest.
Proof.
  intros A.
  destruct (exec_as_effect driver Manager (open_sql m (transactionDepth s)) s)
    as [J1 _]. cbv zeta in J1.
  destruct (exec_as driver Manager (open_sql m (transactionDepth s)) s)
    as [[x|e] s1] eqn:E; simpl in J1.
  - destruct (attempt_after_body m fn s s1 x E) as (rest & ->).
    destruct (A (with_depth (transactionDepth s1 + 1) s1)) as (ext & ->).
    simpl. rewrite J1, <- !app_assoc. simpl. eauto.
  - rewrite createTransactional_paths. cbv zeta. rewrite E.
    destruct (on_failure_journal (transactionDepth s) e s1)
      as (ext & Je & _).
    rewrite Je, J1, <- app_assoc. simpl. eauto.
Qed.

(** C9, as amended: the declared type of the handle, [ITransaction], is
    [IDatabase] in its order without [backup], [serialize], [close],
    [begin], [commit] and [rollback], and with [transaction]. The handle
    itself is the adapter: every member of [IDatabase] is behind a call
    that a body can make on it, the six included; once the frame is open,
    a call that the body makes has run on the adapter, as the method the
    adapter has for it, before anything else the attempt does; and
    [transaction] on the handle opens a savepoint one level down. *)
Theorem transaction_handle_surface (m : mode) (s s1 : state) :
  Typings.ITransaction
  = ["run"; "get"; "all"; "prepare"; "exec"; "transaction"; "function";
     "aggregate"; "loadExtension"; "pragma"; "attach"; "raw"]
  /\ (forall name, In name Typings.omitted -> ~ In name Typings.ITransaction)
  /\ (forall name, In name Typings.IDatabase ->
        In name Typings.ITransaction \/ In name Typings.omitted)
  /\ (forall name, In name Typings.IDatabase -> name <> "transaction" ->
        exists c, Typings.member_of c = name)
  /\ (forall c k,
        exec_as driver Manager
          (if transactionDepth s =? 0 then "BEGIN " +:+ mode_text m
           else "SAVEPOINT isomorphic_sqlite_"
                  +:+ js_number (transactionDepth s)) s
          = (Resolved VUndefined, s1) ->
        exists rest,
          journal (snd (transaction driver now in_tmpdir cls m (Await c k) s))
          = journal
              (snd (tx_method driver now in_tmpdir cls c
                      (with_depth (transactionDepth s1 + 1) s1)))
            ++ rest)
  /\ (forall m' inner k,
        exec_as driver Manager
          (if transactionDepth s =? 0 then "BEGIN " +:+ mode_text m
           else "SAVEPOINT isomorphic_sqlite_"
                  +:+ js_number (transactionDepth s)) s
          = (Resolved VUndefined, s1) ->
        0 <= transactionDepth s ->
        exists ok rest,
          journal
            (snd (transaction driver now in_tmpdir cls m (Nested m' inner k) s))
          = journal s1
            ++ DepthSet (transactionDepth s + 1)
            :: Issued Manager
                 (DbExec ("SAVEPOINT isomorphic_sqlite_"
                          +:+ js_number (transactionDepth s + 1))) ok
            :: rest).
Proof.
  split; [reflexivity|]. split; [|split; [|split; [|split]]].
  - intros name Hm Hi. vm_compute in Hm, Hi.
    repeat (destruct Hm as [<-|Hm]; [intuition discriminate|]). exact Hm.
  - intros name Hm. vm_compute in Hm. vm_compute.
    repeat (destruct Hm as [<-|Hm]; [tauto|]). destruct Hm.
  - intros name Hm Nt. vm_compute in Hm.
    destruct Hm as [<-|Hm]; [exists (TxRun EmptyString VUndefined); reflexivity|].
    destruct Hm as [<-|Hm]; [exists (TxGet EmptyString VUndefined); reflexivity|].
    destruct Hm as [<-|Hm]; [exists (TxAll EmptyString VUndefined); reflexivity|].
    destruct Hm as [<-|Hm]; [exists (TxPrepare EmptyString); reflexivity|].
    destruct Hm as [<-|Hm]; [exists (TxExec EmptyString); reflexivity|].
    destruct Hm as [<-|Hm]; [exists TxBegin; reflexivity|].
    destruct Hm as [<-|Hm]; [exists TxCommit; reflexivity|].
    destruct Hm as [<-|Hm]; [exists TxRollback; reflexivity|].
    destruct Hm as [<-|Hm]; [destruct (Nt eq_refl)|].
    destruct Hm as [<-|Hm]; [exists (TxFunction EmptyString); reflexivity|].
    destruct Hm as [<-|Hm]; [exists (TxAggregate EmptyString); reflexivity|].
    destruct Hm as [<-|Hm];
      [exists (TxLoadExtension EmptyString); reflexivity|].
    destruct Hm as [<-|Hm]; [exists (TxBackup EmptyString); reflexivity|].
    destruct Hm as [<-|Hm]; [exists (TxPragma EmptyString false); reflexivity|].
    destruct Hm as [<-|Hm];
      [exists (TxAttach EmptyString EmptyString); reflexivity|].
    destruct Hm as [<-|Hm]; [exists (TxSerialize None); reflexivity|].
    destruct Hm as [<-|Hm]; [exists TxClose; reflexivity|].
    destruct Hm as [<-|Hm]; [exists TxRaw; reflexivity|].
    destruct Hm.
  - intros c k Hopen. unfold transaction.
    destruct (attempt_after_body m
                (run_body driver now in_tmpdir cls (Await c k)) s s1 _ Hopen)
      as (rest & ->).
    cbn [run_body].
    destruct (tx_method driver now in_tmpdir cls c
                (with_depth (transactionDepth s1 + 1) s1)) as [o s2].
    destruct (run_body_appends (k o) s2) as (ext & ->).
    cbn [snd]. rewrite <- app_assoc. eauto.
  - intros m' inner k Hopen Hd. unfold transaction.
    destruct (attempt_after_body m
                (run_body driver now in_tmpdir cls (Nested m' inner k))
                s s1 _ Hopen) as (rest & ->).
    cbn [run_body].
    destruct (attempt_opens m' (run_body driver now in_tmpdir cls inner)
                (with_depth (transactionDepth s1 + 1) s1)
                (run_body_appends inner)) as (ok & rest' & J).
    destruct (createTransactional driver m'
                (run_body driver now in_tmpdir cls inner)
                (with_depth (transactionDepth s1 + 1) s1)) as [o s2].
    destruct (run_body_appends (k o) s2) as (ext & ->).
    cbn [snd] in *. rewrite J.
    destruct (exec_as_effect driver Manager
                (if transactionDepth s =? 0 then "BEGIN " +:+ mode_text m
                 else "SAVEPOINT isomorphic_sqlite_"
                        +:+ js_number (transactionDepth s)) s) as [_ Ed].
    cbv zeta in Ed. rewrite Hopen in Ed. simpl in Ed.
    simpl. rewrite Ed. unfold open_sql, savepoint_name.
    destruct (transactionDepth s + 1 =? 0) eqn:Z; [lia|].
    rewrite <- !app_assoc. simpl. eauto.
Qed.

End TransactionClaims.

Import BaseDatabase.



(** C5 fails as stated: right after BEGIN is accepted the depth is still
    zero with one frame open; and when COMMIT is refused the attempt ends
    with depth zero, no rollback issued, and the frame still open. *)
Lemma depth_and_open_frames_disagree :
  (exists pre post,
     journal (snd (transaction Sqlite.driver Sqlite.now Sqlite.in_tmpdir NodeSqliteDatabase Plain Samples.does_nothing
                     Samples.fresh_adapter)) = pre ++ post
     /\ depth_of 0 pre <> open_frames pre)
  /\ fst (transaction Sqlite.driver Sqlite.now Sqlite.in_tmpdir NodeSqliteDatabase Plain Samples.does_nothing
            Samples.commit_refused) = Rejected (VError "database is locked")
  /\ transactionDepth
       (snd (transaction Sqlite.driver Sqlite.now Sqlite.in_tmpdir NodeSqliteDatabase Plain Samples.does_nothing
               Samples.commit_refused)) = 0
  /\ open_frames
       (journal (snd (transaction Sqlite.driver Sqlite.now Sqlite.in_tmpdir NodeSqliteDatabase Plain Samples.does_nothing
                        Samples.commit_refused))) = 1
  /\ Sqlite.frames
       (_db (snd (transaction Sqlite.driver Sqlite.now Sqlite.in_tmpdir NodeSqliteDatabase Plain Samples.does_nothing
                    Samples.commit_refused))) = [None].
Proof.
  split.
  - exists [Issued Manager (DbExec "BEGIN ") true].
    eexists. split; [vm_compute; reflexivity|]. vm_compute. discriminate.
  - vm_compute. auto.
Qed.

(** C9 fails as stated: [close], which [ITransaction] leaves out, is
    called on the handle by a body, and the connection is closed inside
    the attempt, whose COMMIT fails on it. *)
Lemma lifecycle_methods_run_on_the_handle :
  In (Typings.member_of TxClose) Typings.omitted
  /\ fst (transaction Sqlite.driver Sqlite.now Sqlite.in_tmpdir
            NodeSqliteDatabase Plain Samples.closes_inside
            Samples.fresh_adapter)
     = Rejected (VError "The database connection is not open")
  /\ isClosed
       (snd (transaction Sqlite.driver Sqlite.now Sqlite.in_tmpdir
               NodeSqliteDatabase Plain Samples.closes_inside
               Samples.fresh_adapter)) = true
  /\ journal
       (snd (transaction Sqlite.driver Sqlite.now Sqlite.in_tmpdir
               NodeSqliteDatabase Plain Samples.closes_inside
               Samples.fresh_adapter))
     = [Issued Manager (DbExec "BEGIN ") true; DepthSet 1;
        Issued Caller DbClose true; DepthSet 0;
        Issued Manager (DbExec "COMMIT") false; DepthSet 0].
Proof. vm_compute. auto 10. Qed.
(** * Closing *)

Section Closing.

Context {D : Type}.
Variable driver : driver_call -> D -> settled value * D.
Variable now : D -> Z.
Variable in_tmpdir : string -> string.
Variable cls : adapter_class.

Import BaseDatabase.


(** ** After [close()] *)

(** What the driver does on a connection that is closed: every call on
    the connection or on one of its statements but [close] throws, and
    the connection stays closed whatever is called. *)
Variable dead : D -> Prop.
Variable err : driver_call -> value.
Hypothesis driver_dead :
  forall c d, dead d -> c <> DbClose ->
    dead (snd (driver c d))
    /\ (on_connection c = true -> fst (driver c d) = Rejected (err c)).

Lemma call_on_closed who c (s : state) :
  isClosed s = true -> dead (_db s) -> c <> DbClose ->
  on_connection c = true ->
  exists s', call_driver driver who c s = (Rejected (err c), s')
             /\ isClosed s' = true /\ dead (_db s')
             /\ transactionDepth s' = transactionDepth s.
Proof.
  intros C Hd Hc Oc. unfold call_driver.
  destruct (driver_dead c (_db s) Hd Hc) as (Hd' & E). specialize (E Oc).
  destruct (driver c (_db s)) as [r d']. simpl in *. subst r.
  eexists. split; [reflexivity|]. simpl. auto.
Qed.

Lemma host_call_on_closed who c (s : state) :
  isClosed s = true -> dead (_db s) -> c <> DbClose ->
  exists s',
    call_driver driver who c s = (fst (driver c (_db s)), s')
    /\ isClosed s' = true /\ dead (_db s').
Proof.
  intros C Hd Hc. unfold call_driver.
  destruct (driver_dead c (_db s) Hd Hc) as (Hd' & _).
  destruct (driver c (_db s)) as [r d']. simpl in *.
  eexists. split; [reflexivity|]. simpl. auto.
Qed.

Lemma exec_on_closed who sql (s : state) :
  isClosed s = true -> dead (_db s) ->
  exists s', exec_as driver who sql s = (Rejected (err (DbExec sql)), s')
             /\ isClosed s' = true /\ dead (_db s')
             /\ transactionDepth s' = transactionDepth s.
Proof.
  intros C Hd. unfold exec_as, bind.
  destruct (call_on_closed who (DbExec sql) s C Hd ltac:(discriminate) eq_refl)
    as (s' & -> & K). eauto.
Qed.

Lemma prepare_on_closed sql (s : state) (k : value -> Async value) :
  isClosed s = true -> dead (_db s) ->
  exists s',
    bind (this_prepare driver cls sql) k s
    = (Rejected (err (DbPrepare sql)), s')
    /\ isClosed s' = true /\ dead (_db s')
    /\ transactionDepth s' = transactionDepth s.
Proof.
  intros C Hd.
  destruct (call_on_closed Caller (DbPrepare sql) s C Hd ltac:(discriminate)
              eq_refl) as (s' & E & K).
  exists s'. split; [|exact K].
  unfold this_prepare, BetterSqlite3Database_prepare, prepare, raw, bind, ret.
  destruct cls; rewrite E; reflexivity.
Qed.

Lemma transaction_on_closed m fn (s : state) :
  isClosed s = true -> dead (_db s) ->
  exists s',
    transaction driver now in_tmpdir cls m fn s
    = (Rejected (err (DbExec (if transactionDepth s >? 0
                              then rollback_sql (transactionDepth s)
                              else open_sql m (transactionDepth s)))), s')
    /\ isClosed s' = true /\ dead (_db s').
Proof.
  intros C Hd. unfold transaction. rewrite createTransactional_paths.
  cbv zeta.
  destruct (exec_on_closed Manager (open_sql m (transactionDepth s)) s C Hd)
    as (s1 & -> & C1 & Hd1 & T1).
  unfold on_failure. rewrite T1.
  destruct (transactionDepth s >? 0) eqn:G.
  - destruct (exec_on_closed Manager (rollback_sql (transactionDepth s)) s1 C1 Hd1)
      as (s2 & -> & C2 & Hd2 & _). eauto.
  - eexists. split; [reflexivity|]. simpl. auto.
Qed.

(** One call on the connection, and nothing after it. *)
Lemma single_call_on_closed c (s : state) :
  isClosed s = true -> dead (_db s) -> c <> DbClose ->
  on_connection c = true ->
  exists s', bind (raw (D := D)) (fun _ => call_driver driver Caller c) s
             = (Rejected (err c), s')
             /\ isClosed s' = true /\ dead (_db s').
Proof.
  intros C Hd Hc Oc.
  destruct (call_on_closed Caller c s C Hd Hc Oc) as (s' & E & C' & Hd' & _).
  exists s'. unfold bind, raw, ret. rewrite E. auto.
Qed.

(** [NodeSqliteDatabase.backup] on a closed connection: what the import
    fails with, or else what [backup] of [node:sqlite] throws. *)
Lemma node_backup_on_closed destinationFile (s : state) :
  isClosed s = true -> dead (_db s) ->
  exists s',
    NodeSqliteDatabase_backup driver destinationFile s
    = (match fst (driver ImportNodeSqlite (_db s)) with
       | Resolved _ => Rejected (err (NodeBackup destinationFile))
       | Rejected e => Rejected e
       end, s')
    /\ isClosed s' = true /\ dead (_db s').
Proof.
  intros C Hd. unfold NodeSqliteDatabase_backup, bind, raw, ret.
  destruct (host_call_on_closed Caller ImportNodeSqlite s C Hd
              ltac:(discriminate)) as (s1 & -> & C1 & Hd1).
  destruct (fst (driver ImportNodeSqlite (_db s))) as [x|e]; [|eauto].
  destruct (call_on_closed Caller (NodeBackup destinationFile) s1 C1 Hd1
              ltac:(discriminate) eq_refl) as (s2 & -> & C2 & Hd2 & _).
  eauto.
Qed.

(** C7, as amended: on an adapter that is closed, of whichever class,
    [close()] resolves and [raw()] resolves; [function] and [aggregate]
    of the bun adapter fail as they always do; every other operation
    fails with what the driver throws at the first call it makes on the
    closed connection (for a transaction attempt, at the statement that
    opens the frame, or at the rollback when a frame was open; for
    [backup] and [serialize] of the node adapter after the import of
    [node:sqlite], unless that fails); and the adapter stays closed for
    the operations after it. *)
Theorem closed_session_outcomes (m : Database.method) (s : state) :
  isClosed s = true -> dead (_db s) ->
  isClosed (snd (Database.operation_of driver now in_tmpdir cls m s)) = true
  /\ dead (_db (snd (Database.operation_of driver now in_tmpdir cls m s)))
  /\ fst (Database.operation_of driver now in_tmpdir cls m s)
     = Database.ReturnsPromise
         match m with
         | Database.Close => Resolved VUndefined
         | Database.Raw => Resolved VRaw
         | Database.Run sql _ | Database.Get sql _ | Database.All sql _
         | Database.Prepare sql => Rejected (err (DbPrepare sql))
         | Database.Pragma sql simple =>
             match cls with
             | BetterSqlite3Database => Rejected (err (DbPragma sql simple))
             | NodeSqliteDatabase | BunSqliteDatabase =>
                 Rejected (err (DbPrepare ("PRAGMA " +:+ sql)))
             end
         | Database.Exec sql => Rejected (err (DbExec sql))
         | Database.Begin => Rejected (err (DbExec "BEGIN"))
         | Database.Commit => Rejected (err (DbExec "COMMIT"))
         | Database.Rollback => Rejected (err (DbExec "ROLLBACK"))
         | Database.Attach alias path =>
             Rejected (err (DbExec ("ATTACH DATABASE '" +:+ replace_quotes path
                                    +:+ "' AS " +:+ alias)))
         | Database.Function name =>
             match cls with
             | BunSqliteDatabase =>
                 Rejected
                   (VError "Custom functions are not supported by this driver.")
             | NodeSqliteDatabase | BetterSqlite3Database =>
                 Rejected (err (DbFunction name))
             end
         | Database.Aggregate name =>
             match cls with
             | BunSqliteDatabase =>
                 Rejected
                   (VError "Custom aggregate functions are not supported by this driver.")
             | NodeSqliteDatabase | BetterSqlite3Database =>
                 Rejected (err (DbAggregate name))
             end
         | Database.LoadExtension path => Rejected (err (DbLoadExtension path))
         | Database.Backup destinationFile =>
             match cls with
             | NodeSqliteDatabase =>
                 match fst (driver ImportNodeSqlite (_db s)) with
                 | Resolved _ => Rejected (err (NodeBackup destinationFile))
                 | Rejected e => Rejected e
                 end
             | BunSqliteDatabase => Rejected (err (DbSerialize None))
             | BetterSqlite3Database =>
                 Rejected (err (DbBackup destinationFile))
             end
         | Database.Serialize name =>
             match cls with
             | NodeSqliteDatabase =>
                 match fst (driver ImportNodeSqlite (_db s)) with
                 | Resolved _ =>
                     Rejected
                       (err (NodeBackup
                               (in_tmpdir
                                  ("isomorphic-sqlite-serialize-"
                                   +:+ js_number (now (_db s)) +:+ ".db"))))
                 | Rejected e => Rejected e
                 end
             | BunSqliteDatabase => Rejected (err (DbSerialize name))
             | BetterSqlite3Database =>
                 Rejected (err (DbSerialize match name with
                                            | Some (String _ _) => name
                                            | _ => None
                                            end))
             end
         | Database.Transaction md fn =>
             Rejected (err (DbExec (if transactionDepth s >? 0
                                    then rollback_sql (transactionDepth s)
                                    else open_sql md (transactionDepth s))))
         end.
Proof.
  intros C Hd. unfold Database.operation_of, Database.promising.
  assert (forall (x : Async value) o,
            (exists s', x s = (o, s') /\ isClosed s' = true /\ dead (_db s')) ->
            isClosed (snd (let (o, a') := x s in (Database.ReturnsPromise o, a')))
            = true
            /\ dead (_db (snd (let (o, a') := x s in
                               (Database.ReturnsPromise o, a'))))
            /\ fst (let (o, a') := x s in (Database.ReturnsPromise o, a'))
               = Database.ReturnsPromise o) as P.
  { intros x o (s' & -> & C' & Hd'). auto. }
  destruct m; apply P; cbn [tx_method].
  - destruct (prepare_on_closed sql s (fun stmt => stmt_run driver stmt params) C Hd)
      as (s' & E & C' & Hd' & _). unfold run. eauto.
  - destruct (prepare_on_closed sql s (fun stmt => stmt_get driver stmt params) C Hd)
      as (s' & E & C' & Hd' & _). unfold get. eauto.
  - destruct (prepare_on_closed sql s (fun stmt => stmt_all driver stmt params) C Hd)
      as (s' & E & C' & Hd' & _). unfold all. eauto.
  - destruct (prepare_on_closed sql s ret C Hd) as (s' & E & C' & Hd' & _).
    exists s'. split; [|auto]. rewrite <- E. unfold bind.
    destruct (this_prepare driver cls sql s) as [[x|e] s0]; reflexivity.
  - destruct (exec_on_closed Caller sql s C Hd) as (s' & E & C' & Hd' & _).
    unfold exec. eauto.
  - destruct (exec_on_closed Caller "BEGIN" s C Hd) as (s' & E & C' & Hd' & _).
    unfold begin, exec. eauto.
  - destruct (exec_on_closed Caller "COMMIT" s C Hd) as (s' & E & C' & Hd' & _).
    unfold commit, exec. eauto.
  - destruct (exec_on_closed Caller "ROLLBACK" s C Hd) as (s' & E & C' & Hd' & _).
    unfold rollback, exec. eauto.
  - destruct (transaction_on_closed m fn s C Hd) as (s' & E & C' & Hd'). eauto.
  - destruct cls; [| unfold BunSqliteDatabase_function, throw; eauto |];
      unfold function, bind;
      destruct (call_on_closed Caller (DbFunction name) s C Hd
                  ltac:(discriminate) eq_refl) as (s' & -> & C' & Hd' & _);
      eauto.
  - destruct cls; [| unfold BunSqliteDatabase_aggregate, throw; eauto |];
      unfold aggregate, bind;
      destruct (call_on_closed Caller (DbAggregate name) s C Hd
                  ltac:(discriminate) eq_refl) as (s' & -> & C' & Hd' & _);
      eauto.
  - unfold loadExtension, bind.
    destruct (call_on_closed Caller (DbLoadExtension path) s C Hd
                ltac:(discriminate) eq_refl) as (s' & -> & C' & Hd' & _).
    eauto.
  - destruct cls.
    + apply node_backup_on_closed; assumption.
    + unfold BunSqliteDatabase_backup, bind, raw, ret.
      destruct (call_on_closed Caller (DbSerialize None) s C Hd
                  ltac:(discriminate) eq_refl) as (s' & -> & C' & Hd' & _).
      eauto.
    + apply single_call_on_closed; auto; discriminate.
  - assert (forall simple', exists s',
              pragma driver cls sql simple' s
              = (Rejected (err (DbPrepare ("PRAGMA " +:+ sql))), s')
              /\ isClosed s' = true /\ dead (_db s')) as Base.
    { intros simple'. unfold pragma. destruct simple'.
      - unfold get.
        destruct (prepare_on_closed ("PRAGMA " +:+ sql) s
                    (fun stmt => stmt_get driver stmt (VArray [])) C Hd)
          as (s' & E & C' & Hd' & _).
        exists s'. split; [|auto].
        unfold bind at 1. rewrite E. reflexivity.
      - unfold all.
        destruct (prepare_on_closed ("PRAGMA " +:+ sql) s
                    (fun stmt => stmt_all driver stmt (VArray [])) C Hd)
          as (s' & E & C' & Hd' & _). eauto. }
    destruct cls; [apply Base | apply Base |].
    apply single_call_on_closed; auto; discriminate.
  - unfold attach, exec.
    destruct (exec_on_closed Caller
                ("ATTACH DATABASE '" +:+ replace_quotes path +:+ "' AS " +:+ alias)
                s C Hd) as (s' & E & C' & Hd' & _).
    eauto.
  - destruct cls.
    + unfold NodeSqliteDatabase_serialize, finally_unlink.
      set (tempFile := in_tmpdir ("isomorphic-sqlite-serialize-"
                                  +:+ js_number (now (_db s)) +:+ ".db")).
      destruct (node_backup_on_closed tempFile s C Hd) as (s1 & E & C1 & Hd1).
      unfold bind at 1. rewrite E.
      destruct (fst (driver ImportNodeSqlite (_db s))) as [x|e];
        destruct (host_call_on_closed Caller (FsUnlink tempFile) s1 C1 Hd1
                    ltac:(discriminate)) as (s2 & -> & C2 & Hd2);
        eauto.
    + apply single_call_on_closed; auto; discriminate.
    + apply single_call_on_closed; auto; discriminate.
  - unfold close. rewrite C. eauto.
  - unfold raw, ret. eauto.
Qed.

End Closing.

Import BaseDatabase.

(** On the sample driver a closed connection stays closed and refuses
    every call that is made on it, but [close], with the same error. *)
Lemma sqlite_closed_is_dead (c : driver_call) (d : Sqlite.connection) :
  Sqlite.closed d = true -> c <> DbClose ->
  Sqlite.closed (snd (Sqlite.driver c d)) = true
  /\ (on_connection c = true ->
      fst (Sqlite.driver c d)
      = Rejected (VError "The database connection is not open")).
Proof.
  intros H N.
  destruct c; try (destruct (N eq_refl)); simpl; rewrite ?H; simpl;
    (split; [first [exact H | reflexivity] | first [reflexivity | discriminate]]).
Qed.

(** C7 as stated fails: after [close()] has resolved, [raw()] and a second
    [close()] resolve, and [exec] and [backup] fail with the error of the
    driver, which is no error of the session. *)
Lemma operations_after_close_can_succeed :
  omap (state_of
          (Database.play Samples.used_after_close
             (Database.new_session Samples.fresh_adapter)))
    (Database.results
       (Database.play Samples.used_after_close
          (Database.new_session Samples.fresh_adapter)))
  = [Resolved VUndefined; Resolved VRaw; Resolved VUndefined;
     Rejected (VError "The database connection is not open");
     Rejected (VError "The database connection is not open")]
  /\ isClosed
       (snd (Database.operation_of Sqlite.driver Sqlite.now Sqlite.in_tmpdir
               NodeSqliteDatabase Database.Close Samples.fresh_adapter))
     = true.
Proof. split; vm_compute; reflexivity. Qed.

(** On the sample driver, closed: [exec] fails with the driver's error,
    [raw()] resolves, and [serialize] of the node adapter fails with the
    driver's error after it has asked for its temporary file to be
    removed. *)
Lemma closed_session_outcomes_witness :
  fst (Database.operation_of Sqlite.driver Sqlite.now Sqlite.in_tmpdir
         NodeSqliteDatabase (Database.Exec "SELECT 1") Samples.closed_adapter)
  = Database.ReturnsPromise
      (Rejected (VError "The database connection is not open"))
  /\ fst (Database.operation_of Sqlite.driver Sqlite.now Sqlite.in_tmpdir
            NodeSqliteDatabase Database.Raw Samples.closed_adapter)
     = Database.ReturnsPromise (Resolved VRaw)
  /\ fst (Database.operation_of Sqlite.driver Sqlite.now Sqlite.in_tmpdir
            NodeSqliteDatabase (Database.Serialize None)
            Samples.closed_adapter)
     = Database.ReturnsPromise
         (Rejected (VError "The database connection is not open"))
  /\ journal
       (snd (Database.operation_of Sqlite.driver Sqlite.now Sqlite.in_tmpdir
               NodeSqliteDatabase (Database.Serialize None)
               Samples.closed_adapter))
     = journal Samples.closed_adapter
       ++ [Issued Caller ImportNodeSqlite true;
           Issued Caller
             (NodeBackup "/tmp/isomorphic-sqlite-serialize-0.db") false;
           Issued Caller
             (FsUnlink "/tmp/isomorphic-sqlite-serialize-0.db") true].
Proof.
  split; [|split; [|split]].
  - apply (closed_session_outcomes Sqlite.driver Sqlite.now Sqlite.in_tmpdir
             NodeSqliteDatabase
             (fun d => Sqlite.closed d = true)
             (fun _ => VError "The database connection is not open")
             sqlite_closed_is_dead (Database.Exec "SELECT 1")
             Samples.closed_adapter eq_refl eq_refl).
  - apply (closed_session_outcomes Sqlite.driver Sqlite.now Sqlite.in_tmpdir
             NodeSqliteDatabase
             (fun d => Sqlite.closed d = true)
             (fun _ => VError "The database connection is not open")
             sqlite_closed_is_dead Database.Raw
             Samples.closed_adapter eq_refl eq_refl).
  - apply (closed_session_outcomes Sqlite.driver Sqlite.now Sqlite.in_tmpdir
             NodeSqliteDatabase
             (fun d => Sqlite.closed d = true)
             (fun _ => VError "The database connection is not open")
             sqlite_closed_is_dead (Database.Serialize None)
             Samples.closed_adapter eq_refl eq_refl).
  - reflexivity.
Defined.

(** C10 through the session: two calls of [close()] both resolve, and the
    driver is asked to close once. *)
Example closed_twice_resolves_twice :
  omap (state_of
          (Database.play Samples.closed_twice
             (Database.new_session Samples.fresh_adapter)))
    (Database.results
       (Database.play Samples.closed_twice
          (Database.new_session Samples.fresh_adapter)))
  = [Resolved VUndefined; Resolved VUndefined]
  /\ journal
       (Database.adapter
          (Database.play Samples.closed_twice
             (Database.new_session Samples.fresh_adapter)))
     = [Issued Caller DbClose true].
Proof. split; vm_compute; reflexivity. Qed.

(** * Calls in progress side by side: facts *)

Section InterleavedFacts.

Context {D : Type}.
Variable driver : driver_call -> D -> settled value * D.
Variable now : D -> Z.
Variable in_tmpdir : string -> string.
Variable cls : adapter_class.

Import BaseDatabase Interleaved.

Implicit Types (t child : @task D) (s : @state D) (r : settled value).

Lemma rounds_settled n r s : rounds n (Settled r) s = (Settled r, s).
Proof. induction n as [|n IH]; [reflexivity | exact IH]. Qed.

Lemma rounds_step n t s :
  rounds (S n) t s = rounds n (fst (round t s)) (snd (round t s)).
Proof. simpl. destruct (round t s). reflexivity. Qed.

Lemma rounds_add a b t s :
  rounds (a + b) t s = rounds b (fst (rounds a t s)) (snd (rounds a t s)).
Proof.
  revert t s. induction a as [|a IH]; intros t s; [reflexivity|].
  change (S a + b)%nat with (S (a + b)). rewrite !rounds_step. apply IH.
Qed.

(** A task that awaits [child] goes on one round after [child] has
    settled. *)
Lemma rounds_awaiting n child s r s1
    (k : settled value -> @state D -> @task D * @state D) :
  rounds n child s = (Settled r, s1) ->
  exists j, rounds (S j) (Awaiting child k) s = k r s1.
Proof.
  revert child s. induction n as [|n IH]; intros child s H.
  - simpl in H. injection H as -> ->. exists O. simpl.
    destruct (k r s1). reflexivity.
  - destruct (is_settled child) eqn:Hs.
    + destruct child; try discriminate Hs.
      rewrite rounds_settled in H. injection H as -> ->. exists O. simpl.
      destruct (k r s1). reflexivity.
    + rewrite rounds_step in H.
      destruct (IH _ _ H) as (j & Hj). exists (S j).
      rewrite rounds_step.
      replace (round (Awaiting child k) s)
        with (Awaiting (fst (round child s)) k, snd (round child s)).
      * exact Hj.
      * destruct child; try discriminate Hs; simpl;
          match goal with |- context [let (_, _) := ?x in _] =>
            destruct x; reflexivity end.
Qed.

Lemma settles_now r s : settles (Settled r) s r s.
Proof. exists O. reflexivity. Qed.

Lemma settles_waiting (f : @state D -> @task D * @state D) s r s' :
  settles (fst (f s)) (snd (f s)) r s' -> settles (Waiting f) s r s'.
Proof. intros (n & H). exists (S n). rewrite rounds_step. exact H. Qed.

Lemma settles_awaiting child
    (k : settled value -> @state D -> @task D * @state D) s r s1 r' s' :
  settles child s r s1 ->
  settles (fst (k r s1)) (snd (k r s1)) r' s' ->
  settles (Awaiting child k) s r' s'.
Proof.
  intros (n & H) (n' & H').
  destruct (rounds_awaiting n child s r s1 k H) as (j & Hj).
  exists (S j + n')%nat. rewrite rounds_add, Hj. exact H'.
Qed.

(** The [catch] block, turn by turn, does what [on_failure] does in one
    piece. *)
Lemma catch_settles depth err s :
  settles (fst (catch driver depth err s)) (snd (catch driver depth err s))
    (fst (on_failure driver depth err s))
    (snd (on_failure driver depth err s)).
Proof.
  unfold catch, on_failure. destruct (transactionDepth s >? 0).
  - destruct (exec_as driver Manager (rollback_sql depth) s) as [[x|e] s1];
      simpl; apply settles_waiting; apply settles_now.
  - apply settles_now.
Qed.

(** An attempt whose body, as a task, settles as [fseq] says, settles as
    [createTransactional] says. *)
Lemma started_settles m (fn : @state D -> @task D * @state D)
    (fseq : Async value) :
  (forall s, settles (fst (fn s)) (snd (fn s))
               (fst (fseq s)) (snd (fseq s))) ->
  forall s,
    settles (fst (started driver m fn s)) (snd (started driver m fn s))
      (fst (createTransactional driver m fseq s))
      (snd (createTransactional driver m fseq s)).
Proof.
  intros Hfn s. rewrite createTransactional_paths. cbv zeta.
  unfold started.
  destruct (exec_as driver Manager (open_sql m (transactionDepth s)) s)
    as [[x|e] s1]; cbn [fst snd]; apply settles_waiting.
  2:{ apply catch_settles. }
  specialize (Hfn (with_depth (transactionDepth s1 + 1) s1)).
  destruct (fn (with_depth (transactionDepth s1 + 1) s1)) as [t s3].
  destruct (fseq (with_depth (transactionDepth s1 + 1) s1)) as [o s4].
  cbn [fst snd] in *.
  eapply settles_awaiting; [exact Hfn|].
  destruct o as [result|e]; [|apply catch_settles].
  destruct (exec_as driver Manager (close_sql (transactionDepth s))
              (with_depth (transactionDepth s4 - 1) s4)) as [[y|e] s5];
    cbn [fst snd]; apply settles_waiting;
    [apply settles_now | apply catch_settles].
Qed.

Lemma start_settles (b : body) s :
  settles (fst (start driver now in_tmpdir cls b s))
    (snd (start driver now in_tmpdir cls b s))
    (fst (run_body driver now in_tmpdir cls b s))
    (snd (run_body driver now in_tmpdir cls b s)).
Proof.
  revert s. induction b as [v|v|c k IH|m inner IHi k IH]; intros s.
  - apply settles_now.
  - apply settles_now.
  - cbn [start run_body].
    destruct (tx_method driver now in_tmpdir cls c s) as [o s1].
    cbn [fst snd]. apply settles_waiting. apply IH.
  - cbn [start run_body].
    pose proof (started_settles m (start driver now in_tmpdir cls inner)
                  (run_body driver now in_tmpdir cls inner) IHi s) as H.
    destruct (started driver m (start driver now in_tmpdir cls inner) s)
      as [t s1].
    destruct (createTransactional driver m
                (run_body driver now in_tmpdir cls inner) s) as [o s2].
    cbn [fst snd] in *.
    eapply settles_awaiting; [exact H|]. apply IH.
Qed.

(** Where a body awaits each call and each nested attempt before it goes
    on, the attempt taken turn by turn settles, with the outcome and the
    adapter that [transaction] gives in one piece. *)
Lemma awaited_attempt_settles m (b : body) s :
  settles
    (fst (started driver m (start_script driver now in_tmpdir cls (Plainly b)) s))
    (snd (started driver m (start_script driver now in_tmpdir cls (Plainly b)) s))
    (fst (transaction driver now in_tmpdir cls m b s))
    (snd (transaction driver now in_tmpdir cls m b s)).
Proof.
  unfold transaction.
  apply (started_settles m (start driver now in_tmpdir cls b)
           (run_body driver now in_tmpdir cls b)).
  apply start_settles.
Qed.

End InterleavedFacts.

Import BaseDatabase Interleaved.

(** Two attempts started side by side on the handle of a third: both
    capture the depth one; the first fails at once and puts the depth
    back to one while the second is still in its body; the second then
    lowers it to zero and the outer attempt to minus one. The driver has
    accepted every statement of the transaction manager, and the outer
    attempt resolves. *)
Example side_by_side_depth_goes_negative :
  let started_ :=
    started Sqlite.driver Plain
      (start_script Sqlite.driver Sqlite.now Sqlite.in_tmpdir
         NodeSqliteDatabase side_by_side) Samples.fresh_adapter in
  let ended := rounds 10 (fst started_) (snd started_) in
  fst ended = Settled (Resolved VUndefined)
  /\ transactionDepth (snd ended) = -1
  /\ journal (snd ended)
     = [Issued Manager (DbExec "BEGIN ") true; DepthSet 1;
        Issued Manager (DbExec "SAVEPOINT isomorphic_sqlite_1") true;
        Issued Manager (DbExec "SAVEPOINT isomorphic_sqlite_1") true;
        DepthSet 2; DepthSet 3;
        Issued Caller (DbExec "INSERT INTO test (name) VALUES ('one')") true;
        Issued Manager (DbExec "ROLLBACK TO SAVEPOINT isomorphic_sqlite_1")
          true;
        Issued Caller (DbExec "INSERT INTO test (name) VALUES ('two')") true;
        DepthSet 1;
        Issued Caller (DbExec "INSERT INTO test (name) VALUES ('three')") true;
        DepthSet 0;
        Issued Manager (DbExec "RELEASE SAVEPOINT isomorphic_sqlite_1") true;
        DepthSet (-1); Issued Manager (DbExec "COMMIT") true].
Proof. vm_compute. auto. Qed.

(** * The session queue *)

Create HintDb stable.

Section QueueLemmas.

Context {D : Type}.

Import Database.

Implicit Types (s : @Database.session D) (p q t : pid)
  (c : @Database.promise D) (r : @Database.reaction D) (j : @Database.job D).

(** ** Running operations in order *)

Lemma replay_app (l1 l2 : list (@operation D)) a :
  replay (l1 ++ l2) a =
  (fst (replay l1 a) ++ fst (replay l2 (snd (replay l1 a))),
   snd (replay l2 (snd (replay l1 a)))).
Proof.
  revert a. induction l1 as [|o l1 IH]; intros a; simpl.
  - destruct (replay l2 a); reflexivity.
  - destruct (o a) as [x a1]. rewrite IH.
    destruct (replay l1 a1) as [rs a2]. simpl.
    destruct (replay l2 a2); reflexivity.
Qed.

Lemma replay_length (l : list (@operation D)) a :
  length (fst (replay l a)) = length l.
Proof.
  revert a. induction l as [|o l IH]; intros a; simpl; [reflexivity|].
  destruct (o a) as [x a1]. specialize (IH a1).
  destruct (replay l a1). simpl in *. lia.
Qed.

Lemma replay_lookup_app (l1 l2 : list (@operation D)) a (i : nat) x :
  fst (replay l1 a) !! i = Some x -> fst (replay (l1 ++ l2) a) !! i = Some x.
Proof.
  intros H. rewrite replay_app. simpl. apply lookup_app_l_Some. exact H.
Qed.

Lemma replay_take_S (l : list (@operation D)) a (n : nat) o :
  l !! n = Some o ->
  replay (take (S n) l) a =
  (fst (replay (take n l) a) ++ [fst (o (snd (replay (take n l) a)))],
   snd (o (snd (replay (take n l) a)))).
Proof.
  intros H. rewrite (take_S_r l n o H), replay_app. simpl.
  destruct (o (snd (replay (take n l) a))). reflexivity.
Qed.

Lemma replay_lookup_take (l : list (@operation D)) a (n : nat) o :
  l !! n = Some o ->
  fst (replay l a) !! n = Some (fst (o (snd (replay (take n l) a)))).
Proof.
  intros H.
  rewrite <- (take_drop (S n) l) at 1.
  apply replay_lookup_app. rewrite (replay_take_S l a n o H). simpl.
  apply list_lookup_middle. rewrite replay_length, length_take.
  apply lookup_lt_Some in H. symmetry. apply Nat.min_l. apply Nat.lt_le_incl. exact H.
Qed.
(** ** What the primitives do *)

Lemma settle_pending s p c o :
  heap s !! p = Some c -> state c = None ->
  settle p o s =
  push_jobs (map (reaction_job o) (reactions c))
    (with_heap (<[p := {| state := Some o; reactions := [];
                          handled := handled c; role_ := role_ c |}]> (heap s)) s).
Proof. intros H1 H2. unfold settle. rewrite H1, H2. reflexivity. Qed.

Lemma settle_settled s p c o x :
  heap s !! p = Some c -> state c = Some x -> settle p o s = s.
Proof. intros H1 H2. unfold settle. rewrite H1, H2. reflexivity. Qed.

Lemma settle_invalid s p o : heap s !! p = None -> settle p o s = s.
Proof. intros H1. unfold settle. rewrite H1. reflexivity. Qed.

(** ** Continuations of a session *)

Lemma heap_extends_refl (h : list (@Database.promise D)) : heap_extends h h.
Proof. intros p c H. eauto. Qed.

Lemma heap_extends_trans (h1 h2 h3 : list (@Database.promise D)) :
  heap_extends h1 h2 -> heap_extends h2 h3 -> heap_extends h1 h3.
Proof.
  intros H12 H23 p c H.
  destruct (H12 p c H) as (c2 & L2 & R2 & S2).
  destruct (H23 p c2 L2) as (c3 & L3 & R3 & S3).
  exists c3. split; [exact L3|]. split; [congruence|]. auto.
Qed.

Lemma heap_extends_app (h l : list (@Database.promise D)) :
  heap_extends h (h ++ l).
Proof.
  intros p c H. exists c. split; [apply lookup_app_l_Some; exact H|]. auto.
Qed.

Lemma heap_extends_insert (h : list (@Database.promise D)) p c c' :
  h !! p = Some c -> role_ c' = role_ c ->
  (forall o, state c = Some o -> state c' = Some o) ->
  heap_extends h (<[p := c']> h).
Proof.
  intros H R S p0 c0 H0. destruct (decide (p0 = p)) as [->|Hne].
  - exists c'. rewrite list_lookup_insert_eq by (eapply lookup_lt_Some; eauto).
    replace c0 with c by congruence. auto.
  - exists c0. rewrite list_lookup_insert_ne by auto. auto.
Qed.

Lemma extends_refl s : extends s s.
Proof.
  split; [apply heap_extends_refl| | | |]; exists []; rewrite app_nil_r; reflexivity.
Qed.

Lemma extends_trans s1 s2 s3 : extends s1 s2 -> extends s2 s3 -> extends s1 s3.
Proof.
  intros [H1 [o1 O1] [r1 R1] [q1 Q1] [b1 B1]] [H2 [o2 O2] [r2 R2] [q2 Q2] [b2 B2]].
  split.
  - eapply heap_extends_trans; eauto.
  - exists (o1 ++ o2). rewrite O2, O1, app_assoc. reflexivity.
  - exists (r1 ++ r2). rewrite R2, R1, app_assoc. reflexivity.
  - exists (q1 ++ q2). rewrite Q2, Q1, app_assoc. reflexivity.
  - exists (b1 ++ b2). rewrite B2, B1, app_assoc. reflexivity.
Qed.

(** A session that differs from [s] in its heap, its microtasks, its
    adapter and its [#queue] only. *)
Lemma extends_heap s s' :
  heap_extends (heap s) (heap s') ->
  operations s' = operations s -> results s' = results s ->
  queues s' = queues s -> began s' = began s ->
  extends s s'.
Proof.
  intros H O R Q B.
  split; [exact H| | | |]; exists []; rewrite app_nil_r; assumption.
Qed.

Lemma extends_alloc ro s : extends s (snd (alloc ro s)).
Proof. apply extends_heap; try reflexivity. apply heap_extends_app. Qed.

Lemma extends_push_jobs js s : extends s (push_jobs js s).
Proof. apply extends_heap; try reflexivity. apply heap_extends_refl. Qed.

Lemma extends_settle p o s : extends s (settle p o s).
Proof.
  unfold settle. destruct (heap s !! p) as [c|] eqn:H; [|apply extends_refl].
  destruct (state c) eqn:S; [apply extends_refl|].
  apply extends_heap; try reflexivity. simpl.
  eapply heap_extends_insert; eauto. simpl. congruence.
Qed.

Lemma extends_perform_then p r s : extends s (perform_then p r s).
Proof.
  unfold perform_then. destruct (heap s !! p) as [c|] eqn:H; [|apply extends_refl].
  destruct (state c) eqn:S; apply extends_heap; try reflexivity; simpl;
    eapply heap_extends_insert; eauto; simpl; congruence.
Qed.

Lemma extends_invoked i a s : extends s (invoked i a s).
Proof.
  split; simpl; [apply heap_extends_refl| | | |];
    first [exists []; rewrite app_nil_r; reflexivity | eexists; reflexivity].
Qed.

(** ** What a continuation keeps *)

Lemma state_of_extends s s' p o :
  extends s s' -> state_of s p = Some o -> state_of s' p = Some o.
Proof.
  intros [H _ _ _ _]. unfold state_of.
  destruct (heap s !! p) as [c|] eqn:L; [|discriminate].
  intros S. destruct (H p c L) as (c' & L' & _ & K). rewrite L'. auto.
Qed.

Lemma has_role_extends s s' p ro :
  extends s s' -> has_role s p ro -> has_role s' p ro.
Proof.
  intros [H _ _ _ _] (c & L & R). destruct (H p c L) as (c' & L' & R' & _).
  exists c'. split; [exact L'|congruence].
Qed.

Lemma init_ok_extends s s' : extends s s' -> init_ok s -> init_ok s'.
Proof. unfold init_ok. eauto using state_of_extends. Qed.

Lemma init_failed_extends s s' e :
  extends s s' -> init_failed s e -> init_failed s' e.
Proof. unfold init_failed. eauto using state_of_extends. Qed.

Lemma results_extends s s' (i : nat) p :
  extends s s' -> results s !! i = Some p -> results s' !! i = Some p.
Proof. intros [_ _ [l ->] _ _] H. apply lookup_app_l_Some. exact H. Qed.

Lemma queues_extends s s' (i : nat) p :
  extends s s' -> queues s !! i = Some p -> queues s' !! i = Some p.
Proof. intros [_ _ _ [l ->] _] H. apply lookup_app_l_Some. exact H. Qed.

Lemma operations_extends s s' (i : nat) o :
  extends s s' -> operations s !! i = Some o -> operations s' !! i = Some o.
Proof. intros [_ [l ->] _ _ _] H. apply lookup_app_l_Some. exact H. Qed.

Lemma began_extends s s' (i : nat) :
  extends s s' -> (i < length (began s))%nat -> (i < length (began s'))%nat.
Proof. intros [_ _ _ _ [l ->]] H. rewrite length_app. lia. Qed.

Lemma tail_of_extends s s' (i : nat) p :
  extends s s' -> tail_of s i = Some p -> tail_of s' i = Some p.
Proof. destruct i; simpl; [auto|]. apply queues_extends. Qed.

Lemma expected_extends a s s' (i : nat) x :
  extends s s' -> expected a s i = Some x -> expected a s' i = Some x.
Proof.
  intros [_ [l E] _ _ _]. unfold expected. rewrite E. apply replay_lookup_app.
Qed.

Lemma result_settled_extends s s' (i : nat) :
  extends s s' -> result_settled s i -> result_settled s' i.
Proof.
  intros E (p & R & [o S]). exists p. split; [eauto using results_extends|].
  exists o. eauto using state_of_extends.
Qed.
#[local] Hint Resolve state_of_extends has_role_extends init_ok_extends
  init_failed_extends results_extends queues_extends operations_extends
  began_extends tail_of_extends expected_extends result_settled_extends
  : stable.

Lemma reaction_ok_extends s s' host r :
  extends s s' -> reaction_ok s host r -> reaction_ok s' host r.
Proof.
  intros E. unfold reaction_ok.
  destruct (on_fulfilled r), (on_rejected r), (derived r); try exact id;
    intros H; naive_solver eauto with stable.
Qed.

Lemma promise_ok_extends a s s' p ro st h :
  extends s s' -> promise_ok a s p ro st h -> promise_ok a s' p ro st h.
Proof.
  intros E. unfold promise_ok. destruct ro; try exact id.
  - intros [R H]. split; [eauto with stable|].
    intros o Ho. destruct (H o Ho) as [(e & F & ->)|(L & x & X & ->)].
    + left. eauto with stable.
    + right. eauto 6 with stable.
  - intros (Q & Hh & H). split; [eauto with stable|]. split; [exact Hh|].
    intros [v|e] Ho; specialize (H _ Ho); simpl in *.
    + naive_solver eauto with stable.
    + eauto with stable.
  - intros H o Ho. specialize (H o Ho). naive_solver eauto with stable.
  - intros H. naive_solver eauto with stable.
Qed.

Lemma job_ok_extends a s s' j :
  extends s s' -> length (began s') = length (began s) ->
  job_ok a s j -> job_ok a s' j.
Proof.
  intros E B. unfold job_ok.
  destruct j as [[] arg [t|]|]; try exact id; rewrite ?B;
    intros H; try solve [naive_solver eauto with stable].
Qed.
(** ** [tick] and [#enqueue], step by step *)

Lemma tick_pop s j rest :
  microtasks s = j :: rest -> tick s = run_job j (pop s).
Proof. intros H. unfold tick, pop. rewrite H. reflexivity. Qed.

Lemma tick_idle s : microtasks s = [] -> tick s = s.
Proof. intros H. unfold tick. rewrite H. reflexivity. Qed.

Lemma perform_then_length p r s :
  length (heap (perform_then p r s)) = length (heap s).
Proof.
  unfold perform_then. destruct (heap s !! p) as [c|]; [|reflexivity].
  destruct (state c); simpl; apply length_insert.
Qed.

Lemma perform_then_queue p r s : queue (perform_then p r s) = queue s.
Proof.
  unfold perform_then. destruct (heap s !! p) as [c|]; [|reflexivity].
  destruct (state c); reflexivity.
Qed.

Lemma perform_then_alloc p r ro s :
  (p < length (heap s))%nat ->
  perform_then p r (snd (alloc ro s)) = snd (alloc ro (perform_then p r s)).
Proof.
  intros Hp. unfold perform_then, alloc. simpl.
  destruct (lookup_lt_is_Some_2 _ _ Hp) as [c Hc].
  rewrite (lookup_app_l_Some _ _ _ _ Hc), Hc.
  destruct (state c); unfold with_heap, push_jobs; simpl;
    rewrite insert_app_l by exact Hp; reflexivity.
Qed.

Lemma perform_then_retable p r (o : @operation D) (n : nat) s :
  perform_then p r (retable o n s) = retable o n (perform_then p r s).
Proof.
  unfold perform_then, retable. simpl.
  destruct (heap s !! p) as [c|]; [|reflexivity].
  destruct (state c); reflexivity.
Qed.

(** Registering on a pending promise commutes with registering on another
    promise. *)
Lemma perform_then_pending_comm p r p' r' c' s :
  p <> p' -> heap s !! p' = Some c' -> state c' = None ->
  perform_then p' r' (perform_then p r s)
  = perform_then p r (perform_then p' r' s).
Proof.
  intros Hne Hc' Hs'. unfold perform_then at 2 4. rewrite Hc', Hs'.
  destruct (heap s !! p) as [c|] eqn:Hc.
  - destruct (state c) as [x|] eqn:Hs; unfold perform_then; simpl;
      rewrite list_lookup_insert_ne by auto; rewrite Hc', Hs'; simpl;
      rewrite list_lookup_insert_ne by auto; rewrite Hc, Hs;
      unfold with_heap, push_jobs; simpl;
      rewrite list_insert_insert_ne by auto; reflexivity.
  - unfold perform_then; simpl. rewrite Hc', Hs'. simpl.
    rewrite list_lookup_insert_ne by auto. rewrite Hc. reflexivity.
Qed.

Lemma enqueue_reserve (o : @operation D) s :
  (queue s < length (heap s))%nat ->
  enqueue o s =
  (length (heap s),
   perform_then (queue s) (update_reaction (length (results s)) (length (heap s)))
     (perform_then (queue s)
        (operation_reaction (length (results s)) (length (heap s)) o)
        (reserve o s))).
Proof.
  intros Hq.
  set (n := length (heap s)). set (i := length (results s)). set (q := queue s).
  set (rA := operation_reaction i n o). set (rB := update_reaction i n).
  set (X := snd (alloc (RCatch i) (snd (alloc (RQueueUpdate i)
                   (snd (alloc (RResult i) s)))))).
  assert (heap X = heap s ++ [fresh (RResult i); fresh (RQueueUpdate i);
                              fresh (RCatch i)]) as HX
    by (unfold X, alloc; simpl; rewrite <- !app_assoc; reflexivity).
  assert (enqueue o s =
          (n, retable o n (perform_then (S n) (catch_reaction n)
                 (perform_then q rB (perform_then q rA X))))) as ->.
  { unfold enqueue, then_. fold i. fold q.
    change (alloc (RResult i) s) with (n, snd (alloc (RResult i) s)).
    cbv beta iota zeta.
    set (s1 := perform_then q _ (snd (alloc (RResult i) s))).
    assert (length (heap s1) = S n) as L1
      by (unfold s1; rewrite perform_then_length; unfold alloc; simpl;
          rewrite length_app; simpl; fold n; lia).
    assert (queue s1 = q) as Q1
      by (unfold s1; rewrite perform_then_queue; reflexivity).
    rewrite Q1.
    change (alloc (RQueueUpdate i) s1)
      with (length (heap s1), snd (alloc (RQueueUpdate i) s1)).
    rewrite L1. cbv beta iota zeta.
    set (s2 := perform_then q _ (snd (alloc (RQueueUpdate i) s1))).
    assert (length (heap s2) = S (S n)) as L2
      by (unfold s2; rewrite perform_then_length; unfold alloc; simpl;
          rewrite length_app, L1; simpl; lia).
    change (alloc (RCatch i) s2)
      with (length (heap s2), snd (alloc (RCatch i) s2)).
    rewrite L2. cbv beta iota zeta.
    f_equal.
    transitivity (retable o n (perform_then (S n) (catch_reaction n)
                    (snd (alloc (RCatch i) s2)))); [reflexivity|].
    f_equal. f_equal.
    unfold s2, s1, X. fold rA. fold rB.
    rewrite <- !perform_then_alloc
      by (repeat first [ rewrite perform_then_length | rewrite length_app
                       | progress (unfold alloc; simpl) ];
          unfold q, n in *; lia).
    reflexivity. }
  f_equal.
  rewrite (perform_then_pending_comm q rB (S n) (catch_reaction n)
             (fresh (RQueueUpdate i))).
  - rewrite (perform_then_pending_comm q rA (S n) (catch_reaction n)
               (fresh (RQueueUpdate i))).
    + rewrite <- !perform_then_retable. f_equal. f_equal.
      unfold perform_then. change (heap (retable o n X)) with (heap X).
      rewrite HX.
      replace ((heap s ++ [fresh (RResult i); fresh (RQueueUpdate i);
                           fresh (RCatch i)]) !! S n)
        with (Some (@fresh D (RQueueUpdate i))).
      * unfold retable, reserve, with_heap. simpl. fold n. fold i.
        f_equal. replace (S n) with (length (heap s) + 1)%nat by (fold n; lia).
        rewrite insert_app_r. reflexivity.
      * symmetry. replace (S n) with (length (heap s) + 1)%nat by (fold n; lia).
        rewrite lookup_app_r by lia.
        replace (length (heap s) + 1 - length (heap s))%nat with 1%nat by lia.
        reflexivity.
    + unfold q, n in *. lia.
    + rewrite HX. replace (S n) with (length (heap s) + 1)%nat by (fold n; lia).
      rewrite lookup_app_r by lia.
      replace (length (heap s) + 1 - length (heap s))%nat with 1%nat by lia.
      reflexivity.
    + reflexivity.
  - unfold q, n in *. lia.
  - unfold perform_then at 1. rewrite HX.
    destruct ((heap s ++ [fresh (RResult i); fresh (RQueueUpdate i);
                          fresh (RCatch i)]) !! q) as [c|] eqn:Hc;
      [|rewrite HX; replace (S n) with (length (heap s) + 1)%nat by (fold n; lia);
        rewrite lookup_app_r by lia;
        replace (length (heap s) + 1 - length (heap s))%nat with 1%nat by lia;
        reflexivity].
    destruct (state c); simpl; rewrite list_lookup_insert_ne by (unfold q, n in *; lia);
      replace (S n) with (length (heap s) + 1)%nat by (fold n; lia);
      rewrite lookup_app_r by lia;
      replace (length (heap s) + 1 - length (heap s))%nat with 1%nat by lia;
      reflexivity.
  - reflexivity.
Qed.
(** ** Keeping the invariant *)

Lemma job_ok_extends_plain a s s' j :
  extends s s' -> op_index j = None -> job_ok a s j -> job_ok a s' j.
Proof.
  intros E N. unfold job_ok.
  destruct j as [[] arg [t|]|]; try exact id; try discriminate;
    intros H; naive_solver eauto with stable.
Qed.

Lemma wf_update a s s' :
  wf a s -> extends s s' -> began s' = began s -> adapter s' = adapter s ->
  (length (operations s') = length (results s')
   /\ length (queues s') = length (results s')) ->
  tail_of s' (length (results s')) = Some (queue s') ->
  NoDup (0%nat :: queues s') ->
  (forall i p, results s' !! i = Some p -> has_role s' p (RResult i)) ->
  (forall i p, queues s' !! i = Some p -> has_role s' p (RQueueUpdate i)) ->
  (forall p c', heap s' !! p = Some c' ->
     heap s !! p = Some c'
     \/ (promise_ok a s' p (role_ c') (state c') (handled c')
         /\ (forall r, In r (reactions c') ->
               state c' = None /\ reaction_ok s' p r)
         /\ (length (omap rop_index (reactions c')) <= 1)%nat)) ->
  (forall j, In j (microtasks s') -> In j (microtasks s) \/ job_ok a s' j) ->
  (length (omap op_index (microtasks s')) <= 1)%nat ->
  wf a s'.
Proof.
  intros W E B A L Q N R U P J C.
  pose proof E as [_ [lo Eo] [lr Er] _ _].
  split; auto.
  - eapply has_role_extends; [exact E|apply W].
  - rewrite B. split; [apply W|]. rewrite Er, length_app.
    pose proof (proj2 (wf_began a s W)). lia.
  - rewrite B. intros i Hi. destruct (wf_began_tail a s W i Hi) as (t & T & S).
    exists t. eauto with stable.
  - rewrite B, A, (wf_adapter a s W), Eo. f_equal.
    rewrite take_app_le; [reflexivity|].
    pose proof (proj2 (wf_began a s W)). pose proof (proj1 (wf_lengths a s W)).
    lia.
  - intros p c' H. destruct (P p c' H) as [Old|(New & _)]; [|exact New].
    eapply promise_ok_extends; [exact E|]. apply (wf_promises a s W p c' Old).
  - intros p c' r H Hr. destruct (P p c' H) as [Old|(_ & New & _)]; [|auto].
    destruct (wf_reactions a s W p c' r Old Hr) as [S Rk].
    split; [exact S|]. eapply reaction_ok_extends; eauto.
  - intros p c' H. destruct (P p c' H) as [Old|(_ & _ & New)]; [|auto].
    apply (wf_op_reactions a s W p c' Old).
  - intros j Hj. destruct (J j Hj) as [Old|New]; [|exact New].
    eapply job_ok_extends; [exact E|rewrite B; reflexivity|].
    apply (wf_jobs a s W j Old).
Qed.

(** The same when the bookkeeping of [#enqueue] is untouched. *)
Lemma wf_update_same a s s' :
  wf a s -> heap_extends (heap s) (heap s') ->
  operations s' = operations s -> results s' = results s ->
  queues s' = queues s -> queue s' = queue s ->
  began s' = began s -> adapter s' = adapter s ->
  (forall p c', heap s' !! p = Some c' ->
     heap s !! p = Some c'
     \/ (promise_ok a s' p (role_ c') (state c') (handled c')
         /\ (forall r, In r (reactions c') ->
               state c' = None /\ reaction_ok s' p r)
         /\ (length (omap rop_index (reactions c')) <= 1)%nat)) ->
  (forall j, In j (microtasks s') -> In j (microtasks s) \/ job_ok a s' j) ->
  (length (omap op_index (microtasks s')) <= 1)%nat ->
  wf a s'.
Proof.
  intros W H O R Q Qu B A P J C.
  assert (extends s s') as E by (apply extends_heap; assumption).
  apply (wf_update a s s' W E B A); auto.
  - rewrite O, R, Q. apply W.
  - unfold tail_of. rewrite R, Q, Qu. apply W.
  - rewrite Q. apply W.
  - intros i p. rewrite R. intros Hr. eapply has_role_extends; eauto. apply W; auto.
  - intros i p. rewrite Q. intros Hr. eapply has_role_extends; eauto. apply W; auto.
Qed.

Lemma promise_ok_handled a s p ro st h :
  promise_ok a s p ro st h -> promise_ok a s p ro st true.
Proof. destruct ro; simpl; tauto. Qed.

Lemma has_role_fun s p ro ro' :
  has_role s p ro -> has_role s p ro' -> ro = ro'.
Proof. intros (c & L & R) (c' & L' & R'). congruence. Qed.

Lemma state_of_lookup s p c : heap s !! p = Some c -> state_of s p = state c.
Proof. intros H. unfold state_of. rewrite H. reflexivity. Qed.

Lemma init_ok_not_failed s e : init_ok s -> init_failed s e -> False.
Proof. unfold init_ok, init_failed. congruence. Qed.

(** What the settled tail of the queue says about [createDb]. *)
Lemma tail_settled a s i p c o :
  has_role s 0%nat RInit ->
  (forall i p, queues s !! i = Some p -> has_role s p (RQueueUpdate i)) ->
  (forall i, (i < length (began s))%nat -> init_ok s) ->
  tail_of s i = Some p ->
  heap s !! p = Some c -> state c = Some o ->
  promise_ok a s p (role_ c) (Some o) (handled c) ->
  match o with
  | Resolved v => v = VDatabase /\ init_ok s
  | Rejected e => init_failed s e
  end.
Proof.
  intros F0 FQ FI T Hc Hs Hp.
  assert (has_role s p (role_ c)) as Hrole by (exists c; auto).
  assert (state_of s p = Some o) as Hst
    by (rewrite (state_of_lookup _ _ _ Hc); exact Hs).
  destruct i as [|k]; simpl in T.
  - injection T as <-.
    rewrite <- (has_role_fun _ _ _ _ F0 Hrole) in Hp. simpl in Hp.
    destruct Hp as [_ Hv]. destruct o as [v|e].
    + specialize (Hv v eq_refl). subst v. split; [reflexivity | exact Hst].
    + exact Hst.
  - rewrite <- (has_role_fun _ _ _ _ (FQ _ _ T) Hrole) in Hp. simpl in Hp.
    destruct Hp as (_ & _ & Ho). specialize (Ho o eq_refl).
    destruct o as [v|e]; [|exact Ho].
    destruct Ho as (-> & Hk & _). split; [reflexivity | eauto].
Qed.

(** What a reaction other than the one that invokes an operation becomes
    when its promise is settled. *)
Lemma reaction_fires a s p c o r :
  has_role s 0%nat RInit ->
  (forall i p, results s !! i = Some p -> has_role s p (RResult i)) ->
  (forall i p, queues s !! i = Some p -> has_role s p (RQueueUpdate i)) ->
  (forall i, (i < length (began s))%nat -> init_ok s) ->
  heap s !! p = Some c -> state c = Some o ->
  promise_ok a s p (role_ c) (Some o) (handled c) ->
  reaction_ok s p r -> rop_index r = None ->
  job_ok a s (reaction_job o r) /\ op_index (reaction_job o r) = None.
Proof.
  intros F0 FR FQ FI Hc Hs Hp Hr Hn.
  assert (has_role s p (role_ c)) as Hrole by (exists c; auto).
  assert (state_of s p = Some o) as Hst
    by (rewrite (state_of_lookup _ _ _ Hc); exact Hs).
  unfold reaction_ok, rop_index in *.
  destruct r as [f g [t|]]; simpl in *;
    destruct f; try discriminate; try contradiction;
    destruct g; try contradiction.
  - (* the queue update *)
    destruct Hr as (Q & R & T).
    pose proof (tail_settled _ _ _ _ _ _ F0 FQ FI T Hc Hs Hp) as HT.
    destruct o as [v|e]; simpl; (split; [|reflexivity]).
    + tauto.
    + split; [exact HT | eauto].
  - (* the catch *)
    destruct o; simpl; auto.
  - (* adoption *)
    destruct Hr as (<- & Ht & Hq).
    destruct Hq as [(i & Q & Ro) | (i & fate & R & Ro)];
      rewrite <- (has_role_fun _ _ _ _ Ro Hrole) in Hp; simpl in Hp.
    + destruct (Hp o eq_refl) as (-> & Hi & Hset). simpl.
      split; [|reflexivity]. split; [exact Ht|]. left. eauto 10.
    + destruct Hp as (Hi & He & Ho). specialize (Ho o eq_refl). subst o.
      destruct fate; simpl; (split; [|reflexivity]); (split; [exact Ht|]);
        eauto 10.
  - (* the caller *)
    destruct o; simpl; auto.
  - (* the rest of the queue update *)
    destruct Hr as (<- & <- & <- & -> & R & Ra & I).
    rewrite <- (has_role_fun _ _ _ _ (FR _ _ R) Hrole) in Hp. simpl in Hp.
    destruct Hp as [_ Ho]. specialize (Ho o eq_refl).
    assert (result_settled s i /\ (i < length (began s))%nat) as [? ?].
    { split; [exists p; rewrite Hst; eauto|].
      destruct Ho as [(e & F & _) | (Hi & _)]; [|exact Hi].
      destruct (init_ok_not_failed _ _ I F). }
    destruct o; simpl; auto.
Qed.

Lemma rejected_reaction_index s p r e :
  reaction_ok s p r -> op_index (reaction_job (Rejected e) r) = None.
Proof.
  unfold reaction_ok. destruct r as [f g t]; simpl.
  destruct f, g, t; simpl; tauto.
Qed.

Lemma omap_tail_length {A B} (f : A -> option B) (l : list A) :
  (length (omap f (tl l)) <= length (omap f l))%nat.
Proof. destruct l as [|x l]; cbn; [lia|]. destruct (f x); cbn; lia. Qed.

Lemma wf_pop a s : wf a s -> wf a (pop s).
Proof.
  intros W. apply (wf_update_same a s (pop s) W); try reflexivity.
  - apply heap_extends_refl.
  - intros p c' H. left. exact H.
  - intros j H. left. simpl in H. destruct (microtasks s); [destruct H|].
    right. exact H.
  - simpl. etransitivity; [apply omap_tail_length|]. apply W.
Qed.

Lemma wf_push a s j :
  wf a s -> job_ok a s j -> op_index j = None -> wf a (push_jobs [j] s).
Proof.
  intros W J N. apply (wf_update_same a s _ W); try reflexivity.
  - apply heap_extends_refl.
  - intros p c' H. left. exact H.
  - intros j' H. simpl in H. apply in_app_or in H. destruct H as [H|[<-|[]]].
    + left. exact H.
    + right. eapply job_ok_extends_plain; eauto. apply extends_push_jobs.
  - simpl. rewrite omap_app. simpl. rewrite N. simpl. rewrite app_nil_r.
    apply W.
Qed.

Lemma wf_alloc a s ro :
  wf a s -> promise_ok a s (length (heap s)) ro None false ->
  wf a (snd (alloc ro s)).
Proof.
  intros W P. apply (wf_update_same a s _ W); try reflexivity.
  - apply heap_extends_app.
  - intros p c' H. simpl in H.
    destruct (lookup_app_Some (heap s) [fresh ro] p c') as [Hl _].
    destruct (Hl H) as [Hold | [Hge Hnew]]; [left; exact Hold|]. right.
    destruct (p - length (heap s))%nat as [|k] eqn:K; [|discriminate].
    injection Hnew as <-. simpl.
    assert (p = length (heap s)) as -> by lia.
    split; [|split; [intros r []|lia]].
    eapply promise_ok_extends; [apply extends_alloc | exact P].
  - intros j H. left. exact H.
  - apply W.
Qed.

Lemma lookup_insert_cases (h : list (@Database.promise D)) p p' c c' :
  <[p := c]> h !! p' = Some c' ->
  (p' = p /\ c' = c /\ (p < length h)%nat) \/ (p' <> p /\ h !! p' = Some c').
Proof.
  intros H. destruct (decide (p' = p)) as [->|Hne].
  - left. assert (p < length h)%nat as Hlt.
    { apply lookup_lt_Some in H. rewrite length_insert in H. exact H. }
    rewrite list_lookup_insert_eq in H by exact Hlt. split; [reflexivity|].
    split; [congruence | exact Hlt].
  - right. rewrite list_lookup_insert_ne in H by congruence. auto.
Qed.

Lemma wf_facts a s :
  wf a s ->
  has_role s 0%nat RInit
  /\ (forall i p, results s !! i = Some p -> has_role s p (RResult i))
  /\ (forall i p, queues s !! i = Some p -> has_role s p (RQueueUpdate i))
  /\ (forall i, (i < length (began s))%nat -> init_ok s).
Proof.
  intros W. split; [apply W|]. split; [apply W|]. split; [apply W|].
  intros i Hi. assert (0 < length (began s))%nat as H0 by lia.
  destruct (wf_began_tail a s W 0%nat H0) as (t & T & St).
  simpl in T. injection T as <-. exact St.
Qed.

(** [then] with handlers that do not invoke an operation. *)
Lemma wf_perform_then a s p r :
  wf a s -> (forall c, heap s !! p = Some c -> reaction_ok s p r) ->
  rop_index r = None -> wf a (perform_then p r s).
Proof.
  intros W R N. pose proof (extends_perform_then p r s) as E. revert E.
  unfold perform_then. destruct (heap s !! p) as [c|] eqn:Hc; [|intros _; exact W].
  specialize (R c eq_refl).
  pose proof (wf_promises a s W p c Hc) as Pc.
  destruct (state c) as [o|] eqn:Sc; intros E.
  - destruct (wf_facts a s W) as (F0 & FR & FQ & FI).
    pose proof Pc as Po.
    destruct (reaction_fires a s p c o r F0 FR FQ FI Hc Sc Po R N) as [J Jn].
    apply (wf_update_same a s _ W); try reflexivity.
    + exact (ext_heap _ _ E).
    + intros p' c' H. simpl in H.
      destruct (lookup_insert_cases _ _ _ _ _ H) as [(-> & -> & _) | [_ Ho]];
        [right | left; exact Ho]. simpl.
      split; [|split].
      * eapply promise_ok_extends; [exact E|]. eapply promise_ok_handled, Po.
      * intros r' Hr'. destruct (wf_reactions a s W p c r' Hc Hr') as [X _].
        congruence.
      * apply (wf_op_reactions a s W p c Hc).
    + intros j H. simpl in H. apply in_app_or in H. destruct H as [H|[<-|[]]].
      * left. exact H.
      * right. eapply job_ok_extends_plain; eauto.
    + simpl. rewrite omap_app. cbn. rewrite Jn. cbn. rewrite app_nil_r.
      apply W.
  - apply (wf_update_same a s _ W); try reflexivity.
    + exact (ext_heap _ _ E).
    + intros p' c' H. simpl in H.
      destruct (lookup_insert_cases _ _ _ _ _ H) as [(-> & -> & _) | [_ Ho]];
        [right | left; exact Ho]. simpl.
      split; [|split].
      * eapply promise_ok_extends; [exact E|]. eapply promise_ok_handled.
        exact Pc.
      * intros r' Hr'. split; [reflexivity|]. apply in_app_or in Hr'.
        eapply reaction_ok_extends; [exact E|].
        destruct Hr' as [Hr'|[<-|[]]]; [|exact R].
        apply (wf_reactions a s W p c r' Hc Hr').
      * rewrite omap_app. cbn. rewrite N. cbn. rewrite app_nil_r.
        apply (wf_op_reactions a s W p c Hc).
    + intros j H. left. exact H.
    + apply W.
Qed.

Lemma omap_none {A B} (f : A -> option B) (l : list A) :
  (forall x, In x l -> f x = None) -> omap f l = [].
Proof.
  induction l as [|x l IH]; intros H; [reflexivity|]. cbn.
  rewrite (H x (or_introl eq_refl)). apply IH. intros y Hy. apply H. right. exact Hy.
Qed.

Lemma omap_nil_inv {A B} (f : A -> option B) (l : list A) :
  omap f l = [] -> forall x, In x l -> f x = None.
Proof.
  induction l as [|y l IH]; cbn; intros H x Hx; [destruct Hx|].
  destruct (f y) as [z|] eqn:Fy; [discriminate|].
  destruct Hx as [<-|Hx]; [exact Fy | exact (IH H x Hx)].
Qed.

Lemma omap_cons_inv {A B} (f : A -> option B) (l : list A) y ys :
  omap f l = y :: ys -> exists x, In x l /\ f x = Some y.
Proof.
  induction l as [|x l IH]; cbn; [discriminate|].
  destruct (f x) as [z|] eqn:Fx.
  - intros [= -> _]. exists x. split; [left; reflexivity | exact Fx].
  - intros H. destruct (IH H) as (x' & Hx' & Fx'). exists x'.
    split; [right; exact Hx' | exact Fx'].
Qed.

Lemma omap_fulfilled_jobs v (rs : list (@Database.reaction D)) :
  omap op_index (map (reaction_job (Resolved v)) rs) = omap rop_index rs.
Proof.
  induction rs as [|r rs IH]; [reflexivity|]. cbn.
  unfold rop_index at 1. destruct (on_fulfilled r); cbn; rewrite IH; reflexivity.
Qed.

Lemma op_reaction_shape s p r i :
  reaction_ok s p r -> rop_index r = Some i ->
  exists o t, r = operation_reaction i t o
    /\ results s !! i = Some t /\ operations s !! i = Some o
    /\ tail_of s i = Some p.
Proof.
  unfold reaction_ok, rop_index. destruct r as [f g [t|]]; simpl;
    destruct f; try discriminate; destruct g; try contradiction.
  intros (R & O & T) [= ->]. exists op, t. auto.
Qed.

(** The operation whose reaction waits on a tail that is about to be
    fulfilled is the next one to be invoked. *)
Lemma op_reaction_next a s p c v r i :
  wf a s -> heap s !! p = Some c -> state c = None ->
  promise_ok a s p (role_ c) (Some (Resolved v)) (handled c) ->
  In r (reactions c) -> rop_index r = Some i ->
  i = length (began s).
Proof.
  intros W Hc Sc Po Hr Hi.
  destruct (wf_reactions a s W p c r Hc Hr) as [_ Rk].
  destruct (op_reaction_shape _ _ _ _ Rk Hi) as (o & t & _ & _ & _ & T).
  assert (state_of s p = None) as Sp by (rewrite (state_of_lookup _ _ _ Hc); exact Sc).
  destruct (Nat.lt_trichotomy i (length (began s))) as [Hlt|[Heq|Hgt]];
    [exfalso | exact Heq | exfalso].
  - destruct (wf_began_tail a s W i Hlt) as (t' & T' & St). congruence.
  - destruct i as [|k]; [lia|]. simpl in T.
    assert (has_role s p (role_ c)) as Hrole by (exists c; auto).
    rewrite <- (has_role_fun _ _ _ _ (wf_queues a s W _ _ T) Hrole) in Po.
    simpl in Po. destruct Po as (_ & _ & Ho).
    destruct (Ho _ eq_refl) as (_ & Hk & _). lia.
Qed.

Lemma op_job_tail a s j i :
  wf a s -> In j (microtasks s) -> op_index j = Some i ->
  exists tl, tail_of s i = Some tl /\ i = length (began s)
             /\ state_of s tl = Some (Resolved VDatabase).
Proof.
  intros W Hj Hi. pose proof (wf_jobs a s W j Hj) as J.
  destruct j as [[] arg [t|]|]; try discriminate; try contradiction.
  injection Hi as ->. simpl in J. destruct J as (_ & _ & Hn & tl & T & St).
  exists tl. auto.
Qed.

(** A pending promise takes an outcome its role allows. *)
Lemma wf_settle a s p o :
  wf a s ->
  (forall c, heap s !! p = Some c -> state c = None ->
     promise_ok a s p (role_ c) (Some o) (handled c)) ->
  wf a (settle p o s).
Proof.
  intros W P. pose proof (extends_settle p o s) as E. revert E.
  unfold settle. destruct (heap s !! p) as [c|] eqn:Hc; [|intros _; exact W].
  specialize (P c eq_refl).
  destruct (state c) as [x|] eqn:Sc; [intros _; exact W|]. intros E.
  specialize (P eq_refl).
  set (c2 := {| state := Some o; reactions := []; handled := handled c;
                role_ := role_ c |}) in *.
  set (s' := push_jobs _ _) in *.
  assert (began s' = began s) as B by reflexivity.
  assert (heap s' !! p = Some c2) as Hc2.
  { simpl. apply list_lookup_insert_eq. eapply lookup_lt_Some; eauto. }
  assert (promise_ok a s' p (role_ c2) (Some o) (handled c2)) as P2
    by (eapply promise_ok_extends; [exact E | exact P]).
  destruct (wf_facts a s W) as (F0 & FR & FQ & FI).
  assert (has_role s' 0%nat RInit) as F0' by eauto with stable.
  assert (forall i p, results s' !! i = Some p -> has_role s' p (RResult i))
    as FR' by (intros i q Hq; eapply has_role_extends; eauto).
  assert (forall i p, queues s' !! i = Some p -> has_role s' p (RQueueUpdate i))
    as FQ' by (intros i q Hq; eapply has_role_extends; eauto).
  assert (forall i, (i < length (began s'))%nat -> init_ok s')
    as FI' by (intros i Hi; eapply init_ok_extends; eauto).
  apply (wf_update_same a s s' W); try reflexivity.
  - exact (ext_heap _ _ E).
  - intros p' c' H. simpl in H.
    destruct (lookup_insert_cases _ _ _ _ _ H) as [(-> & -> & _) | [_ Ho]];
      [right | left; exact Ho].
    split; [exact P2|]. split; [intros r []|simpl; lia].
  - intros j H. simpl in H. apply in_app_or in H.
    destruct H as [H|H]; [left; exact H|right].
    apply in_map_iff in H. destruct H as (r & <- & Hr).
    destruct (wf_reactions a s W p c r Hc Hr) as [_ Rk].
    assert (reaction_ok s' p r) as Rk' by (eapply reaction_ok_extends; eauto).
    destruct (rop_index r) as [i|] eqn:Ri.
    + destruct (op_reaction_shape _ _ _ _ Rk' Ri) as (op0 & t & -> & R & O & T).
      pose proof (tail_settled a s' i p c2 o F0' FQ' FI' T Hc2 eq_refl P2) as HT.
      destruct o as [v|e]; simpl.
      * destruct HT as [-> _]. split; [exact R|]. split; [exact O|].
        split; [exact (op_reaction_next a s p c _ _ i W Hc Sc P Hr Ri)|].
        exists p. split; [exact T|]. rewrite (state_of_lookup _ _ _ Hc2).
        reflexivity.
      * split; [exact HT|]. exists i. left. exact R.
    + apply (reaction_fires a s' p c2 o r F0' FR' FQ' FI' Hc2 eq_refl P2 Rk' Ri).
  - simpl. rewrite omap_app, length_app.
    destruct o as [v|e].
    + rewrite omap_fulfilled_jobs.
      pose proof (wf_op_jobs a s W) as Cj.
      pose proof (wf_op_reactions a s W p c Hc) as Cr.
      destruct (omap op_index (microtasks s)) as [|i0 l0] eqn:Ej; [exact Cr|].
      destruct (omap rop_index (reactions c)) as [|i1 l1] eqn:Er;
        [simpl in *; lia|]. exfalso.
      destruct (omap_cons_inv _ _ _ _ Ej) as (j & Hj & Ij).
      destruct (omap_cons_inv _ _ _ _ Er) as (r & Hr & Ir).
      destruct (op_job_tail a s j i0 W Hj Ij) as (tl & T0 & N0 & St).
      pose proof (op_reaction_next a s p c _ _ i1 W Hc Sc P Hr Ir) as N1.
      destruct (wf_reactions a s W p c r Hc Hr) as [_ Rk].
      destruct (op_reaction_shape _ _ _ _ Rk Ir) as (_ & _ & _ & _ & _ & T1).
      assert (tl = p) as -> by congruence.
      rewrite (state_of_lookup _ _ _ Hc), Sc in St. discriminate.
    + rewrite (omap_none op_index (map _ _)).
      * simpl. rewrite Nat.add_0_r. apply W.
      * intros j Hj. apply in_map_iff in Hj. destruct Hj as (r & <- & Hr).
        destruct (wf_reactions a s W p c r Hc Hr) as [_ Rk].
        eapply rejected_reaction_index; eauto.
Qed.

Lemma has_role_heap s s' p ro :
  heap s' = heap s -> has_role s p ro -> has_role s' p ro.
Proof. unfold has_role. intros ->. exact id. Qed.

(** The queued call of an operation runs: the operation is the next in the
    order of submission and finds the adapter its predecessors left. *)
Lemma wf_invoked a s i o arg t rest x a' :
  wf a s -> microtasks s = JReaction (HOperation i o) arg (Some t) :: rest ->
  o (adapter s) = (x, a') ->
  let s1 := invoked i a' (pop s) in
  wf a s1 /\ expected a s1 i = Some x /\ (i < length (began s1))%nat
  /\ results s1 !! i = Some t.
Proof.
  intros W M X s1.
  assert (In (JReaction (HOperation i o) arg (Some t)) (microtasks s)) as Hj
    by (rewrite M; left; reflexivity).
  pose proof (wf_jobs a s W _ Hj) as J. simpl in J.
  destruct J as (R & O & N & tl & T & St).
  assert (extends s s1) as E.
  { eapply extends_trans; [|apply extends_invoked].
    apply extends_heap; try reflexivity. apply heap_extends_refl. }
  assert (omap op_index rest = []) as Rest.
  { pose proof (wf_op_jobs a s W) as C. rewrite M in C. cbn in C.
    destruct (omap op_index rest); [reflexivity | simpl in C; lia]. }
  assert (expected a s1 i = Some x) as Ex.
  { unfold expected. simpl. rewrite (replay_lookup_take _ a i o O).
    rewrite N, <- (wf_adapter a s W), X. reflexivity. }
  assert (i < length (began s1))%nat as Lt
    by (simpl; rewrite length_app; simpl; lia).
  split; [|auto]. split.
  - apply (has_role_heap s); [reflexivity | apply W].
  - apply W.
  - apply W.
  - apply W.
  - intros k p H. apply (has_role_heap s); [reflexivity|]. apply W. exact H.
  - intros k p H. apply (has_role_heap s); [reflexivity|]. apply W. exact H.
  - simpl. rewrite length_app. simpl. apply lookup_lt_Some in R.
    split; [|lia]. rewrite Nat.add_1_r, seq_S. simpl.
    rewrite <- (proj1 (wf_began a s W)), N. reflexivity.
  - simpl. rewrite length_app. simpl. intros k Hk.
    destruct (decide (k = i)) as [->|Hne].
    + exists tl. split; [exact T | exact St].
    + apply (wf_began_tail a s W). lia.
  - simpl. rewrite length_app. simpl. rewrite Nat.add_1_r, <- N.
    rewrite (replay_take_S _ a i o O). simpl.
    rewrite N, <- (wf_adapter a s W), X. reflexivity.
  - intros p c H. eapply promise_ok_extends; [exact E|].
    apply (wf_promises a s W p c H).
  - intros p c r H Hr. destruct (wf_reactions a s W p c r H Hr) as [S Rk].
    split; [exact S|]. eapply reaction_ok_extends; eauto.
  - intros p c H. apply (wf_op_reactions a s W p c H).
  - intros j H. simpl in H. rewrite M in H. simpl in H.
    eapply job_ok_extends_plain; [exact E| |].
    + exact (omap_nil_inv _ _ Rest j H).
    + apply (wf_jobs a s W). rewrite M. right. exact H.
  - simpl. rewrite M. simpl. rewrite Rest. simpl. lia.
Qed.

Lemma wf_settle_role a s p ro o :
  wf a s -> has_role s p ro ->
  (forall h, promise_ok a s p ro None h -> promise_ok a s p ro (Some o) h) ->
  wf a (settle p o s).
Proof.
  intros W Hro P. apply wf_settle; [exact W|]. intros c Hc Sc.
  assert (has_role s p (role_ c)) as Hc' by (exists c; auto).
  rewrite <- (has_role_fun _ _ _ _ Hro Hc'). apply P.
  rewrite (has_role_fun _ _ _ _ Hro Hc'), <- Sc. apply (wf_promises a s W p c Hc).
Qed.

Lemma has_role_alloc s ro : has_role (snd (alloc ro s)) (length (heap s)) ro.
Proof.
  exists (fresh ro). split; [|reflexivity]. simpl.
  apply list_lookup_middle. reflexivity.
Qed.

(** The promises derived for a catch, for an adoption and for the caller
    are fulfilled. *)
Lemma wf_settle_derived a s t ro v :
  wf a s -> has_role s t ro ->
  (exists i, ro = RCatch i) \/ (exists rq, ro = RAdopt rq)
  \/ (exists i, ro = RCaller i) ->
  wf a (settle t (Resolved v) s).
Proof.
  intros W Hro Hk. eapply wf_settle_role; [exact W | exact Hro |].
  intros h _. destruct Hk as [[i ->]|[[rq ->]|[i ->]]]; simpl; congruence.
Qed.

Lemma wf_run_operation a s i o arg t rest :
  wf a s -> microtasks s = JReaction (HOperation i o) arg (Some t) :: rest ->
  wf a (run_job (JReaction (HOperation i o) arg (Some t)) (pop s)).
Proof.
  intros W M. unfold run_job, call_handler.
  change (adapter (pop s)) with (adapter s).
  destruct (o (adapter s)) as [x a'] eqn:X.
  destruct (wf_invoked a s i o arg t rest x a' W M X) as (W1 & Ex & Lt & R).
  set (s1 := invoked i a' (pop s)) in *.
  assert (has_role s1 t (RResult i)) as Ht by (apply W1; exact R).
  destruct x as [fate|v|e].
  - (* a promise: the result follows it *)
    cbn [alloc]. unfold resolve.
    assert (wf a (snd (alloc (ROperation i fate) s1))) as W2.
    { apply wf_alloc; [exact W1|]. simpl. split; [exact Lt|].
      split; [exact Ex | discriminate]. }
    apply wf_push; [exact W2 | | reflexivity].
    simpl. right. exists i, fate. split; [exact R|]. apply (has_role_alloc s1).
  - unfold resolve. eapply wf_settle_role; [exact W1 | exact Ht |].
    intros h [Hr _]. split; [exact Hr|]. intros o' [= <-]. right.
    split; [exact Lt|]. exists (ReturnsValue v). auto.
  - eapply wf_settle_role; [exact W1 | exact Ht |].
    intros h [Hr _]. split; [exact Hr|]. intros o' [= <-]. right.
    split; [exact Lt|]. exists (Throws e). auto.
Qed.

Lemma init_ok_alloc s ro : init_ok s -> init_ok (snd (alloc ro s)).
Proof. apply init_ok_extends, extends_alloc. Qed.

(** The queue update starts: the async arrow awaits the result. *)
Lemma wf_run_queue_update a s i rp arg t :
  wf a s -> job_ok a s (JReaction (HQueueUpdate i rp) arg (Some t)) ->
  wf a (run_job (JReaction (HQueueUpdate i rp) arg (Some t)) s).
Proof.
  intros W (Q & R & -> & I). unfold run_job, call_handler. cbn [alloc].
  unfold resolve, await.
  set (s1 := with_heap _ s).
  assert (extends s s1) as E by apply (extends_alloc (RAsync i) s).
  assert (wf a s1) as W1.
  { apply (wf_alloc a s (RAsync i) W). simpl. discriminate. }
  set (r := {| on_fulfilled := _ |}).
  assert (wf a (perform_then rp r s1)) as W2.
  { apply wf_perform_then; [exact W1 | | reflexivity]. intros _ _.
    unfold reaction_ok, r. simpl.
    repeat (split; [reflexivity|]). split; [eauto with stable|].
    split; [apply (has_role_alloc s) | eauto with stable]. }
  apply wf_push; [exact W2 | | reflexivity].
  assert (extends s1 (perform_then rp r s1)) as E2
    by apply extends_perform_then.
  simpl. left. exists i. split; [eauto with stable|].
  eapply has_role_extends; [exact E2|]. apply (has_role_alloc s).
Qed.

Lemma wf_run_thenable a s p q :
  wf a s -> job_ok a s (JThenable p q) -> wf a (run_job (JThenable p q) s).
Proof.
  intros W J. unfold run_job, then_. cbn [alloc snd].
  set (ro := RAdopt (role_of s p)). set (s1 := with_heap _ s).
  assert (extends s s1) as E by apply (extends_alloc ro s).
  assert (wf a s1) as W1.
  { apply (wf_alloc a s ro W). simpl. discriminate. }
  apply wf_perform_then; [exact W1 | | reflexivity]. intros _ _.
  unfold reaction_ok. simpl. split; [reflexivity|].
  split; [eexists; apply (has_role_alloc s)|].
  simpl in J. destruct J as [(i & Q & Ro)|(i & fate & R & Ro)];
    [left | right]; eauto 10 with stable.
Qed.

(** Every microtask keeps the invariant. *)
Lemma wf_run_job a s j rest :
  wf a s -> microtasks s = j :: rest -> wf a (run_job j (pop s)).
Proof.
  intros W M. pose proof (wf_pop a s W) as W0.
  assert (job_ok a (pop s) j) as J.
  { eapply job_ok_extends; [| reflexivity |].
    - apply extends_heap; try reflexivity. apply heap_extends_refl.
    - apply (wf_jobs a s W). rewrite M. left. reflexivity. }
  destruct j as [h arg [t|]|p q]; [| |apply wf_run_thenable; assumption].
  - destruct h.
    + eapply wf_run_operation; eauto.
    + apply wf_run_queue_update; assumption.
    + destruct J.
    + (* () => {} *)
      destruct J as (i & Ht). unfold run_job, call_handler, resolve.
      eapply wf_settle_derived; eauto.
    + destruct J as (i & Ht). unfold run_job, call_handler, resolve.
      eapply wf_settle_derived; eauto.
    + (* the rejection of createDb goes down the chain *)
      destruct J as (F & i & Ht). unfold run_job, call_handler.
      destruct Ht as [R|Q].
      * eapply wf_settle_role; [exact W0 | apply (wf_results a _ W0 _ _ R) |].
        intros h [Hr _]. split; [exact Hr|]. intros o [= <-]. left. eauto.
      * eapply wf_settle_role; [exact W0 | apply (wf_queues a _ W0 _ _ Q) |].
        intros h (Hq & Hh & _). split; [exact Hq|]. split; [exact Hh|].
        intros o [= <-]. exact F.
    + (* the promise follows the one it was resolved with *)
      destruct J as ((rq & Ht) & Hq). unfold run_job, call_handler, resolve.
      assert (wf a (settle p (Resolved arg) (pop s))) as W1.
      { destruct Hq as [(i & Q & -> & Hi & Hs)|(i & R & Hi & Ex)].
        - eapply wf_settle_role; [exact W0 | apply (wf_queues a _ W0 _ _ Q) |].
          intros h (Hq & Hh & _). split; [exact Hq|]. split; [exact Hh|].
          intros o [= <-]. auto.
        - eapply wf_settle_role; [exact W0 | apply (wf_results a _ W0 _ _ R) |].
          intros h [Hr _]. split; [exact Hr|]. intros o [= <-]. right.
          split; [exact Hi|]. eexists. split; [exact Ex | reflexivity]. }
      apply (wf_settle_derived a _ t (RAdopt rq) _ W1); [|eauto].
      eapply has_role_extends; [apply extends_settle | exact Ht].
    + destruct J as ((rq & Ht) & i & R & Hi & Ex).
      unfold run_job, call_handler, resolve.
      assert (wf a (settle p (Rejected arg) (pop s))) as W1.
      { eapply wf_settle_role; [exact W0 | apply (wf_results a _ W0 _ _ R) |].
        intros h [Hr _]. split; [exact Hr|]. intros o [= <-]. right.
        split; [exact Hi|]. eexists. split; [exact Ex | reflexivity]. }
      apply (wf_settle_derived a _ t (RAdopt rq) _ W1); [|eauto].
      eapply has_role_extends; [apply extends_settle | exact Ht].
    + destruct J as (i & Ht). unfold run_job, call_handler, resolve.
      eapply wf_settle_derived; eauto.
  - destruct h; try solve [destruct J].
    destruct J as (-> & Ha & Hs & Hi).
    unfold run_job, call_handler, resolve.
    eapply wf_settle_role; [exact W0 | exact Ha |].
    intros h _ o [= <-]. auto.
Qed.

Lemma wf_tick a s : wf a s -> wf a (tick s).
Proof.
  intros W. destruct (microtasks s) as [|j rest] eqn:M.
  - rewrite tick_idle by exact M. exact W.
  - rewrite (tick_pop s j rest M). eapply wf_run_job; eauto.
Qed.

Lemma has_role_lt s p ro : has_role s p ro -> (p < length (heap s))%nat.
Proof. intros (c & H & _). eapply lookup_lt_Some; eauto. Qed.

Lemma wf_queue_lt a s : wf a s -> (queue s < length (heap s))%nat.
Proof.
  intros W. pose proof (wf_queue a s W) as T.
  destruct (length (results s)) as [|k]; simpl in T.
  - injection T as <-. eapply has_role_lt. apply W.
  - eapply has_role_lt. apply (wf_queues a s W _ _ T).
Qed.

Lemma extends_reserve (o : @operation D) s : extends s (reserve o s).
Proof.
  split; simpl; [apply heap_extends_app| | | |];
    first [exists []; rewrite app_nil_r; reflexivity | eexists; reflexivity].
Qed.

Lemma reserve_cells (o : @operation D) s p c :
  heap (reserve o s) !! p = Some c ->
  heap s !! p = Some c
  \/ (p = length (heap s) /\ c = fresh (RResult (length (results s))))
  \/ (p = S (length (heap s))
      /\ c = {| state := None; reactions := [catch_reaction (length (heap s))];
                handled := true;
                role_ := RQueueUpdate (length (results s)) |})
  \/ (p = S (S (length (heap s)))
      /\ c = fresh (RCatch (length (results s)))).
Proof.
  simpl. intros H. apply lookup_app_Some in H.
  destruct H as [H|[Hge H]]; [left; exact H|right].
  destruct (p - length (heap s))%nat as [|[|[|k]]] eqn:K; simpl in H;
    try discriminate; injection H as <-.
  - left. split; [lia | reflexivity].
  - right. left. split; [lia | reflexivity].
  - right. right. split; [lia | reflexivity].
Qed.

Lemma reserve_lookup (o : @operation D) s k c :
  (k < 3)%nat ->
  [fresh (RResult (length (results s)));
   {| state := None; reactions := [catch_reaction (length (heap s))];
      handled := true; role_ := RQueueUpdate (length (results s)) |};
   fresh (RCatch (length (results s)))] !! k = Some c ->
  heap (reserve o s) !! (length (heap s) + k)%nat = Some c.
Proof.
  intros _ H. simpl. rewrite lookup_app_r by lia.
  replace (length (heap s) + k - length (heap s))%nat with k by lia. exact H.
Qed.

(** [#enqueue] creates its promises and stores the new [#queue]. *)
Lemma wf_reserve a (o : @operation D) s : wf a s -> wf a (reserve o s).
Proof.
  intros W. pose proof (extends_reserve o s) as E.
  destruct (wf_lengths a s W) as [Lo Lq].
  set (i := length (results s)) in *. set (n := length (heap s)) in *.
  assert (has_role (reserve o s) n (RResult i)) as Rn.
  { exists (fresh (RResult i)). split; [|reflexivity].
    rewrite <- (Nat.add_0_r n). apply reserve_lookup; [lia|reflexivity]. }
  assert (has_role (reserve o s) (S n) (RQueueUpdate i)) as Rq.
  { eexists. split;
      [rewrite <- (Nat.add_1_r n); apply reserve_lookup; [lia|reflexivity]|].
    reflexivity. }
  assert (has_role (reserve o s) (S (S n)) (RCatch i)) as Rc.
  { exists (fresh (RCatch i)). split; [|reflexivity].
    replace (S (S n)) with (n + 2)%nat by lia.
    apply reserve_lookup; [lia|reflexivity]. }
  apply (wf_update a s (reserve o s) W E); try reflexivity.
  - simpl. rewrite !length_app. simpl. lia.
  - simpl. rewrite length_app. simpl. rewrite Nat.add_1_r. simpl.
    apply list_lookup_middle. fold i. lia.
  - simpl. rewrite app_comm_cons. apply NoDup_app. split; [apply W|].
    split; [|apply NoDup_singleton].
    intros x Hx Hn. apply list_elem_of_singleton in Hn. subst x.
    assert (S n < n)%nat; [|lia].
    apply elem_of_cons in Hx. destruct Hx as [Hx|Hx]; [discriminate|].
    apply list_elem_of_lookup in Hx. destruct Hx as (k & Hk).
    eapply has_role_lt. apply (wf_queues a s W _ _ Hk).
  - intros k p H. simpl in H. apply lookup_app_Some in H.
    destruct H as [H|[Hge H]].
    + eapply has_role_extends; [exact E|]. apply W. exact H.
    + destruct (k - length (results s))%nat as [|k'] eqn:K; [|discriminate].
      injection H as <-. assert (k = i) as -> by (unfold i; lia). exact Rn.
  - intros k p H. simpl in H. apply lookup_app_Some in H.
    destruct H as [H|[Hge H]].
    + eapply has_role_extends; [exact E|]. apply W. exact H.
    + destruct (k - length (queues s))%nat as [|k'] eqn:K; [|discriminate].
      injection H as <-. assert (k = i) as -> by (unfold i; lia). exact Rq.
  - intros p c H. apply reserve_cells in H.
    destruct H as [H|[[-> ->]|[[-> ->]|[-> ->]]]]; [left; exact H| | |];
      right; simpl.
    + split; [|split; [intros r []|lia]]. split; [|discriminate].
      apply list_lookup_middle. reflexivity.
    + split; [|split].
      * split; [apply list_lookup_middle; fold i; lia|].
        split; [reflexivity | discriminate].
      * intros r [<-|[]]. split; [reflexivity|]. exists i. exact Rc.
      * cbn. lia.
    + split; [discriminate|]. split; [intros r []|lia].
  - intros j H. left. exact H.
  - apply W.
Qed.

Lemma tail_of_lookup s i : tail_of s i = (0%nat :: queues s) !! i.
Proof. destruct i; reflexivity. Qed.

Lemma tail_of_inj a s i i' p :
  wf a s -> tail_of s i = Some p -> tail_of s i' = Some p -> i = i'.
Proof.
  intros W. rewrite !tail_of_lookup. apply NoDup_lookup. apply W.
Qed.

(** [this.#queue.then((db) => operation(db))] for an operation that no
    reaction and no job mentions yet. *)
Lemma wf_register_operation a s q i o t :
  wf a s -> results s !! i = Some t -> operations s !! i = Some o ->
  tail_of s i = Some q -> (length (began s) <= i)%nat ->
  (forall p c r, heap s !! p = Some c -> In r (reactions c) ->
     rop_index r <> Some i) ->
  (forall j, In j (microtasks s) -> op_index j <> Some i) ->
  wf a (perform_then q (operation_reaction i t o) s).
Proof.
  intros W R O T B Ur Uj.
  pose proof (extends_perform_then q (operation_reaction i t o) s) as E.
  revert E. unfold perform_then.
  destruct (heap s !! q) as [c|] eqn:Hc; [|intros _; exact W].
  pose proof (wf_promises a s W q c Hc) as Pc.
  destruct (wf_facts a s W) as (F0 & FR & FQ & FI).
  destruct (state c) as [x|] eqn:Sc; intros E.
  - pose proof (tail_settled a s i q c x F0 FQ FI T Hc Sc Pc) as HT.
    apply (wf_update_same a s _ W); try reflexivity.
    + exact (ext_heap _ _ E).
    + intros p' c' H. simpl in H.
      destruct (lookup_insert_cases _ _ _ _ _ H) as [(-> & -> & _) | [_ Ho]];
        [right | left; exact Ho]. simpl.
      split; [|split].
      * eapply promise_ok_extends; [exact E|]. eapply promise_ok_handled, Pc.
      * intros r' Hr'. destruct (wf_reactions a s W q c r' Hc Hr') as [X _].
        congruence.
      * apply (wf_op_reactions a s W q c Hc).
    + intros j H. simpl in H. apply in_app_or in H.
      destruct H as [H|[<-|[]]]; [left; exact H|right].
      destruct x as [v|e]; simpl.
      * destruct HT as [-> _]. split; [exact R|]. split; [exact O|]. split.
        { destruct i as [|k]; [lia|]. simpl in T.
          assert (has_role s q (role_ c)) as Hrole by (exists c; auto).
          rewrite <- (has_role_fun _ _ _ _ (FQ _ _ T) Hrole) in Pc.
          simpl in Pc. destruct Pc as (_ & _ & Ho).
          destruct (Ho _ eq_refl) as (_ & Hk & _). lia. }
        exists q. split; [exact T|]. unfold state_of. simpl.
        rewrite list_lookup_insert_eq by (eapply lookup_lt_Some; eauto).
        reflexivity.
      * split; [|eauto]. eapply init_failed_extends; [exact E | exact HT].
    + simpl. rewrite omap_app, length_app.
      destruct x as [v|e]; cbn.
      * rewrite (omap_none op_index (microtasks s)); [simpl; lia|].
        intros j Hj. destruct (op_index j) as [k|] eqn:K; [|reflexivity].
        exfalso. destruct (op_job_tail a s j k W Hj K) as (tl & Tk & Nk & St).
        assert (k = i) as Hki; [|rewrite Hki in K; exact (Uj j Hj K)].
        destruct i as [|i']; [lia|]. simpl in T.
        assert (has_role s q (role_ c)) as Hrole by (exists c; auto).
        rewrite <- (has_role_fun _ _ _ _ (FQ _ _ T) Hrole) in Pc.
        simpl in Pc. destruct Pc as (_ & _ & Ho).
        destruct (Ho _ eq_refl) as (_ & Hk & _). lia.
      * rewrite Nat.add_0_r. apply W.
  - apply (wf_update_same a s _ W); try reflexivity.
    + exact (ext_heap _ _ E).
    + intros p' c' H. simpl in H.
      destruct (lookup_insert_cases _ _ _ _ _ H) as [(-> & -> & _) | [_ Ho]];
        [right | left; exact Ho]. simpl.
      split; [|split].
      * eapply promise_ok_extends; [exact E|]. eapply promise_ok_handled.
        exact Pc.
      * intros r' Hr'. split; [reflexivity|]. apply in_app_or in Hr'.
        eapply reaction_ok_extends; [exact E|].
        destruct Hr' as [Hr'|[<-|[]]].
        -- apply (wf_reactions a s W q c r' Hc Hr').
        -- unfold reaction_ok. simpl. auto.
      * rewrite omap_app, length_app. cbn.
        rewrite (omap_none rop_index (reactions c)); [simpl; lia|].
        intros r Hr. destruct (rop_index r) as [k|] eqn:K; [|reflexivity].
        exfalso. destruct (wf_reactions a s W q c r Hc Hr) as [_ Rk].
        destruct (op_reaction_shape _ _ _ _ Rk K) as (_ & _ & _ & _ & _ & Tk).
        rewrite (tail_of_inj a s k i q W Tk T) in K.
        exact (Ur q c r Hc Hr K).
    + intros j H. left. exact H.
    + apply W.
Qed.

Lemma wf_new_session (a : @BaseDatabase.state D) : wf a (new_session a).
Proof.
  split; simpl; try (intros; discriminate).
  - exists (fresh RInit). auto.
  - auto.
  - reflexivity.
  - apply NoDup_singleton.
  - auto.
  - intros i Hi. lia.
  - reflexivity.
  - intros [|p] c H; [|discriminate]. injection H as <-. simpl.
    split; [reflexivity | discriminate].
  - intros [|p] c r H; [|discriminate]. injection H as <-. intros [].
  - intros [|p] c H; [|discriminate]. injection H as <-. simpl. lia.
  - intros j [].
  - lia.
Qed.

(** [#enqueue] keeps the invariant. *)
Lemma wf_enqueue a (o : @operation D) s : wf a s -> wf a (snd (enqueue o s)).
Proof.
  intros W. rewrite (enqueue_reserve o s (wf_queue_lt a s W)). cbn [snd].
  destruct (wf_lengths a s W) as [Lo Lq].
  set (i := length (results s)) in *. set (n := length (heap s)).
  pose proof (wf_reserve a o s W) as W1.
  pose proof (extends_reserve o s) as E1.
  assert (results (reserve o s) !! i = Some n) as R
    by (simpl; apply list_lookup_middle; reflexivity).
  assert (operations (reserve o s) !! i = Some o) as O
    by (simpl; apply list_lookup_middle; symmetry; exact Lo).
  assert (queues (reserve o s) !! i = Some (S n)) as Q
    by (simpl; apply list_lookup_middle; symmetry; exact Lq).
  assert (tail_of (reserve o s) i = Some (queue s)) as T
    by (eapply tail_of_extends; [exact E1 | apply W]).
  assert (forall k x, operations s !! k = Some x -> k <> i) as Old.
  { intros k x H. apply lookup_lt_Some in H. unfold i. lia. }
  assert (wf a (perform_then (queue s) (operation_reaction i n o)
                  (reserve o s))) as W2.
  { apply wf_register_operation; auto.
    - simpl. apply (wf_began a s W).
    - intros p c r H Hr K. apply reserve_cells in H.
      destruct H as [H|[[-> ->]|[[-> ->]|[-> ->]]]]; simpl in Hr;
        try contradiction.
      + destruct (wf_reactions a s W p c r H Hr) as [_ Rk].
        destruct (op_reaction_shape _ _ _ _ Rk K) as (x & _ & _ & _ & Ox & _).
        exact (Old _ _ Ox eq_refl).
      + destruct Hr as [<-|[]]. discriminate.
    - intros j Hj K. simpl in Hj. pose proof (wf_jobs a s W j Hj) as J.
      destruct j as [[] arg [t|]|]; try discriminate; try contradiction.
      injection K as ->. simpl in J. destruct J as (_ & Ox & _).
      exact (Old _ _ Ox eq_refl). }
  pose proof (extends_perform_then (queue s) (operation_reaction i n o)
                (reserve o s)) as E2.
  apply wf_perform_then; [exact W2 | | reflexivity]. intros _ _.
  unfold reaction_ok. simpl.
  split; [eapply queues_extends; [exact E2 | exact Q]|].
  split; [eapply results_extends; [exact E2 | exact R]|].
  eapply tail_of_extends; [exact E2 | exact T].
Qed.

(** Every event keeps the invariant. *)
Lemma wf_step a e s : wf a s -> wf a (step e s).
Proof.
  intros W. destruct e as [[reason|]|o| |q|i]; simpl.
  - eapply wf_settle_role; [exact W | apply W |].
    intros h [H0 _]. split; [exact H0 | discriminate].
  - eapply wf_settle_role; [exact W | apply W |].
    intros h [H0 _]. split; [exact H0|]. congruence.
  - apply wf_enqueue. exact W.
  - apply wf_tick. exact W.
  - destruct (heap s !! q) as [c|] eqn:Hc; [|exact W].
    destruct (role_ c) eqn:Ro; try exact W.
    eapply wf_settle_role; [exact W | exists c; eauto |].
    intros h (Hi & Ex & _). split; [exact Hi|]. split; [exact Ex|]. congruence.
  - destruct (results s !! i) as [p|] eqn:R; [|exact W].
    unfold then_. cbn [alloc snd].
    apply wf_perform_then; [| |reflexivity].
    + apply (wf_alloc a s (RCaller i) W). simpl. discriminate.
    + intros _ _. unfold reaction_ok. simpl. exists i.
      apply (has_role_alloc s).
Qed.

Lemma wf_play a es s : wf a s -> wf a (play es s).
Proof.
  revert s. induction es as [|e es IH]; intros s W; [exact W|].
  simpl. apply IH, wf_step, W.
Qed.

Lemma reachable_wf a s : reachable a s -> wf a s.
Proof. intros (es & ->). apply wf_play, wf_new_session. Qed.

End QueueLemmas.
(** * Sessions *)

Section SessionLemmas.

Context {D : Type}.

Import Database.

Implicit Types (s : @Database.session D) (p q t : pid)
  (c : @Database.promise D) (r : @Database.reaction D) (j : @Database.job D).

(** ** What is submitted and what has begun *)

Lemma settle_operations p o s : operations (settle p o s) = operations s.
Proof.
  unfold settle. destruct (heap s !! p) as [c|]; [|reflexivity].
  destruct (state c); reflexivity.
Qed.

Lemma settle_began p o s : began (settle p o s) = began s.
Proof.
  unfold settle. destruct (heap s !! p) as [c|]; [|reflexivity].
  destruct (state c); reflexivity.
Qed.

Lemma perform_then_operations p r s :
  operations (perform_then p r s) = operations s.
Proof.
  unfold perform_then. destruct (heap s !! p) as [c|]; [|reflexivity].
  destruct (state c); reflexivity.
Qed.

Lemma perform_then_began p r s : began (perform_then p r s) = began s.
Proof.
  unfold perform_then. destruct (heap s !! p) as [c|]; [|reflexivity].
  destruct (state c); reflexivity.
Qed.

Lemma resolve_operations p x s : operations (resolve p x s) = operations s.
Proof. destruct x; simpl; [apply settle_operations | reflexivity]. Qed.

Lemma resolve_began p x s : began (resolve p x s) = began s.
Proof. destruct x; simpl; [apply settle_began | reflexivity]. Qed.

Lemma call_handler_operations h arg s :
  operations (snd (call_handler h arg s)) = operations s.
Proof.
  destruct h; simpl; try reflexivity;
    rewrite ?resolve_operations, ?settle_operations; try reflexivity.
  - destruct (op (adapter s)) as [[fate|v|e] a']; reflexivity.
  - unfold await. rewrite perform_then_operations. reflexivity.
Qed.

Lemma run_job_operations j s : operations (run_job j s) = operations s.
Proof.
  destruct j as [h arg t|p q]; simpl.
  - pose proof (call_handler_operations h arg s) as H.
    destruct (call_handler h arg s) as [x s1]. simpl in H.
    destruct t as [t|]; [|exact H].
    destruct x; rewrite ?resolve_operations, ?settle_operations; exact H.
  - unfold then_. simpl. rewrite perform_then_operations. reflexivity.
Qed.

Lemma tick_operations s : operations (tick s) = operations s.
Proof.
  unfold tick. destruct (microtasks s); [reflexivity|].
  rewrite run_job_operations. reflexivity.
Qed.

Lemma enqueue_operations (o : @operation D) s :
  operations (snd (enqueue o s)) = operations s ++ [o].
Proof.
  unfold enqueue, then_. simpl.
  do 3 (rewrite perform_then_operations; simpl). reflexivity.
Qed.

Lemma step_operations e s :
  operations (step e s) = operations s ++ submitted [e].
Proof.
  destruct e as [[reason|]|o| |q|i]; simpl; rewrite ?app_nil_r.
  - apply settle_operations.
  - apply settle_operations.
  - apply enqueue_operations.
  - apply tick_operations.
  - destruct (heap s !! q) as [c|]; [|reflexivity].
    destruct (role_ c); try reflexivity. apply settle_operations.
  - destruct (results s !! i); [|reflexivity]. unfold then_. simpl.
    rewrite perform_then_operations. reflexivity.
Qed.


Lemma submitted_app (es es' : list (@event D)) :
  submitted (es ++ es') = submitted es ++ submitted es'.
Proof. apply omap_app. Qed.

(** The operations of a session are the ones its schedule submits, in the
    order of the calls. *)
Lemma play_operations es s :
  operations (play es s) = operations s ++ submitted es.
Proof.
  revert s. induction es as [|e es IH]; intros s.
  - simpl. rewrite app_nil_r. reflexivity.
  - change (play (e :: es) s) with (play es (step e s)).
    change (e :: es) with ([e] ++ es).
    rewrite IH, step_operations, submitted_app, <- app_assoc. reflexivity.
Qed.

(** An operation begins only in the microtask that invokes it. *)
Lemma call_handler_began h arg s :
  began (snd (call_handler h arg s)) =
  match h with HOperation i _ => began s ++ [i] | _ => began s end.
Proof.
  destruct h; simpl; try reflexivity;
    rewrite ?resolve_began, ?settle_began; try reflexivity.
  - destruct (op (adapter s)) as [[fate|v|e] a']; reflexivity.
  - unfold await. rewrite perform_then_began. reflexivity.
Qed.

Lemma run_job_began j s :
  began (run_job j s) =
  match op_index j with Some i => began s ++ [i] | None => began s end.
Proof.
  destruct j as [h arg t|p q]; simpl.
  - pose proof (call_handler_began h arg s) as H.
    destruct (call_handler h arg s) as [x s1]. simpl in H.
    assert (began (match t with
                   | Some t => match x with
                               | Returned x => resolve t x s1
                               | Threw e => settle t (Rejected e) s1
                               end
                   | None => s1 end) = began s1) as ->.
    { destruct t; [|reflexivity].
      destruct x; [apply resolve_began | apply settle_began]. }
    rewrite H. destruct h; reflexivity.
  - unfold then_. simpl. rewrite perform_then_began. reflexivity.
Qed.

Lemma step_began e s :
  began (step e s) = began s
  \/ exists j rest i, e = Tick /\ microtasks s = j :: rest
       /\ op_index j = Some i /\ began (step e s) = began s ++ [i].
Proof.
  destruct e as [[reason|]|o| |q|i]; simpl.
  - left. apply settle_began.
  - left. apply settle_began.
  - left. unfold enqueue, then_. simpl.
    do 3 (rewrite perform_then_began; simpl). reflexivity.
  - unfold tick. destruct (microtasks s) as [|j rest] eqn:M; [left; reflexivity|].
    rewrite run_job_began. simpl.
    destruct (op_index j) as [i|] eqn:K; [right|left; reflexivity].
    exists j, rest, i. auto.
  - left. destruct (heap s !! q) as [c|]; [|reflexivity].
    destruct (role_ c); try reflexivity. apply settle_began.
  - left. destruct (results s !! i); [|reflexivity]. unfold then_. simpl.
    rewrite perform_then_began. reflexivity.
Qed.

(** Once the successor of an operation has begun its result is settled. *)
Lemma began_after_settled a s i :
  wf a s -> (S i < length (began s))%nat -> result_settled s i.
Proof.
  intros W H. destruct (wf_began_tail a s W (S i) H) as (t & T & St).
  simpl in T. destruct (wf_queues a s W i t T) as (c & Hc & Ro).
  pose proof (wf_promises a s W t c Hc) as P. rewrite Ro in P.
  rewrite (state_of_lookup _ _ _ Hc) in St. rewrite St in P.
  destruct P as (_ & _ & P). destruct (P _ eq_refl) as (_ & _ & Hs).
  exact Hs.
Qed.

(** The step in which an operation begins finds the result of its
    predecessor settled already. *)
Lemma begins_after_settled a e s i :
  wf a s -> (S i < length (began (step e s)))%nat -> result_settled s i.
Proof.
  intros W H. destruct (step_began e s) as [B|(j & rest & k & -> & M & K & B)].
  - rewrite B in H. eapply began_after_settled; eauto.
  - rewrite B, length_app in H. simpl in H.
    assert (In j (microtasks s)) as Hj by (rewrite M; left; reflexivity).
    destruct (op_job_tail a s j k W Hj K) as (tl & T & N & St).
    destruct (decide (S i < length (began s))%nat) as [Hlt|Hge];
      [eapply began_after_settled; eauto|].
    assert (k = S i) as -> by lia. simpl in T.
    destruct (wf_queues a s W i tl T) as (c & Hc & Ro).
    pose proof (wf_promises a s W tl c Hc) as P. rewrite Ro in P.
    rewrite (state_of_lookup _ _ _ Hc) in St. rewrite St in P.
    destruct P as (_ & _ & P). destruct (P _ eq_refl) as (_ & _ & Hs).
    exact Hs.
Qed.

(** A settled result is the outcome of the operation in the sequential
    run, unless [createDb] failed. *)
Lemma result_outcome a s i p o :
  wf a s -> results s !! i = Some p -> state_of s p = Some o ->
  (exists e, init_failed s e /\ o = Rejected e)
  \/ ((i < length (began s))%nat
      /\ exists x, expected a s i = Some x /\ o = outcome_of x).
Proof.
  intros W R St. destruct (wf_results a s W i p R) as (c & Hc & Ro).
  pose proof (wf_promises a s W p c Hc) as P. rewrite Ro in P.
  rewrite (state_of_lookup _ _ _ Hc) in St. rewrite St in P.
  destruct P as [_ P]. exact (P o eq_refl).
Qed.

(** C1 (ordering). Whatever the schedule -- however the calls, the
    microtasks and the settlements of the promises returned by the
    operations interleave, and whether or not the caller waits for a result
    before the next call -- the session holds the submitted operations in
    the order of the calls; the operations that have begun are the first
    ones of that order, each begun once and in that order; the adapter is in
    the state that running exactly those operations one after the other
    leaves; the step in which operation [i + 1] begins finds the result of
    operation [i] settled already; and a result, once settled, is the
    outcome the operation has in that sequential run (or the failure of
    [createDb]). *)
Theorem operations_run_one_at_a_time (a0 : @BaseDatabase.state D) es :
  let s := play es (new_session a0) in
  operations s = submitted es
  /\ began s = seq 0 (length (began s))
  /\ (length (began s) <= length (operations s))%nat
  /\ adapter s = snd (replay (take (length (began s)) (operations s)) a0)
  /\ (forall e i, (S i < length (began (step e s)))%nat -> result_settled s i)
  /\ (forall i p o, results s !! i = Some p -> state_of s p = Some o ->
        (exists e, init_failed s e /\ o = Rejected e)
        \/ ((i < length (began s))%nat
            /\ exists x, expected a0 s i = Some x /\ o = outcome_of x)).
Proof.
  intros s. assert (wf a0 s) as W by apply wf_play, wf_new_session.
  split; [apply (play_operations es (new_session a0))|].
  split; [apply W|].
  split; [rewrite (proj1 (wf_lengths a0 s W)); apply W|].
  split; [apply W|].
  split; [intros e i; apply (begins_after_settled a0 e s i W)|].
  intros i p o. apply (result_outcome a0 s i p o W).
Qed.

End SessionLemmas.
(** * Progress of the session queue *)

Section ProgressLemmas.

Context {D : Type}.

Import Database.

Implicit Types (s : @Database.session D) (p q t : pid)
  (c : @Database.promise D) (r : @Database.reaction D) (j : @Database.job D).

Lemma reaction_job_mentions o r p :
  reaction_mentions r p -> job_mentions (reaction_job o r) p.
Proof.
  intros [H|[H1 H2]]; destruct o; simpl; auto.
Qed.

Lemma supports_advances s s' p : advances s s' -> supports s p -> supports s' p.
Proof.
  intros A [(j & Hj & M)|(q & c & r & Hc & Sc & Hr & M)].
  - left. exists j. split; [apply (adv_jobs _ _ A); exact Hj | exact M].
  - destruct (adv_reactions _ _ A q c r Hc Sc Hr) as [(c' & Hc' & Sc' & Hr')|(o & Ho)].
    + right. exists q, c', r. auto.
    + left. exists (reaction_job o r). split; [exact Ho|].
      apply reaction_job_mentions. exact M.
Qed.

Lemma advances_refl s : advances s s.
Proof.
  split; [apply extends_refl|auto| |].
  - intros q c r Hc Sc Hr. left. exists c. auto.
  - intros p c c' H H'. congruence.
Qed.

Lemma advances_trans s1 s2 s3 :
  advances s1 s2 -> advances s2 s3 -> advances s1 s3.
Proof.
  intros A B. split.
  - eapply extends_trans; [apply A | apply B].
  - intros j Hj. apply (adv_jobs _ _ B), (adv_jobs _ _ A), Hj.
  - intros q c r Hc Sc Hr.
    destruct (adv_reactions _ _ A q c r Hc Sc Hr) as [(c' & Hc' & Sc' & Hr')|(o & Ho)].
    + apply (adv_reactions _ _ B q c' r Hc' Sc' Hr').
    + right. exists o. apply (adv_jobs _ _ B), Ho.
  - intros p c c3 H H3 Hh.
    destruct (ext_heap _ _ (adv_extends _ _ A) p c H) as (c2 & H2 & _).
    apply (adv_handled _ _ B p c2 c3 H2 H3).
    apply (adv_handled _ _ A p c c2 H H2 Hh).
Qed.

Lemma advances_push_jobs js s : advances s (push_jobs js s).
Proof.
  split; [apply extends_push_jobs| | |].
  - intros j Hj. simpl. apply in_or_app. left. exact Hj.
  - intros q c r Hc Sc Hr. left. exists c. auto.
  - intros p c c' H H'. simpl in H'. congruence.
Qed.

Lemma advances_alloc ro s : advances s (snd (alloc ro s)).
Proof.
  split; [apply extends_alloc|auto| |].
  - intros q c r Hc Sc Hr. left. exists c. split; [|auto].
    simpl. apply lookup_app_l_Some. exact Hc.
  - intros p c c' H H'. simpl in H'.
    rewrite (lookup_app_l_Some _ _ _ _ H) in H'. congruence.
Qed.

Lemma advances_invoked i a s : advances s (invoked i a s).
Proof.
  split; [apply extends_invoked|auto| |].
  - intros q c r Hc Sc Hr. left. exists c. auto.
  - intros p c c' H H'. simpl in H'. congruence.
Qed.

Lemma advances_reserve (o : @operation D) s : advances s (reserve o s).
Proof.
  split; [apply extends_reserve|auto| |].
  - intros q c r Hc Sc Hr. left. exists c. split; [|auto].
    simpl. apply lookup_app_l_Some. exact Hc.
  - intros p c c' H H'. simpl in H'.
    rewrite (lookup_app_l_Some _ _ _ _ H) in H'. congruence.
Qed.

Lemma advances_settle p o s : advances s (settle p o s).
Proof.
  pose proof (extends_settle p o s) as E. revert E. unfold settle.
  destruct (heap s !! p) as [c|] eqn:Hc; [|intros _; apply advances_refl].
  destruct (state c) as [x|] eqn:Sc; [intros _; apply advances_refl|].
  intros E. split; [exact E| | |].
  - intros j Hj. simpl. apply in_or_app. left. exact Hj.
  - intros q c0 r Hc0 Sc0 Hr. destruct (decide (q = p)) as [->|Hne].
    + right. exists o. simpl. apply in_or_app. right.
      apply in_map. congruence.
    + left. exists c0. split; [|auto]. simpl.
      rewrite list_lookup_insert_ne by congruence. exact Hc0.
  - intros p0 c0 c' H H'. simpl in H'.
    destruct (lookup_insert_cases _ _ _ _ _ H') as [(-> & -> & _)|[_ Ho]];
      simpl; congruence.
Qed.

Lemma advances_perform_then p r s : advances s (perform_then p r s).
Proof.
  pose proof (extends_perform_then p r s) as E. revert E. unfold perform_then.
  destruct (heap s !! p) as [c|] eqn:Hc; [|intros _; apply advances_refl].
  destruct (state c) as [x|] eqn:Sc; intros E; (split; [exact E| | |]).
  - intros j Hj. simpl. apply in_or_app. left. exact Hj.
  - intros q c0 r0 Hc0 Sc0 Hr. left. destruct (decide (q = p)) as [->|Hne];
      [congruence|].
    exists c0. split; [|auto]. simpl.
    rewrite list_lookup_insert_ne by congruence. exact Hc0.
  - intros p0 c0 c' H H'. simpl in H'.
    destruct (lookup_insert_cases _ _ _ _ _ H') as [(-> & -> & _)|[_ Ho]];
      simpl; congruence.
  - auto.
  - intros q c0 r0 Hc0 Sc0 Hr. left. destruct (decide (q = p)) as [->|Hne].
    + eexists. split; [simpl; apply list_lookup_insert_eq;
                       eapply lookup_lt_Some; eauto|].
      simpl. split; [reflexivity|]. apply in_or_app. left. congruence.
    + exists c0. split; [|auto]. simpl.
      rewrite list_lookup_insert_ne by congruence. exact Hc0.
  - intros p0 c0 c' H H'. simpl in H'.
    destruct (lookup_insert_cases _ _ _ _ _ H') as [(-> & -> & _)|[_ Ho]];
      simpl; congruence.
Qed.

Lemma advances_resolve p x s : advances s (resolve p x s).
Proof. destruct x; [apply advances_settle | apply advances_push_jobs]. Qed.

Lemma advances_call_handler h arg s : advances s (snd (call_handler h arg s)).
Proof.
  destruct h; simpl; try apply advances_refl; try apply advances_resolve;
    try apply advances_settle.
  - destruct (op (adapter s)) as [[fate|v|e] a']; simpl;
      try apply advances_invoked.
    apply (advances_trans _ (invoked i a' s)); [apply advances_invoked|].
    apply (advances_alloc (ROperation i fate) (invoked i a' s)).
  - apply (advances_trans _ (snd (alloc (RAsync i) s)));
      [apply advances_alloc|].
    apply advances_perform_then.
Qed.

Lemma advances_run_job j s : advances s (run_job j s).
Proof.
  destruct j as [h arg t|p q]; simpl.
  - pose proof (advances_call_handler h arg s) as A.
    destruct (call_handler h arg s) as [x s1]. simpl in A.
    destruct t as [t|]; [|exact A].
    eapply advances_trans; [exact A|].
    destruct x; [apply advances_resolve | apply advances_settle].
  - unfold then_. simpl.
    apply (advances_trans _ (snd (alloc (RAdopt (role_of s p)) s)));
      [apply advances_alloc|].
    apply advances_perform_then.
Qed.

Lemma advances_enqueue (o : @operation D) s :
  (queue s < length (heap s))%nat -> advances s (snd (enqueue o s)).
Proof.
  intros H. rewrite (enqueue_reserve o s H). simpl.
  eapply advances_trans; [apply advances_reserve|].
  eapply advances_trans; apply advances_perform_then.
Qed.

(** ** Keeping the promises on their way *)

Lemma old_cell s s' p c' :
  extends s s' -> heap s' !! p = Some c' -> (p < length (heap s))%nat ->
  exists c, heap s !! p = Some c /\ role_ c = role_ c'
            /\ (state c' = None -> state c = None).
Proof.
  intros E H' Hlt. destruct (lookup_lt_is_Some_2 _ _ Hlt) as [c Hc].
  destruct (ext_heap _ _ E p c Hc) as (c2 & H2 & Ro & St).
  assert (c2 = c') as -> by congruence.
  exists c. split; [exact Hc|]. split; [congruence|].
  intros N. destruct (state c) as [o|] eqn:Sc; [|reflexivity].
  rewrite (St o eq_refl) in N. discriminate.
Qed.

Lemma supported_step m s s' :
  supported_but m s -> advances s s' ->
  (forall p c', m p -> heap s' !! p = Some c' -> state c' = None ->
     supports s' p) ->
  (forall p c', heap s' !! p = Some c' -> (length (heap s) <= p)%nat ->
     state c' = None -> external (role_ c') = false -> supports s' p) ->
  supported s'.
Proof.
  intros B A M N p c' H' S' X'.
  right. destruct (decide (p < length (heap s))%nat) as [Hlt|Hge].
  - destruct (old_cell s s' p c' (adv_extends _ _ A) H' Hlt)
      as (c & Hc & Ro & St).
    rewrite <- Ro in X'. destruct (B p c Hc (St S') X') as [Hm|Hs].
    + eapply M; eauto.
    + eapply supports_advances; eauto.
  - eapply N; eauto. lia.
Qed.

Lemma adopted_step m s s' :
  adopted_but m s -> advances s s' ->
  (forall p c', m p -> heap s' !! p = Some c' -> handled c' = true) ->
  (forall p c' i fate, heap s' !! p = Some c' -> (length (heap s) <= p)%nat ->
     role_ c' = ROperation i fate ->
     exists t, In (JThenable t p) (microtasks s')) ->
  adopted s'.
Proof.
  intros B A M N p c' i fate H' Ro' Hh.
  right. destruct (decide (p < length (heap s))%nat) as [Hlt|Hge].
  - destruct (old_cell s s' p c' (adv_extends _ _ A) H' Hlt)
      as (c & Hc & Ro & _).
    destruct (handled c) eqn:Hc0.
    { rewrite (adv_handled _ _ A p c c' Hc H' Hc0) in Hh. discriminate. }
    rewrite <- Ro in Ro'. destruct (B p c i fate Hc Ro' Hc0) as [Hm|(t & Ht)].
    + rewrite (M p c' Hm H') in Hh. discriminate.
    + exists t. apply (adv_jobs _ _ A). exact Ht.
  - eapply N; eauto. lia.
Qed.

Lemma supported_pop s j rest :
  microtasks s = j :: rest -> supported s ->
  supported_but (job_mentions j) (pop s).
Proof.
  intros M B p c H S X. destruct (B p c H S X) as [[]|Hs].
  destruct Hs as [(j' & Hj & Mj)|Hr]; [|right; right; exact Hr].
  rewrite M in Hj. destruct Hj as [<-|Hj]; [left; exact Mj|].
  right. left. exists j'. simpl. rewrite M. auto.
Qed.

Lemma adopted_pop s j rest :
  microtasks s = j :: rest -> adopted s ->
  adopted_but (fun p => exists t, j = JThenable t p) (pop s).
Proof.
  intros M B p c i fate H Ro Hh.
  destruct (B p c i fate H Ro Hh) as [[]|(t & Ht)].
  rewrite M in Ht. destruct Ht as [->|Ht]; [left; eauto|].
  right. exists t. simpl. rewrite M. exact Ht.
Qed.

Lemma settle_length p o s : length (heap (settle p o s)) = length (heap s).
Proof.
  unfold settle. destruct (heap s !! p) as [c|]; [|reflexivity].
  destruct (state c); simpl; [reflexivity | apply length_insert].
Qed.

Lemma settle_makes_settled p o s c' :
  (p < length (heap s))%nat -> heap (settle p o s) !! p = Some c' ->
  state c' <> None.
Proof.
  intros Hlt. destruct (lookup_lt_is_Some_2 _ _ Hlt) as [c Hc].
  unfold settle. rewrite Hc. destruct (state c) as [x|] eqn:Sc.
  - intros H. congruence.
  - simpl. rewrite list_lookup_insert_eq by exact Hlt. intros [= <-]. discriminate.
Qed.

Lemma perform_then_supports p0 r p s :
  (p0 < length (heap s))%nat -> reaction_mentions r p ->
  supports (perform_then p0 r s) p.
Proof.
  intros Hlt M. destruct (lookup_lt_is_Some_2 _ _ Hlt) as [c Hc].
  unfold perform_then. rewrite Hc. destruct (state c) as [x|] eqn:Sc.
  - left. exists (reaction_job x r). simpl. split.
    + apply in_or_app. right. left. reflexivity.
    + apply reaction_job_mentions. exact M.
  - right. eexists p0, _, r. simpl.
    split; [apply list_lookup_insert_eq; exact Hlt|]. simpl.
    split; [reflexivity|]. split; [|exact M]. apply in_or_app. right.
    left. reflexivity.
Qed.

Lemma perform_then_handled p0 r s c' :
  (p0 < length (heap s))%nat -> heap (perform_then p0 r s) !! p0 = Some c' ->
  handled c' = true.
Proof.
  intros Hlt. destruct (lookup_lt_is_Some_2 _ _ Hlt) as [c Hc].
  unfold perform_then. rewrite Hc. destruct (state c) as [x|] eqn:Sc; simpl;
    rewrite list_lookup_insert_eq by exact Hlt; intros [= <-]; reflexivity.
Qed.

Lemma extends_length s s' :
  extends s s' -> (length (heap s) <= length (heap s'))%nat.
Proof.
  intros E. destruct (heap s) as [|c0 h] eqn:Hh; [simpl; lia|].
  rewrite <- Hh. assert (length (heap s) - 1 < length (heap s))%nat as Hlt
    by (rewrite Hh; simpl; lia).
  destruct (lookup_lt_is_Some_2 _ _ Hlt) as [c Hc].
  destruct (ext_heap _ _ E _ c Hc) as (c' & Hc' & _).
  apply lookup_lt_Some in Hc'. lia.
Qed.

Lemma settled_stays s s' p c c' :
  extends s s' -> heap s !! p = Some c -> state c <> None ->
  heap s' !! p = Some c' -> state c' <> None.
Proof.
  intros E Hc Sc Hc'. destruct (ext_heap _ _ E p c Hc) as (c2 & H2 & _ & St).
  destruct (state c) as [o|]; [|congruence].
  assert (c2 = c') as -> by congruence. rewrite (St o eq_refl). discriminate.
Qed.

Lemma settle_then_settled s s' p o c' :
  (p < length (heap s))%nat -> extends (settle p o s) s' ->
  heap s' !! p = Some c' -> state c' <> None.
Proof.
  intros Hlt E Hc'.
  assert (p < length (heap (settle p o s)))%nat as Hlt'
    by (rewrite settle_length; exact Hlt).
  destruct (lookup_lt_is_Some_2 _ _ Hlt') as [c1 Hc1].
  eapply settled_stays; [exact E | exact Hc1 | | exact Hc'].
  exact (settle_makes_settled p o s c1 Hlt Hc1).
Qed.

Lemma job_target_lt a s h arg t :
  wf a s -> job_ok a s (JReaction h arg (Some t)) ->
  (t < length (heap s))%nat.
Proof.
  intros W J. destruct h; simpl in J.
  - destruct J as (R & _). eapply has_role_lt, (wf_results a s W), R.
  - destruct J as (Q & _). eapply has_role_lt, (wf_queues a s W), Q.
  - destruct J.
  - destruct J as (i & Ht). eapply has_role_lt, Ht.
  - destruct J as (i & Ht). eapply has_role_lt, Ht.
  - destruct J as (_ & i & [R|Q]);
      [eapply has_role_lt, (wf_results a s W), R
      |eapply has_role_lt, (wf_queues a s W), Q].
  - destruct J as ((rq & Ht) & _). eapply has_role_lt, Ht.
  - destruct J as ((rq & Ht) & _). eapply has_role_lt, Ht.
  - destruct J as (i & Ht). eapply has_role_lt, Ht.
Qed.

Lemma job_subject_lt a s h arg (tg : option pid) p :
  wf a s -> job_ok a s (JReaction h arg tg) -> handler_mentions h p ->
  (p < length (heap s))%nat.
Proof.
  intros W J M. destruct h; simpl in M; try contradiction; subst;
    destruct tg as [t|]; simpl in J; try contradiction.
  - destruct J as (_ & Ha & _). eapply has_role_lt, Ha.
  - destruct J as (_ & [(i & Q & _)|(i & R & _)]);
      [eapply has_role_lt, (wf_queues a s W), Q
      |eapply has_role_lt, (wf_results a s W), R].
  - destruct J as (_ & i & R & _). eapply has_role_lt, (wf_results a s W), R.
Qed.

(** What a microtask was on its way to is settled by it, or has something
    else on its way now. *)
Lemma run_job_mentioned a s j p c' :
  wf a s -> job_ok a s j -> job_mentions j p ->
  heap (run_job j s) !! p = Some c' -> state c' = None ->
  supports (run_job j s) p.
Proof.
  intros W J M H' S'. destruct j as [h arg tg|p0 q]; simpl in M.
  - revert H'. unfold run_job.
    pose proof (advances_call_handler h arg s) as A.
    destruct (call_handler h arg s) as [x s1] eqn:C. simpl in A.
    destruct M as [->|M].
    + pose proof (job_target_lt a s h arg p W J) as Hlt.
      pose proof (extends_length _ _ (adv_extends _ _ A)) as Hle.
      destruct x as [[v|q]|e]; simpl; intros H'.
      * destruct (settle_makes_settled p _ s1 c' ltac:(lia) H' S').
      * left. eexists. split; [apply in_or_app; right; left; reflexivity|].
        reflexivity.
      * destruct (settle_makes_settled p _ s1 c' ltac:(lia) H' S').
    + pose proof (job_subject_lt a s h arg tg p W J M) as Hlt.
      intros H'. exfalso.
      assert (exists o s2, extends (settle p o s) s2
                /\ heap s2 !! p = Some c') as (o & s2 & E & H2).
      { destruct h; simpl in M; try contradiction; subst;
          simpl in C; injection C as <- <-.
        - destruct tg as [t|]; [destruct J|].
          eexists _, _. split; [apply extends_refl | exact H'].
        - destruct tg as [t|]; [|destruct J]. simpl in H'.
          eexists _, _. split; [apply extends_settle | exact H'].
        - destruct tg as [t|]; [|destruct J]. simpl in H'.
          eexists _, _. split; [apply extends_settle | exact H']. }
      exact (settle_then_settled s s2 p o c' Hlt E H2 S').
  - subst p0. unfold run_job, then_. cbn [alloc snd].
    apply perform_then_supports.
    + simpl in J. simpl. rewrite length_app. simpl.
      destruct J as [(i & _ & Hq)|(i & fate & _ & Hq)];
        apply has_role_lt in Hq; lia.
    + right. simpl. auto.
Qed.

Lemma resolve_length p x s : length (heap (resolve p x s)) = length (heap s).
Proof. destruct x; simpl; [apply settle_length | reflexivity]. Qed.

Lemma no_new_cell s s' p c' :
  length (heap s') = length (heap s) -> heap s' !! p = Some c' ->
  (length (heap s) <= p)%nat -> False.
Proof. intros L H Hle. apply lookup_lt_Some in H. lia. Qed.

Lemma new_cell s s' ro p c' :
  extends (snd (alloc ro s)) s' -> length (heap s') = S (length (heap s)) ->
  heap s' !! p = Some c' -> (length (heap s) <= p)%nat ->
  p = length (heap s) /\ role_ c' = ro.
Proof.
  intros E L H Hle. pose proof (lookup_lt_Some _ _ _ H) as Hlt.
  assert (p = length (heap s)) as -> by lia. split; [reflexivity|].
  destruct (has_role_extends _ _ _ _ E (has_role_alloc s ro)) as (c2 & H2 & Ro).
  congruence.
Qed.

(** The promises a microtask creates have something on their way to them,
    and the one an operation returned is about to be followed. *)
Lemma run_job_new a s j p c' :
  wf a s -> job_ok a s j ->
  heap (run_job j s) !! p = Some c' -> (length (heap s) <= p)%nat ->
  (external (role_ c') = false -> supports (run_job j s) p)
  /\ (forall i fate, role_ c' = ROperation i fate ->
        exists t, In (JThenable t p) (microtasks (run_job j s))).
Proof.
  intros W J H' Hle. destruct j as [h arg tg|p0 q].
  - destruct h; simpl in H'.
    + (* an operation *)
      destruct tg as [t|]; [|destruct J].
      destruct (op (adapter s)) as [[fate|v|e] a'] eqn:X; simpl in H'.
      * assert (p = length (heap s) /\ role_ c' = ROperation i fate) as [-> Ro].
        { apply lookup_app_Some in H'.
          destruct H' as [H'|[_ H']]; [apply lookup_lt_Some in H'; lia|].
          destruct (p - length (heap s))%nat as [|k] eqn:K; [|discriminate].
          injection H' as <-. split; [lia | reflexivity]. }
        split; [rewrite Ro; discriminate|]. intros _ _ _. exists t.
        simpl. rewrite X. simpl. apply in_or_app. right. left. reflexivity.
      * destruct (no_new_cell (invoked i a' s) _ p c'
                    (settle_length _ _ _) H' Hle).
      * destruct (no_new_cell (invoked i a' s) _ p c'
                    (settle_length _ _ _) H' Hle).
    + (* the queue update *)
      destruct tg as [t|]; [|destruct J]. destruct J as (Q & R & -> & I).
      pose proof (has_role_lt _ _ _ (wf_results a s W _ _ R)) as Hrp.
      unfold run_job, call_handler, resolve, await in *. cbn [alloc] in *.
      set (s1 := with_heap _ s) in *. set (r := mk_reaction _ _ _) in *.
      change (heap (perform_then resultPromise r s1) !! p = Some c') in H'.
      destruct (new_cell s (perform_then resultPromise r s1) (RAsync i) p c')
        as [-> Ro]; auto.
      { apply (extends_perform_then resultPromise r s1). }
      { rewrite perform_then_length. unfold s1. simpl. rewrite length_app.
        simpl. lia. }
      split; [|rewrite Ro; discriminate]. intros _.
      eapply supports_advances; [apply advances_push_jobs|].
      apply perform_then_supports.
      { unfold s1. simpl. rewrite length_app. simpl. lia. }
      right. simpl. auto.
    + exfalso. eapply (no_new_cell s _ p c'); [|exact H'|exact Hle].
      destruct tg; simpl; unfold resolve; rewrite ?settle_length; reflexivity.
    + exfalso. eapply (no_new_cell s _ p c'); [|exact H'|exact Hle].
      destruct tg; simpl; unfold resolve; rewrite ?settle_length; reflexivity.
    + exfalso. eapply (no_new_cell s _ p c'); [|exact H'|exact Hle].
      destruct tg; simpl; unfold resolve; rewrite ?settle_length; reflexivity.
    + exfalso. eapply (no_new_cell s _ p c'); [|exact H'|exact Hle].
      destruct tg; simpl; unfold resolve; rewrite ?settle_length; reflexivity.
    + exfalso. eapply (no_new_cell s _ p c'); [|exact H'|exact Hle].
      destruct tg; simpl; unfold resolve; rewrite ?settle_length; reflexivity.
    + exfalso. eapply (no_new_cell s _ p c'); [|exact H'|exact Hle].
      destruct tg; simpl; unfold resolve; rewrite ?settle_length; reflexivity.
    + exfalso. eapply (no_new_cell s _ p c'); [|exact H'|exact Hle].
      destruct tg; simpl; unfold resolve; rewrite ?settle_length; reflexivity.
  - (* the result follows the promise it was resolved with *)
    unfold run_job, then_ in *. cbn [alloc snd] in *.
    set (s1 := with_heap _ s) in *. set (r := mk_reaction _ _ _) in *.
    assert (q < length (heap s))%nat as Hq.
    { simpl in J. destruct J as [(i & _ & Hq)|(i & fate & _ & Hq)];
        eapply has_role_lt; eauto. }
    destruct (new_cell s (perform_then q r s1) (RAdopt (role_of s p0)) p c')
      as [-> Ro]; auto.
    { apply (extends_perform_then q r s1). }
    { rewrite perform_then_length. unfold s1. simpl. rewrite length_app.
      simpl. lia. }
    split; [|rewrite Ro; discriminate]. intros _.
    apply perform_then_supports.
    { unfold s1. simpl. rewrite length_app. simpl. lia. }
    left. reflexivity.
Qed.

Lemma run_job_followed a s t q c' :
  wf a s -> job_ok a s (JThenable t q) ->
  heap (run_job (JThenable t q) s) !! q = Some c' -> handled c' = true.
Proof.
  intros W J. unfold run_job, then_. cbn [alloc snd]. apply perform_then_handled.
  simpl. rewrite length_app. simpl.
  simpl in J. destruct J as [(i & _ & Hq)|(i & fate & _ & Hq)];
    apply has_role_lt in Hq; lia.
Qed.

(** Running the oldest microtask keeps every promise on its way. *)
Lemma progress_tick a s :
  wf a s -> supported s /\ adopted s -> supported (tick s) /\ adopted (tick s).
Proof.
  intros W [B A]. destruct (microtasks s) as [|j rest] eqn:M.
  { rewrite tick_idle by exact M. auto. }
  rewrite (tick_pop s j rest M).
  pose proof (wf_pop a s W) as W0.
  assert (job_ok a (pop s) j) as J.
  { eapply job_ok_extends; [| reflexivity |].
    - apply extends_heap; try reflexivity. apply heap_extends_refl.
    - apply (wf_jobs a s W). rewrite M. left. reflexivity. }
  split.
  - apply (supported_step (job_mentions j) (pop s));
      [eapply supported_pop; eauto | apply advances_run_job | |].
    + intros p c' Mp H' S'. eapply run_job_mentioned; eauto.
    + intros p c' H' Hle S' X'.
      apply (proj1 (run_job_new a (pop s) j p c' W0 J H' Hle) X').
  - apply (adopted_step (fun p => exists t, j = JThenable t p) (pop s));
      [eapply adopted_pop; eauto | apply advances_run_job | |].
    + intros p c' (t & ->) H'. eapply run_job_followed; eauto.
    + intros p c' i fate H' Hle Ro.
      apply (proj2 (run_job_new a (pop s) j p c' W0 J H' Hle) i fate Ro).
Qed.

Lemma progress_same s s' :
  advances s s' -> length (heap s') = length (heap s) ->
  supported s /\ adopted s -> supported s' /\ adopted s'.
Proof.
  intros A L [B C]. split.
  - apply (supported_step (fun _ => False) s); [exact B | exact A | |].
    + intros p c' [].
    + intros p c' H' Hle. destruct (no_new_cell s s' p c' L H' Hle).
  - apply (adopted_step (fun _ => False) s); [exact C | exact A | |].
    + intros p c' [].
    + intros p c' i fate H' Hle. destruct (no_new_cell s s' p c' L H' Hle).
Qed.

Lemma progress_then s p f g ro :
  (p < length (heap s))%nat -> external ro = false ->
  supported s /\ adopted s ->
  supported (snd (then_ p f g ro s)) /\ adopted (snd (then_ p f g ro s)).
Proof.
  intros Hp X [B C]. unfold then_. cbn [alloc snd].
  set (s1 := with_heap _ s). set (r := mk_reaction _ _ _).
  assert (advances s (perform_then p r s1)) as A.
  { apply (advances_trans _ (snd (alloc ro s)));
      [apply advances_alloc | apply advances_perform_then]. }
  assert (forall p' c', heap (perform_then p r s1) !! p' = Some c' ->
            (length (heap s) <= p')%nat ->
            p' = length (heap s) /\ role_ c' = ro) as New.
  { intros p' c' H' Hle. apply (new_cell s (perform_then p r s1)); auto.
    - apply (extends_perform_then p r s1).
    - rewrite perform_then_length. unfold s1. simpl. rewrite length_app.
      simpl. lia. }
  split.
  - apply (supported_step (fun _ => False) s); [exact B | exact A | |].
    + intros p' c' [].
    + intros p' c' H' Hle _ _. destruct (New p' c' H' Hle) as [-> _].
      apply perform_then_supports.
      { unfold s1. simpl. rewrite length_app. simpl. lia. }
      left. reflexivity.
  - apply (adopted_step (fun _ => False) s); [exact C | exact A | |].
    + intros p' c' [].
    + intros p' c' i fate H' Hle Ro. destruct (New p' c' H' Hle) as [_ Ro'].
      rewrite Ro in Ro'. subst ro. discriminate.
Qed.

Lemma progress_enqueue a (o : @operation D) s :
  wf a s -> supported s /\ adopted s ->
  supported (snd (enqueue o s)) /\ adopted (snd (enqueue o s)).
Proof.
  intros W [B C]. pose proof (wf_queue_lt a s W) as Hq.
  pose proof (advances_enqueue o s Hq) as A. revert A.
  rewrite (enqueue_reserve o s Hq). cbn [snd].
  set (i := length (results s)). set (n := length (heap s)).
  set (s1 := reserve o s).
  set (s2 := perform_then (queue s) (operation_reaction i n o) s1).
  set (s3 := perform_then (queue s) (update_reaction i n) s2). intros A.
  assert (queue s < length (heap s1))%nat as Hq1.
  { unfold s1. simpl. rewrite length_app. lia. }
  assert (queue s < length (heap s2))%nat as Hq2.
  { unfold s2. rewrite perform_then_length. exact Hq1. }
  assert (advances s1 s2) as A12 by apply advances_perform_then.
  assert (advances s2 s3) as A23 by apply advances_perform_then.
  assert (forall p c', heap s3 !! p = Some c' -> (n <= p)%nat ->
            external (role_ c') = false /\ supports s3 p) as New.
  { intros p c' H' Hle.
    assert (p < length (heap s1))%nat as Hlt.
    { apply lookup_lt_Some in H'. unfold s3, s2 in H'.
      rewrite !perform_then_length in H'. exact H'. }
    destruct (lookup_lt_is_Some_2 _ _ Hlt) as [c1 H1].
    assert (role_ c' = role_ c1) as Ro.
    { destruct (ext_heap _ _ (adv_extends _ _ (advances_trans _ _ _ A12 A23))
                  p c1 H1) as (c3 & H3 & Ro & _). congruence. }
    rewrite Ro. apply reserve_cells in H1.
    destruct H1 as [H1|[[-> ->]|[[-> ->]|[-> ->]]]].
    - apply lookup_lt_Some in H1. unfold n in Hle. lia.
    - split; [reflexivity|]. eapply supports_advances; [exact A23|].
      apply perform_then_supports; [exact Hq1|]. left. reflexivity.
    - split; [reflexivity|].
      apply perform_then_supports; [exact Hq2|]. left. reflexivity.
    - split; [reflexivity|].
      eapply supports_advances; [exact (advances_trans _ _ _ A12 A23)|].
      right. eexists (S n), _, (catch_reaction n).
      split; [unfold s1; rewrite <- (Nat.add_1_r n);
              apply reserve_lookup; [lia|reflexivity]|].
      simpl. split; [reflexivity|]. split; [left; reflexivity|].
      left. reflexivity. }
  split.
  - apply (supported_step (fun _ => False) s); [exact B | exact A | |].
    + intros p c' [].
    + intros p c' H' Hle _ _. apply (New p c' H' Hle).
  - apply (adopted_step (fun _ => False) s); [exact C | exact A | |].
    + intros p c' [].
    + intros p c' k fate H' Hle Ro. destruct (New p c' H' Hle) as [X _].
      rewrite Ro in X. discriminate.
Qed.

Lemma progress_new_session (a : @BaseDatabase.state D) :
  supported (new_session a) /\ adopted (new_session a).
Proof.
  split.
  - intros [|p] c H; [|discriminate]. injection H as <-. discriminate.
  - intros [|p] c i fate H; [|discriminate]. injection H as <-. discriminate.
Qed.

(** Every event keeps every promise on its way. *)
Lemma progress_step a e s :
  wf a s -> supported s /\ adopted s ->
  supported (step e s) /\ adopted (step e s).
Proof.
  intros W P. destruct e as [[reason|]|o| |q|i]; simpl.
  - apply (progress_same s); [apply advances_settle|apply settle_length|exact P].
  - apply (progress_same s); [apply advances_settle|apply settle_length|exact P].
  - apply (progress_enqueue a); assumption.
  - apply (progress_tick a); assumption.
  - destruct (heap s !! q) as [c|]; [|exact P].
    destruct (role_ c); try exact P.
    apply (progress_same s); [apply advances_settle|apply settle_length|exact P].
  - destruct (results s !! i) as [p|] eqn:R; [|exact P].
    apply progress_then; [|reflexivity|exact P].
    eapply has_role_lt, (wf_results a s W), R.
Qed.

Lemma progress_play a es s :
  wf a s -> supported s /\ adopted s ->
  supported (play es s) /\ adopted (play es s).
Proof.
  revert s. induction es as [|e es IH]; intros s W P; [exact P|].
  simpl. apply IH; [apply wf_step, W | apply (progress_step a), P; exact W].
Qed.

(** ** At rest *)

Ltac role_clash :=
  match goal with
  | H1 : has_role ?s ?p ?r1, H2 : has_role ?s ?p ?r2 |- _ =>
      pose proof (has_role_fun _ _ _ _ H1 H2); discriminate
  end.

(** With no microtask queued, what is on its way to a pending promise is a
    reaction on another pending promise. *)
Lemma supporter a s p :
  wf a s -> microtasks s = [] -> supports s p ->
  exists q cq r, heap s !! q = Some cq /\ state cq = None
    /\ reaction_ok s q r /\ reaction_mentions r p.
Proof.
  intros W M [(j & Hj & _)|(q & cq & r & Hq & Sq & Hr & Mr)].
  - rewrite M in Hj. destruct Hj.
  - exists q, cq, r. destruct (wf_reactions a s W q cq r Hq Hr) as [_ Rk].
    auto.
Qed.

Lemma supporter_of_result a s p k :
  wf a s -> microtasks s = [] -> has_role s p (RResult k) -> supports s p ->
  exists q cq, heap s !! q = Some cq /\ state cq = None
    /\ (tail_of s k = Some q \/ exists i fate, role_ cq = ROperation i fate).
Proof.
  intros W M Hp Sp.
  destruct (supporter a s p W M Sp) as (q & cq & r & Hq & Sq & Rk & Mr).
  exists q, cq. split; [exact Hq|]. split; [exact Sq|].
  pose proof (wf_results a s W) as FR. pose proof (wf_queues a s W) as FQ.
  unfold reaction_ok in Rk. unfold reaction_mentions in Mr.
  destruct r as [f g [t|]]; simpl in *;
    destruct f; try contradiction; destruct g; try contradiction;
    simpl in Mr; destruct Mr as [Mr|[Mr1 Mr2]]; try contradiction;
    try discriminate; try (injection Mr as ->).
  - destruct Rk as (R & _ & T). left.
    pose proof (has_role_fun _ _ _ _ Hp (FR _ _ R)) as E.
    injection E as ->. exact T.
  - destruct Rk as (Q & _). pose proof (FQ _ _ Q). role_clash.
  - destruct Rk as (i & Hc). role_clash.
  - destruct Rk as (_ & (rq & Ht) & _). role_clash.
  - destruct Rk as (_ & _ & [(i & Q & _)|(i & fate & R & (c2 & H2 & Ro))]); subst.
    + pose proof (FQ _ _ Q). role_clash.
    + right. exists i, fate. congruence.
  - destruct Rk as (i & Hc). role_clash.
  - destruct Rk as (_ & _ & _ & _ & _ & Ha & _). subst. role_clash.
Qed.

Lemma supporter_of_async a s p k :
  wf a s -> microtasks s = [] -> has_role s p (RAsync k) -> supports s p ->
  exists q cq, heap s !! q = Some cq /\ state cq = None
    /\ results s !! k = Some q.
Proof.
  intros W M Hp Sp.
  destruct (supporter a s p W M Sp) as (q & cq & r & Hq & Sq & Rk & Mr).
  exists q, cq. split; [exact Hq|]. split; [exact Sq|].
  pose proof (wf_results a s W) as FR. pose proof (wf_queues a s W) as FQ.
  unfold reaction_ok in Rk. unfold reaction_mentions in Mr.
  destruct r as [f g [t|]]; simpl in *;
    destruct f; try contradiction; destruct g; try contradiction;
    simpl in Mr; destruct Mr as [Mr|[Mr1 Mr2]]; try contradiction;
    try discriminate; try (injection Mr as ->).
  - destruct Rk as (R & _). pose proof (FR _ _ R). role_clash.
  - destruct Rk as (Q & _). pose proof (FQ _ _ Q). role_clash.
  - destruct Rk as (i & Hc). role_clash.
  - destruct Rk as (_ & (rq & Ht) & _). role_clash.
  - destruct Rk as (_ & _ & [(i & Q & _)|(i & fate & R & _)]); subst.
    + pose proof (FQ _ _ Q). role_clash.
    + pose proof (FR _ _ R). role_clash.
  - destruct Rk as (i & Hc). role_clash.
  - destruct Rk as (_ & _ & _ & _ & R & Ha & _). subst.
    pose proof (has_role_fun _ _ _ _ Hp Ha) as E. injection E as ->. exact R.
Qed.

Lemma supporter_of_queue a s p k :
  wf a s -> microtasks s = [] -> has_role s p (RQueueUpdate k) ->
  supports s p ->
  exists q cq, heap s !! q = Some cq /\ state cq = None
    /\ (tail_of s k = Some q \/ has_role s q (RAsync k)).
Proof.
  intros W M Hp Sp.
  destruct (supporter a s p W M Sp) as (q & cq & r & Hq & Sq & Rk & Mr).
  exists q, cq. split; [exact Hq|]. split; [exact Sq|].
  pose proof (wf_results a s W) as FR. pose proof (wf_queues a s W) as FQ.
  unfold reaction_ok in Rk. unfold reaction_mentions in Mr.
  destruct r as [f g [t|]]; simpl in *;
    destruct f; try contradiction; destruct g; try contradiction;
    simpl in Mr; destruct Mr as [Mr|[Mr1 Mr2]]; try contradiction;
    try discriminate; try (injection Mr as ->).
  - destruct Rk as (R & _). pose proof (FR _ _ R). role_clash.
  - destruct Rk as (Q & _ & T). left.
    pose proof (has_role_fun _ _ _ _ Hp (FQ _ _ Q)) as E.
    injection E as ->. exact T.
  - destruct Rk as (i & Hc). role_clash.
  - destruct Rk as (_ & (rq & Ht) & _). role_clash.
  - destruct Rk as (_ & _ & [(i & Q & Ha)|(i & fate & R & _)]); subst.
    + right. pose proof (has_role_fun _ _ _ _ Hp (FQ _ _ Q)) as E.
      injection E as ->. exact Ha.
    + pose proof (FR _ _ R). role_clash.
  - destruct Rk as (i & Hc). role_clash.
  - destruct Rk as (_ & _ & _ & _ & _ & Ha & _). subst. role_clash.
Qed.

Lemma pending_lookup s p : state_of s p = None \/ is_Some (state_of s p).
Proof. destruct (state_of s p); [right; eauto | left; reflexivity]. Qed.

(** At rest every tail of the queue is settled, and with it every result. *)
Lemma quiescent_tails a s i :
  wf a s -> supported s -> quiescent s ->
  (i <= length (results s))%nat ->
  (exists t, tail_of s i = Some t /\ is_Some (state_of s t))
  /\ forall k, (k < i)%nat -> result_settled s k.
Proof.
  intros W B [M X]. induction i as [|k IH]; intros Hi.
  - split; [|intros k Hk; lia]. exists 0%nat. split; [reflexivity|].
    destruct (wf_init a s W) as (c & Hc & Ro).
    rewrite (state_of_lookup _ _ _ Hc).
    destruct (state c) eqn:Sc; [eauto|].
    destruct (X 0%nat c Hc); [rewrite Ro; reflexivity | exact Sc].
  - destruct IH as ((tk & Tk & Sk) & Rs); [lia|].
    assert (exists rp, results s !! k = Some rp) as (rp & R)
      by (apply lookup_lt_is_Some_2; lia).
    assert (exists t, queues s !! k = Some t) as (t & Q).
    { apply lookup_lt_is_Some_2. rewrite (proj2 (wf_lengths a s W)). lia. }
    (* the result *)
    assert (is_Some (state_of s rp)) as Sr.
    { destruct (wf_results a s W k rp R) as (c & Hc & Ro).
      rewrite (state_of_lookup _ _ _ Hc).
      destruct (state c) eqn:Sc; [eauto|]. exfalso.
      destruct (B rp c Hc Sc) as [[]|Sp]; [rewrite Ro; reflexivity|].
      destruct (supporter_of_result a s rp k W M) as (q & cq & Hq & Sq & Hk);
        [exists c; auto | exact Sp |].
      destruct Hk as [T|(i & fate & Ro')].
      - assert (q = tk) as -> by congruence.
        rewrite (state_of_lookup _ _ _ Hq), Sq in Sk. destruct Sk; discriminate.
      - destruct (X q cq Hq); [rewrite Ro'; reflexivity | exact Sq]. }
    split.
    2:{ intros k' Hk'. destruct (decide (k' = k)) as [->|Hne];
          [exists rp; auto | apply Rs; lia]. }
    exists t. split; [exact Q|].
    destruct (wf_queues a s W k t Q) as (c & Hc & Ro).
    rewrite (state_of_lookup _ _ _ Hc).
    destruct (state c) eqn:Sc; [eauto|]. exfalso.
    destruct (B t c Hc Sc) as [[]|Sp]; [rewrite Ro; reflexivity|].
    destruct (supporter_of_queue a s t k W M) as (q & cq & Hq & Sq & Hk);
      [exists c; auto | exact Sp |].
    destruct Hk as [T|Ha].
    + assert (q = tk) as -> by congruence.
      rewrite (state_of_lookup _ _ _ Hq), Sq in Sk. destruct Sk; discriminate.
    + (* the async arrow waits for the result, which is settled *)
      destruct (B q cq Hq Sq) as [[]|Sp'].
      { destruct Ha as (c2 & H2 & Ro2). assert (c2 = cq) as -> by congruence.
        rewrite Ro2. reflexivity. }
      destruct (supporter_of_async a s q k W M Ha Sp')
        as (q' & cq' & Hq' & Sq' & R').
      assert (q' = rp) as -> by congruence.
      rewrite (state_of_lookup _ _ _ Hq'), Sq' in Sr. destruct Sr; discriminate.
Qed.

(** At rest every submitted operation has its result, and has run unless
    [createDb] failed. *)
Lemma quiescent_results a s i :
  wf a s -> supported s -> quiescent s -> (i < length (results s))%nat ->
  result_settled s i
  /\ ((forall e, ~ init_failed s e) -> (i < length (began s))%nat).
Proof.
  intros W B Q Hi.
  destruct (quiescent_tails a s (S i) W B Q ltac:(lia)) as [_ Rs].
  pose proof (Rs i ltac:(lia)) as (p & R & [o So]).
  split; [exists p; rewrite So; eauto|]. intros Ok.
  destruct (result_outcome a s i p o W R So) as [(e & F & _)|[Hb _]];
    [destruct (Ok e F) | exact Hb].
Qed.

(** At rest the only rejections without a handler are the results the
    callers hold, and the one of [createDb]. *)
Lemma quiescent_unhandled a s p c e :
  wf a s -> adopted s -> quiescent s ->
  heap s !! p = Some c -> state c = Some (Rejected e) -> handled c = false ->
  (exists i, results s !! i = Some p) \/ (p = 0%nat /\ init_failed s e).
Proof.
  intros W A [M _] Hc Sc Hh.
  pose proof (wf_promises a s W p c Hc) as P. rewrite Sc, Hh in P.
  destruct (role_ c) eqn:Ro; simpl in P.
  - right. destruct P as [-> _]. split; [reflexivity|].
    unfold init_failed. rewrite (state_of_lookup _ _ _ Hc). exact Sc.
  - left. exists i. apply P.
  - destruct P as (_ & P & _). discriminate.
  - destruct (P e eq_refl).
  - destruct (P _ eq_refl) as [P' _]. discriminate.
  - destruct (A p c i fate Hc Ro Hh) as [[]|(t & Ht)].
    rewrite M in Ht. destruct Ht.
  - destruct (P e eq_refl).
  - destruct (P e eq_refl).
Qed.

(** ** The handler on the promise of [createDb] *)

Lemma handled_step a e s p c c' :
  wf a s -> heap s !! p = Some c -> heap (step e s) !! p = Some c' ->
  handled c = true -> handled c' = true.
Proof.
  intros W Hc Hc'. destruct e as [[reason|]|o| |q|i]; simpl in Hc'.
  - exact (adv_handled _ _ (advances_settle _ _ s) p c c' Hc Hc').
  - exact (adv_handled _ _ (advances_settle _ _ s) p c c' Hc Hc').
  - exact (adv_handled _ _ (advances_enqueue o s (wf_queue_lt a s W))
             p c c' Hc Hc').
  - destruct (microtasks s) as [|j rest] eqn:M.
    + rewrite tick_idle in Hc' by exact M. congruence.
    + rewrite (tick_pop s j rest M) in Hc'.
      exact (adv_handled _ _ (advances_run_job j (pop s)) p c c' Hc Hc').
  - destruct (heap s !! q) as [cq|]; [|congruence].
    destruct (role_ cq); try congruence.
    exact (adv_handled _ _ (advances_settle _ _ s) p c c' Hc Hc').
  - destruct (results s !! i) as [rp|]; [|congruence].
    unfold then_ in Hc'. cbn [alloc snd] in Hc'.
    refine (adv_handled _ _ (advances_trans _ _ _ (advances_alloc (RCaller i) s)
              (advances_perform_then _ _ _)) p c c' Hc Hc').
Qed.

Lemma extends_step a e s : wf a s -> extends s (step e s).
Proof.
  intros W. destruct e as [[reason|]|o| |q|i]; simpl.
  - apply extends_settle.
  - apply extends_settle.
  - apply (adv_extends _ _ (advances_enqueue o s (wf_queue_lt a s W))).
  - destruct (microtasks s) as [|j rest] eqn:M.
    + rewrite tick_idle by exact M. apply extends_refl.
    + rewrite (tick_pop s j rest M).
      apply (extends_trans _ (pop s)); [|apply (advances_run_job j (pop s))].
      apply extends_heap; try reflexivity. apply heap_extends_refl.
  - destruct (heap s !! q) as [cq|]; [|apply extends_refl].
    destruct (role_ cq); try apply extends_refl. apply extends_settle.
  - destruct (results s !! i) as [rp|]; [|apply extends_refl].
    unfold then_. cbn [alloc snd].
    apply (extends_trans _ (snd (alloc (RCaller i) s)));
      [apply extends_alloc | apply extends_perform_then].
Qed.

(** From the first call of a public method on, the promise of [createDb]
    has a handler. *)
Lemma init_handled_step a e s :
  wf a s ->
  (operations s <> [] -> exists c, heap s !! 0%nat = Some c /\ handled c = true) ->
  operations (step e s) <> [] ->
  exists c, heap (step e s) !! 0%nat = Some c /\ handled c = true.
Proof.
  intros W IH N. destruct (wf_init a s W) as (c0 & H0 & _).
  destruct (ext_heap _ _ (extends_step a e s W) _ c0 H0) as (c' & H' & _).
  exists c'. split; [exact H'|].
  destruct (operations s) as [|o0 os] eqn:Os.
  - rewrite step_operations, Os in N. destruct e as [[?|]|o| | |]; try (destruct N; reflexivity).
    change (step (Submit o) s) with (snd (enqueue o s)) in H'.
    pose proof (wf_queue_lt a s W) as Hq.
    rewrite (enqueue_reserve o s Hq) in H'. cbn [snd] in H'.
    assert (queue s = 0%nat) as Q0.
    { pose proof (wf_queue a s W) as T.
      rewrite <- (proj1 (wf_lengths a s W)), Os in T. simpl in T. congruence. }
    rewrite Q0 in H'. eapply perform_then_handled; [|exact H'].
    rewrite perform_then_length. simpl. rewrite length_app.
    apply lookup_lt_Some in H0. lia.
  - destruct (IH ltac:(discriminate)) as (c & Hc & Hh).
    exact (handled_step a e s 0%nat c c' W Hc H' Hh).
Qed.

Lemma init_handled_play a es s :
  wf a s ->
  (operations s <> [] -> exists c, heap s !! 0%nat = Some c /\ handled c = true) ->
  operations (play es s) <> [] ->
  exists c, heap (play es s) !! 0%nat = Some c /\ handled c = true.
Proof.
  revert s. induction es as [|e es IH]; intros s W H; [exact H|].
  simpl. apply IH; [apply wf_step, W | apply (init_handled_step a), H; exact W].
Qed.

(** C4 (failure isolation). In a session whose connection was opened,
    whatever the schedule: every call of a public method has handed its
    operation to the queue, in the order of the calls, and has a result
    and a [queueUpdatePromise] of its own; no [queueUpdatePromise] is ever
    rejected, so the queue goes on after an operation that failed; a
    result, once settled, is the outcome of its own operation when the
    submitted operations run one after the other, so an operation
    submitted after a failing one runs and has the outcome it would have
    had anyhow; and when the session is at rest (no microtask is queued
    and every promise returned by an operation has settled) every
    submitted operation has run and has its result, the adapter is as the
    submitted operations leave it, and the only rejected promises without
    a handler are results, which the callers hold. *)
Theorem failure_stays_with_its_caller (a0 : @BaseDatabase.state D) es :
  let s := play es (new_session a0) in
  (forall e, ~ init_failed s e) ->
  operations s = submitted es
  /\ length (results s) = length (submitted es)
  /\ length (queues s) = length (submitted es)
  /\ (forall i p e, queues s !! i = Some p -> state_of s p <> Some (Rejected e))
  /\ (forall k p o, results s !! k = Some p -> state_of s p = Some o ->
        (k < length (began s))%nat
        /\ exists x, fst (replay (submitted es) a0) !! k = Some x
                     /\ o = outcome_of x)
  /\ (quiescent s ->
        (forall k, (k < length (submitted es))%nat ->
           result_settled s k /\ (k < length (began s))%nat)
        /\ adapter s = snd (replay (submitted es) a0)
        /\ (forall p c e, heap s !! p = Some c ->
              state c = Some (Rejected e) -> handled c = false ->
              exists i, results s !! i = Some p)).
Proof.
  intros s Ok. assert (wf a0 s) as W by apply wf_play, wf_new_session.
  destruct (progress_play a0 es (new_session a0) (wf_new_session a0)
              (progress_new_session a0)) as [B A]. fold s in B, A.
  assert (operations s = submitted es) as Os
    by apply (play_operations es (new_session a0)).
  destruct (wf_lengths a0 s W) as [Lo Lq]. rewrite Os in Lo.
  split; [exact Os|]. split; [symmetry; exact Lo|].
  split; [rewrite Lq; symmetry; exact Lo|]. split; [|split].
  - intros i p e Q St. destruct (wf_queues a0 s W i p Q) as (c & Hc & Ro).
    pose proof (wf_promises a0 s W p c Hc) as P.
    rewrite (state_of_lookup _ _ _ Hc) in St. rewrite Ro, St in P.
    destruct P as (_ & _ & P). exact (Ok e (P _ eq_refl)).
  - intros k p o R St. rewrite <- Os.
    destruct (result_outcome a0 s k p o W R St) as [(e & F & _)|H];
      [destruct (Ok e F) | exact H].
  - intros Q.
    assert (forall k, (k < length (submitted es))%nat ->
              result_settled s k /\ (k < length (began s))%nat) as R.
    { intros k Hk. rewrite Lo in Hk.
      destruct (quiescent_results a0 s k W B Q Hk) as [Hs Hb]. auto. }
    split; [exact R|]. split.
    + rewrite (wf_adapter a0 s W), Os, take_ge; [reflexivity|].
      destruct (length (submitted es)) as [|n] eqn:E; [lia|].
      destruct (R n) as [_ H]; lia.
    + intros p c e Hc Sc Hh.
      destruct (quiescent_unhandled a0 s p c e W A Q Hc Sc Hh) as [H|[_ F]];
        [exact H | destruct (Ok e F)].
Qed.

(** C8 (initialization failure), the part the code keeps. When [createDb]
    rejects with [e], whatever the schedule: no operation is ever invoked;
    a result, once settled, is rejected with [e]; when the session is at
    rest every submitted operation has its result; and if a public method
    has been called at all, the promise of [createDb] has a handler and the
    only rejected promises without a handler at rest are results. *)
Theorem init_failure_reaches_every_operation (a0 : @BaseDatabase.state D) es e :
  let s := play es (new_session a0) in
  init_failed s e ->
  began s = []
  /\ (forall i p o, results s !! i = Some p -> state_of s p = Some o ->
        o = Rejected e)
  /\ (quiescent s ->
        forall k, (k < length (operations s))%nat -> result_settled s k)
  /\ (operations s <> [] ->
        (exists c, heap s !! 0%nat = Some c /\ handled c = true)
        /\ (quiescent s ->
              forall p c e', heap s !! p = Some c ->
                state c = Some (Rejected e') -> handled c = false ->
                exists i, results s !! i = Some p)).
Proof.
  intros s F. assert (wf a0 s) as W by apply wf_play, wf_new_session.
  destruct (progress_play a0 es (new_session a0) (wf_new_session a0)
              (progress_new_session a0)) as [B A]. fold s in B, A.
  assert (began s = []) as Bg.
  { destruct (began s) as [|b l] eqn:Eb; [reflexivity|]. exfalso.
    destruct (wf_facts a0 s W) as (_ & _ & _ & FI).
    eapply init_ok_not_failed; [|exact F]. apply (FI 0%nat).
    rewrite Eb. simpl. lia. }
  split; [exact Bg|]. split; [|split].
  - intros i p o R St.
    destruct (result_outcome a0 s i p o W R St) as [(e' & F' & ->)|[Hb _]].
    + unfold init_failed in F, F'. congruence.
    + rewrite Bg in Hb. simpl in Hb. lia.
  - intros Q k Hk. rewrite (proj1 (wf_lengths a0 s W)) in Hk.
    apply (quiescent_results a0 s k W B Q Hk).
  - intros N.
    destruct (init_handled_play a0 es (new_session a0) (wf_new_session a0))
      as (c0 & H0 & Hh0); [intros X; destruct X; reflexivity | exact N |].
    fold s in H0. split; [eauto|].
    intros Q p c e' Hc Sc Hh.
    destruct (quiescent_unhandled a0 s p c e' W A Q Hc Sc Hh) as [H|[-> _]];
      [exact H | congruence].
Qed.

End ProgressLemmas.

Import Database.

(** A concrete session is at rest: no microtask is left, and the promises
    settled from outside are looked up one by one. *)
Ltac at_rest :=
  split;
  [ vm_compute; reflexivity
  | let q := fresh "q" in let c := fresh "c" in
    let H := fresh "H" in let X := fresh "X" in
    intros q c H X; vm_compute in H;
    repeat (destruct q as [|q];
            [ injection H as <-; first [discriminate X | discriminate] |]);
    discriminate H ].

(** C4, on the two calls of the sample: the first operation fails, the
    second one runs and succeeds, and at rest no rejection is left without
    a handler. *)
Lemma failure_stays_with_its_caller_witness :
  let s := play Samples.failing_then_valid
             (new_session Samples.rejecting_adapter) in
  quiescent s
  /\ length (submitted Samples.failing_then_valid) = 2%nat
  /\ omap (state_of s) (results s)
     = [Rejected (VError "SQL logic error"); Resolved VUndefined]
  /\ operations s = submitted Samples.failing_then_valid
  /\ length (results s) = length (submitted Samples.failing_then_valid)
  /\ length (queues s) = length (submitted Samples.failing_then_valid)
  /\ (forall i p e, queues s !! i = Some p ->
        state_of s p <> Some (Rejected e))
  /\ (forall k p o, results s !! k = Some p -> state_of s p = Some o ->
        (k < length (began s))%nat
        /\ exists x,
             fst (replay (submitted Samples.failing_then_valid)
                    Samples.rejecting_adapter) !! k = Some x
             /\ o = outcome_of x)
  /\ (forall k, (k < length (submitted Samples.failing_then_valid))%nat ->
        result_settled s k /\ (k < length (began s))%nat)
  /\ adapter s
     = snd (replay (submitted Samples.failing_then_valid)
              Samples.rejecting_adapter)
  /\ (forall p c e, heap s !! p = Some c ->
        state c = Some (Rejected e) -> handled c = false ->
        exists i, results s !! i = Some p).
Proof.
  intros s.
  assert (quiescent s) as Q by at_rest.
  split; [exact Q|]. split; [reflexivity|].
  split; [vm_compute; reflexivity|].
  destruct (failure_stays_with_its_caller Samples.rejecting_adapter
              Samples.failing_then_valid) as (H1 & H2 & H3 & H4 & H5 & H6).
  { intros e. vm_compute. discriminate. }
  fold s in H1, H2, H3, H4, H5, H6.
  split; [exact H1|]. split; [exact H2|]. split; [exact H3|].
  split; [exact H4|]. split; [exact H5|]. exact (H6 Q).
Defined.

(** C8, the failing input: [new Database(path)] on a file that cannot be
    opened and no call after it. The session is at rest, no caller holds
    any promise, and the promise of [createDb] is rejected without a
    handler. *)
Lemma init_failure_without_a_call_is_unhandled :
  let s := play Samples.never_used (new_session Samples.fresh_adapter) in
  quiescent s /\ results s = []
  /\ option_map (fun c => (state c, handled c)) (heap s !! 0%nat)
     = Some (Some (Rejected Samples.open_failure), false).
Proof.
  intros s. split; [at_rest|]. split; reflexivity.
Qed.

Lemma init_failure_reaches_every_operation_witness :
  let s := play Samples.used_before_failure
             (new_session Samples.fresh_adapter) in
  init_failed s Samples.open_failure
  /\ began s = []
  /\ (forall i p o, results s !! i = Some p -> state_of s p = Some o ->
        o = Rejected Samples.open_failure)
  /\ (quiescent s ->
        forall k, (k < length (operations s))%nat -> result_settled s k)
  /\ (operations s <> [] ->
        (exists c, heap s !! 0%nat = Some c /\ handled c = true)
        /\ (quiescent s ->
              forall p c e', heap s !! p = Some c ->
                state c = Some (Rejected e') -> handled c = false ->
                exists i, results s !! i = Some p)).
Proof.
  intros s.
  assert (init_failed s Samples.open_failure) as F by (vm_compute; reflexivity).
  split; [exact F|].
  exact (init_failure_reaches_every_operation Samples.fresh_adapter
           Samples.used_before_failure Samples.open_failure F).
Defined.
(** * Transactions on a session *)

Section SessionTransactions.

Context {D : Type}.
Variable driver : driver_call -> D -> settled value * D.
Variable now : D -> Z.
Variable in_tmpdir : string -> string.
Variable cls : adapter_class.

Import BaseDatabase Database.


End SessionTransactions.

Import BaseDatabase Database.

(** * What the methods of the adapter leave alone *)

Section AdapterFrames.

Context {D : Type}.
Variable driver : driver_call -> D -> settled value * D.
Variable now : D -> Z.
Variable in_tmpdir : string -> string.
Variable cls : adapter_class.

Import BaseDatabase.

(** ** [attach] *)

Lemma read_literal_quoted (path tail : string) :
  match tail with
  | String c _ => Ascii.eqb c "'" = false
  | EmptyString => True
  end ->
  read_literal (replace_quotes path +:+ String "'" tail) = Some (path, tail).
Proof.
  intros T. induction path as [|c path IH].
  - simpl. destruct tail as [|c' tail]; [reflexivity|]. rewrite T. reflexivity.
  - simpl. destruct (Ascii.eqb c "'") eqn:E.
    + apply Ascii.eqb_eq in E. subst c. simpl. rewrite IH. reflexivity.
    + simpl. rewrite E, IH. reflexivity.
Qed.

(** X11 (attach). [attach] sends the driver one statement: [ATTACH
    DATABASE], a string literal that SQLite reads back as exactly [path],
    whatever quotes [path] holds, and [AS] with the alias as it is
    given. *)
Theorem attach_quotes_the_path (alias path : string) (s : state) :
  exists literal,
    journal (snd (attach driver alias path s))
    = journal s
      ++ [Issued Caller (DbExec ("ATTACH DATABASE '" +:+ literal))
            (is_resolved
               (fst (driver (DbExec ("ATTACH DATABASE '" +:+ literal))
                       (_db s))))]
    /\ read_literal literal = Some (path, " AS " +:+ alias).
Proof.
  exists (replace_quotes path +:+ "' AS " +:+ alias). split.
  - unfold attach, exec. rewrite exec_as_run. reflexivity.
  - apply (read_literal_quoted path (" AS " +:+ alias)). reflexivity.
Qed.

(** ** The depth *)

(** X12 (depth). No method but [transaction] takes part in the
    bookkeeping of transactions: whatever else is called, [begin],
    [commit] and [rollback] included, leaves [#transactionDepth] as it is
    and issues no statement of the transaction manager. *)
Theorem only_transaction_writes_the_depth (m : Database.method) (s : state) :
  (forall md fn, m <> Database.Transaction md fn) ->
  exists ext,
    journal (snd (Database.operation_of driver now in_tmpdir cls m s)) = journal s ++ ext
    /\ Forall (fun e => exists c ok, e = Issued Caller c ok) ext
    /\ transactionDepth (snd (Database.operation_of driver now in_tmpdir cls m s))
       = transactionDepth s.
Proof.
  intros T.
  assert (forall x : Async value,
            caller_only x ->
            exists ext,
              journal (snd (Database.promising x s)) = journal s ++ ext
              /\ Forall (fun e => exists c ok, e = Issued Caller c ok) ext
              /\ transactionDepth (snd (Database.promising x s))
                 = transactionDepth s) as P.
  { intros x H. unfold Database.promising. destruct (H s) as (ext & J & F & E).
    destruct (x s) as [o a']. exists ext. auto. }
  destruct m; unfold Database.operation_of; apply P;
    try (destruct (T m fn eq_refl)); apply caller_only_tx_method.
Qed.

(** ** The closed flag *)

Lemma flag_kept {A} (m : @Async D A) :
  (forall s, exists ext,
     journal (snd (m s)) = journal s ++ ext
     /\ isClosed (snd (m s)) = isClosed s) ->
  closes_by_close m.
Proof. intros H s. destruct (H s) as (ext & J & F). eauto. Qed.

Lemma flag_ret {A} (a : A) : closes_by_close (@ret D A a).
Proof.
  apply flag_kept. intros s. exists []. simpl. rewrite app_nil_r. auto.
Qed.

Lemma flag_throw {A} e : closes_by_close (@throw D A e).
Proof.
  apply flag_kept. intros s. exists []. simpl. rewrite app_nil_r. auto.
Qed.

Lemma flag_call who c : closes_by_close (call_driver driver who c).
Proof.
  apply flag_kept. intros s. unfold call_driver.
  destruct (driver c (_db s)) as [r d']. simpl. eauto.
Qed.

Lemma flag_after {A B} (m : @Async D A) (k : @Async D B) (s : state) :
  closes_by_close m -> closes_by_close k ->
  exists ext,
    journal (snd (k (snd (m s)))) = journal s ++ ext
    /\ (isClosed (snd (k (snd (m s)))) = isClosed s
        \/ (isClosed (snd (k (snd (m s)))) = true
            /\ In (Issued Caller DbClose true) ext)).
Proof.
  intros Hm Hk.
  destruct (Hm s) as (e1 & J1 & F1).
  destruct (Hk (snd (m s))) as (e2 & J2 & F2).
  exists (e1 ++ e2). rewrite J2, J1, app_assoc. split; [reflexivity|].
  destruct F2 as [F2|[F2 I2]].
  - rewrite F2. destruct F1 as [F1|[F1 I1]]; [left; exact F1|].
    right. split; [exact F1|]. apply in_or_app. left. exact I1.
  - right. split; [exact F2|]. apply in_or_app. right. exact I2.
Qed.

Lemma flag_bind {A B} (m : @Async D A) (k : A -> @Async D B) :
  closes_by_close m -> (forall a, closes_by_close (k a)) ->
  closes_by_close (bind m k).
Proof.
  intros Hm Hk s. unfold bind.
  destruct (m s) as [[a|e] s1] eqn:E.
  - pose proof (flag_after m (k a) s Hm (Hk a)) as H. rewrite E in H.
    exact H.
  - pose proof (Hm s) as H. rewrite E in H. exact H.
Qed.

Lemma flag_close : closes_by_close (close driver).
Proof.
  intros s. unfold close. destruct (isClosed s) eqn:C.
  - exists []. simpl. rewrite app_nil_r. auto.
  - unfold call_driver. destruct (driver DbClose (_db s)) as [[v|e] d'];
      simpl; eexists; (split; [reflexivity|]).
    + right. split; [reflexivity|]. left. reflexivity.
    + left. exact C.
Qed.

Lemma flag_finally {A} (m : @Async D A) tempFile :
  closes_by_close m -> closes_by_close (finally_unlink driver m tempFile).
Proof.
  intros Hm s. unfold finally_unlink.
  pose proof (flag_after m (call_driver driver Caller (FsUnlink tempFile)) s
                Hm (flag_call Caller (FsUnlink tempFile))) as H.
  destruct (m s) as [r s1]. simpl in H.
  destruct (call_driver driver Caller (FsUnlink tempFile) s1) as [r2 s2].
  exact H.
Qed.

Lemma flag_exec_as who sql : closes_by_close (exec_as driver who sql).
Proof.
  unfold exec_as. apply flag_bind; [apply flag_call|]. intros _.
  apply flag_ret.
Qed.

Lemma flag_tx_method c :
  closes_by_close (tx_method driver now in_tmpdir cls c).
Proof.
  destruct c; destruct cls; simpl;
    unfold run, get, all, this_prepare, prepare, exec, function,
      aggregate, loadExtension, pragma, attach, raw, begin, commit, rollback,
      stmt_run, stmt_get, stmt_all, exec,
      NodeSqliteDatabase_backup, BunSqliteDatabase_backup,
      BunSqliteDatabase_serialize, BunSqliteDatabase_function,
      BunSqliteDatabase_aggregate, BetterSqlite3Database_prepare,
      BetterSqlite3Database_backup, BetterSqlite3Database_pragma,
      BetterSqlite3Database_serialize, get, all, this_prepare, prepare,
      BetterSqlite3Database_prepare, raw;
    try (intros s; unfold NodeSqliteDatabase_serialize,
           NodeSqliteDatabase_backup, raw;
         apply flag_finally);
    repeat first
      [ apply flag_call | apply flag_ret | apply flag_exec_as
      | apply flag_throw | apply flag_close
      | apply flag_bind; [|intros ?] | case_match ].
Qed.

Lemma flag_on_failure depth err :
  closes_by_close (on_failure driver depth err).
Proof.
  apply flag_kept. intros s. unfold on_failure.
  destruct (transactionDepth s >? 0).
  - rewrite exec_as_run.
    destruct (fst (driver (DbExec (rollback_sql depth)) (_db s)));
      simpl; eexists; split; try reflexivity.
    rewrite <- app_assoc. reflexivity.
  - simpl. eauto.
Qed.

Lemma flag_createTransactional m (fn : Async value) :
  closes_by_close fn -> closes_by_close (createTransactional driver m fn).
Proof.
  intros Hfn s. rewrite createTransactional_paths. cbv zeta.
  set (d := transactionDepth s).
  pose proof (flag_exec_as Manager (open_sql m d) s) as H1.
  destruct (exec_as driver Manager (open_sql m d) s) as [[v1|e1] s1] eqn:E1.
  2:{ pose proof (flag_after (exec_as driver Manager (open_sql m d))
                    (on_failure driver d e1) s
                    (flag_exec_as _ _) (flag_on_failure _ _)) as H.
      rewrite E1 in H. exact H. }
  assert (closes_by_close
            (fun s0 => fn (with_depth (transactionDepth s0 + 1) s0))) as Hin.
  { intros s0.
    destruct (Hfn (with_depth (transactionDepth s0 + 1) s0)) as (e & J & F).
    simpl in J, F. exists ([DepthSet (transactionDepth s0 + 1)] ++ e).
    rewrite app_assoc. split; [exact J|].
    destruct F as [F|[F I]]; [left; exact F|].
    right. split; [exact F|]. right. exact I. }
  pose proof (flag_after (exec_as driver Manager (open_sql m d)) _ s
                (flag_exec_as _ _) Hin) as H2.
  rewrite E1 in H2. cbn [snd] in H2.
  destruct (fn (with_depth (transactionDepth s1 + 1) s1)) as [[v2|e2] s3]
    eqn:E2.
  2:{ destruct H2 as (x2 & J2 & F2).
      destruct (flag_on_failure d e2 s3) as (x3 & J3 & F3).
      exists (x2 ++ x3). rewrite J3. cbn [snd] in J2, F2. rewrite J2, app_assoc.
      split; [reflexivity|].
      destruct F3 as [F3|[F3 I3]].
      - rewrite F3. destruct F2 as [F2|[F2 I2]]; [left; exact F2|].
        right. split; [exact F2|]. apply in_or_app. left. exact I2.
      - right. split; [exact F3|]. apply in_or_app. right. exact I3. }
  cbn [snd] in H2. destruct H2 as (x2 & J2 & F2).
  assert (closes_by_close
            (fun s0 => exec_as driver Manager (close_sql d)
                         (with_depth (transactionDepth s0 - 1) s0))) as Hout.
  { intros s0.
    destruct (flag_exec_as Manager (close_sql d)
                (with_depth (transactionDepth s0 - 1) s0)) as (e & J & F).
    simpl in J, F. exists ([DepthSet (transactionDepth s0 - 1)] ++ e).
    rewrite app_assoc. split; [exact J|].
    destruct F as [F|[F I]]; [left; exact F|].
    right. split; [exact F|]. right. exact I. }
  destruct (Hout s3) as (x3 & J3 & F3).
  assert (exists ext,
            journal (snd (exec_as driver Manager (close_sql d)
                            (with_depth (transactionDepth s3 - 1) s3)))
            = journal s ++ ext
            /\ (isClosed (snd (exec_as driver Manager (close_sql d)
                                 (with_depth (transactionDepth s3 - 1) s3)))
                = isClosed s
                \/ (isClosed (snd (exec_as driver Manager (close_sql d)
                                     (with_depth (transactionDepth s3 - 1) s3)))
                    = true
                    /\ In (Issued Caller DbClose true) ext))) as H4.
  { exists (x2 ++ x3). rewrite J3, J2, app_assoc. split; [reflexivity|].
    destruct F3 as [F3|[F3 I3]].
    - rewrite F3. destruct F2 as [F2|[F2 I2]]; [left; exact F2|].
      right. split; [exact F2|]. apply in_or_app. left. exact I2.
    - right. split; [exact F3|]. apply in_or_app. right. exact I3. }
  destruct (exec_as driver Manager (close_sql d)
              (with_depth (transactionDepth s3 - 1) s3)) as [[v3|e3] s5].
  - exact H4.
  - cbn [snd] in H4. destruct H4 as (x4 & J4 & F4).
    destruct (flag_on_failure d e3 s5) as (x5 & J5 & F5).
    exists (x4 ++ x5). rewrite J5, J4, app_assoc. split; [reflexivity|].
    destruct F5 as [F5|[F5 I5]].
    + rewrite F5. destruct F4 as [F4|[F4 I4]]; [left; exact F4|].
      right. split; [exact F4|]. apply in_or_app. left. exact I4.
    + right. split; [exact F5|]. apply in_or_app. right. exact I5.
Qed.

Lemma flag_run_body (b : body) :
  closes_by_close (run_body driver now in_tmpdir cls b).
Proof.
  induction b as [v|v|c k IH|m inner IHi k IH]; simpl.
  - apply flag_ret.
  - apply flag_throw.
  - intros s.
    pose proof (fun o => flag_after (tx_method driver now in_tmpdir cls c)
                  (run_body driver now in_tmpdir cls (k o)) s
                  (flag_tx_method c) (IH o)) as H.
    destruct (tx_method driver now in_tmpdir cls c s) as [o s']. exact (H o).
  - intros s.
    pose proof (fun o => flag_after
                  (createTransactional driver m
                     (run_body driver now in_tmpdir cls inner))
                  (run_body driver now in_tmpdir cls (k o)) s
                  (flag_createTransactional m _ IHi) (IH o)) as H.
    destruct (createTransactional driver m
                (run_body driver now in_tmpdir cls inner) s) as [o s'].
    exact (H o).
Qed.

Lemma same_call who c (s : state) :
  isClosed (snd (call_driver driver who c s)) = isClosed s.
Proof. unfold call_driver. destruct (driver c (_db s)). reflexivity. Qed.

Lemma same_bind {A B} (m : @Async D A) (k : A -> @Async D B) :
  (forall s, isClosed (snd (m s)) = isClosed s) ->
  (forall a s, isClosed (snd (k a s)) = isClosed s) ->
  forall s, isClosed (snd (bind m k s)) = isClosed s.
Proof.
  intros Hm Hk s. unfold bind. specialize (Hm s).
  destruct (m s) as [[a|e] s1]; simpl in *; [rewrite Hk|]; exact Hm.
Qed.

Lemma same_finally {A} (m : @Async D A) tempFile :
  (forall s, isClosed (snd (m s)) = isClosed s) ->
  forall s, isClosed (snd (finally_unlink driver m tempFile s)) = isClosed s.
Proof.
  intros Hm s. unfold finally_unlink. specialize (Hm s).
  destruct (m s) as [r s1].
  pose proof (same_call Caller (FsUnlink tempFile) s1) as H.
  destruct (call_driver driver Caller (FsUnlink tempFile) s1) as [r2 s2].
  simpl in *. rewrite H. exact Hm.
Qed.

(** What a method that is neither [close] nor [transaction] does to the
    flag. *)
Lemma flag_plain_method c :
  c <> TxClose ->
  forall s, isClosed (snd (tx_method driver now in_tmpdir cls c s)) = isClosed s.
Proof.
  intros N.
  destruct c; try (destruct (N eq_refl)); destruct cls; simpl;
    unfold run, get, all, this_prepare, prepare, exec, exec_as, function,
      aggregate, loadExtension, pragma, attach, raw, begin, commit, rollback,
      stmt_run, stmt_get, stmt_all, exec, exec_as,
      NodeSqliteDatabase_backup, BunSqliteDatabase_backup,
      BunSqliteDatabase_serialize, BunSqliteDatabase_function,
      BunSqliteDatabase_aggregate, BetterSqlite3Database_prepare,
      BetterSqlite3Database_backup, BetterSqlite3Database_pragma,
      BetterSqlite3Database_serialize, get, all, this_prepare, prepare,
      BetterSqlite3Database_prepare, raw;
    try (intros s; unfold NodeSqliteDatabase_serialize,
           NodeSqliteDatabase_backup, raw;
         apply same_finally);
    repeat first
      [ intros ?; apply same_call | intros ?; reflexivity
      | apply same_bind; [|intros ?] | case_match ].
Qed.

(** X13 (closed flag). The adapter is marked as closed by [close] and
    by nothing else, and the mark is never taken away: whatever is called,
    a transaction with all that its body calls on the handle included,
    the flag is as it was, or it is set and the driver has accepted a
    [close] in that call; and a method that is neither [close] nor
    [transaction] leaves the flag as it is, whether the driver accepts
    what it is asked or fails. *)
Theorem only_close_writes_the_flag (m : Database.method) (s : state) :
  (exists ext,
     journal (snd (Database.operation_of driver now in_tmpdir cls m s))
     = journal s ++ ext
     /\ (isClosed (snd (Database.operation_of driver now in_tmpdir cls m s))
         = isClosed s
         \/ (isClosed
               (snd (Database.operation_of driver now in_tmpdir cls m s))
             = true
             /\ In (Issued Caller DbClose true) ext)))
  /\ (m <> Database.Close ->
      (forall md fn, m <> Database.Transaction md fn) ->
      isClosed (snd (Database.operation_of driver now in_tmpdir cls m s))
      = isClosed s).
Proof.
  split.
  - assert (forall x : Async value,
              closes_by_close x ->
              exists ext,
                journal (snd (Database.promising x s)) = journal s ++ ext
                /\ (isClosed (snd (Database.promising x s)) = isClosed s
                    \/ (isClosed (snd (Database.promising x s)) = true
                        /\ In (Issued Caller DbClose true) ext))) as P.
    { intros x H. unfold Database.promising. specialize (H s).
      destruct (x s) as [o a']. exact H. }
    destruct m; unfold Database.operation_of; apply P;
      first [ apply flag_tx_method
            | apply flag_createTransactional, flag_run_body ].
  - intros C T.
    assert (forall x : Async value,
              isClosed (snd (x s)) = isClosed s ->
              isClosed (snd (Database.promising x s)) = isClosed s) as P.
    { intros x H. unfold Database.promising.
      destruct (x s) as [o a']. exact H. }
    destruct m; unfold Database.operation_of; apply P;
      try (destruct (C eq_refl)); try (destruct (T m fn eq_refl));
      apply flag_plain_method; discriminate.
Qed.

End AdapterFrames.

(** After [begin()] on the sample connection the depth is still zero. *)
Lemma only_transaction_writes_the_depth_witness :
  exists ext,
    BaseDatabase.journal
      (snd (Database.operation_of Sqlite.driver Sqlite.now Sqlite.in_tmpdir NodeSqliteDatabase Database.Begin
              Samples.fresh_adapter))
    = BaseDatabase.journal Samples.fresh_adapter ++ ext
    /\ Forall (fun e => exists c ok, e = Issued Caller c ok) ext
    /\ BaseDatabase.transactionDepth
         (snd (Database.operation_of Sqlite.driver Sqlite.now Sqlite.in_tmpdir NodeSqliteDatabase Database.Begin
                 Samples.fresh_adapter))
       = BaseDatabase.transactionDepth Samples.fresh_adapter.
Proof.
  apply (only_transaction_writes_the_depth Sqlite.driver Sqlite.now
           Sqlite.in_tmpdir NodeSqliteDatabase Database.Begin
           Samples.fresh_adapter).
  intros md fn. discriminate.
Defined.

(** A statement that the sample connection refuses does not close it,
    and a body that calls [close] on its handle does. *)
Lemma only_close_writes_the_flag_witness :
  fst (Database.operation_of Sqlite.driver Sqlite.now Sqlite.in_tmpdir
         NodeSqliteDatabase (Database.Exec "INVALID SQL")
         Samples.rejecting_adapter)
  <> Database.ReturnsPromise (Resolved VUndefined)
  /\ BaseDatabase.isClosed
       (snd (Database.operation_of Sqlite.driver Sqlite.now Sqlite.in_tmpdir
               NodeSqliteDatabase (Database.Exec "INVALID SQL")
               Samples.rejecting_adapter))
     = false
  /\ exists ext,
       BaseDatabase.journal
         (snd (Database.operation_of Sqlite.driver Sqlite.now
                 Sqlite.in_tmpdir NodeSqliteDatabase
                 (Database.Transaction BaseDatabase.Plain
                    Samples.closes_inside)
                 Samples.fresh_adapter))
       = BaseDatabase.journal Samples.fresh_adapter ++ ext
       /\ (BaseDatabase.isClosed
             (snd (Database.operation_of Sqlite.driver Sqlite.now
                     Sqlite.in_tmpdir NodeSqliteDatabase
                     (Database.Transaction BaseDatabase.Plain
                        Samples.closes_inside)
                     Samples.fresh_adapter))
           = BaseDatabase.isClosed Samples.fresh_adapter
           \/ (BaseDatabase.isClosed
                 (snd (Database.operation_of Sqlite.driver Sqlite.now
                         Sqlite.in_tmpdir NodeSqliteDatabase
                         (Database.Transaction BaseDatabase.Plain
                            Samples.closes_inside)
                         Samples.fresh_adapter))
               = true
               /\ In (Issued Caller DbClose true) ext)).
Proof.
  split; [vm_compute; discriminate|]. split.
  - apply (proj2 (only_close_writes_the_flag Sqlite.driver Sqlite.now
                    Sqlite.in_tmpdir NodeSqliteDatabase
                    (Database.Exec "INVALID SQL")
                    Samples.rejecting_adapter));
      [discriminate | intros md fn; discriminate].
  - apply (proj1 (only_close_writes_the_flag Sqlite.driver Sqlite.now
                    Sqlite.in_tmpdir NodeSqliteDatabase
                    (Database.Transaction BaseDatabase.Plain
                       Samples.closes_inside)
                    Samples.fresh_adapter)).
Defined.
(** * Opening *)

Section SessionOpening.

Context {D : Type}.

Import Database.

(** X14 (opening). No operation runs before [createDb] has resolved:
    whatever the schedule, either the connection is open or no operation
    has begun and the adapter is untouched, however many calls have been
    made. *)
Theorem operations_wait_for_the_connection (a0 : @BaseDatabase.state D) es :
  let s := play es (new_session a0) in
  state_of s 0%nat = Some (Resolved VDatabase)
  \/ (began s = [] /\ adapter s = a0).
Proof.
  intros s.
  assert (wf a0 s) as W by (apply reachable_wf; exists es; reflexivity).
  pose proof (wf_adapter a0 s W) as A.
  destruct (began s) as [|i rest] eqn:B.
  - right. split; [reflexivity|]. exact A.
  - left. destruct (wf_began_tail a0 s W 0%nat) as (t & T & St).
    + rewrite B. simpl. lia.
    + injection T as <-. exact St.
Qed.

End SessionOpening.

(** * Parameters and results *)

Module UtilsFacts.

Import Utils.


(** ** Assignment to a property *)


Lemma eqb_sym_string (a b : string) : String.eqb a b = String.eqb b a.
Proof. apply String.eqb_sym. Qed.

Lemma field_replace k k' v w (o : list (string * data)) :
  field k' o = Some w ->
  field k (replace_field k' v o)
  = if String.eqb k' k then Some v else field k o.
Proof.
  induction o as [|[k0 v0] o IH]; [discriminate|]. simpl.
  destruct (String.eqb k0 k') eqn:E0.
  - apply String.eqb_eq in E0. subst k0. intros _. simpl.
    destruct (String.eqb k' k); reflexivity.
  - intros H. simpl. destruct (String.eqb k0 k) eqn:E1.
    + apply String.eqb_eq in E1. subst k0.
      rewrite eqb_sym_string, E0. reflexivity.
    + exact (IH H).
Qed.

Lemma field_insert_index k n k' v (o : list (string * data)) :
  field k' o = None ->
  field k (insert_index n k' v o)
  = if String.eqb k' k then Some v else field k o.
Proof.
  induction o as [|[k0 v0] o IH]; [reflexivity|]. simpl.
  destruct (String.eqb k0 k') eqn:E0; [discriminate|]. intros H.
  assert (field k ((k', v) :: (k0, v0) :: o)
          = if String.eqb k' k then Some v else field k ((k0, v0) :: o)) as Front
    by reflexivity.
  destruct (array_index k0) as [n0|]; [|exact Front].
  destruct (n0 <? n)%N; [|exact Front]. simpl.
  destruct (String.eqb k0 k) eqn:E1; [|exact (IH H)].
  apply String.eqb_eq in E1. subst k0. rewrite eqb_sym_string, E0.
  reflexivity.
Qed.

Lemma field_snoc k k' v (o : list (string * data)) :
  field k (o ++ [(k', v)])
  = match field k o with
    | Some x => Some x
    | None => if String.eqb k' k then Some v else None
    end.
Proof.
  induction o as [|[k0 v0] o IH]; [reflexivity|]. simpl.
  destruct (String.eqb k0 k); [reflexivity | exact IH].
Qed.

Lemma field_set_own k k' v (o : list (string * data)) :
  field k (set_own k' v o) = if String.eqb k' k then Some v else field k o.
Proof.
  unfold set_own. destruct (field k' o) as [w|] eqn:F.
  - exact (field_replace k k' v w o F).
  - destruct (array_index k') as [n|].
    + exact (field_insert_index k n k' v o F).
    + rewrite field_snoc. destruct (String.eqb k' k) eqn:E.
      * apply String.eqb_eq in E. subst k'. rewrite F. reflexivity.
      * destruct (field k o); reflexivity.
Qed.

Lemma field_none_keys k (o : list (string * data)) :
  field k o = None <-> ~ In k (map fst o).
Proof.
  induction o as [|[k0 v0] o IH]; simpl; [tauto|].
  destruct (String.eqb k0 k) eqn:E.
  - apply String.eqb_eq in E. split; [discriminate | tauto].
  - apply String.eqb_neq in E. tauto.
Qed.

Lemma replace_field_keys k v w (o : list (string * data)) :
  field k o = Some w -> map fst (replace_field k v o) = map fst o.
Proof.
  induction o as [|[k0 v0] o IH]; [reflexivity|]. simpl.
  destruct (String.eqb k0 k) eqn:E.
  - apply String.eqb_eq in E. subst k0. reflexivity.
  - intros H. simpl. rewrite (IH H). reflexivity.
Qed.

Lemma insert_index_keys n k v (o : list (string * data)) :
  Permutation (map fst (insert_index n k v o)) (k :: map fst o).
Proof.
  induction o as [|[k0 v0] o IH]; [reflexivity|]. simpl.
  destruct (array_index k0) as [n0|]; [|reflexivity].
  destruct (n0 <? n)%N; [|reflexivity]. simpl.
  rewrite IH. apply perm_swap.
Qed.

Lemma set_own_NoDup k v (o : list (string * data)) :
  List.NoDup (map fst o) -> List.NoDup (map fst (set_own k v o)).
Proof.
  intros H. unfold set_own. destruct (field k o) as [w|] eqn:F.
  - rewrite (replace_field_keys k v w o F). exact H.
  - apply field_none_keys in F.
    assert (List.NoDup (k :: map fst o)) as H' by (constructor; assumption).
    destruct (array_index k) as [n|].
    + eapply Permutation_NoDup; [|exact H'].
      symmetry. apply insert_index_keys.
    + rewrite map_app. simpl.
      eapply Permutation_NoDup; [|exact H'].
      apply Permutation_cons_append.
Qed.

Lemma field_unique k v (o : list (string * data)) :
  List.NoDup (map fst o) -> In (k, v) o -> field k o = Some v.
Proof.
  induction o as [|[k0 v0] o IH]; intros N H; [destruct H|].
  simpl in *. inversion N as [|? ? Hn N']; subst.
  destruct H as [[= -> ->]|H].
  - rewrite String.eqb_refl. reflexivity.
  - destruct (String.eqb k0 k) eqn:E; [|exact (IH N' H)].
    apply String.eqb_eq in E. subst k0. exfalso. apply Hn.
    apply in_map_iff. exists (k, v). auto.
Qed.

Lemma last_field_id k (o : list (string * data)) :
  List.NoDup (map fst o) -> last_field id k o = field k o.
Proof.
  intros N. unfold last_field.
  replace (map (fun kv => (id (fst kv), snd kv)) (rev o)) with (rev o)
    by (rewrite <- (map_id (rev o)) at 1; apply map_ext; intros []; reflexivity).
  assert (List.NoDup (map fst (rev o))) as N'.
  { rewrite map_rev. apply NoDup_rev. exact N. }
  destruct (field k o) as [v|] eqn:F.
  - apply field_unique; [exact N'|]. apply -> in_rev.
    clear N N'. induction o as [|[k0 v0] o IH]; [discriminate|].
    simpl in F. destruct (String.eqb k0 k) eqn:E.
    + apply String.eqb_eq in E. injection F as ->. subst. left. reflexivity.
    + right. exact (IH F).
  - apply field_none_keys. apply field_none_keys in F.
    rewrite map_rev, <- in_rev. exact F.
Qed.

Lemma set_own_entries k' v' k v (o : list (string * data)) :
  In (k', v') (set_own k v o) -> (k' = k /\ v' = v) \/ In (k', v') o.
Proof.
  unfold set_own. destruct (field k o) as [w|].
  - induction o as [|[k0 v0] o IH]; [intros []|]. simpl.
    destruct (String.eqb k0 k).
    + intros [[= <- <-]|H]; [left; auto | right; right; exact H].
    + intros [H|H]; [right; left; exact H|].
      destruct (IH H) as [E|H']; [left; exact E | right; right; exact H'].
  - destruct (array_index k) as [n|].
    + induction o as [|[k0 v0] o IH]; simpl.
      * intros [[= <- <-]|[]]. left. auto.
      * assert (In (k', v') ((k, v) :: (k0, v0) :: o) ->
                (k' = k /\ v' = v) \/ In (k', v') ((k0, v0) :: o)) as Front.
        { intros [[= <- <-]|H]; [left; auto | right; exact H]. }
        destruct (array_index k0) as [n0|]; [|exact Front].
        destruct (n0 <? n)%N; [|exact Front].
        intros [H|H]; [right; left; exact H|].
        destruct (IH H) as [E|H']; [left; exact E | right; right; exact H'].
    + intros H. apply in_app_or in H.
      destruct H as [H|[[= <- <-]|[]]]; [right; exact H | left; auto].
Qed.

(** *** [assign] *)

(** Reading after writing. *)
Lemma field_assign k k' v (o : list (string * data)) :
  field k (assign k' v o)
  = if String.eqb k' "__proto__" then field k o
    else if String.eqb k' k then Some v else field k o.
Proof.
  unfold assign. destruct (String.eqb k' "__proto__"); [reflexivity|].
  apply field_set_own.
Qed.

(** An assignment leaves no key twice. *)
Lemma assign_NoDup k v (o : list (string * data)) :
  List.NoDup (map fst o) -> List.NoDup (map fst (assign k v o)).
Proof.
  unfold assign. destruct (String.eqb k "__proto__"); [auto|].
  apply set_own_NoDup.
Qed.

Lemma assign_entries k' v' k v (o : list (string * data)) :
  In (k', v') (assign k v o) ->
  (k' = k /\ v' = v /\ String.eqb k "__proto__" = false) \/ In (k', v') o.
Proof.
  unfold assign. destruct (String.eqb k "__proto__"); [auto|].
  intros H. destruct (set_own_entries _ _ _ _ _ H) as [[-> ->]|H']; auto.
Qed.



(** ** The order of enumeration *)

Lemma array_index_key k n : array_index k = Some n -> k = index_key n.
Proof.
  unfold array_index.
  destruct (NilZero.uint_of_string k) as [u|]; [|discriminate].
  destruct (String.eqb (index_key (N.of_uint u)) k
            && (N.of_uint u <? 4294967295)%N) eqn:E; [|discriminate].
  intros [= <-]. apply andb_true_iff in E. destruct E as [E _].
  apply String.eqb_eq in E. symmetry. exact E.
Qed.

Lemma names_only_cons k ks :
  names_only (k :: ks) = true ->
  array_index k = None /\ ~ In k ks /\ names_only ks = true.
Proof.
  change (names_only (k :: ks))
    with (match array_index k with
          | Some _ => false
          | None => negb (existsb (String.eqb k) ks) && names_only ks
          end).
  destruct (array_index k); [discriminate|]. intros H.
  apply andb_true_iff in H. destruct H as [H1 H2].
  split; [reflexivity|]. split; [|exact H2].
  apply negb_true_iff in H1. intros X.
  assert (existsb (String.eqb k) ks = true) as Y
    by (apply existsb_exists; exists k; split;
        [exact X | apply String.eqb_refl]).
  congruence.
Qed.

Lemma names_only_intro k ks :
  array_index k = None -> ~ In k ks -> names_only ks = true ->
  names_only (k :: ks) = true.
Proof.
  intros A Fr H.
  change (names_only (k :: ks))
    with (match array_index k with
          | Some _ => false
          | None => negb (existsb (String.eqb k) ks) && names_only ks
          end).
  rewrite A, H, andb_true_r. apply negb_true_iff.
  destruct (existsb (String.eqb k) ks) eqn:E; [|reflexivity].
  apply existsb_exists in E. destruct E as (k' & Hin & E).
  apply String.eqb_eq in E. subst k'. destruct (Fr Hin).
Qed.

Lemma names_only_index_free ks :
  names_only ks = true -> Forall (fun k => array_index k = None) ks.
Proof.
  induction ks as [|k ks IH]; intros H; [constructor|].
  apply names_only_cons in H. destruct H as (A & _ & H).
  constructor; [exact A | exact (IH H)].
Qed.

Lemma names_only_snoc k ks :
  array_index k = None -> ~ In k ks -> names_only ks = true ->
  names_only (ks ++ [k]) = true.
Proof.
  intros A. induction ks as [|k' ks IH]; intros Fr H.
  - apply names_only_intro; [exact A | intros [] | reflexivity].
  - apply names_only_cons in H. destruct H as (A' & Fr' & H).
    rewrite <- app_comm_cons. apply names_only_intro; [exact A' | |].
    + intros X. apply in_app_or in X. destruct X as [X|[<-|[]]];
        [exact (Fr' X) | apply Fr; left; reflexivity].
    + apply IH; [|exact H]. intros X. apply Fr. right. exact X.
Qed.

Lemma enumerated_cons lo k ks :
  enumerated_from lo (k :: ks)
  = match array_index k with
    | Some n => (lo <=? n)%N && enumerated_from (N.succ n) ks
    | None => names_only (k :: ks)
    end.
Proof. reflexivity. Qed.

Lemma enumerated_snoc k ks :
  array_index k = None -> ~ In k ks ->
  forall lo, enumerated_from lo ks = true ->
             enumerated_from lo (ks ++ [k]) = true.
Proof.
  intros A. induction ks as [|k' ks IH]; intros Fr lo H.
  - simpl app. rewrite enumerated_cons, A.
    apply names_only_intro; [exact A | intros [] | reflexivity].
  - rewrite <- app_comm_cons. rewrite enumerated_cons in *.
    destruct (array_index k') as [n'|] eqn:A'.
    + apply andb_true_iff in H. destruct H as [H1 H2]. rewrite H1.
      apply IH; [|exact H2]. intros X. apply Fr. right. exact X.
    + rewrite app_comm_cons. apply names_only_snoc; assumption.
Qed.

Lemma insert_in_order n k v :
  array_index k = Some n ->
  forall o lo, (lo <= n)%N -> ~ In k (map fst o) ->
    enumerated_from lo (map fst o) = true ->
    enumerated_from lo (map fst (insert_index n k v o)) = true.
Proof.
  intros A. induction o as [|[k' v'] o IH]; intros lo L Fr H.
  - cbn [insert_index map fst]. rewrite enumerated_cons, A.
    apply andb_true_iff. split; [apply N.leb_le; exact L | reflexivity].
  - cbn [insert_index]. cbn [map fst] in H, Fr. rewrite enumerated_cons in H.
    destruct (array_index k') as [n'|] eqn:A'.
    + apply andb_true_iff in H. destruct H as [H1 H2].
      destruct (n' <? n)%N eqn:C.
      * cbn [map fst]. rewrite enumerated_cons, A', H1. apply IH.
        -- apply N.ltb_lt in C. lia.
        -- intros X. apply Fr. right. exact X.
        -- exact H2.
      * cbn [map fst]. rewrite enumerated_cons, A.
        apply andb_true_iff. split; [apply N.leb_le; exact L|].
        rewrite enumerated_cons, A'. apply andb_true_iff.
        split; [|exact H2]. apply N.leb_le. apply N.ltb_ge in C.
        assert (n' <> n) as Ne.
        { intros ->. apply Fr. left.
          rewrite (array_index_key _ _ A), (array_index_key _ _ A').
          reflexivity. }
        lia.
    + cbn [map fst]. rewrite enumerated_cons, A.
      apply andb_true_iff. split; [apply N.leb_le; exact L|].
      rewrite enumerated_cons, A'. exact H.
Qed.

Lemma assign_in_order k v (o : list (string * data)) :
  enumeration_order o = true -> enumeration_order (assign k v o) = true.
Proof.
  unfold assign. destruct (String.eqb k "__proto__"); [auto|].
  unfold enumeration_order, set_own. intros H.
  destruct (field k o) as [w|] eqn:F.
  - rewrite (replace_field_keys k v w o F). exact H.
  - apply field_none_keys in F. destruct (array_index k) as [n|] eqn:A.
    + apply insert_in_order; [exact A | lia | exact F | exact H].
    + rewrite map_app. apply enumerated_snoc; assumption.
Qed.

Lemma fold_in_order (key : string * data -> string)
    (val : string * data -> data) (l : list (string * data)) :
  forall acc,
    enumeration_order acc = true ->
    enumeration_order
      (fold_left (fun a kv => assign (key kv) (val kv) a) l acc) = true.
Proof.
  induction l as [|kv l IH]; intros acc H; [exact H|].
  simpl. apply IH, assign_in_order, H.
Qed.

Lemma fold_assign_entries (P : string * data -> Prop)
    (key : string * data -> string) (val : string * data -> data)
    (l : list (string * data)) :
  forall acc,
    Forall P acc ->
    Forall (fun kv => String.eqb (key kv) "__proto__" = false ->
                      P (key kv, val kv)) l ->
    Forall P (fold_left (fun a kv => assign (key kv) (val kv) a) l acc).
Proof.
  induction l as [|kv l IH]; intros acc H G; [exact H|].
  inversion G as [|? ? Gkv Gl]; subst.
  simpl. apply IH; [|exact Gl]. apply List.Forall_forall. intros [k' v'] Hin.
  destruct (assign_entries k' v' (key kv) (val kv) acc Hin)
    as [(-> & -> & E)|Hold]; [exact (Gkv E)|].
  apply (proj1 (List.Forall_forall _ _) H (k', v') Hold).
Qed.



Lemma insert_after n k v (acc : list (string * data)) :
  Forall (fun k' => exists n', array_index k' = Some n' /\ (n' < n)%N)
    (map fst acc) ->
  insert_index n k v acc = acc ++ [(k, v)].
Proof.
  induction acc as [|[k' v'] acc IH]; intros H; [reflexivity|].
  cbn [map fst] in H. inversion H as [|? ? (n' & A & L) H']; subst.
  cbn [insert_index]. rewrite A. apply N.ltb_lt in L. rewrite L.
  rewrite (IH H'). reflexivity.
Qed.

Lemma fold_names (g : data -> data) (l : list (string * data)) :
  forall acc,
    names_only (map fst l) = true ->
    (forall k, In k (map fst l) -> ~ In k (map fst acc)) ->
    fold_left (fun a kv => assign (fst kv) (g (snd kv)) a) l acc
    = acc ++ map (fun kv => (fst kv, g (snd kv))) (but_proto l).
Proof.
  induction l as [|[k v] l IH]; intros acc H D.
  - simpl. rewrite app_nil_r. reflexivity.
  - cbn [map fst] in H. apply names_only_cons in H.
    destruct H as (A & Fr & Hl). cbn [fold_left map fst snd].
    unfold but_proto. cbn [List.filter fst]. fold (but_proto l).
    unfold assign at 2. destruct (String.eqb k "__proto__") eqn:E.
    + cbn [negb]. apply IH; [exact Hl|].
      intros k' Hk'. apply D. right. exact Hk'.
    + cbn [negb map fst snd].
      assert (set_own k (g v) acc = acc ++ [(k, g v)]) as ->.
      { unfold set_own.
        rewrite (proj2 (field_none_keys k acc)) by (apply D; left; reflexivity).
        rewrite A. reflexivity. }
      rewrite IH; [rewrite <- app_assoc; reflexivity | exact Hl |].
      intros k' Hk'. rewrite map_app. intros X. apply in_app_or in X.
      destruct X as [X|[<-|[]]];
        [exact (D k' (or_intror Hk') X) | exact (Fr Hk')].
Qed.

Lemma index_is_not_proto k n :
  array_index k = Some n -> String.eqb k "__proto__" = false.
Proof.
  intros A. apply String.eqb_neq. intros ->. vm_compute in A. discriminate.
Qed.

(** Assigning the properties of an object to an empty one, in their
    order, gives them in the same order, but for [__proto__]. *)
Lemma fold_enumerated (g : data -> data) (l : list (string * data)) :
  forall acc lo,
    Forall (fun k => exists n, array_index k = Some n /\ (n < lo)%N)
      (map fst acc) ->
    enumerated_from lo (map fst l) = true ->
    fold_left (fun a kv => assign (fst kv) (g (snd kv)) a) l acc
    = acc ++ map (fun kv => (fst kv, g (snd kv))) (but_proto l).
Proof.
  induction l as [|[k v] l IH]; intros acc lo B H.
  - simpl. rewrite app_nil_r. reflexivity.
  - cbn [map fst] in H. rewrite enumerated_cons in H.
    destruct (array_index k) as [n|] eqn:A.
    + apply andb_true_iff in H. destruct H as [H1 H2]. apply N.leb_le in H1.
      cbn [fold_left map fst snd].
      unfold but_proto. cbn [List.filter fst]. fold (but_proto l).
      unfold assign at 2. rewrite (index_is_not_proto k n A).
      cbn [negb map fst snd].
      assert (~ In k (map fst acc)) as Fr.
      { intros X.
        destruct (proj1 (List.Forall_forall _ _) B k X) as (n' & A2 & L).
        rewrite A in A2. injection A2 as <-. lia. }
      assert (set_own k (g v) acc = acc ++ [(k, g v)]) as ->.
      { unfold set_own. rewrite (proj2 (field_none_keys k acc) Fr), A.
        apply insert_after. eapply Forall_impl; [exact B|].
        intros k' (n' & A' & L). exists n'. split; [exact A' | lia]. }
      rewrite (IH _ (N.succ n)); [rewrite <- app_assoc; reflexivity | | exact H2].
      rewrite map_app. apply Forall_app. split.
      * eapply Forall_impl; [exact B|].
        intros k' (n' & A' & L). exists n'. split; [exact A' | lia].
      * constructor; [|constructor]. exists n. split; [exact A | lia].
    + apply (fold_names g ((k, v) :: l)); [exact H|].
      intros k' Hk' X.
      destruct (proj1 (List.Forall_forall _ _) B k' X) as (n' & A2 & _).
      pose proof (names_only_index_free _ H) as Fi.
      rewrite List.Forall_forall in Fi. rewrite (Fi k' Hk') in A2.
      discriminate.
Qed.

(** ** [transformResult] *)

Lemma transformResult_object (fields : list (string * data)) :
  enumeration_order fields = true ->
  transformResult (DObject fields)
  = DObject
      (map (fun kv => (fst kv, transformResult (snd kv))) (but_proto fields)).
Proof.
  intros H. cbn [transformResult]. f_equal.
  apply (fold_enumerated transformResult fields [] 0); [constructor | exact H].
Qed.

Lemma but_proto_id (fields : list (string * data)) :
  forallb (fun kv => negb (String.eqb (fst kv) "__proto__")) fields = true ->
  but_proto fields = fields.
Proof.
  unfold but_proto. induction fields as [|kv fields IH]; [reflexivity|].
  simpl. intros H. apply andb_true_iff in H. destruct H as [H1 H2].
  rewrite H1, (IH H2). reflexivity.
Qed.








Lemma indexed_keys n (l l' : list data) :
  length l = length l' -> map fst (indexed n l) = map fst (indexed n l').
Proof.
  revert n l'. induction l as [|x l IH]; intros n [|y l'] H; try discriminate;
    [reflexivity|]. simpl. f_equal. apply IH. simpl in H. lia.
Qed.

Lemma field_map_values (f : data -> data) k (o : list (string * data)) :
  field k (map (fun kv => (fst kv, f (snd kv))) o) = option_map f (field k o).
Proof.
  induction o as [|[k' v] o IH]; [reflexivity|]. simpl.
  destruct (String.eqb k' k); [reflexivity | exact IH].
Qed.

Lemma index_key_is_not_proto n : String.eqb (index_key n) "__proto__" = false.
Proof.
  unfold index_key. destruct (N.to_uint n); reflexivity.
Qed.

Lemma but_proto_indexed n (l : list data) :
  but_proto (indexed n l) = indexed n l.
Proof.
  revert n. unfold but_proto. induction l as [|x l IH]; intros n;
    [reflexivity|].
  cbn [indexed List.filter fst]. rewrite index_key_is_not_proto, IH.
  reflexivity.
Qed.

Lemma field_but_proto k (o : list (string * data)) :
  field k (but_proto o)
  = if String.eqb k "__proto__" then None else field k o.
Proof.
  unfold but_proto. induction o as [|[k' v] o IH]; simpl.
  - destruct (String.eqb k "__proto__"); reflexivity.
  - destruct (String.eqb k' "__proto__") eqn:E; simpl.
    + rewrite IH. destruct (String.eqb k "__proto__") eqn:E'; [reflexivity|].
      destruct (String.eqb k' k) eqn:E2; [|reflexivity].
      apply String.eqb_eq in E2. congruence.
    + destruct (String.eqb k' k) eqn:E2; [|exact IH].
      apply String.eqb_eq in E2. subst k'. rewrite E. reflexivity.
Qed.

Lemma transformResult_fields (x : data) :
  well_formed x = true ->
  map fst (own_fields (transformResult x))
  = map fst (but_proto (own_fields x))
  /\ forall k,
       field k (own_fields (transformResult x))
       = if String.eqb k "__proto__" then None
         else option_map transformResult (field k (own_fields x)).
Proof.
  intros W.
  assert (forall k l n, Forall (fun y => transformResult y = y) l ->
            field k (indexed n l)
            = if String.eqb k "__proto__" then None
              else option_map transformResult (field k (indexed n l)))
    as Fixed.
  { intros k l n H. pose proof (field_but_proto k (indexed n l)) as FB.
    rewrite but_proto_indexed in FB.
    destruct (String.eqb k "__proto__"); [exact FB|]. clear FB.
    revert n. induction H as [|y l Hy _ IH]; intros n; [reflexivity|].
    simpl. destruct (String.eqb (index_key n) k); [|apply IH].
    simpl. rewrite Hy. reflexivity. }
  assert (forall k (o : list (string * data)),
            (if String.eqb k "__proto__" then None
             else option_map transformResult (field k o))
            = option_map transformResult (field k (but_proto o))) as Back.
  { intros k o. rewrite field_but_proto.
    destruct (String.eqb k "__proto__"); reflexivity. }
  destruct x as [| | | | |s|f b|items|fields];
    try (split; [reflexivity | intros k; simpl;
                 destruct (String.eqb k "__proto__"); reflexivity]).
  - cbn [transformResult own_fields]. rewrite but_proto_indexed.
    split; [reflexivity|]. intros k. apply Fixed. clear W.
    induction s as [|c s IH]; simpl; [constructor|].
    constructor; [reflexivity | exact IH].
  - cbn [transformResult own_fields]. rewrite but_proto_indexed.
    split; [reflexivity|]. intros k. apply Fixed. clear W.
    induction b as [|y b IH]; simpl; [constructor|].
    constructor; [reflexivity | exact IH].
  - cbn [transformResult own_fields]. rewrite but_proto_indexed.
    split; [apply indexed_keys; rewrite length_map; reflexivity|].
    intros k. rewrite Back, but_proto_indexed. clear W. generalize 0%N.
    induction items as [|y l IH]; intros n; [reflexivity|].
    simpl. destruct (String.eqb (index_key n) k); [reflexivity | apply IH].
  - cbn [well_formed] in W. apply andb_true_iff in W. destruct W as [O _].
    rewrite (transformResult_object fields O). cbn [own_fields].
    split; [rewrite map_map; reflexivity|]. intros k.
    rewrite Back. apply field_map_values.
Qed.

Lemma own_fields_without_proto (x : data) :
  without_proto x = true -> but_proto (own_fields x) = own_fields x.
Proof.
  destruct x as [| | | | |s|f b|items|fields]; try reflexivity; intros P;
    cbn [own_fields]; try apply but_proto_indexed.
  apply but_proto_id. cbn [without_proto] in P.
  rewrite forallb_forall in P. rewrite forallb_forall. intros kv Hkv.
  specialize (P kv Hkv). apply andb_true_iff in P. tauto.
Qed.

(** X2 (shape of results).
    [transformResult] keeps the shape of a value whose objects list their
    properties in the order of enumeration, as the values of JavaScript
    do, and have no own property with the key [__proto__]: the result has
    the same own keys in the same order (so an array keeps its length),
    each with the transformed value. *)
Theorem transformResult_keeps_keys (x : data) :
  well_formed x = true -> without_proto x = true ->
  map fst (own_fields (transformResult x)) = map fst (own_fields x)
  /\ forall k,
       field k (own_fields (transformResult x))
       = option_map transformResult (field k (own_fields x)).
Proof.
  intros W P. destruct (transformResult_fields x W) as [K F].
  pose proof (own_fields_without_proto x P) as B.
  split; [rewrite K, B; reflexivity|].
  intros k. rewrite F.
  pose proof (field_but_proto k (own_fields x)) as FB. rewrite B in FB.
  destruct (String.eqb k "__proto__"); [rewrite FB|]; reflexivity.
Qed.

(** An object with an array index, two names and a nested array, as a
    driver may return a row. *)
Lemma transformResult_keeps_keys_witness :
  well_formed
    (DObject [("0", DNumber 7); ("id", DNumber 1);
              ("data", DBytes false [Byte.x6f; Byte.x6e; Byte.x65]);
              ("tags", DArray [DBytes false []; DNull])])
  = true
  /\ map fst
       (own_fields
          (transformResult
             (DObject [("0", DNumber 7); ("id", DNumber 1);
                       ("data", DBytes false [Byte.x6f; Byte.x6e; Byte.x65]);
                       ("tags", DArray [DBytes false []; DNull])])))
     = ["0"; "id"; "data"; "tags"]
  /\ field "data"
       (own_fields
          (transformResult
             (DObject [("0", DNumber 7); ("id", DNumber 1);
                       ("data", DBytes false [Byte.x6f; Byte.x6e; Byte.x65]);
                       ("tags", DArray [DBytes false []; DNull])])))
     = Some (DBytes true [Byte.x6f; Byte.x6e; Byte.x65]).
Proof.
  split; [reflexivity|].
  destruct (transformResult_keeps_keys
              (DObject [("0", DNumber 7); ("id", DNumber 1);
                        ("data", DBytes false [Byte.x6f; Byte.x6e; Byte.x65]);
                        ("tags", DArray [DBytes false []; DNull])])
              eq_refl eq_refl) as [K F].
  split; [exact K | exact (F "data")].
Defined.

(** ** [transformParams] *)

(** [transformParam] leaves a value that is no bigint as it is and turns a
    bigint into a string that reads as the same integer. *)
Lemma transformParam_decimal (p : data) :
  (is_bigint p = false -> transformParam p = p)
  /\ (forall z, p = DBigInt z ->
        exists s, transformParam p = DString s
                  /\ option_map Z.of_int (NilZero.int_of_string s) = Some z).
Proof.
  split.
  - destruct p; try reflexivity. discriminate.
  - intros z ->. exists (js_number z). split; [reflexivity|].
    unfold js_number. rewrite NilZero.isi.
    + simpl. rewrite DecimalZ.of_to. reflexivity.
    + destruct z; try discriminate.
      intros [= E]. exact (DecimalPos.Unsigned.to_uint_nonnil _ E).
    + destruct z; try discriminate.
      intros [= E]. exact (DecimalPos.Unsigned.to_uint_nonnil _ E).
Qed.

Lemma fold_assign (f : string -> string) k (l acc : list (string * data)) :
  field k
    (fold_left
       (fun newParams kv => assign (f (fst kv)) (transformParam (snd kv)) newParams)
       l acc)
  = if String.eqb k "__proto__" then field k acc
    else match last_field f k l with
         | Some v => Some (transformParam v)
         | None => field k acc
         end.
Proof.
  revert acc. induction l as [|[k0 v0] l IH]; intros acc.
  - simpl. destruct (String.eqb k "__proto__"); reflexivity.
  - simpl. rewrite IH. destruct (String.eqb k "__proto__") eqn:P.
    + rewrite field_assign. destruct (String.eqb (f k0) "__proto__") eqn:P0;
        [reflexivity|].
      destruct (String.eqb (f k0) k) eqn:E; [|reflexivity].
      apply String.eqb_eq in E. congruence.
    + unfold last_field. simpl. rewrite map_app. simpl.
      rewrite field_snoc, field_assign.
      destruct (field k (map (fun kv => (f (fst kv), snd kv)) (rev l)));
        [reflexivity|].
      destruct (String.eqb (f k0) k) eqn:E; [|
        destruct (String.eqb (f k0) "__proto__"); reflexivity].
      apply String.eqb_eq in E. rewrite E, P. reflexivity.
Qed.

Lemma fold_assign_NoDup (f : string -> string) (l acc : list (string * data)) :
  List.NoDup (map fst acc) ->
  List.NoDup
    (map fst
       (fold_left
          (fun newParams kv =>
             assign (f (fst kv)) (transformParam (snd kv)) newParams)
          l acc)).
Proof.
  revert acc. induction l as [|kv l IH]; intros acc H; [exact H|].
  simpl. apply IH, assign_NoDup, H.
Qed.

Lemma transformParams_bindings
    (fields : list (string * data)) (stripPrefixes : bool) (k : string) :
  exists newParams,
    transformParams (DObject fields) stripPrefixes = DObject newParams
    /\ List.NoDup (map fst newParams)
    /\ enumeration_order newParams = true
    /\ field "__proto__" newParams = None
    /\ (String.eqb k "__proto__" = false ->
        field k newParams
        = option_map transformParam
            (last_field (if stripPrefixes then strip_prefix else id) k fields))
    /\ (String.eqb k "__proto__" = false -> stripPrefixes = false ->
        List.NoDup (map fst fields) ->
        field k newParams = option_map transformParam (field k fields)).
Proof.
  eexists. split; [reflexivity|]. simpl.
  assert (forall l acc,
            fold_left
              (fun newParams (kv : string * data) =>
                 assign (if stripPrefixes then strip_prefix (fst kv) else fst kv)
                   (transformParam (snd kv)) newParams) l acc
            = fold_left
                (fun newParams kv =>
                   assign ((if stripPrefixes then strip_prefix else id) (fst kv))
                     (transformParam (snd kv)) newParams) l acc) as Eq.
  { intros l. induction l as [|kv l IH]; intros acc; [reflexivity|].
    simpl. rewrite IH. destruct stripPrefixes; reflexivity. }
  rewrite Eq. split; [apply fold_assign_NoDup; constructor|].
  split.
  { apply (fold_in_order
             (fun kv => (if stripPrefixes then strip_prefix else id) (fst kv))
             (fun kv => transformParam (snd kv))).
    reflexivity. }
  assert (forall o : option data,
            match o with Some v => Some (transformParam v) | None => None end
            = option_map transformParam o) as Om by (intros []; reflexivity).
  split; [rewrite fold_assign; reflexivity|].
  split.
  - intros P. rewrite fold_assign, P. apply Om.
  - intros P -> N. rewrite fold_assign, P, last_field_id by exact N. apply Om.
Qed.

Lemma unbound_key (f : string -> string) k (l : list (string * data)) :
  forallb (fun kv => negb (String.eqb (f (fst kv)) k)) l = true ->
  field k (map (fun kv => (f (fst kv), snd kv)) l) = None.
Proof.
  induction l as [|[k0 v0] l IH]; [reflexivity|]. simpl. intros H.
  apply andb_true_iff in H. destruct H as [H1 H2].
  apply negb_true_iff in H1. rewrite H1. exact (IH H2).
Qed.

(** X3 (named parameters).
    Named parameters none of whose keys is [__proto__], or becomes it
    when its prefix is stripped: the result is an object without a
    repeated key, its properties in the order of enumeration, in which a
    key holds the (transformed) value of the last property of [params]
    that has this key once its prefix is stripped; so of two properties
    that differ in the prefix only the later one is bound. Without
    [stripPrefixes] every property keeps its key. *)
Theorem transformParams_named
    (fields : list (string * data)) (stripPrefixes : bool) (k : string) :
  forallb
    (fun kv =>
       negb (String.eqb
               ((if stripPrefixes then strip_prefix else id) (fst kv))
               "__proto__")) fields = true ->
  exists newParams,
    transformParams (DObject fields) stripPrefixes = DObject newParams
    /\ List.NoDup (map fst newParams)
    /\ enumeration_order newParams = true
    /\ field k newParams
       = option_map transformParam
           (last_field (if stripPrefixes then strip_prefix else id) k fields)
    /\ (stripPrefixes = false -> List.NoDup (map fst fields) ->
        field k newParams = option_map transformParam (field k fields)).
Proof.
  intros H.
  destruct (transformParams_bindings fields stripPrefixes k)
    as (newParams & E & N & O & P & L & U).
  exists newParams. split; [exact E|]. split; [exact N|]. split; [exact O|].
  destruct (String.eqb k "__proto__") eqn:K.
  - apply String.eqb_eq in K. subst k. rewrite P. split.
    + unfold last_field. rewrite unbound_key; [reflexivity|].
      rewrite forallb_forall in H. rewrite forallb_forall.
      intros kv Hkv. apply H, in_rev, Hkv.
    + intros -> _.
      pose proof (unbound_key id "__proto__" fields H) as F.
      replace (map (fun kv => (id (fst kv), snd kv)) fields) with fields in F.
      * rewrite F. reflexivity.
      * clear. induction fields as [|[k v] l IH]; [reflexivity|].
        simpl. change (id k) with k. f_equal. exact IH.
  - split; [exact (L eq_refl)|]. intros S D. exact (U eq_refl S D).
Qed.

(** Two spellings of one name; the later one is bound. *)
Lemma transformParams_named_witness :
  transformParams
    (DObject [(":id", DBigInt 7); ("name", DString "a"); ("$id", DNumber 2)])
    true
  = DObject [("id", DNumber 2); ("name", DString "a")]
  /\ exists newParams,
       transformParams
         (DObject [(":id", DBigInt 7); ("name", DString "a");
                   ("$id", DNumber 2)]) true
       = DObject newParams
       /\ List.NoDup (map fst newParams)
       /\ enumeration_order newParams = true
       /\ field "id" newParams
          = option_map transformParam
              (last_field strip_prefix "id"
                 [(":id", DBigInt 7); ("name", DString "a");
                  ("$id", DNumber 2)])
       /\ (true = false ->
           List.NoDup
             (map fst [(":id", DBigInt 7); ("name", DString "a");
                       ("$id", DNumber 2)]) ->
           field "id" newParams
           = option_map transformParam
               (field "id" [(":id", DBigInt 7); ("name", DString "a");
                            ("$id", DNumber 2)])).
Proof.
  split; [reflexivity|].
  apply (transformParams_named
           [(":id", DBigInt 7); ("name", DString "a"); ("$id", DNumber 2)]
           true "id").
  reflexivity.
Defined.

(** X4 (bigint parameters).
    No bigint reaches the driver as a parameter, and nothing else is
    changed: positional parameters keep their number and order, each one
    that is no bigint as it is and each bigint as a string that reads as
    the same integer; and whatever [params] is, as long as none of its
    keys is or becomes [__proto__], every value the result holds, as an
    element or under a key, is such a transform of a value of [params]
    and no bigint. *)
Theorem transformParams_leaves_no_bigint (params : data) (stripPrefixes : bool) :
  (forall items, params = DArray items ->
     exists items',
       transformParams params stripPrefixes = DArray items'
       /\ length items' = length items
       /\ forall i p, items !! i = Some p ->
            exists q, items' !! i = Some q
              /\ (is_bigint p = false -> q = p)
              /\ (forall z, p = DBigInt z ->
                    exists s, q = DString s
                      /\ option_map Z.of_int (NilZero.int_of_string s) = Some z))
  /\ (forallb
        (fun kv =>
           negb (String.eqb
                   ((if stripPrefixes then strip_prefix else id) (fst kv))
                   "__proto__")) (own_fields params) = true ->
      Forall
        (fun kv =>
           is_bigint (snd kv) = false
           /\ exists p, In p (map snd (own_fields params))
                /\ (is_bigint p = false -> snd kv = p)
                /\ (forall z, p = DBigInt z ->
                      exists s, snd kv = DString s
                        /\ option_map Z.of_int (NilZero.int_of_string s)
                           = Some z))
        (own_fields (transformParams params stripPrefixes))).
Proof.
  assert (forall v, is_bigint (transformParam v) = false) as T
    by (intros []; reflexivity).
  assert (forall p q, q = transformParam p ->
            (is_bigint p = false -> q = p)
            /\ (forall z, p = DBigInt z ->
                  exists s, q = DString s
                    /\ option_map Z.of_int (NilZero.int_of_string s) = Some z)) as Sp
    by (intros p q ->; apply transformParam_decimal).
  split.
  - intros items ->. exists (map transformParam items).
    split; [reflexivity|]. split; [apply length_map|].
    intros i p H. exists (transformParam p).
    split; [rewrite list_lookup_fmap, H; reflexivity|].
    apply Sp. reflexivity.
  - intros _.
    assert (forall (l : list (string * data)) x,
              In x l -> In (snd x) (map snd l)) as Sn
      by (intros l x H; apply in_map_iff; exists x; auto).
    assert (forall items n all,
              (forall p, In p items -> In p all) ->
              Forall
                (fun kv : string * data =>
                   is_bigint (snd kv) = false
                   /\ exists p, In p all
                        /\ (is_bigint p = false -> snd kv = p)
                        /\ (forall z, p = DBigInt z ->
                              exists s, snd kv = DString s
                                /\ option_map Z.of_int (NilZero.int_of_string s) = Some z))
                (indexed n (map transformParam items))) as A.
    { induction items as [|x items IH]; intros n all Sub; simpl;
        constructor.
      - split; [apply T|]. exists x. split; [apply Sub; left; reflexivity|].
        apply Sp. reflexivity.
      - apply IH. intros p Hp. apply Sub. right. exact Hp. }
    assert (forall n (items : list data),
              map snd (indexed n items) = items) as Ms.
    { intros n items. revert n. induction items as [|x items IH]; intros n;
        [reflexivity|]. simpl. rewrite IH. reflexivity. }
    assert (forall f (l : list (string * data)),
              Forall
                (fun kv : string * data =>
                   is_bigint (snd kv) = false
                   /\ exists p, In p (map snd l)
                        /\ (is_bigint p = false -> snd kv = p)
                        /\ (forall z, p = DBigInt z ->
                              exists s, snd kv = DString s
                                /\ option_map Z.of_int (NilZero.int_of_string s) = Some z))
                (fold_left
                   (fun newParams (kv : string * data) =>
                      assign (f kv) (transformParam (snd kv)) newParams) l []))
      as O.
    { intros f l.
      apply (fold_assign_entries
               (fun kv : string * data =>
                  is_bigint (snd kv) = false
                  /\ exists p, In p (map snd l)
                       /\ (is_bigint p = false -> snd kv = p)
                       /\ (forall z, p = DBigInt z ->
                             exists s, snd kv = DString s
                               /\ option_map Z.of_int (NilZero.int_of_string s) = Some z))
               f (fun kv => transformParam (snd kv))); [constructor|].
      apply List.Forall_forall. intros kv Hin _. cbn [snd].
      split; [apply T|]. exists (snd kv). split; [apply Sn, Hin|].
      apply Sp. reflexivity. }
    destruct params; simpl; try apply O; try constructor.
    rewrite Ms. apply A. auto.
Qed.

End UtilsFacts.

(** * Prepared statements *)

Module StatementFacts.

Import Utils Statement.

Section BaseStatementFacts.

Context {Engine : Type}.

Implicit Types (st : @statement Engine) (s : Engine).

Lemma transformPlucked_transformResult (row : data) :
  well_formed row = true -> field "__proto__" (own_fields row) = None ->
  transformPlucked (transformResult row) = transformResult (transformPlucked row).
Proof.
  destruct row as [| | | | | |f b|items|fields]; try reflexivity; intros W P.
  - destruct b as [|y b]; reflexivity.
  - destruct items as [|y items]; reflexivity.
  - cbn [well_formed] in W. apply andb_true_iff in W. destruct W as [O _].
    rewrite (UtilsFacts.transformResult_object fields O).
    cbn [own_fields] in P.
    assert (but_proto fields = fields) as ->.
    { apply UtilsFacts.but_proto_id. clear O.
      induction fields as [|[k v] fields IH]; [reflexivity|].
      simpl in *. destruct (String.eqb k "__proto__"); [discriminate|].
      exact (IH P). }
    destruct fields as [|[k v] fields]; reflexivity.
Qed.

(** X5 (pluck).
    Where no key of the parameters is or becomes [__proto__] and the row
    of the driver is a value of JavaScript, its properties in the order of
    enumeration, without an own property [__proto__] at any depth: in
    pluck mode [get] makes the same call on the driver and resolves with
    the first value of the row as the driver gave it, not passed through
    [transformResult]; that value, once transformed, is the first value
    of what [get] resolves with outside of pluck mode. A failure of the
    driver is the same failure in both modes. *)
Theorem plucked_value_is_not_normalised params st s :
  forallb
    (fun kv =>
       negb (String.eqb
               ((if stripPrefixes st then strip_prefix else id) (fst kv))
               "__proto__")) (own_fields params) = true ->
  (forall row,
     fst (raw_get (_statement st) (arguments params st) s) = Resolved row ->
     well_formed row = true /\ without_proto row = true) ->
  snd (get params (pluck true st) s) = snd (get params (pluck false st) s)
  /\ match fst (raw_get (_statement st) (arguments params st) s),
           fst (get params (pluck false st) s),
           fst (get params (pluck true st) s) with
     | Resolved (DNull | DUndefined), Resolved row, Resolved v =>
         row = DUndefined /\ v = DUndefined
     | Resolved result, Resolved row, Resolved v =>
         row = transformResult result
         /\ v = transformPlucked result
         /\ transformResult v = transformPlucked row
     | Rejected e0, Rejected e, Rejected e' => e = e0 /\ e' = e0
     | _, _, _ => False
     end.
Proof.
  unfold get, arguments. simpl.
  destruct (raw_get (_statement st) _ s) as [[result|e] s']; simpl;
    [|auto].
  intros _ W. destruct (W _ eq_refl) as [Wf Np].
  assert (field "__proto__" (own_fields result) = None) as Nf.
  { pose proof (UtilsFacts.field_but_proto "__proto__" (own_fields result))
      as F.
    rewrite (UtilsFacts.own_fields_without_proto result Np) in F. exact F. }
  pose proof (transformPlucked_transformResult result Wf Nf) as H.
  destruct result; simpl; repeat split; try reflexivity; symmetry; exact H.
Qed.

Lemma column_definitions_length types i (names : list string) :
  length (column_definitions types i names) = length names.
Proof.
  revert i. induction names as [|n names IH]; intros i; simpl; [reflexivity|].
  rewrite IH. reflexivity.
Qed.

Lemma column_definitions_lookup types i (names : list string) j name :
  names !! j = Some name ->
  column_definitions types i names !! j
  = Some (column_definition types (i + j) name).
Proof.
  revert i j. induction names as [|n names IH]; intros i [|j] H;
    try discriminate; simpl in *.
  - injection H as ->. rewrite Nat.add_0_r. reflexivity.
  - rewrite (IH _ _ H). do 2 f_equal. lia.
Qed.

(** X6 (columns).
    [columns()] on a driver statement that has no [columns] method but
    has [columnNames] (bun:sqlite) always resolves: with one definition for
    each column name, in order, whose [column], [table] and [database] are
    [null] and whose [type] is a string or [null]. The statement is run
    once, without arguments, when its declared types are not there yet,
    and whether that run fails does not matter. *)
Theorem columns_from_column_names st s (names : list string) :
  raw_columns (_statement st) = None ->
  raw_columnNames (_statement st) = Some names ->
  exists definitions,
    columns st s
    = (Resolved (DArray definitions),
       match raw_declaredTypes (_statement st) s with
       | Some _ => s
       | None => snd (raw_get (_statement st) [] s)
       end)
    /\ length definitions = length names
    /\ forall i name, names !! i = Some name ->
         exists type,
           definitions !! i
           = Some (DObject [("name", DString name); ("column", DNull);
                            ("table", DNull); ("database", DNull);
                            ("type", type)])
           /\ (type = DNull \/ exists t, type = DString t).
Proof.
  intros C N. unfold columns. rewrite C, N. eexists. split; [reflexivity|].
  split; [apply column_definitions_length|].
  intros i name H. rewrite (column_definitions_lookup _ _ _ _ _ H).
  eexists. split; [reflexivity|]. simpl.
  destruct (raw_declaredTypes _ _) as [types|]; [|left; reflexivity].
  destruct (nth_error types i) as [[t|]|]; eauto.
Qed.

End BaseStatementFacts.

(** On the sample statement: the declared types are missing at first, the
    run without arguments fails, and [columns()] resolves all the same. *)
Lemma columns_from_column_names_witness :
  fst (raw_get bun_like [] []) = Rejected (VError "expected 1 argument")
  /\ exists definitions,
       columns (create bun_like false) []
       = (Resolved (DArray definitions), [[]])
       /\ length definitions = 2%nat
       /\ forall i name, ["data"; "name"] !! i = Some name ->
            exists type,
              definitions !! i
              = Some (DObject [("name", DString name); ("column", DNull);
                               ("table", DNull); ("database", DNull);
                               ("type", type)])
              /\ (type = DNull \/ exists t, type = DString t).
Proof.
  split; [reflexivity|].
  exact (columns_from_column_names (create bun_like false) []
           ["data"; "name"] eq_refl eq_refl).
Defined.

(** On the sample statement a blob read in pluck mode stays the
    [Uint8Array] of the driver, while the same blob in a row becomes a
    [Buffer]. *)
Lemma plucked_value_is_not_normalised_witness :
  well_formed sample_row = true
  /\ fst (get (DArray [DNumber 1]) (pluck true (create bun_like false)) [])
     = Resolved (DBytes false [Byte.x6f; Byte.x6e; Byte.x65])
  /\ fst (get (DArray [DNumber 1]) (pluck false (create bun_like false)) [])
     = Resolved (DObject [("data", DBytes true [Byte.x6f; Byte.x6e; Byte.x65]);
                          ("name", DString "one")])
  /\ snd (get (DArray [DNumber 1]) (pluck true (create bun_like false)) [])
     = snd (get (DArray [DNumber 1]) (pluck false (create bun_like false)) []).
Proof.
  split; [reflexivity|]. split; [reflexivity|]. split; [reflexivity|].
  refine (proj1 (plucked_value_is_not_normalised (DArray [DNumber 1])
                   (create bun_like false) [] eq_refl _)).
  intros row [= <-]. split; reflexivity.
Defined.

End StatementFacts.

(** * Choosing and loading a driver *)

Module LoaderFacts.

Import Loader.

Section HostFacts.

Context {W : Type}.
Variable host : action -> W -> settled (list Byte.byte) * W.
Variable now : W -> Z.
Variable in_tmpdir : string -> string.
Variable reference_error : value.
Variable type_error : value.

Abbreviation IO := (@Loader.IO W).

(** ** What a computation adds to the journal *)

Lemma emits_weaken {A} (P Q : list action -> Prop) (m : IO A) :
  (forall ext, P ext -> Q ext) -> emits P m -> emits Q m.
Proof.
  intros H E w. destruct (E w) as (ext & J & Pe). exists ext. auto.
Qed.

Lemma emits_ret {A} (P : list action -> Prop) (a : A) :
  P [] -> emits P (@ret W A a).
Proof. intros H w. exists []. rewrite app_nil_r. auto. Qed.

Lemma emits_throw {A} (P : list action -> Prop) e :
  P [] -> emits P (@throw W A e).
Proof. intros H w. exists []. rewrite app_nil_r. auto. Qed.

Lemma emits_date_now (P : list action -> Prop) :
  P [] -> emits P (date_now now).
Proof. intros H w. exists []. rewrite app_nil_r. auto. Qed.

Lemma emits_perform (P : list action -> Prop) a :
  P [a] -> emits P (perform host a).
Proof.
  intros H w. exists [a]. unfold perform.
  destruct (host a (fst w)) as [r w']. auto.
Qed.

Lemma emits_bind {A B} (P : list action -> Prop) (m : IO A) (k : A -> IO B) :
  (forall a b, P a -> P b -> P (a ++ b)) ->
  emits P m -> (forall a, emits P (k a)) -> emits P (bind m k).
Proof.
  intros App Em Ek w. unfold bind. destruct (Em w) as (e1 & J1 & P1).
  destruct (m w) as [[a|e] w1]; simpl in J1.
  - destruct (Ek a w1) as (e2 & J2 & P2). exists (e1 ++ e2).
    rewrite J2, J1, app_assoc. auto.
  - exists e1. simpl. split; [exact J1 | exact P1].
Qed.

Lemma emits_try_catch {A} (P : list action -> Prop) (m h : IO A) :
  (forall a b, P a -> P b -> P (a ++ b)) ->
  emits P m -> emits P h -> emits P (try_catch m h).
Proof.
  intros App Em Eh w. unfold try_catch. destruct (Em w) as (e1 & J1 & P1).
  destruct (m w) as [[a|e] w1]; simpl in J1.
  - exists e1. simpl. auto.
  - destruct (Eh w1) as (e2 & J2 & P2). exists (e1 ++ e2).
    rewrite J2, J1, app_assoc. auto.
Qed.

Lemma emits_finally {A} (P Q : list action -> Prop) (m : IO A) t :
  (forall a, P a -> Q (a ++ [Unlink t])) ->
  emits P m -> emits Q (finally_unlink host m t).
Proof.
  intros H Em w. unfold finally_unlink. destruct (Em w) as (e1 & J1 & P1).
  destruct (m w) as [r w1]; simpl in J1. unfold perform.
  destruct (host (Unlink t) (fst w1)) as [r' w2]. simpl.
  exists (e1 ++ [Unlink t]). rewrite J1, app_assoc. auto.
Qed.

(** ** Temporary files *)

Lemma cleans_up_app a b : cleans_up a -> cleans_up b -> cleans_up (a ++ b).
Proof.
  intros Ha Hb. induction a as [|x a IH]; [exact Hb|].
  destruct x; simpl in *; try (apply IH; exact Ha).
  destruct Ha as [Hin Ha]. split; [apply in_or_app; left; exact Hin|].
  apply IH, Ha.
Qed.

Lemma writes_only_cleans t j : writes_only t j -> cleans_up (j ++ [Unlink t]).
Proof.
  intros H. induction H as [|x j Hx _ IH]; [exact I|].
  destruct x; simpl in *; try exact IH. subst path.
  split; [apply in_or_app; right; left; reflexivity | exact IH].
Qed.

Lemma writes_only_app t a b :
  writes_only t a -> writes_only t b -> writes_only t (a ++ b).
Proof. intros Ha Hb. apply Forall_app. auto. Qed.

Lemma openBunBuffer_cleans bytes o : emits cleans_up (openBunBuffer host now in_tmpdir bytes o).
Proof.
  unfold openBunBuffer. apply emits_bind; [apply cleans_up_app| |intros t].
  - apply emits_date_now. exact I.
  - eapply emits_finally; [apply writes_only_cleans|].
    apply emits_bind; [apply writes_only_app| |intros ?].
    + apply emits_perform. repeat constructor.
    + apply emits_bind; [apply writes_only_app| |intros ?].
      * apply emits_perform. repeat constructor.
      * apply emits_ret. constructor.
Qed.

Lemma loadBunSqlite_cleans filename o :
  emits cleans_up (loadBunSqlite host now in_tmpdir filename o).
Proof.
  unfold loadBunSqlite.
  apply emits_bind; [apply cleans_up_app|apply emits_perform; exact I|intros _].
  destruct filename as [name|bytes]; [|apply openBunBuffer_cleans].
  destruct (is_memory (File name) && is_true (readOnly o)).
  - do 4 (apply emits_bind;
          [apply cleans_up_app|apply emits_perform; exact I|intros ?]).
    apply openBunBuffer_cleans.
  - apply emits_bind;
      [apply cleans_up_app|apply emits_perform; exact I|intros ?].
    apply emits_bind; [apply cleans_up_app| |intros ?].
    + destruct (default_true (enableForeignKeyConstraints o)).
      * apply emits_bind;
          [apply cleans_up_app|apply emits_perform; exact I|intros ?].
        apply emits_ret. exact I.
      * apply emits_ret. exact I.
    + apply emits_ret. exact I.
Qed.

Lemma loadNodeSqlite_cleans filename o :
  emits cleans_up (loadNodeSqlite host now in_tmpdir filename o).
Proof.
  unfold loadNodeSqlite.
  apply emits_bind; [apply cleans_up_app|apply emits_perform; exact I|intros _].
  destruct filename as [name|bytes].
  - apply emits_bind;
      [apply cleans_up_app|apply emits_perform; exact I|intros ?].
    apply emits_ret. exact I.
  - apply emits_bind; [apply cleans_up_app| |intros t].
    + apply emits_date_now. exact I.
    + eapply emits_finally; [apply writes_only_cleans|].
      apply emits_bind; [apply writes_only_app| |intros ?].
      * apply emits_perform. repeat constructor.
      * apply emits_bind; [apply writes_only_app| |intros ?].
        -- apply emits_perform. repeat constructor.
        -- apply emits_ret. constructor.
Qed.

Lemma openBetterSqlite3_cleans filename o :
  emits cleans_up (openBetterSqlite3 host filename o).
Proof.
  unfold openBetterSqlite3.
  apply emits_bind; [apply cleans_up_app|apply emits_perform; exact I|intros ?].
  apply emits_bind; [apply cleans_up_app| |intros ?].
  - destruct (default_true (enableForeignKeyConstraints o)).
    + apply emits_bind;
        [apply cleans_up_app|apply emits_perform; exact I|intros ?].
      apply emits_ret. exact I.
    + apply emits_ret. exact I.
  - apply emits_ret. exact I.
Qed.

Lemma loadBetterSqlite3_cleans filename o :
  emits cleans_up (loadBetterSqlite3 host filename o).
Proof.
  unfold loadBetterSqlite3.
  apply emits_bind; [apply cleans_up_app|apply emits_perform; exact I|intros _].
  destruct (is_memory filename && is_true (readOnly o)).
  - do 4 (apply emits_bind;
          [apply cleans_up_app|apply emits_perform; exact I|intros ?]).
    apply openBetterSqlite3_cleans.
  - apply openBetterSqlite3_cleans.
Qed.

(** X7 (temporary files).
    Whatever the host does and however [createDb] ends, it leaves no
    temporary file behind that it has not tried to remove: each file it
    has asked to write, it has asked to unlink afterwards. *)
Theorem createDb_unlinks_what_it_writes g filename o (w : W * list action) :
  exists ext,
    snd (snd (createDb host now in_tmpdir reference_error type_error g filename o w)) = snd w ++ ext
    /\ cleans_up ext.
Proof.
  revert w. change (emits cleans_up (createDb host now in_tmpdir reference_error type_error g filename o)).
  unfold createDb.
  assert (forall e, emits cleans_up (@throw W adapter e)) as T
    by (intros e; apply emits_throw; exact I).
  destruct (chosen reference_error type_error g o) as [[[|c rest]|]|thrown];
    [| | |apply T].
  2:{ destruct (named (String c rest)) as [[]|]; simpl;
        auto using loadNodeSqlite_cleans, loadBunSqlite_cleans,
                   loadBetterSqlite3_cleans. }
  all: destruct (getRuntime g); auto;
    repeat (apply emits_try_catch; [apply cleans_up_app| |]);
    auto using loadNodeSqlite_cleans, loadBunSqlite_cleans,
               loadBetterSqlite3_cleans.
Qed.

(** ** The modules that are imported *)

Lemma imports_app a b : imports (a ++ b) = imports a ++ imports b.
Proof. apply omap_app. Qed.

Lemma within_app (Q : string -> Prop) a b :
  Forall Q (imports a) -> Forall Q (imports b) -> Forall Q (imports (a ++ b)).
Proof. intros Ha Hb. rewrite imports_app. apply Forall_app. auto. Qed.

(** Stepping through a computation for the modules it imports. *)
Ltac imported :=
  repeat first
    [ apply emits_bind; [apply within_app| |intros ?]
    | apply emits_perform; cbn; repeat constructor; simpl; auto
    | apply emits_ret; constructor
    | apply emits_throw; constructor
    | apply emits_date_now; constructor
    | match goal with
      | |- emits ?Q (finally_unlink _ _ _) =>
          apply (emits_finally Q Q);
          [intros ? ?; apply within_app; [assumption|constructor]|]
      end ].

Lemma load_imports d filename o :
  emits (fun ext => Forall (fun m => In m [module_name d]) (imports ext))
    (load host now in_tmpdir d filename o).
Proof.
  destruct d; simpl.
  - unfold loadNodeSqlite. destruct filename; imported.
  - unfold loadBunSqlite, openBunBuffer. destruct filename;
      [destruct (is_memory _ && is_true _);
       [|destruct (default_true (enableForeignKeyConstraints o))]|];
      imported.
  - unfold loadBetterSqlite3, openBetterSqlite3.
    destruct (is_memory _ && is_true _);
      destruct (default_true (enableForeignKeyConstraints o)); imported.
Qed.

Lemma within_weaken (l l' : list string) ext :
  (forall m, In m l -> In m l') ->
  Forall (fun m => In m l) (imports ext) ->
  Forall (fun m => In m l') (imports ext).
Proof. intros H F. eapply Forall_impl; [exact F | exact H]. Qed.

(** X8 (imports).
    [createDb] imports no module but the one that is named (by
    [options.driver], or else by the environment variable; the empty
    string names none) or, when none is named, the one of the runtime
    and better-sqlite3; for a name or a runtime it does not know, and
    when the look-up of the environment variable throws, it imports
    nothing. *)
Theorem createDb_imports_its_candidates g filename o (w : W * list action) :
  exists ext,
    snd (snd (createDb host now in_tmpdir reference_error type_error g filename o w)) = snd w ++ ext
    /\ Forall
         (fun m =>
            In m match chosen reference_error type_error g o with
                 | Rejected _ => []
                 | Resolved (Some (String c rest as name)) =>
                     match named name with
                     | Some d => [module_name d]
                     | None => []
                     end
                 | Resolved _ =>
                     match getRuntime g with
                     | bun => ["bun:sqlite"; "better-sqlite3"]
                     | node => ["node:sqlite"; "better-sqlite3"]
                     | unknown => []
                     end
                 end)
         (imports ext).
Proof.
  revert w. unfold createDb.
  assert (forall l e,
            emits (fun ext => Forall (fun m => In m l) (imports ext))
              (@throw W adapter e)) as T
    by (intros l e; apply emits_throw; constructor).
  assert (forall d l, In (module_name d) l ->
            emits (fun ext => Forall (fun m => In m l) (imports ext))
              (load host now in_tmpdir d filename o)) as L.
  { intros d l H. eapply emits_weaken; [|apply load_imports].
    intros ext. apply within_weaken. intros m [<-|[]]. exact H. }
  assert (forall (l : list string) native,
            In (module_name native) l -> In "better-sqlite3" l ->
            forall e,
            emits (fun ext => Forall (fun m => In m l) (imports ext))
              (try_catch (load host now in_tmpdir native filename o)
                 (try_catch (load host now in_tmpdir BetterSqlite3 filename o)
                    (throw e)))) as Auto.
  { intros l native H1 H2 e.
    apply emits_try_catch; [apply within_app|apply L, H1|].
    apply emits_try_catch; [apply within_app|apply (L BetterSqlite3), H2|apply T]. }
  destruct (chosen reference_error type_error g o) as [[[|c rest]|]|thrown];
    [| | |apply T].
  2:{ destruct (named (String c rest)) as [d|]; [|apply T].
      apply L. left. reflexivity. }
  all: destruct (getRuntime g); [| |apply T].
  all: first [ apply (Auto _ BunSqlite) | apply (Auto _ NodeSqlite) ];
    simpl; auto.
Qed.

(** ** What [createDb] fails with *)

(** X9 (failure of auto-detection).
    When no driver is named, [createDb] fails with nothing but the
    message it has for the runtime: what the runtime's driver and
    better-sqlite3 failed with, be it a missing module or a file that
    cannot be opened, is dropped. That is so when the look-up of the
    environment variable gives no name; when it throws, as it does where
    no global [process] is declared and [options.driver] is not given,
    [createDb] fails with what was thrown, whatever the runtime, and has
    done nothing. *)
Theorem auto_detection_drops_the_cause
    g filename o (w : W * list action) (e : value) :
  fst (createDb host now in_tmpdir reference_error type_error g filename o w)
  = Rejected e ->
  match chosen reference_error type_error g o with
  | Rejected thrown =>
      e = thrown
      /\ snd (createDb host now in_tmpdir reference_error type_error
                g filename o w) = w
  | Resolved (Some (String c rest)) => True
  | Resolved _ =>
      e = VError
            match getRuntime g with
            | bun => "No SQLite driver found. Please install `better-sqlite3` as a dependency."
            | node => "No SQLite driver found. Please install `better-sqlite3` or use a Node.js version with built-in `node:sqlite`."
            | unknown => "Unsupported runtime. Could not determine how to load a SQLite driver."
            end
  end.
Proof.
  unfold createDb.
  assert (forall (native : IO adapter) msg,
            fst (try_catch native
                   (try_catch (loadBetterSqlite3 host filename o)
                      (throw (VError msg))) w) = Rejected e ->
            e = VError msg) as Auto.
  { intros native msg. unfold try_catch, throw.
    destruct (native w) as [[a|e1] w1]; [discriminate|].
    destruct (loadBetterSqlite3 host filename o w1) as [[a|e2] w2];
      [discriminate|].
    simpl. congruence. }
  destruct (chosen reference_error type_error g o) as [[[|c rest]|]|thrown];
    [| exact (fun _ => I) | |].
  1, 2: destruct (getRuntime g); intros H;
    first [ apply Auto in H; exact H | injection H as <-; reflexivity ].
  intros [= <-]. split; reflexivity.
Qed.

(** ** Foreign keys *)

(** One action on the host, as a computation sees it. *)
Ltac ask :=
  match goal with
  | |- context [host ?a ?w] =>
      destruct (host a w) as [[?|?] ?]; simpl; try discriminate
  end.

(** X10 (foreign keys).
    When a loader succeeds, foreign keys have been switched on by it in
    these cases and in no other: by better-sqlite3's [pragma] unless
    [enableForeignKeyConstraints] is [false]; by the bun adapter's [exec]
    unless the option is [false], and only for a database opened from a
    file name that is not the read-only in-memory one (never for one
    opened from a buffer); and never by a statement for node:sqlite, whose
    constructor is handed the option as it is given. *)
Theorem foreign_keys_by_loader d filename o (w w' : W * list action) a :
  load host now in_tmpdir d filename o w = (Resolved a, w') ->
  exists ext,
    snd w' = snd w ++ ext
    /\ match d with
       | BetterSqlite3 =>
           (In (Pragma "foreign_keys = ON") ext
            <-> enableForeignKeyConstraints o <> Some false)
           /\ ~ In (Exec "PRAGMA foreign_keys = ON") ext
       | BunSqlite =>
           (In (Exec "PRAGMA foreign_keys = ON") ext
            <-> enableForeignKeyConstraints o <> Some false
                /\ exists name, filename = File name
                     /\ is_memory filename && is_true (readOnly o) = false)
           /\ ~ In (Pragma "foreign_keys = ON") ext
       | NodeSqlite =>
           (exists from, In (Open NodeSqlite from (Some (node_options o))) ext)
           /\ ~ In (Pragma "foreign_keys = ON") ext
           /\ ~ In (Exec "PRAGMA foreign_keys = ON") ext
       end.
Proof.
  destruct w as [w j].
  assert (forall (x : action) l, ~ In x l -> In x l -> False) as absurd
    by (intros x l N H; exact (N H)).
  destruct d; simpl.
  - unfold loadNodeSqlite, finally_unlink, bind, perform, date_now, ret.
    simpl. destruct filename; simpl; repeat ask;
      intros [= <- <-]; simpl; eexists;
      (split; [rewrite <- ?app_assoc; reflexivity|]); simpl;
      (split; [eexists; eauto 6|]); split; intros H;
      repeat (destruct H as [H|H]; [discriminate|]); exact H.
  - unfold loadBunSqlite, openBunBuffer, finally_unlink, bind, perform,
      date_now, ret. simpl.
    destruct filename as [name|bytes]; simpl.
    + destruct (String.eqb name ":memory:" && is_true (readOnly o)) eqn:M;
        simpl.
      * repeat ask; intros [= <- <-]; simpl; eexists;
          (split; [rewrite <- ?app_assoc; reflexivity|]); simpl;
          (split; [split|]).
        all: try solve [intros H;
                         repeat (destruct H as [H|H]; [discriminate|]);
                         destruct H].
        all: intros (_ & name' & _ & X); congruence.
      * ask. ask.
        destruct (enableForeignKeyConstraints o) as [[|]|] eqn:F; simpl;
          try ask; intros [= <- <-]; simpl; eexists;
          (split; [rewrite <- ?app_assoc; reflexivity|]); simpl;
          (split; [split|]).
        all: try solve [intros H;
                         repeat (destruct H as [H|H]; [discriminate|]);
                         destruct H].
        all: try solve [intros _; split;
                         [discriminate | exists name; split; reflexivity]].
        all: try solve [intros _; auto 6].
        intros (X & _). destruct (X eq_refl).
    + repeat ask; intros [= <- <-]; simpl; eexists;
        (split; [rewrite <- ?app_assoc; reflexivity|]); simpl;
        (split; [split|]).
      all: try solve [intros H;
                       repeat (destruct H as [H|H]; [discriminate|]);
                       destruct H].
      all: intros (_ & name' & X & _); discriminate.
  - unfold loadBetterSqlite3, openBetterSqlite3, bind, perform, ret. simpl.
    ask. destruct (is_memory filename && is_true (readOnly o)); simpl.
    + do 5 ask.
      destruct (enableForeignKeyConstraints o) as [[|]|] eqn:F; simpl;
        try ask; intros [= <- <-]; simpl; eexists;
        (split; [rewrite <- ?app_assoc; reflexivity|]); simpl;
        (split; [split|]).
      all: try solve [intros H;
                       repeat (destruct H as [H|H]; [discriminate|]);
                       destruct H].
      all: try solve [intros _; discriminate].
      all: try solve [intros _; auto 10].
      intros X. destruct (X eq_refl).
    + ask.
      destruct (enableForeignKeyConstraints o) as [[|]|] eqn:F; simpl;
        try ask; intros [= <- <-]; simpl; eexists;
        (split; [rewrite <- ?app_assoc; reflexivity|]); simpl;
        (split; [split|]).
      all: try solve [intros H;
                       repeat (destruct H as [H|H]; [discriminate|]);
                       destruct H].
      all: try solve [intros _; discriminate].
      all: try solve [intros _; auto 10].
      intros X. destruct (X eq_refl).
Qed.

End HostFacts.





(** On Node.js, with no driver named and a file that cannot be opened:
    both drivers are found and both fail to open the file, and the
    caller is told that no driver was found. *)
Lemma auto_detection_drops_the_cause_witness :
  fst (unopenable_host (Open NodeSqlite (File "app.db") None) tt)
  = Rejected (VError "unable to open database file")
  /\ createDb unopenable_host epoch in_tmp
       (VError "process is not defined") (VError "env is undefined")
       plain_node (File "app.db") no_options (tt, [])
     = (Rejected
          (VError "No SQLite driver found. Please install `better-sqlite3` or use a Node.js version with built-in `node:sqlite`."),
        (tt,
         [Import "node:sqlite";
          Open NodeSqlite (File "app.db") (Some (node_options no_options));
          Import "better-sqlite3";
          Open BetterSqlite3 (File "app.db")
            (Some (better_options no_options))]))
  /\ VError "No SQLite driver found. Please install `better-sqlite3` or use a Node.js version with built-in `node:sqlite`."
     = VError
         match getRuntime plain_node with
         | bun => "No SQLite driver found. Please install `better-sqlite3` as a dependency."
         | node => "No SQLite driver found. Please install `better-sqlite3` or use a Node.js version with built-in `node:sqlite`."
         | unknown => "Unsupported runtime. Could not determine how to load a SQLite driver."
         end.
Proof.
  split; [reflexivity|]. split; [reflexivity|].
  apply (auto_detection_drops_the_cause unopenable_host epoch in_tmp
           (VError "process is not defined") (VError "env is undefined")
           plain_node (File "app.db") no_options (tt, [])).
  reflexivity.
Defined.

(** Where no [process] is declared and no driver is named, [createDb]
    fails with the engine's error for the identifier and not with its
    message for an unknown runtime. *)
Example createDb_without_process :
  getRuntime browser = unknown
  /\ createDb willing_host epoch in_tmp
       (VError "process is not defined") (VError "env is undefined")
       browser (File "app.db") no_options (tt, [])
     = (Rejected (VError "process is not defined"), (tt, [])).
Proof. split; reflexivity. Qed.

(** The bun loader given a buffer, on a host where everything succeeds:
    the database is opened from a temporary file and no statement
    switches foreign keys on, although the option asks for them by
    default. *)
Lemma foreign_keys_by_loader_witness :
  load willing_host epoch in_tmp BunSqlite (Buffer []) no_options (tt, [])
  = (Resolved BunSqliteDatabase,
     (tt,
      [Import "bun:sqlite";
       WriteFile "/tmp/isomorphic-sqlite-deserialize-bun-0.db" [];
       Open BunSqlite (File "/tmp/isomorphic-sqlite-deserialize-bun-0.db")
         (Some (bun_options no_options));
       Unlink "/tmp/isomorphic-sqlite-deserialize-bun-0.db"]))
  /\ exists ext,
       [Import "bun:sqlite";
        WriteFile "/tmp/isomorphic-sqlite-deserialize-bun-0.db" [];
        Open BunSqlite (File "/tmp/isomorphic-sqlite-deserialize-bun-0.db")
          (Some (bun_options no_options));
        Unlink "/tmp/isomorphic-sqlite-deserialize-bun-0.db"]
       = [] ++ ext
       /\ (In (Exec "PRAGMA foreign_keys = ON") ext
           <-> enableForeignKeyConstraints no_options <> Some false
               /\ exists name,
                    Buffer [] = File name
                    /\ is_memory (Buffer []) && is_true (readOnly no_options)
                       = false)
          /\ ~ In (Pragma "foreign_keys = ON") ext.
Proof.
  split; [reflexivity|].
  apply (foreign_keys_by_loader willing_host epoch in_tmp BunSqlite
           (Buffer []) no_options (tt, [])
           (tt,
            [Import "bun:sqlite";
             WriteFile "/tmp/isomorphic-sqlite-deserialize-bun-0.db" [];
             Open BunSqlite
               (File "/tmp/isomorphic-sqlite-deserialize-bun-0.db")
               (Some (bun_options no_options));
             Unlink "/tmp/isomorphic-sqlite-deserialize-bun-0.db"])
           BunSqliteDatabase).
  reflexivity.
Defined.

End LoaderFacts.
